(** * Shadow tree differentiator: a shallow embedding

    This development embeds [ReactCommon/react/renderer/mounting/Differentiator.cpp]
    and [ReactCommon/fabric/mounting/ShadowViewMutation.cpp] and settles the
    properties the specification states about them.

    Conventions of the embedding.
    - A C++ [int] is a [Z]; signed overflow is undefined behaviour and no run
      considered here comes near it.  Positions in vectors and loop cursors
      that the code bounds by a container size are [nat].
    - A coordinate (the [Float] of the geometry types) is a binary64
      floating-point number: an addition rounds, and [==] is the comparison
      of IEEE 754, under which a NaN is not equal to itself.
    - A reference or pointer into an immutable tree is the value it points to.
    - A failed [assert], a read outside a container and a loop that is cut
      short by its fuel are the three ways a run can fault; a faulting run
      returns [Err]. *)

From Stdlib Require Import PrimFloat ZArith List Bool Lia String Sorted.
From stdpp Require Import base option list gmap sorting.

Local Open Scope Z_scope.

(** ** Results of fallible code *)

Inductive Fault : Type :=
| OutOfFuel
| OutOfBounds
| AssertionFailed.

Inductive result (A : Type) : Type :=
| Ok (a : A)
| Err (f : Fault).

Arguments Ok {A} a.
Arguments Err {A} f.

Definition rbind {A B : Type} (k : A -> result B) (r : result A) : result B :=
  match r with
  | Ok a => k a
  | Err f => Err f
  end.

#[global] Instance result_ret : MRet result := fun A a => Ok a.
#[global] Instance result_bind : MBind result := fun A B k r => rbind k r.

(** The usual arithmetic conversion of an [int] that meets a [size_t] in a
    comparison (64-bit [size_t]). *)
Definition size_t_of_int (n : Z) : Z :=
  if n <? 0 then n + 2 ^ 64 else n.

(** ** TinyMap *)

Module TinyMap.
Section WithValue.
Context {ValueT : Type}.

Definition Pair : Type := Z * ValueT.

Record t : Type := mk {
  vector_ : list Pair;
  numErased_ : Z;
  erasedAtFront_ : Z
}.

(** [Iterator] is [Pair *]: [None] is [nullptr], [Some i] is
    [&vector_.front() + i]. *)
Definition Iterator : Type := option Z.

Definition empty : t :=
  {| vector_ := []; numErased_ := 0; erasedAtFront_ := 0 |}.

Definition size (m : t) : Z := Z.of_nat (length (vector_ m)).

Definition vector_empty (m : t) : bool :=
  match vector_ m with [] => true | _ => false end.

Definition isErased (p : Pair) : bool := fst p =? 0.

Definition ptr_add (it : Iterator) (n : Z) : Iterator :=
  match it with
  | Some i => Some (i + n)
  | None => None
  end.

Definition ptr_eqb (a b : Iterator) : bool :=
  match a, b with
  | Some i, Some j => i =? j
  | None, None => true
  | _, _ => false
  end.

(** The element an iterator points to, when it points into the vector. *)
Definition deref (it : Iterator) (m : t) : option Pair :=
  match it with
  | Some i => if i <? 0 then None else vector_ m !! Z.to_nat i
  | None => None
  end.

Definition begin_ (m : t) : Iterator :=
  if vector_empty m || (size m =? size_t_of_int (numErased_ m))
  then None
  else Some 0.

Definition end_ (m : t) : Iterator :=
  if vector_empty m || (size_t_of_int (numErased_ m) =? size m)
  then None
  else Some (size m).

(** The test that decides whether [cleanVector] touches the vector. *)
Definition cleanVector_skips (forceClean : bool) (m : t) : bool :=
  ((size_t_of_int (numErased_ m) <? size m / 2) && negb forceClean)
  || vector_empty m
  || (numErased_ m =? 0)
  || (numErased_ m =? erasedAtFront_ m).

Definition cleanVector (forceClean : bool) (m : t) : t :=
  if cleanVector_skips forceClean m then m
  else
    {| vector_ :=
         if size_t_of_int (numErased_ m) =? size m then []
         else List.filter (fun item => negb (isErased item)) (vector_ m);
       numErased_ := 0;
       erasedAtFront_ := 0 |}.

Definition begin (m : t) : Iterator * t :=
  let m := cleanVector (negb (erasedAtFront_ m =? numErased_ m)) m in
  match begin_ m with
  | Some i => (Some (i + erasedAtFront_ m), m)
  | None => (None, m)
  end.

(** The scan of [find]: [rest] is the part of the vector from position
    [pos] on. *)
Fixpoint scan (key : Z) (rest : list Pair) (pos : Z) : option Z :=
  match rest with
  | [] => None
  | p :: rest' => if fst p =? key then Some pos else scan key rest' (pos + 1)
  end.

Definition find (key : Z) (m : t) : result (Iterator * t) :=
  let m := cleanVector false m in
  if key =? 0 then Err AssertionFailed
  else
    match begin_ m with
    | None => Ok (end_ m, m)
    | Some b =>
        let start := b + erasedAtFront_ m in
        match scan key (drop (Z.to_nat start) (vector_ m)) start with
        | Some i => Ok (Some i, m)
        | None => Ok (end_ m, m)
        end
    end.

Definition insert (pair : Pair) (m : t) : result t :=
  if fst pair =? 0 then Err AssertionFailed
  else Ok {| vector_ := vector_ m ++ [pair];
             numErased_ := numErased_ m;
             erasedAtFront_ := erasedAtFront_ m |}.

Definition erase (iterator : Iterator) (m : t) : result t :=
  match deref iterator m, iterator with
  | Some (_, v), Some i =>
      let m1 := {| vector_ := <[Z.to_nat i := (0, v)]> (vector_ m);
                   numErased_ := numErased_ m;
                   erasedAtFront_ := erasedAtFront_ m |} in
      let front :=
        if ptr_eqb iterator (ptr_add (begin_ m1) (erasedAtFront_ m1))
        then erasedAtFront_ m1 + 1
        else erasedAtFront_ m1 in
      Ok {| vector_ := vector_ m1;
            numErased_ := numErased_ m1 + 1;
            erasedAtFront_ := front |}
  | _, _ => Err OutOfBounds
  end.

(** An iterator is live when it points at an entry whose key is not the
    erased sentinel. *)
Definition live (it : Iterator) (m : t) : Prop :=
  exists p, deref it m = Some p /\ fst p <> 0.

Definition count_erased (m : t) : Z :=
  Z.of_nat (length (List.filter isErased (vector_ m))).

Definition invariant (m : t) : Prop :=
  0 <= erasedAtFront_ m /\
  erasedAtFront_ m <= numErased_ m /\
  numErased_ m <= size m /\
  count_erased m = numErased_ m /\
  Forall (fun p => fst p = 0) (take (Z.to_nat (erasedAtFront_ m)) (vector_ m)).

(** The states a sequence of public operations can reach from the empty
    map, with [insert] given non-zero keys only and [erase] given live
    iterators only. *)
Inductive reachable : t -> Prop :=
| reach_empty : reachable empty
| reach_insert m m' pair :
    reachable m -> fst pair <> 0 -> insert pair m = Ok m' -> reachable m'
| reach_find m m' key it :
    reachable m -> find key m = Ok (it, m') -> reachable m'
| reach_begin m :
    reachable m -> reachable (snd (begin m))
| reach_erase m m' it :
    reachable m -> live it m -> erase it m = Ok m' -> reachable m'.

(** The condition under which a cleaning point compacts: there are erased
    entries, they are not all at the front, and they are at least half of
    the vector (the half rounded down) or the caller forces the clean. *)
Definition compacts (forceClean : bool) (m : t) : bool :=
  negb (vector_empty m)
  && negb (numErased_ m =? 0)
  && negb (numErased_ m =? erasedAtFront_ m)
  && ((size m / 2 <=? numErased_ m) || forceClean).

(** The compaction itself. *)
Definition compacted (m : t) : t :=
  {| vector_ := List.filter (fun item => negb (isErased item)) (vector_ m);
     numErased_ := 0;
     erasedAtFront_ := 0 |}.

End WithValue.
Arguments t ValueT : clear implicits.
Arguments Pair ValueT : clear implicits.
End TinyMap.

(** ** Data model *)

Definition Tag : Type := Z.

(** Modelled from the spec: the geometry types (declared in headers that are
    not part of the sources at hand).  A coordinate is a [Float]; its width
    depends on the platform and is binary64 here. *)
Record Point : Type := mkPoint { px : float; py : float }.

Record Size : Type := mkSize { width : float; height : float }.

Record Rect : Type := mkRect { origin : Point; size : Size }.

(** Modelled from the spec: [LayoutMetrics] (declared in a header that is
    not part of the sources at hand) is "a frame (origin + size) and related
    fields"; the related fields are one opaque value.  The differentiator
    only adds offsets and compares. *)
Record LayoutMetrics : Type := mkLayoutMetrics {
  frame : Rect;
  otherMetrics : Z
}.

(** Modelled from the spec: the sentinel that means "no layout applied". *)
Definition EmptyLayoutMetrics : LayoutMetrics :=
  {| frame := {| origin := mkPoint 0 0; size := mkSize (-1) (-1) |};
     otherMetrics := 0 |}.

Definition Point_add (a b : Point) : Point :=
  mkPoint (px a + px b)%float (py a + py b)%float.

Definition Point_eqb (a b : Point) : bool :=
  (px a =? px b)%float && (py a =? py b)%float.

Definition Size_eqb (a b : Size) : bool :=
  (width a =? width b)%float && (height a =? height b)%float.

Definition Rect_eqb (a b : Rect) : bool :=
  Point_eqb (origin a) (origin b) && Size_eqb (size a) (size b).

Definition LayoutMetrics_eqb (a b : LayoutMetrics) : bool :=
  Rect_eqb (frame a) (frame b) && (otherMetrics a =? otherMetrics b).

(** Modelled from the spec: the relevant subset of the [ShadowNodeTraits]
    bitset (its header is not part of the sources at hand), one boolean per
    trait bit; [check] reads a bit. *)
Record ShadowNodeTraits : Type := mkTraits {
  FormsView : bool;
  FormsStackingContext : bool;
  Hidden : bool
}.

(** Modelled from the spec: a [ShadowNode] carries a family identity, a tag,
    what its [ShadowView] projection shows (component name, props reference,
    event-emitter reference, state, layout metrics), its traits, its order
    index and its children.  References to props, event emitter and state
    are the addresses they hold. *)
#[warnings="-register-all"]
Inductive ShadowNode : Type :=
| mkShadowNode
    (family_ : Z) (tag_ : Tag) (componentName_ : string)
    (props_ eventEmitter_ state_ : Z) (layoutMetrics_ : LayoutMetrics)
    (traits_ : ShadowNodeTraits) (orderIndex_ : Z)
    (children_ : list ShadowNode).

Definition getFamily (n : ShadowNode) : Z :=
  match n with mkShadowNode f _ _ _ _ _ _ _ _ _ => f end.
Definition getTag (n : ShadowNode) : Tag :=
  match n with mkShadowNode _ t _ _ _ _ _ _ _ _ => t end.
Definition getComponentName (n : ShadowNode) : string :=
  match n with mkShadowNode _ _ c _ _ _ _ _ _ _ => c end.
Definition getProps (n : ShadowNode) : Z :=
  match n with mkShadowNode _ _ _ p _ _ _ _ _ _ => p end.
Definition getEventEmitter (n : ShadowNode) : Z :=
  match n with mkShadowNode _ _ _ _ e _ _ _ _ _ => e end.
Definition getState (n : ShadowNode) : Z :=
  match n with mkShadowNode _ _ _ _ _ s _ _ _ _ => s end.
Definition getLayoutMetrics (n : ShadowNode) : LayoutMetrics :=
  match n with mkShadowNode _ _ _ _ _ _ l _ _ _ => l end.
Definition getTraits (n : ShadowNode) : ShadowNodeTraits :=
  match n with mkShadowNode _ _ _ _ _ _ _ t _ _ => t end.
Definition getOrderIndex (n : ShadowNode) : Z :=
  match n with mkShadowNode _ _ _ _ _ _ _ _ o _ => o end.
Definition getChildren (n : ShadowNode) : list ShadowNode :=
  match n with mkShadowNode _ _ _ _ _ _ _ _ _ c => c end.

(** Modelled from the spec: "two nodes belong to the same family iff they
    share tag and family identity". *)
Definition sameFamily (a b : ShadowNode) : bool :=
  (getTag a =? getTag b) && (getFamily a =? getFamily b).

(** The number of nodes on the longest path from a node down to a leaf. *)
Fixpoint depth (n : ShadowNode) : nat :=
  match n with
  | mkShadowNode _ _ _ _ _ _ _ _ _ children =>
      S (foldr (fun child deepest => Nat.max (depth child) deepest) O
           children)
  end.

(** Modelled from the spec: [ShadowView], the value-type projection of a
    node: "tag, component name, props reference, event-emitter reference,
    layout metrics, state". *)
Record ShadowView : Type := mkShadowView {
  tag : Tag;
  componentName : string;
  props : Z;
  eventEmitter : Z;
  layoutMetrics : LayoutMetrics;
  state : Z
}.

(** Modelled from the spec: the default-constructed view, the "no parent"
    sentinel. *)
Definition ShadowView_default : ShadowView :=
  {| tag := -1;
     componentName := EmptyString;
     props := 0;
     eventEmitter := 0;
     layoutMetrics := EmptyLayoutMetrics;
     state := 0 |}.

(** Modelled from the spec: [ShadowView(shadowNode)]. *)
Definition ShadowView_of (n : ShadowNode) : ShadowView :=
  {| tag := getTag n;
     componentName := getComponentName n;
     props := getProps n;
     eventEmitter := getEventEmitter n;
     layoutMetrics := getLayoutMetrics n;
     state := getState n |}.

(** Modelled from the spec: "equality compares all carried fields". *)
Definition ShadowView_eqb (a b : ShadowView) : bool :=
  (tag a =? tag b)
  && String.eqb (componentName a) (componentName b)
  && (props a =? props b)
  && (eventEmitter a =? eventEmitter b)
  && LayoutMetrics_eqb (layoutMetrics a) (layoutMetrics b)
  && (state a =? state b).

Record ShadowViewNodePair : Type := mkPair {
  shadowView : ShadowView;
  shadowNode : ShadowNode
}.

(** ** ShadowViewMutation *)

(** Modelled from the spec: the five mutation types; [Type_bit] is the bit
    each one has in the [opExists] and [shouldEraseOp] bitsets (the enum is
    declared in [ShadowViewMutation.h], which is not part of the sources at
    hand; the bits are distinct powers of two). *)
Inductive MutationType : Type := Create | Delete | Insert | Remove | Update.

Definition Type_bit (ty : MutationType) : Z :=
  match ty with
  | Create => 1
  | Delete => 2
  | Insert => 4
  | Remove => 8
  | Update => 16
  end.

Definition MutationType_eqb (a b : MutationType) : bool :=
  Type_bit a =? Type_bit b.

(** Modelled from the spec: the record of [ShadowViewMutation.h], with the
    fields in the order the spec lists them; it is the order the position
    comments of [DeleteMutation], [InsertMutation], [RemoveMutation] and
    [UpdateMutation] follow.  The factories below initialise the record by
    position, as the braced initialisers of the source do. *)
Record ShadowViewMutation : Type := mkMutation {
  type : MutationType;
  parentShadowView : ShadowView;
  oldChildShadowView : ShadowView;
  newChildShadowView : ShadowView;
  index : Z
}.

(** The initialiser of [CreateMutation] lists [shadowView] third, under the
    comment [.newChildShadowView], and an empty view fourth, under the comment
    [.oldChildShadowView]. *)
Definition CreateMutation (shadowView : ShadowView) : ShadowViewMutation :=
  mkMutation Create ShadowView_default shadowView ShadowView_default (-1).

Definition DeleteMutation (shadowView : ShadowView) : ShadowViewMutation :=
  mkMutation Delete ShadowView_default shadowView ShadowView_default (-1).

Definition InsertMutation (parentShadowView childShadowView : ShadowView)
    (index : Z) : ShadowViewMutation :=
  mkMutation Insert parentShadowView ShadowView_default childShadowView index.

Definition RemoveMutation (parentShadowView childShadowView : ShadowView)
    (index : Z) : ShadowViewMutation :=
  mkMutation Remove parentShadowView childShadowView ShadowView_default index.

Definition UpdateMutation
    (parentShadowView oldChildShadowView newChildShadowView : ShadowView)
    (index : Z) : ShadowViewMutation :=
  mkMutation Update parentShadowView oldChildShadowView newChildShadowView
    index.

(** ** Reordering and flattening *)

Section Flattener.

(** Whether the build defines [ANDROID]. *)
Variable ANDROID : bool.

(** Sorting comparator for [reorderInPlaceIfNeeded]. *)
Definition shouldFirstPairComesBeforeSecondOne
    (lhs rhs : ShadowViewNodePair) : bool :=
  getOrderIndex (shadowNode lhs) <? getOrderIndex (shadowNode rhs).

(** [std::stable_sort] as a stable insertion sort: an element goes in front
    of the first element that must not come before it. *)
Fixpoint stable_insert (p : ShadowViewNodePair)
    (sorted : list ShadowViewNodePair) : list ShadowViewNodePair :=
  match sorted with
  | [] => [p]
  | q :: sorted' =>
      if shouldFirstPairComesBeforeSecondOne q p
      then q :: stable_insert p sorted'
      else p :: sorted
  end.

Definition stable_sort (pairs : list ShadowViewNodePair)
    : list ShadowViewNodePair :=
  foldr stable_insert [] pairs.

Definition reorderInPlaceIfNeeded (pairs : list ShadowViewNodePair)
    : list ShadowViewNodePair :=
  if (length pairs <? 2)%nat then pairs
  else
    let isReorderNeeded :=
      existsb (fun pair => negb (getOrderIndex (shadowNode pair) =? 0))
        pairs in
    if negb isReorderNeeded then pairs else stable_sort pairs.

(** One iteration of the loop over the children in
    [sliceChildShadowNodeViewPairsRecursively]; [self] is the recursive
    call. *)
Definition sliceChild
    (self : list ShadowViewNodePair -> Point -> ShadowNode ->
            list ShadowViewNodePair)
    (layoutOffset : Point) (pairList : list ShadowViewNodePair)
    (childShadowNode : ShadowNode) : list ShadowViewNodePair :=
  if negb ANDROID && Hidden (getTraits childShadowNode)
  then pairList
  else
    let shadowView := ShadowView_of childShadowNode in
    let hasMetrics :=
      negb (LayoutMetrics_eqb (layoutMetrics shadowView)
              EmptyLayoutMetrics) in
    let origin' :=
      if hasMetrics
      then Point_add layoutOffset (origin (frame (layoutMetrics shadowView)))
      else layoutOffset in
    let shadowView :=
      if hasMetrics
      then
        {| tag := tag shadowView;
           componentName := componentName shadowView;
           props := props shadowView;
           eventEmitter := eventEmitter shadowView;
           layoutMetrics :=
             {| frame :=
                  {| origin :=
                       Point_add (origin (frame (layoutMetrics shadowView)))
                         layoutOffset;
                     size := size (frame (layoutMetrics shadowView)) |};
                otherMetrics := otherMetrics (layoutMetrics shadowView) |};
           state := state shadowView |}
      else shadowView in
    if FormsStackingContext (getTraits childShadowNode)
    then pairList ++ [mkPair shadowView childShadowNode]
    else
      let pairList :=
        if FormsView (getTraits childShadowNode)
        then pairList ++ [mkPair shadowView childShadowNode]
        else pairList in
      self pairList origin' childShadowNode.

Fixpoint sliceChildShadowNodeViewPairsRecursively
    (pairList : list ShadowViewNodePair) (layoutOffset : Point)
    (shadowNode : ShadowNode) {struct shadowNode}
    : list ShadowViewNodePair :=
  match shadowNode with
  | mkShadowNode _ _ _ _ _ _ _ _ _ children =>
      fold_left
        (sliceChild sliceChildShadowNodeViewPairsRecursively layoutOffset)
        children pairList
  end.

Definition sliceChildShadowNodeViewPairs (shadowNode : ShadowNode)
    : list ShadowViewNodePair :=
  let pairList := [] in
  if negb (FormsStackingContext (getTraits shadowNode))
     && FormsView (getTraits shadowNode)
  then pairList
  else
    sliceChildShadowNodeViewPairsRecursively pairList (mkPoint 0 0)
      shadowNode.

End Flattener.

(** ** Reparenting metadata *)

Record OperationsOnTag : Type := mkOperationsOnTag {
  shouldEraseOp : Z;
  opExists : Z;
  removeInsertIndex : Z;
  parentTag : Tag;
  oldNode : option ShadowNode;
  newNode : option ShadowNode
}.

(** [OperationsOnTag{}]. *)
Definition OperationsOnTag_init : OperationsOnTag :=
  {| shouldEraseOp := 0;
     opExists := 0;
     removeInsertIndex := -1;
     parentTag := -1;
     oldNode := None;
     newNode := None |}.

Record ReparentingMetadata : Type := mkReparentingMetadata {
  enabled_ : bool;
  reparentingOperations_ : Z;
  tagsToOperations_ : gmap Z OperationsOnTag
}.

Definition ReparentingMetadata_init (enabled : bool) : ReparentingMetadata :=
  {| enabled_ := enabled;
     reparentingOperations_ := 0;
     tagsToOperations_ := ∅ |}.

Definition set_tagOperations (tag : Tag) (op : OperationsOnTag)
    (meta : ReparentingMetadata) : ReparentingMetadata :=
  {| enabled_ := enabled_ meta;
     reparentingOperations_ := reparentingOperations_ meta;
     tagsToOperations_ := <[tag := op]> (tagsToOperations_ meta) |}.

Definition bump_reparentingOperations (meta : ReparentingMetadata)
    : ReparentingMetadata :=
  {| enabled_ := enabled_ meta;
     reparentingOperations_ := reparentingOperations_ meta + 1;
     tagsToOperations_ := tagsToOperations_ meta |}.

Definition has_bit (bits : Z) (ty : MutationType) : bool :=
  negb (Z.land bits (Type_bit ty) =? 0).

Definition shouldRemoveDeleteUpdate (parentTag' : Tag)
    (shadowNode : ShadowNode) (index : Z) (meta : ReparentingMetadata)
    : result (bool * bool * option ShadowNode * ReparentingMetadata) :=
  if negb (enabled_ meta) then Ok (true, true, None, meta)
  else
    let tag := getTag shadowNode in
    match tagsToOperations_ meta !! tag with
    | None =>
        let tagOperations :=
          {| shouldEraseOp := shouldEraseOp OperationsOnTag_init;
             opExists :=
               Z.lor (opExists OperationsOnTag_init)
                 (Z.lor (Type_bit Remove) (Type_bit Delete));
             removeInsertIndex := index;
             parentTag := parentTag';
             oldNode := Some shadowNode;
             newNode := newNode OperationsOnTag_init |} in
        Ok (true, true, None, set_tagOperations tag tagOperations meta)
    | Some op =>
        if negb (shouldEraseOp op =? 0) then Err AssertionFailed
        else
          let shouldRemove :=
            negb (has_bit (opExists op) Insert
                  && (removeInsertIndex op =? index)
                  && (parentTag op =? parentTag')) in
          let erase1 :=
            Z.lor (shouldEraseOp op) (Z.land (opExists op) (Type_bit Create)) in
          let erase2 :=
            Z.lor erase1
              (if shouldRemove then 0
               else Z.land (opExists op) (Type_bit Insert)) in
          let op' :=
            {| shouldEraseOp := erase2;
               opExists := opExists op;
               removeInsertIndex := removeInsertIndex op;
               parentTag := parentTag op;
               oldNode := oldNode op;
               newNode := newNode op |} in
          let meta := set_tagOperations tag op' meta in
          let meta :=
            if negb (erase2 =? 0) then bump_reparentingOperations meta
            else meta in
          Ok (shouldRemove, false, newNode op', meta)
    end.

(** The first-sighting record of [shouldCreateInsertUpdate] leaves
    [parentTag] at its initial value. *)
Definition shouldCreateInsertUpdate (parentTag' : Tag)
    (shadowNode : ShadowNode) (index : Z) (meta : ReparentingMetadata)
    : result (bool * bool * option ShadowNode * ReparentingMetadata) :=
  if negb (enabled_ meta) then Ok (true, true, None, meta)
  else
    let tag := getTag shadowNode in
    match tagsToOperations_ meta !! tag with
    | None =>
        let tagOperations :=
          {| shouldEraseOp := shouldEraseOp OperationsOnTag_init;
             opExists :=
               Z.lor (opExists OperationsOnTag_init)
                 (Z.lor (Type_bit Create) (Type_bit Insert));
             removeInsertIndex := index;
             parentTag := parentTag OperationsOnTag_init;
             oldNode := oldNode OperationsOnTag_init;
             newNode := Some shadowNode |} in
        Ok (true, true, None, set_tagOperations tag tagOperations meta)
    | Some op =>
        if negb (shouldEraseOp op =? 0) then Err AssertionFailed
        else
          let shouldInsert :=
            negb (has_bit (opExists op) Remove
                  && (removeInsertIndex op =? index)
                  && (parentTag op =? parentTag')) in
          let erase1 :=
            Z.lor (shouldEraseOp op) (Z.land (opExists op) (Type_bit Delete)) in
          let erase2 :=
            Z.lor erase1
              (if shouldInsert then 0
               else Z.land (opExists op) (Type_bit Remove)) in
          let op' :=
            {| shouldEraseOp := erase2;
               opExists := opExists op;
               removeInsertIndex := removeInsertIndex op;
               parentTag := parentTag op;
               oldNode := oldNode op;
               newNode := newNode op |} in
          let meta := set_tagOperations tag op' meta in
          let meta :=
            if negb (erase2 =? 0) then bump_reparentingOperations meta
            else meta in
          Ok (shouldInsert, false, oldNode op', meta)
    end.

(** A lookup that fails leaves [it] at [end()]; the assertion guards the
    reads and writes through it. *)
Definition shouldCreateUpdate (shadowNode : ShadowNode)
    (meta : ReparentingMetadata)
    : result (bool * option ShadowNode * ReparentingMetadata) :=
  if negb (enabled_ meta) then Ok (true, None, meta)
  else
    let tag := getTag shadowNode in
    match tagsToOperations_ meta !! tag with
    | None => Err AssertionFailed
    | Some op =>
        if has_bit (opExists op) Delete then
          let meta := bump_reparentingOperations meta in
          let op' :=
            {| shouldEraseOp := Z.lor (shouldEraseOp op) (Type_bit Delete);
               opExists := opExists op;
               removeInsertIndex := removeInsertIndex op;
               parentTag := parentTag op;
               oldNode := oldNode op;
               newNode := Some shadowNode |} in
          Ok (false, oldNode op', set_tagOperations tag op' meta)
        else
          let op' :=
            {| shouldEraseOp := shouldEraseOp op;
               opExists := Z.lor (opExists op) (Type_bit Create);
               removeInsertIndex := removeInsertIndex op;
               parentTag := parentTag op;
               oldNode := oldNode op;
               newNode := newNode op |} in
          Ok (true, None, set_tagOperations tag op' meta)
    end.

(** In the branch of a failed lookup the source writes the [Insert] bit
    through [it], which is [end()] there, and not into [tagOperations]; the
    write reaches no record of the map, and the record that is stored is
    [tagOperations] as the two assignments before it left it. *)
Definition markInserted (parentTag' : Tag) (shadowNode : ShadowNode)
    (index : Z) (meta : ReparentingMetadata) : ReparentingMetadata :=
  if negb (enabled_ meta) then meta
  else
    let tag := getTag shadowNode in
    match tagsToOperations_ meta !! tag with
    | None =>
        let tagOperations :=
          {| shouldEraseOp := shouldEraseOp OperationsOnTag_init;
             opExists := opExists OperationsOnTag_init;
             removeInsertIndex := index;
             parentTag := parentTag';
             oldNode := oldNode OperationsOnTag_init;
             newNode := newNode OperationsOnTag_init |} in
        set_tagOperations tag tagOperations meta
    | Some op =>
        let op' :=
          {| shouldEraseOp := shouldEraseOp op;
             opExists := Z.lor (opExists op) (Type_bit Insert);
             removeInsertIndex := removeInsertIndex op;
             parentTag := parentTag op;
             oldNode := oldNode op;
             newNode := newNode op |} in
        set_tagOperations tag op' meta
    end.

Definition removeUselessRecords (meta : ReparentingMetadata)
    : ReparentingMetadata :=
  if negb (enabled_ meta) then meta
  else
    {| enabled_ := enabled_ meta;
       reparentingOperations_ := reparentingOperations_ meta;
       tagsToOperations_ :=
         filter (fun kv => shouldEraseOp (snd kv) <> 0)
           (tagsToOperations_ meta) |}.

(** ** The recursive differ *)

(** The seven mutation lists of one activation. *)
Record Buckets : Type := mkBuckets {
  createMutations : list ShadowViewMutation;
  deleteMutations : list ShadowViewMutation;
  insertMutations : list ShadowViewMutation;
  removeMutations : list ShadowViewMutation;
  updateMutations : list ShadowViewMutation;
  downwardMutations : list ShadowViewMutation;
  destructiveDownwardMutations : list ShadowViewMutation
}.

Definition Buckets_init : Buckets := mkBuckets [] [] [] [] [] [] [].

Definition push_create (m : ShadowViewMutation) (b : Buckets) : Buckets :=
  mkBuckets (createMutations b ++ [m]) (deleteMutations b)
    (insertMutations b) (removeMutations b) (updateMutations b)
    (downwardMutations b) (destructiveDownwardMutations b).

Definition push_delete (m : ShadowViewMutation) (b : Buckets) : Buckets :=
  mkBuckets (createMutations b) (deleteMutations b ++ [m])
    (insertMutations b) (removeMutations b) (updateMutations b)
    (downwardMutations b) (destructiveDownwardMutations b).

Definition push_insert (m : ShadowViewMutation) (b : Buckets) : Buckets :=
  mkBuckets (createMutations b) (deleteMutations b)
    (insertMutations b ++ [m]) (removeMutations b) (updateMutations b)
    (downwardMutations b) (destructiveDownwardMutations b).

Definition push_remove (m : ShadowViewMutation) (b : Buckets) : Buckets :=
  mkBuckets (createMutations b) (deleteMutations b)
    (insertMutations b) (removeMutations b ++ [m]) (updateMutations b)
    (downwardMutations b) (destructiveDownwardMutations b).

Definition push_update (m : ShadowViewMutation) (b : Buckets) : Buckets :=
  mkBuckets (createMutations b) (deleteMutations b)
    (insertMutations b) (removeMutations b) (updateMutations b ++ [m])
    (downwardMutations b) (destructiveDownwardMutations b).

Definition set_downward (l : list ShadowViewMutation) (b : Buckets)
    : Buckets :=
  mkBuckets (createMutations b) (deleteMutations b)
    (insertMutations b) (removeMutations b) (updateMutations b)
    l (destructiveDownwardMutations b).

Definition set_destructiveDownward (l : list ShadowViewMutation)
    (b : Buckets) : Buckets :=
  mkBuckets (createMutations b) (deleteMutations b)
    (insertMutations b) (removeMutations b) (updateMutations b)
    (downwardMutations b) l.

(** "All mutations in an optimal order". *)
Definition concatBuckets (b : Buckets) : list ShadowViewMutation :=
  destructiveDownwardMutations b
  ++ updateMutations b
  ++ rev (removeMutations b)
  ++ deleteMutations b
  ++ createMutations b
  ++ downwardMutations b
  ++ insertMutations b.

(** The signature of the recursive [calculateShadowViewMutations]: the list
    it appends to, the metadata, the parent view and the two child lists go
    in; the list and the metadata come out. *)
Definition Differ : Type :=
  list ShadowViewMutation -> ReparentingMetadata -> ShadowView ->
  list ShadowViewNodePair -> list ShadowViewNodePair ->
  result (list ShadowViewMutation * ReparentingMetadata).

(** What the interleaved walk carries from one iteration to the next. *)
Record WalkState : Type := mkWalkState {
  walk_buckets : Buckets;
  walk_meta : ReparentingMetadata;
  newRemainingPairs : TinyMap.t ShadowViewNodePair;
  newInsertedPairs : TinyMap.t ShadowViewNodePair;
  oldIndex : nat;
  newIndex : nat
}.

Section Differ.

Variable ANDROID : bool.

(** The recursive calls of one activation. *)
Variable recurse : Differ.

Local Abbreviation slice := (sliceChildShadowNodeViewPairs ANDROID).

(** A recursive call whose target list is [downwardMutations] when the new
    grandchildren are not empty and [destructiveDownwardMutations] when
    they are. *)
Definition updateSubtrees (b : Buckets) (meta : ReparentingMetadata)
    (parent : ShadowView)
    (oldGrandChildPairs newGrandChildPairs : list ShadowViewNodePair)
    : result (Buckets * ReparentingMetadata) :=
  if negb (length newGrandChildPairs =? 0)%nat then
    '(l, meta) ← recurse (downwardMutations b) meta parent
                   oldGrandChildPairs newGrandChildPairs;
    Ok (set_downward l b, meta)
  else
    '(l, meta) ← recurse (destructiveDownwardMutations b) meta parent
                   oldGrandChildPairs newGrandChildPairs;
    Ok (set_destructiveDownward l b, meta).

Definition updateIfDifferent (parent old new : ShadowView) (index : Z)
    (b : Buckets) : Buckets :=
  if negb (ShadowView_eqb old new)
  then push_update (UpdateMutation parent old new index) b
  else b.

(** Stage 1.  [olds] and [news] are the two lists from position [index]
    on. *)
Fixpoint stage1 (parentShadowView : ShadowView)
    (olds news : list ShadowViewNodePair) (index : nat) (b : Buckets)
    (meta : ReparentingMetadata)
    : result (nat * Buckets * ReparentingMetadata) :=
  match olds, news with
  | oldChildPair :: olds', newChildPair :: news' =>
      if negb (tag (shadowView oldChildPair)
               =? tag (shadowView newChildPair))
      then Ok (index, b, meta)
      else
        let b :=
          updateIfDifferent parentShadowView (shadowView oldChildPair)
            (shadowView newChildPair) (Z.of_nat index) b in
        let oldGrandChildPairs := slice (shadowNode oldChildPair) in
        let newGrandChildPairs := slice (shadowNode newChildPair) in
        '(b, meta) ← updateSubtrees b meta (shadowView oldChildPair)
                       oldGrandChildPairs newGrandChildPairs;
        stage1 parentShadowView olds' news' (S index) b meta
  | _, _ => Ok (index, b, meta)
  end.

(** The new list is exhausted: [olds] is the old list from position
    [index] on. *)
Fixpoint removeRest (parentShadowView : ShadowView)
    (olds : list ShadowViewNodePair) (index : nat) (b : Buckets)
    (meta : ReparentingMetadata) : result (Buckets * ReparentingMetadata) :=
  match olds with
  | [] => Ok (b, meta)
  | oldChildPair :: olds' =>
      '(shouldRemove, shouldDelete, newTreeNode, meta) ←
        shouldRemoveDeleteUpdate (tag parentShadowView)
          (shadowNode oldChildPair) (Z.of_nat index) meta;
      let b :=
        if shouldDelete : bool
        then push_delete (DeleteMutation (shadowView oldChildPair)) b
        else b in
      let b :=
        if shouldRemove : bool
        then push_remove
               (RemoveMutation parentShadowView (shadowView oldChildPair)
                  (Z.of_nat index)) b
        else b in
      let b :=
        match newTreeNode with
        | Some newTreeNode =>
            updateIfDifferent parentShadowView (shadowView oldChildPair)
              (ShadowView_of newTreeNode) (-1) b
        | None => b
        end in
      '(l, meta) ← recurse (destructiveDownwardMutations b) meta
                     (shadowView oldChildPair)
                     (slice (shadowNode oldChildPair)) [];
      removeRest parentShadowView olds' (S index)
        (set_destructiveDownward l b) meta
  end.

(** The old list is exhausted: [news] is the new list from position
    [index] on. *)
Fixpoint insertRest (parentShadowView : ShadowView)
    (news : list ShadowViewNodePair) (index : nat) (b : Buckets)
    (meta : ReparentingMetadata) : result (Buckets * ReparentingMetadata) :=
  match news with
  | [] => Ok (b, meta)
  | newChildPair :: news' =>
      '(shouldInsert, shouldCreate, oldTreeNode, meta) ←
        shouldCreateInsertUpdate (tag parentShadowView)
          (shadowNode newChildPair) (Z.of_nat index) meta;
      let b :=
        if shouldInsert : bool
        then push_insert
               (InsertMutation parentShadowView (shadowView newChildPair)
                  (Z.of_nat index)) b
        else b in
      let b :=
        if shouldCreate : bool
        then push_create (CreateMutation (shadowView newChildPair)) b
        else b in
      let b :=
        match oldTreeNode with
        | Some oldTreeNode =>
            updateIfDifferent parentShadowView (ShadowView_of oldTreeNode)
              (shadowView newChildPair) (-1) b
        | None => b
        end in
      '(l, meta) ← recurse (downwardMutations b) meta
                     (shadowView newChildPair)
                     [] (slice (shadowNode newChildPair));
      insertRest parentShadowView news' (S index) (set_downward l b) meta
  end.

(** The loop that fills [newRemainingPairs]. *)
Fixpoint collectRemaining (news : list ShadowViewNodePair)
    (remaining : TinyMap.t ShadowViewNodePair)
    : result (TinyMap.t ShadowViewNodePair) :=
  match news with
  | [] => Ok remaining
  | newChildPair :: news' =>
      remaining ← TinyMap.insert
                    (tag (shadowView newChildPair), newChildPair) remaining;
      collectRemaining news' remaining
  end.

Definition set_walk (b : Buckets) (meta : ReparentingMetadata)
    (st : WalkState) : WalkState :=
  mkWalkState b meta (newRemainingPairs st) (newInsertedPairs st)
    (oldIndex st) (newIndex st).

(** The last block of the loop body: an [Insert] for the new pair under the
    new cursor.  The source reads [newChildPairs[newIndex]] without a bounds
    check. *)
Definition walkInsert (parentShadowView : ShadowView)
    (newChildPairs : list ShadowViewNodePair) (st : WalkState)
    : result WalkState :=
  match newChildPairs !! newIndex st with
  | None => Err OutOfBounds
  | Some newChildPair =>
      let meta :=
        markInserted (tag parentShadowView) (shadowNode newChildPair)
          (Z.of_nat (newIndex st)) (walk_meta st) in
      let b :=
        push_insert
          (InsertMutation parentShadowView (shadowView newChildPair)
             (Z.of_nat (newIndex st))) (walk_buckets st) in
      inserted ← TinyMap.insert
                   (tag (shadowView newChildPair), newChildPair)
                   (newInsertedPairs st);
      Ok (mkWalkState b meta (newRemainingPairs st) inserted
            (oldIndex st) (S (newIndex st)))
  end.

(** The first block of the loop body, taken when both cursors are in range
    and point at the same tag.  [index] is the variable of that name, which
    the loop that fills [newRemainingPairs] has left at the size of the new
    list. *)
Definition walkMatched (parentShadowView : ShadowView) (index : nat)
    (oldChildPair newChildPair : ShadowViewNodePair) (st : WalkState)
    : result WalkState :=
  let oldTag := tag (shadowView oldChildPair) in
  let b :=
    updateIfDifferent parentShadowView (shadowView oldChildPair)
      (shadowView newChildPair) (Z.of_nat index) (walk_buckets st) in
  '(newRemainingPairIt, remaining) ←
    TinyMap.find oldTag (newRemainingPairs st);
  remaining ←
    (if negb (TinyMap.ptr_eqb newRemainingPairIt (TinyMap.end_ remaining))
     then TinyMap.erase newRemainingPairIt remaining
     else Ok remaining);
  let oldGrandChildPairs := slice (shadowNode oldChildPair) in
  let newGrandChildPairs := slice (shadowNode newChildPair) in
  '(b, meta) ← updateSubtrees b (walk_meta st) (shadowView oldChildPair)
                 oldGrandChildPairs newGrandChildPairs;
  Ok (mkWalkState b meta remaining (newInsertedPairs st)
        (S (oldIndex st)) (S (newIndex st))).

(** The old tag was already inserted: a reordering. *)
Definition walkRemoveInserted (parentShadowView : ShadowView) (index : nat)
    (oldChildPair : ShadowViewNodePair)
    (insertedIt : TinyMap.Iterator)
    (inserted : TinyMap.t ShadowViewNodePair) (st : WalkState)
    : result WalkState :=
  match TinyMap.deref insertedIt inserted with
  | None => Err OutOfBounds
  | Some (_, newChildPair) =>
      let b :=
        push_remove
          (RemoveMutation parentShadowView (shadowView oldChildPair)
             (Z.of_nat (oldIndex st))) (walk_buckets st) in
      let b :=
        updateIfDifferent parentShadowView (shadowView oldChildPair)
          (shadowView newChildPair) (Z.of_nat index) b in
      let oldGrandChildPairs := slice (shadowNode oldChildPair) in
      let newGrandChildPairs := slice (shadowNode newChildPair) in
      '(b, meta) ← updateSubtrees b (walk_meta st) (shadowView oldChildPair)
                     oldGrandChildPairs newGrandChildPairs;
      inserted ← TinyMap.erase insertedIt inserted;
      Ok (mkWalkState b meta (newRemainingPairs st) inserted
            (S (oldIndex st)) (newIndex st))
  end.

(** The old tag is not in the new list: remove it, and delete it unless it
    was reparented. *)
Definition walkRemoveGone (parentShadowView : ShadowView)
    (oldChildPair : ShadowViewNodePair) (st : WalkState)
    : result WalkState :=
  '(shouldRemove, shouldDelete, newTreeNode, meta) ←
    shouldRemoveDeleteUpdate (-1) (shadowNode oldChildPair) (-1)
      (walk_meta st);
  let b :=
    push_remove
      (RemoveMutation parentShadowView (shadowView oldChildPair)
         (Z.of_nat (oldIndex st))) (walk_buckets st) in
  let b :=
    if shouldDelete : bool
    then push_delete (DeleteMutation (shadowView oldChildPair)) b
    else b in
  let b :=
    match newTreeNode with
    | Some newTreeNode =>
        updateIfDifferent parentShadowView (shadowView oldChildPair)
          (ShadowView_of newTreeNode) (-1) b
    | None => b
    end in
  '(l, meta) ← recurse (destructiveDownwardMutations b) meta
                 (shadowView oldChildPair)
                 (slice (shadowNode oldChildPair)) [];
  Ok (mkWalkState (set_destructiveDownward l b) meta
        (newRemainingPairs st) (newInsertedPairs st)
        (S (oldIndex st)) (newIndex st)).

(** One iteration of the loop body. *)
Definition walkStep (parentShadowView : ShadowView) (index : nat)
    (oldChildPairs newChildPairs : list ShadowViewNodePair)
    (st : WalkState) : result WalkState :=
  let haveNewPair := (newIndex st <? length newChildPairs)%nat in
  let haveOldPair := (oldIndex st <? length oldChildPairs)%nat in
  let matched :=
    if haveNewPair && haveOldPair then
      match newChildPairs !! newIndex st, oldChildPairs !! oldIndex st with
      | Some newChildPair, Some oldChildPair =>
          if tag (shadowView newChildPair) =? tag (shadowView oldChildPair)
          then Some (oldChildPair, newChildPair)
          else None
      | _, _ => None
      end
    else None in
  match matched with
  | Some (oldChildPair, newChildPair) =>
      walkMatched parentShadowView index oldChildPair newChildPair st
  | None =>
      match (if haveOldPair then oldChildPairs !! oldIndex st else None) with
      | Some oldChildPair =>
          let oldTag := tag (shadowView oldChildPair) in
          '(insertedIt, inserted) ←
            TinyMap.find oldTag (newInsertedPairs st);
          if negb (TinyMap.ptr_eqb insertedIt (TinyMap.end_ inserted))
          then
            walkRemoveInserted parentShadowView index oldChildPair
              insertedIt inserted st
          else
            '(newIt, remaining) ←
              TinyMap.find oldTag (newRemainingPairs st);
            let st :=
              mkWalkState (walk_buckets st) (walk_meta st) remaining
                inserted (oldIndex st) (newIndex st) in
            if TinyMap.ptr_eqb newIt (TinyMap.end_ remaining)
            then walkRemoveGone parentShadowView oldChildPair st
            else walkInsert parentShadowView newChildPairs st
      | None => walkInsert parentShadowView newChildPairs st
      end
  end.

(** The [while] loop; every iteration advances a cursor, and [fuel] bounds
    the number of iterations. *)
Fixpoint walk (fuel : nat) (parentShadowView : ShadowView) (index : nat)
    (oldChildPairs newChildPairs : list ShadowViewNodePair)
    (st : WalkState) : result WalkState :=
  if (newIndex st <? length newChildPairs)%nat
     || (oldIndex st <? length oldChildPairs)%nat
  then
    match fuel with
    | O => Err OutOfFuel
    | S fuel' =>
        st ← walkStep parentShadowView index oldChildPairs newChildPairs st;
        walk fuel' parentShadowView index oldChildPairs newChildPairs st
    end
  else Ok st.

(** The entries between [begin()] and [end()]. *)
Definition entriesFrom (first : TinyMap.Iterator)
    (m : TinyMap.t ShadowViewNodePair)
    : list (TinyMap.Pair ShadowViewNodePair) :=
  match first, TinyMap.end_ m with
  | Some i, Some _ => drop (Z.to_nat i) (TinyMap.vector_ m)
  | _, _ => []
  end.

(** The final step: [Create] for the pairs that were inserted and not
    removed again. *)
Fixpoint createInserted (parentShadowView : ShadowView)
    (entries : list (TinyMap.Pair ShadowViewNodePair)) (b : Buckets)
    (meta : ReparentingMetadata) : result (Buckets * ReparentingMetadata) :=
  match entries with
  | [] => Ok (b, meta)
  | (key, newChildPair) :: entries' =>
      if key =? 0 then createInserted parentShadowView entries' b meta
      else
        '(shouldCreate, updateNode, meta) ←
          shouldCreateUpdate (shadowNode newChildPair) meta;
        let b :=
          if shouldCreate : bool
          then push_create (CreateMutation (shadowView newChildPair)) b
          else b in
        let b :=
          match updateNode with
          | Some updateNode =>
              updateIfDifferent parentShadowView (ShadowView_of updateNode)
                (shadowView newChildPair) (-1) b
          | None => b
          end in
        '(l, meta) ← recurse (downwardMutations b) meta
                       (shadowView newChildPair)
                       [] (slice (shadowNode newChildPair));
        createInserted parentShadowView entries' (set_downward l b) meta
  end.

(** The interleaved walk and the final step. *)
Definition walkLists (parentShadowView : ShadowView)
    (lastIndexAfterFirstStage : nat)
    (oldChildPairs newChildPairs : list ShadowViewNodePair) (b : Buckets)
    (meta : ReparentingMetadata) : result (Buckets * ReparentingMetadata) :=
  remaining ← collectRemaining
                (drop lastIndexAfterFirstStage newChildPairs)
                TinyMap.empty;
  let index := length newChildPairs in
  let newSize := length newChildPairs in
  let oldSize := length oldChildPairs in
  st ← walk ((newSize - lastIndexAfterFirstStage)
             + (oldSize - lastIndexAfterFirstStage))%nat
         parentShadowView index oldChildPairs newChildPairs
         (mkWalkState b meta remaining TinyMap.empty
            lastIndexAfterFirstStage lastIndexAfterFirstStage);
  let '(first, inserted) := TinyMap.begin (newInsertedPairs st) in
  createInserted parentShadowView (entriesFrom first inserted)
    (walk_buckets st) (walk_meta st).

(** Everything between the early return and the concatenation: the seven
    lists of this activation. *)
Definition collectMutations (meta : ReparentingMetadata)
    (parentShadowView : ShadowView)
    (oldChildPairs newChildPairs : list ShadowViewNodePair)
    : result (Buckets * ReparentingMetadata) :=
  let oldChildPairs := reorderInPlaceIfNeeded oldChildPairs in
  let newChildPairs := reorderInPlaceIfNeeded newChildPairs in
  '(index, b, meta) ← stage1 parentShadowView oldChildPairs newChildPairs
                        O Buckets_init meta;
  let lastIndexAfterFirstStage := index in
  if (index =? length newChildPairs)%nat then
    removeRest parentShadowView (drop index oldChildPairs) index b meta
  else if (index =? length oldChildPairs)%nat then
    insertRest parentShadowView (drop index newChildPairs) index b meta
  else
    walkLists parentShadowView lastIndexAfterFirstStage
      oldChildPairs newChildPairs b meta.

Definition calculateShadowViewMutations_body : Differ :=
  fun mutations reparentingMetadata parentShadowView
      oldChildPairs newChildPairs =>
    match oldChildPairs, newChildPairs with
    | [], [] => Ok (mutations, reparentingMetadata)
    | _, _ =>
        '(b, reparentingMetadata) ←
          collectMutations reparentingMetadata parentShadowView
            oldChildPairs newChildPairs;
        Ok (mutations ++ concatBuckets b, reparentingMetadata)
    end.

End Differ.

(** The recursive [calculateShadowViewMutations].  Every recursive call
    descends into the subtrees of a pair of the lists at hand; [fuel] bounds
    the nesting of the calls. *)
Fixpoint calculateShadowViewMutations_rec (ANDROID : bool) (fuel : nat)
    : Differ :=
  match fuel with
  | O => fun _ _ _ _ _ => Err OutOfFuel
  | S fuel' =>
      calculateShadowViewMutations_body ANDROID
        (calculateShadowViewMutations_rec ANDROID fuel')
  end.

(** ** The pruning pass and the entry point *)

Definition mutationTag (mutation : ShadowViewMutation) : Tag :=
  match type mutation with
  | Insert | Create => tag (newChildShadowView mutation)
  | _ => tag (oldChildShadowView mutation)
  end.

(** [std::remove_if] with the lambda of the source: the predicate runs once
    on every mutation, front to back, and updates the metadata as it goes. *)
Fixpoint removeObviated (mutations : list ShadowViewMutation)
    (meta : ReparentingMetadata)
    : list ShadowViewMutation * ReparentingMetadata :=
  match mutations with
  | [] => ([], meta)
  | mutation :: rest =>
      if reparentingOperations_ meta =? 0 then
        let '(kept, meta) := removeObviated rest meta in
        (mutation :: kept, meta)
      else
        let tag := mutationTag mutation in
        match tagsToOperations_ meta !! tag with
        | Some op =>
            let shouldDelete := has_bit (shouldEraseOp op) (type mutation) in
            let op' :=
              {| shouldEraseOp :=
                   Z.land (shouldEraseOp op)
                     (Z.lnot (Type_bit (type mutation)));
                 opExists := opExists op;
                 removeInsertIndex := removeInsertIndex op;
                 parentTag := parentTag op;
                 oldNode := oldNode op;
                 newNode := newNode op |} in
            let meta :=
              if shouldEraseOp op' =? 0 then
                {| enabled_ := enabled_ meta;
                   reparentingOperations_ := reparentingOperations_ meta - 1;
                   tagsToOperations_ := delete tag (tagsToOperations_ meta) |}
              else set_tagOperations tag op' meta in
            let '(kept, meta) := removeObviated rest meta in
            if shouldDelete then (kept, meta) else (mutation :: kept, meta)
        | None =>
            let '(kept, meta) := removeObviated rest meta in
            (mutation :: kept, meta)
        end
  end.

(** A bound on the nesting of the recursive calls for two trees. *)
Definition nesting (oldRootShadowNode newRootShadowNode : ShadowNode) : nat :=
  Nat.max (depth oldRootShadowNode) (depth newRootShadowNode).

Definition calculateShadowViewMutations (ANDROID : bool)
    (oldRootShadowNode newRootShadowNode : ShadowNode)
    (enableReparentingDetection : bool) : result (list ShadowViewMutation) :=
  if negb (sameFamily oldRootShadowNode newRootShadowNode)
  then Err AssertionFailed
  else
    let mutations := [] in
    let reparentingMetadata :=
      ReparentingMetadata_init enableReparentingDetection in
    let oldRootShadowView := ShadowView_of oldRootShadowNode in
    let newRootShadowView := ShadowView_of newRootShadowNode in
    let mutations :=
      if negb (ShadowView_eqb oldRootShadowView newRootShadowView)
      then mutations
           ++ [UpdateMutation ShadowView_default oldRootShadowView
                 newRootShadowView (-1)]
      else mutations in
    '(mutations, reparentingMetadata) ←
      calculateShadowViewMutations_rec ANDROID
        (nesting oldRootShadowNode newRootShadowNode)
        mutations reparentingMetadata (ShadowView_of oldRootShadowNode)
        (sliceChildShadowNodeViewPairs ANDROID oldRootShadowNode)
        (sliceChildShadowNodeViewPairs ANDROID newRootShadowNode);
    if (0 <? reparentingOperations_ reparentingMetadata)
       && enableReparentingDetection
    then
      let reparentingMetadata := removeUselessRecords reparentingMetadata in
      Ok (fst (removeObviated mutations reparentingMetadata))
    else Ok mutations.

(** ** Scenarios *)

(** A node that forms a view and a stacking context, with no layout; its
    family identity is its tag. *)
Definition viewTraits : ShadowNodeTraits := mkTraits true true false.

Definition viewNode (tag props : Z) (children : list ShadowNode)
    : ShadowNode :=
  mkShadowNode tag tag "View" props 0 0 EmptyLayoutMetrics viewTraits 0
    children.

(** A view that is not a stacking context. *)
Definition leafViewNode (tag : Z) (children : list ShadowNode) : ShadowNode :=
  mkShadowNode tag tag "View" 0 0 0 EmptyLayoutMetrics
    (mkTraits true false false) 0 children.

(** A map whose two erased entries are both at the front: three inserts,
    then the first two keys found and erased. *)
Definition frontErased : TinyMap.t unit :=
  {| TinyMap.vector_ := [(0, tt); (0, tt); (5, tt)];
     TinyMap.numErased_ := 2;
     TinyMap.erasedAtFront_ := 2 |}.

(** Scenario S2 of the specification: a child appended. *)
Definition appendOld : ShadowNode := viewNode 1 0 [viewNode 2 0 []].
Definition appendNew : ShadowNode :=
  viewNode 1 0 [viewNode 2 0 []; viewNode 3 0 []].

(** A node moves from one parent to the other and changes its props on the
    way. *)
Definition moveOld : ShadowNode :=
  viewNode 1 0 [viewNode 2 0 [viewNode 9 7 []]; viewNode 3 0 []].
Definition moveNew : ShadowNode :=
  viewNode 1 0 [viewNode 2 0 []; viewNode 3 0 [viewNode 9 8 []]].

(** The first child is replaced and the second one, which stays in slot 1,
    changes its props. *)
Definition replaceOld : ShadowNode :=
  viewNode 1 0 [viewNode 2 0 []; viewNode 3 5 []].
Definition replaceNew : ShadowNode :=
  viewNode 1 0 [viewNode 4 0 []; viewNode 3 6 []].

(** Three children of which the last moves to the front (scenario S6). *)
Definition rotateOld : ShadowNode :=
  viewNode 1 0 [viewNode 2 0 []; viewNode 3 0 []; viewNode 4 0 []].
Definition rotateNew : ShadowNode :=
  viewNode 1 0 [viewNode 4 0 []; viewNode 2 0 []; viewNode 3 0 []].

(** A root with one child, a view whose frame has a NaN coordinate. *)
Definition nanChild : ShadowNode :=
  mkShadowNode 2 2 "View" 0 0 0
    (mkLayoutMetrics (mkRect (mkPoint nan 0) (mkSize 1 1)) 0) viewTraits 0 [].
Definition nanTree : ShadowNode := viewNode 1 0 [nanChild].

(** The set of mutation types of a list, as a membership test. *)
Definition hasType (ty : MutationType) (l : list ShadowViewMutation) : bool :=
  existsb (fun m => MutationType_eqb (type m) ty) l.

(** ** Vocabulary of the properties *)

(** A recursive call that changes nothing on the two flattened lists of one
    node. *)
Definition idle_on (ANDROID : bool) (recurse : Differ) (n : ShadowNode)
    : Prop :=
  forall mutations meta parent,
    recurse mutations meta parent
      (sliceChildShadowNodeViewPairs ANDROID n)
      (sliceChildShadowNodeViewPairs ANDROID n)
    = Ok (mutations, meta).

(** A view that the comparison of the code finds equal to itself. *)
Definition selfEqual (v : ShadowView) : bool := ShadowView_eqb v v.

(** The views of the flattened child lists below a node are equal to
    themselves: those of the list of the node and, [fuel] levels down, those
    of the lists of the nodes of its pairs. *)
Fixpoint selfEqualBelow (ANDROID : bool) (fuel : nat) (n : ShadowNode)
    : bool :=
  match fuel with
  | O => true
  | S fuel' =>
      forallb
        (fun pr =>
           selfEqual (shadowView pr)
           && selfEqualBelow ANDROID fuel' (shadowNode pr))
        (sliceChildShadowNodeViewPairs ANDROID n)
  end.

(** The seven lists by name, in the order of the concatenation. *)
Inductive BucketKind : Type :=
| DestructiveDownwardBucket
| UpdateBucket
| RemoveBucket
| DeleteBucket
| CreateBucket
| DownwardBucket
| InsertBucket.

Definition bucketRank (k : BucketKind) : nat :=
  match k with
  | DestructiveDownwardBucket => 0
  | UpdateBucket => 1
  | RemoveBucket => 2
  | DeleteBucket => 3
  | CreateBucket => 4
  | DownwardBucket => 5
  | InsertBucket => 6
  end.

(** The mutation type a list holds, for the five lists that hold the
    mutations of the activation itself. *)
Definition kindType (k : BucketKind) : option MutationType :=
  match k with
  | UpdateBucket => Some Update
  | RemoveBucket => Some Remove
  | DeleteBucket => Some Delete
  | CreateBucket => Some Create
  | InsertBucket => Some Insert
  | DestructiveDownwardBucket | DownwardBucket => None
  end.

Definition bucketOf (k : BucketKind) (b : Buckets)
    : list ShadowViewMutation :=
  match k with
  | DestructiveDownwardBucket => destructiveDownwardMutations b
  | UpdateBucket => updateMutations b
  | RemoveBucket => removeMutations b
  | DeleteBucket => deleteMutations b
  | CreateBucket => createMutations b
  | DownwardBucket => downwardMutations b
  | InsertBucket => insertMutations b
  end.

(** What an activation appends, every mutation with the list it comes
    from. *)
Definition labelled (b : Buckets) : list (BucketKind * ShadowViewMutation) :=
  map (pair DestructiveDownwardBucket) (destructiveDownwardMutations b)
  ++ map (pair UpdateBucket) (updateMutations b)
  ++ map (pair RemoveBucket) (rev (removeMutations b))
  ++ map (pair DeleteBucket) (deleteMutations b)
  ++ map (pair CreateBucket) (createMutations b)
  ++ map (pair DownwardBucket) (downwardMutations b)
  ++ map (pair InsertBucket) (insertMutations b).

(** The five lists of an activation's own mutations hold one type each. *)
Definition typed (b : Buckets) : Prop :=
  Forall (fun m => type m = Update) (updateMutations b)
  /\ Forall (fun m => type m = Remove) (removeMutations b)
  /\ Forall (fun m => type m = Delete) (deleteMutations b)
  /\ Forall (fun m => type m = Create) (createMutations b)
  /\ Forall (fun m => type m = Insert) (insertMutations b).

(** [Remove] mutations under [parent], their indices strictly increasing and
    below [bound]. *)
Definition removes_ascending (parent : ShadowView) (bound : Z)
    (l : list ShadowViewMutation) : Prop :=
  Forall (fun m => parentShadowView m = parent /\ index m < bound) l
  /\ StronglySorted (fun m1 m2 => index m1 < index m2) l.

(** What the loops of an activation keep true of its lists; [bound] is the
    position of the old cursor. *)
Definition level_inv (parent : ShadowView) (bound : Z) (b : Buckets) : Prop :=
  typed b /\ removes_ascending parent bound (removeMutations b).

(** Two children removed at the end of a list, and what the differ returns
    for it. *)
Definition shrinkOld : ShadowNode := rotateOld.
Definition shrinkNew : ShadowNode := appendOld.

Definition shrinkMutations : list ShadowViewMutation :=
  [RemoveMutation (ShadowView_of shrinkOld) (ShadowView_of (viewNode 4 0 []))
     2;
   RemoveMutation (ShadowView_of shrinkOld) (ShadowView_of (viewNode 3 0 []))
     1;
   DeleteMutation (ShadowView_of (viewNode 3 0 []));
   DeleteMutation (ShadowView_of (viewNode 4 0 []))].

(** What the differ returns for [replaceOld] and [replaceNew]. *)
Definition replaceMutations : list ShadowViewMutation :=
  [UpdateMutation (ShadowView_of replaceOld)
     (ShadowView_of (viewNode 3 5 [])) (ShadowView_of (viewNode 3 6 [])) 2;
   RemoveMutation (ShadowView_of replaceOld)
     (ShadowView_of (viewNode 2 0 [])) 0;
   DeleteMutation (ShadowView_of (viewNode 2 0 []));
   CreateMutation (ShadowView_of (viewNode 4 0 []));
   InsertMutation (ShadowView_of replaceOld)
     (ShadowView_of (viewNode 4 0 [])) 0].

(** A list [l1] is covered by a list [l2] when every mutation of [l1] that
    is not an [Update] is in [l2]. *)
Definition covered (l1 l2 : list ShadowViewMutation) : Prop :=
  forall m, In m l1 -> type m = Update \/ In m l2.

(** The mutations of the seven lists. *)
Definition members (b : Buckets) (m : ShadowViewMutation) : Prop :=
  In m (destructiveDownwardMutations b)
  \/ In m (updateMutations b)
  \/ In m (removeMutations b)
  \/ In m (deleteMutations b)
  \/ In m (createMutations b)
  \/ In m (downwardMutations b)
  \/ In m (insertMutations b).

Definition coveredBuckets (b1 b2 : Buckets) : Prop :=
  forall m, members b1 m -> type m = Update \/ members b2 m.

(** A recursive call only appends to the list it is given. *)
Definition framed (recurse : Differ) : Prop :=
  forall mutations meta parent olds news,
    recurse mutations meta parent olds news
    = '(appended, meta') ← recurse [] meta parent olds news;
      Ok (mutations ++ appended, meta').

(** Whatever a recursive call returns, the same call with reparenting
    detection disabled returns a list that covers it, and leaves the
    metadata alone. *)
Definition simulated (recurse : Differ) : Prop :=
  forall meta1 meta2 parent olds news appended1 meta1',
    enabled_ meta2 = false ->
    recurse [] meta1 parent olds news = Ok (appended1, meta1') ->
    exists appended2,
      recurse [] meta2 parent olds news = Ok (appended2, meta2)
      /\ covered appended1 appended2.

(** What the differ returns for [moveOld] and [moveNew] with reparenting
    detection enabled and disabled. *)
Definition moveOnMutations : list ShadowViewMutation :=
  [RemoveMutation (ShadowView_of (viewNode 2 0 []))
     (ShadowView_of (viewNode 9 7 [])) 0;
   UpdateMutation (ShadowView_of (viewNode 3 0 []))
     (ShadowView_of (viewNode 9 7 [])) (ShadowView_of (viewNode 9 8 []))
     (-1);
   InsertMutation (ShadowView_of (viewNode 3 0 []))
     (ShadowView_of (viewNode 9 8 [])) 0].

Definition moveOffMutations : list ShadowViewMutation :=
  [RemoveMutation (ShadowView_of (viewNode 2 0 []))
     (ShadowView_of (viewNode 9 7 [])) 0;
   DeleteMutation (ShadowView_of (viewNode 9 7 []));
   CreateMutation (ShadowView_of (viewNode 9 8 []));
   InsertMutation (ShadowView_of (viewNode 3 0 []))
     (ShadowView_of (viewNode 9 8 [])) 0].

(** A result that is not a fuel fault and, when it is a value, satisfies
    [P]. *)
Definition result_sat {A : Type} (P : A -> Prop) (r : result A) : Prop :=
  match r with
  | Ok a => P a
  | Err f => f <> OutOfFuel
  end.

(** Every value stored in a [TinyMap] satisfies [Q]. *)
Definition values_sat {V : Type} (Q : V -> Prop) (m : TinyMap.t V) : Prop :=
  Forall (fun entry => Q (snd entry)) (TinyMap.vector_ m).

(** A flattened list a recursive call may be given: the empty list, or the
    flattened children of a node that satisfies [ok]. *)
Definition sliced (ANDROID : bool) (ok : ShadowNode -> Prop)
    (pairs : list ShadowViewNodePair) : Prop :=
  pairs = []
  \/ exists n, ok n /\ pairs = sliceChildShadowNodeViewPairs ANDROID n.

(** A recursive call that does not run out of fuel on such lists. *)
Definition fuelled (ANDROID : bool) (ok : ShadowNode -> Prop)
    (recurse : Differ) : Prop :=
  forall mutations meta parent olds news,
    sliced ANDROID ok olds -> sliced ANDROID ok news ->
    result_sat (fun _ => True) (recurse mutations meta parent olds news).

(** The number of iterations the interleaved walk has left. *)
Definition walk_measure (olds news : list ShadowViewNodePair)
    (st : WalkState) : nat :=
  (length news - newIndex st) + (length olds - oldIndex st).

(** What an iteration of the walk keeps true: the cursors stay in range, and
    the nodes of the pairs in [newInsertedPairs] satisfy [ok]. *)
Definition walk_ok (ok : ShadowNode -> Prop)
    (olds news : list ShadowViewNodePair) (st : WalkState) : Prop :=
  (newIndex st <= length news)%nat
  /\ (oldIndex st <= length olds)%nat
  /\ values_sat (fun pr => ok (shadowNode pr)) (newInsertedPairs st).

(** What an iteration gains: one of the cursors advances. *)
Definition walk_advance (ok : ShadowNode -> Prop)
    (olds news : list ShadowViewNodePair) (st st' : WalkState) : Prop :=
  walk_ok ok olds news st'
  /\ (walk_measure olds news st' < walk_measure olds news st)%nat.

(** ** Vocabulary of the further properties *)

(** The live entries of a map: the entries of the vector whose key is not the
    erased sentinel, in the order of the vector. *)
Definition liveEntries {V : Type} (m : TinyMap.t V) : list (TinyMap.Pair V) :=
  List.filter (fun item => negb (TinyMap.isErased item)) (TinyMap.vector_ m).

(** The first live entry with a given key. *)
Definition firstWithKey {V : Type} (key : Z) (m : TinyMap.t V)
    : option (TinyMap.Pair V) :=
  List.find (fun item => fst item =? key) (liveEntries m).

(** A map of one live entry behind one erased entry. *)
Definition oneErased : TinyMap.t ShadowViewNodePair :=
  {| TinyMap.vector_ :=
       [(0, mkPair (ShadowView_of (viewNode 2 0 [])) (viewNode 2 0 []));
        (3, mkPair (ShadowView_of (viewNode 3 0 [])) (viewNode 3 0 []))];
     TinyMap.numErased_ := 1;
     TinyMap.erasedAtFront_ := 1 |}.

(** The order [reorderInPlaceIfNeeded] sorts by. *)
Definition orderIndexLe (a b : ShadowViewNodePair) : Prop :=
  getOrderIndex (shadowNode a) <= getOrderIndex (shadowNode b).

(** The pairs of a list with a given order index, in the order of the
    list. *)
Definition withOrderIndex (k : Z) (pairs : list ShadowViewNodePair)
    : list ShadowViewNodePair :=
  List.filter (fun pair => getOrderIndex (shadowNode pair) =? k) pairs.

(** A node that the flattener does not skip. *)
Definition notSkipped (ANDROID : bool) (n : ShadowNode) : Prop :=
  ANDROID = true \/ Hidden (getTraits n) = false.

(** [flattenedUnder ANDROID n c]: [c] is below [n], no node on the way from
    [n] down to [c], [c] included, is skipped, and no node strictly between
    them forms a stacking context. *)
Inductive flattenedUnder (ANDROID : bool) : ShadowNode -> ShadowNode -> Prop :=
| flattened_child n c :
    In c (getChildren n) -> notSkipped ANDROID c ->
    flattenedUnder ANDROID n c
| flattened_through n w c :
    In w (getChildren n) -> notSkipped ANDROID w ->
    FormsStackingContext (getTraits w) = false ->
    flattenedUnder ANDROID w c ->
    flattenedUnder ANDROID n c.

(** The nodes the flattener lists below a node, in its order: a skipped
    child contributes nothing, a stacking context itself, a view itself and
    what is listed below it, any other child what is listed below it. *)
Fixpoint flattenNodes (ANDROID : bool) (n : ShadowNode) : list ShadowNode :=
  match n with
  | mkShadowNode _ _ _ _ _ _ _ _ _ children =>
      flat_map
        (fun child =>
           if negb ANDROID && Hidden (getTraits child) then []
           else if FormsStackingContext (getTraits child) then [child]
           else (if FormsView (getTraits child) then [child] else [])
                ++ flattenNodes ANDROID child)
        children
  end.

(** A wrapper that is no view, with a hidden child, a view child and a
    stacking context; the stacking context has a child of its own. *)
Definition wrapperTree : ShadowNode :=
  mkShadowNode 1 1 "Root" 0 0 0 EmptyLayoutMetrics
    (mkTraits false false false) 0
    [mkShadowNode 2 2 "View" 0 0 0 EmptyLayoutMetrics
       (mkTraits true true true) 0 [viewNode 5 0 []];
     mkShadowNode 3 3 "View" 0 0 0
       (mkLayoutMetrics (mkRect (mkPoint 10 20) (mkSize 5 5)) 0)
       (mkTraits true false false) 2
       [mkShadowNode 6 6 "View" 0 0 0
          (mkLayoutMetrics (mkRect (mkPoint 1 2) (mkSize 3 3)) 0)
          (mkTraits true true false) 0 []];
     mkShadowNode 4 4 "View" 0 0 0 EmptyLayoutMetrics
       (mkTraits true true false) 1 [viewNode 7 0 []]].

(** The view of a pair shows its node: every field but the origin of the
    frame is the node's, and the whole view is the node's when the node has
    no layout. *)
Definition projectsNode (pr : ShadowViewNodePair) : Prop :=
  let v := shadowView pr in
  let w := ShadowView_of (shadowNode pr) in
  tag v = tag w
  /\ componentName v = componentName w
  /\ props v = props w
  /\ eventEmitter v = eventEmitter w
  /\ state v = state w
  /\ size (frame (layoutMetrics v)) = size (frame (layoutMetrics w))
  /\ otherMetrics (layoutMetrics v) = otherMetrics (layoutMetrics w)
  /\ (LayoutMetrics_eqb (layoutMetrics w) EmptyLayoutMetrics = true -> v = w).

(** What holds of the recursion of the flattener at one node: it only appends
    to the list it is given, the nodes of what it appends are [flattenNodes],
    whatever the offset, and the views of what it appends show their
    nodes. *)
Definition sliceRec_good (ANDROID : bool) (n : ShadowNode) : Prop :=
  forall pairList layoutOffset,
    sliceChildShadowNodeViewPairsRecursively ANDROID pairList layoutOffset n
    = pairList
      ++ sliceChildShadowNodeViewPairsRecursively ANDROID [] layoutOffset n
    /\ map shadowNode
         (sliceChildShadowNodeViewPairsRecursively ANDROID [] layoutOffset n)
       = flattenNodes ANDROID n
    /\ Forall projectsNode
         (sliceChildShadowNodeViewPairsRecursively ANDROID [] layoutOffset n).

(** The tag of the view of a pair. *)
Definition pairTag (pr : ShadowViewNodePair) : Tag := tag (shadowView pr).

(** The [Update] mutations for two lists that are walked in lockstep from
    position [index]: one for every position whose two views differ. *)
Fixpoint alignedUpdates (parent : ShadowView)
    (olds news : list ShadowViewNodePair) (index : nat)
    : list ShadowViewMutation :=
  match olds, news with
  | o :: olds', n :: news' =>
      (if negb (ShadowView_eqb (shadowView o) (shadowView n))
       then [UpdateMutation parent (shadowView o) (shadowView n)
               (Z.of_nat index)]
       else [])
      ++ alignedUpdates parent olds' news' (S index)
  | _, _ => []
  end.

(** A [Remove] of the pair in slot [index m] of [olds], under [parent]. *)
Definition removesSlot (parent : ShadowView) (olds : list ShadowViewNodePair)
    (m : ShadowViewMutation) : Prop :=
  exists (i : nat) pr,
    olds !! i = Some pr
    /\ m = RemoveMutation parent (shadowView pr) (Z.of_nat i).

(** An [Insert] of the pair in slot [index m] of [news], under [parent]. *)
Definition insertsSlot (parent : ShadowView) (news : list ShadowViewNodePair)
    (m : ShadowViewMutation) : Prop :=
  exists (i : nat) pr,
    news !! i = Some pr
    /\ m = InsertMutation parent (shadowView pr) (Z.of_nat i).

Definition slots_inv (parent : ShadowView)
    (olds news : list ShadowViewNodePair) (b : Buckets) : Prop :=
  Forall (removesSlot parent olds) (removeMutations b)
  /\ Forall (insertsSlot parent news) (insertMutations b).

(** The tags of a node and of everything below it, the node first. *)
Fixpoint subtreeTags (n : ShadowNode) : list Tag :=
  match n with
  | mkShadowNode _ _ _ _ _ _ _ _ _ children =>
      getTag n :: flat_map subtreeTags children
  end.

(** A tree whose tags are pairwise distinct and none of which is [0], the
    key [TinyMap] keeps for erased entries. *)
Definition wellTagged (n : ShadowNode) : Prop :=
  NoDup (subtreeTags n) /\ Forall (fun t => t <> 0) (subtreeTags n).

(** The keys of the live entries of a map. *)
Definition liveKeys {V : Type} (m : TinyMap.t V) : list Z :=
  map fst (liveEntries m).

(** A list of pairs with pairwise distinct non-zero tags whose nodes satisfy
    [ok]. *)
Definition goodPairs (ok : ShadowNode -> Prop)
    (pairs : list ShadowViewNodePair) : Prop :=
  NoDup (map pairTag pairs)
  /\ Forall (fun pr => pairTag pr <> 0 /\ ok (shadowNode pr)) pairs.

(** A recursive call that, with reparenting detection disabled, returns a
    list and the metadata it was given. *)
Definition safe (ANDROID : bool) (ok : ShadowNode -> Prop)
    (recurse : Differ) : Prop :=
  forall mutations meta parent olds news,
    enabled_ meta = false ->
    sliced ANDROID ok olds -> sliced ANDROID ok news ->
    exists mutations',
      recurse mutations meta parent olds news = Ok (mutations', meta).

(** What an iteration of the walk keeps true when detection is disabled: the
    cursors stay in range, both scratch maps keep the invariant of [TinyMap],
    and every key that is live in [newRemainingPairs] is the tag of a new
    pair at or behind the new cursor, or live in [newInsertedPairs], or the
    tag of an old pair in front of the old cursor. *)
Definition walk_safe (ok : ShadowNode -> Prop)
    (olds news : list ShadowViewNodePair) (st : WalkState) : Prop :=
  walk_ok ok olds news st
  /\ enabled_ (walk_meta st) = false
  /\ TinyMap.invariant (newRemainingPairs st)
  /\ TinyMap.invariant (newInsertedPairs st)
  /\ (forall t, In t (liveKeys (newRemainingPairs st)) ->
        In t (map pairTag (drop (newIndex st) news))
        \/ In t (liveKeys (newInsertedPairs st))
        \/ In t (map pairTag (take (oldIndex st) olds))).

(** A tree of three levels with distinct tags, and the tree it becomes:
    children reordered, one removed, one added, one moved below another
    parent. *)
Definition shuffleOld : ShadowNode :=
  viewNode 1 0
    [viewNode 2 0 [viewNode 5 0 []; viewNode 6 0 []];
     viewNode 3 0 [];
     viewNode 4 0 [viewNode 7 0 []]].
Definition shuffleNew : ShadowNode :=
  viewNode 1 0
    [viewNode 4 0 [viewNode 7 1 []; viewNode 6 0 []];
     viewNode 8 0 [];
     viewNode 2 0 [viewNode 5 0 []]].

(** What an iteration of the walk gains when detection is disabled: the
    state it reaches is safe again, one of the cursors has advanced, and the
    metadata is the one it started with. *)
Definition walk_safe_advance (ok : ShadowNode -> Prop)
    (olds news : list ShadowViewNodePair) (st st' : WalkState) : Prop :=
  walk_safe ok olds news st'
  /\ walk_meta st' = walk_meta st
  /\ (walk_measure olds news st' < walk_measure olds news st)%nat.

(** The second child changes its props and nothing else changes. *)
Definition restyleNew : ShadowNode :=
  viewNode 1 0 [viewNode 2 0 []; viewNode 3 6 []].

(** The lists of the activation at the root for [replaceOld] and
    [restyleNew]. *)
Definition restyleBuckets : Buckets :=
  mkBuckets [] [] [] []
    [UpdateMutation (ShadowView_of replaceOld)
       (ShadowView_of (viewNode 3 5 [])) (ShadowView_of (viewNode 3 6 [])) 1]
    [] [].

(** The lists of the activation at the root for [replaceOld] and
    [replaceNew]. *)
Definition replaceBuckets : Buckets :=
  mkBuckets
    [CreateMutation (ShadowView_of (viewNode 4 0 []))]
    [DeleteMutation (ShadowView_of (viewNode 2 0 []))]
    [InsertMutation (ShadowView_of replaceOld)
       (ShadowView_of (viewNode 4 0 [])) 0]
    [RemoveMutation (ShadowView_of replaceOld)
       (ShadowView_of (viewNode 2 0 [])) 0]
    [UpdateMutation (ShadowView_of replaceOld)
       (ShadowView_of (viewNode 3 5 [])) (ShadowView_of (viewNode 3 6 [])) 2]
    [] [].

(** The lists of the activation at the root for [shrinkOld] and
    [shrinkNew]. *)
Definition shrinkBuckets : Buckets :=
  mkBuckets []
    [DeleteMutation (ShadowView_of (viewNode 3 0 []));
     DeleteMutation (ShadowView_of (viewNode 4 0 []))]
    []
    [RemoveMutation (ShadowView_of shrinkOld)
       (ShadowView_of (viewNode 3 0 [])) 1;
     RemoveMutation (ShadowView_of shrinkOld)
       (ShadowView_of (viewNode 4 0 [])) 2]
    [] [] [].

(** The lists of the activation at the root for [appendOld] and
    [appendNew]. *)
Definition appendBuckets : Buckets :=
  mkBuckets
    [CreateMutation (ShadowView_of (viewNode 3 0 []))]
    []
    [InsertMutation (ShadowView_of appendOld)
       (ShadowView_of (viewNode 3 0 [])) 1]
    [] [] [] [].

(** The slot a [Remove] or an [Insert] names. *)
Definition slot (m : ShadowViewMutation) : nat := Z.to_nat (index m).

(** A list without the elements in the given slots; [pos] is the slot of the
    first element. *)
Fixpoint withoutSlots {A : Type} (slots : list nat) (pos : nat) (l : list A)
    : list A :=
  match l with
  | [] => []
  | x :: l' =>
      if existsb (Nat.eqb pos) slots
      then withoutSlots slots (S pos) l'
      else x :: withoutSlots slots (S pos) l'
  end.

(** What the stages of an activation keep true of its [Remove] and [Insert]
    mutations when the old cursor is at [oi] and the new cursor at [ni]: the
    slots of both lists ascend and are in front of the cursors, and the old
    pairs in front of the old cursor that are not removed have the tags of
    the new pairs in front of the new cursor that are not inserted, in the
    same order. *)
Definition align_inv (olds news : list ShadowViewNodePair) (oi ni : nat)
    (b : Buckets) : Prop :=
  (oi <= length olds)%nat
  /\ (ni <= length news)%nat
  /\ StronglySorted lt (map slot (removeMutations b))
  /\ Forall (fun s => (s < oi)%nat) (map slot (removeMutations b))
  /\ StronglySorted lt (map slot (insertMutations b))
  /\ Forall (fun s => (s < ni)%nat) (map slot (insertMutations b))
  /\ map pairTag
       (withoutSlots (map slot (removeMutations b)) 0 (take oi olds))
     = map pairTag
         (withoutSlots (map slot (insertMutations b)) 0 (take ni news)).

(** A [Delete] whose view some [Remove] of the list [removes] takes out from
    under [parent]. *)
Definition deletesRemoved (parent : ShadowView)
    (removes : list ShadowViewMutation) (m : ShadowViewMutation) : Prop :=
  exists v i, m = DeleteMutation v /\ In (RemoveMutation parent v i) removes.

(** A [Create] whose view some [Insert] of the list [inserts] puts under
    [parent]. *)
Definition createsInserted (parent : ShadowView)
    (inserts : list ShadowViewMutation) (m : ShadowViewMutation) : Prop :=
  exists v i, m = CreateMutation v /\ In (InsertMutation parent v i) inserts.

Definition paired (parent : ShadowView) (b : Buckets) : Prop :=
  Forall (deletesRemoved parent (removeMutations b)) (deleteMutations b)
  /\ Forall (createsInserted parent (insertMutations b)) (createMutations b).

(** A pair that the list [inserts] puts under [parent]. *)
Definition insertedUnder (parent : ShadowView)
    (inserts : list ShadowViewMutation) (pr : ShadowViewNodePair) : Prop :=
  exists i, In (InsertMutation parent (shadowView pr) i) inserts.

(** Whether a list of pairs has a pair with a given tag. *)
Definition hasTag (t : Tag) (pairs : list ShadowViewNodePair) : bool :=
  existsb (fun pr => pairTag pr =? t) pairs.

(** A pair whose tag no pair of [others] has. *)
Definition goneFrom (others : list ShadowViewNodePair)
    (pr : ShadowViewNodePair) : bool :=
  negb (hasTag (pairTag pr) others).

(** The entry [newInsertedPairs] holds for a pair. *)
Definition entryOf (pr : ShadowViewNodePair)
    : TinyMap.Pair ShadowViewNodePair :=
  (pairTag pr, pr).

(** What the interleaved walk keeps true when detection is disabled and the
    tags of each list are pairwise distinct; [k] is the slot where stage 1
    stopped.  The [Delete] mutations are those of the old pairs in front of
    the old cursor whose tag the new list does not have; no [Create] is
    emitted yet; the live entries of [newInsertedPairs] are the new pairs
    between [k] and the new cursor whose tag no old pair in front of the old
    cursor has; every new pair at or behind the new cursor is live in
    [newRemainingPairs] and has a tag no old pair in front of the old cursor
    has. *)
Definition exact_inv (k : nat) (olds news : list ShadowViewNodePair)
    (st : WalkState) : Prop :=
  (k <= oldIndex st <= length olds)%nat
  /\ (k <= newIndex st <= length news)%nat
  /\ enabled_ (walk_meta st) = false
  /\ TinyMap.invariant (newRemainingPairs st)
  /\ TinyMap.invariant (newInsertedPairs st)
  /\ deleteMutations (walk_buckets st)
     = map (fun pr => DeleteMutation (shadowView pr))
         (List.filter (goneFrom news) (take (oldIndex st) olds))
  /\ createMutations (walk_buckets st) = []
  /\ liveEntries (newInsertedPairs st)
     = map entryOf
         (List.filter (goneFrom (take (oldIndex st) olds))
            (drop k (take (newIndex st) news)))
  /\ Forall (fun n => In (pairTag n) (liveKeys (newRemainingPairs st)))
       (drop (newIndex st) news)
  /\ Forall (fun n => goneFrom (take (oldIndex st) olds) n = true)
       (drop (newIndex st) news).

(** The number of leading slots in which two lists have the same tag: the
    slot where stage 1 stops. *)
Fixpoint matchedPrefix (olds news : list ShadowViewNodePair) : nat :=
  match olds, news with
  | o :: olds', n :: news' =>
      if pairTag o =? pairTag n then S (matchedPrefix olds' news') else O
  | _, _ => O
  end.

(** The first pair of a list that has the tag of a given pair. *)
Definition partner (pairs : list ShadowViewNodePair)
    (pr : ShadowViewNodePair) : option ShadowViewNodePair :=
  List.find (fun other => pairTag other =? pairTag pr) pairs.

(** The [Update] for an old pair behind the slots of stage 1: one when the
    new list has its tag with another view, none otherwise. *)
Definition updateFor (parent : ShadowView) (news : list ShadowViewNodePair)
    (index : Z) (o : ShadowViewNodePair) : list ShadowViewMutation :=
  match partner news o with
  | Some n =>
      if negb (ShadowView_eqb (shadowView o) (shadowView n))
      then [UpdateMutation parent (shadowView o) (shadowView n) index]
      else []
  | None => []
  end.

(** What the interleaved walk keeps true of its [Update] mutations when
    detection is disabled: behind the ones of stage 1, [updates0], there is
    one for every old pair between [k] and the old cursor whose tag the new
    list has with another view. *)
Definition updates_inv (parent : ShadowView) (k : nat) (index : nat)
    (updates0 : list ShadowViewMutation)
    (olds news : list ShadowViewNodePair) (st : WalkState) : Prop :=
  updateMutations (walk_buckets st)
  = updates0
    ++ flat_map (updateFor parent news (Z.of_nat index))
         (drop k (take (oldIndex st) olds)).

(** [orderedIn before l after]: in the list [before ++ l ++ after], every
    [Delete] that is in [l] has a [Remove] of its view in front of it, and
    every [Create] that is in [l] has an [Insert] of its view behind it. *)
Definition orderedIn (before l after : list ShadowViewMutation) : Prop :=
  forall l1 m l2,
    l = l1 ++ m :: l2 ->
    (forall v, m = DeleteMutation v ->
       exists p i, In (RemoveMutation p v i) (before ++ l1))
    /\ (forall v, m = CreateMutation v ->
          exists p i, In (InsertMutation p v i) (l2 ++ after)).

(** A list in which a view is removed from its parent before it is deleted
    and created before it is inserted. *)
Definition wellOrdered (l : list ShadowViewMutation) : Prop :=
  orderedIn [] l [].

(** A recursive call that keeps a list well ordered. *)
Definition ordering (recurse : Differ) : Prop :=
  forall mutations meta parent olds news mutations' meta',
    recurse mutations meta parent olds news = Ok (mutations', meta') ->
    wellOrdered mutations -> wellOrdered mutations'.

(** The two lists of an activation that the recursive calls fill are well
    ordered. *)
Definition nested_ordered (b : Buckets) : Prop :=
  wellOrdered (downwardMutations b)
  /\ wellOrdered (destructiveDownwardMutations b).

(** Whether a node has layout metrics of its own. *)
Definition hasLayout (n : ShadowNode) : bool :=
  negb (LayoutMetrics_eqb (layoutMetrics (ShadowView_of n))
          EmptyLayoutMetrics).

(** The offset the flattener hands to the children of a node it goes
    through. *)
Definition offsetBelow (layoutOffset : Point) (n : ShadowNode) : Point :=
  if hasLayout n
  then Point_add layoutOffset
         (origin (frame (layoutMetrics (ShadowView_of n))))
  else layoutOffset.

(** The view the flattener lists for a node it meets at an offset. *)
Definition viewAt (layoutOffset : Point) (n : ShadowNode) : ShadowView :=
  if hasLayout n
  then
    {| tag := tag (ShadowView_of n);
       componentName := componentName (ShadowView_of n);
       props := props (ShadowView_of n);
       eventEmitter := eventEmitter (ShadowView_of n);
       layoutMetrics :=
         {| frame :=
              {| origin :=
                   Point_add
                     (origin (frame (layoutMetrics (ShadowView_of n))))
                     layoutOffset;
                 size := size (frame (layoutMetrics (ShadowView_of n))) |};
            otherMetrics := otherMetrics (layoutMetrics (ShadowView_of n)) |};
       state := state (ShadowView_of n) |}
  else ShadowView_of n.

(** [flattenedAt ANDROID n offset c offset']: the flattener, at [n] with
    [offset], meets [c] with [offset']; on the way down it goes through nodes
    that are not skipped and form no stacking context, and each of them that
    has layout metrics adds its origin to the offset. *)
Inductive flattenedAt (ANDROID : bool)
    : ShadowNode -> Point -> ShadowNode -> Point -> Prop :=
| flattenedAt_child n offset c :
    In c (getChildren n) -> notSkipped ANDROID c ->
    flattenedAt ANDROID n offset c offset
| flattenedAt_through n offset w c offset' :
    In w (getChildren n) -> notSkipped ANDROID w ->
    FormsStackingContext (getTraits w) = false ->
    flattenedAt ANDROID w (offsetBelow offset w) c offset' ->
    flattenedAt ANDROID n offset c offset'.

(** The number of the records of a map that flag a mutation for erasure:
    the records [removeUselessRecords] keeps. *)
Definition flaggedIn (records : gmap Z OperationsOnTag) : nat :=
  base.size (filter (fun kv => shouldEraseOp (snd kv) <> 0) records).

Definition flaggedRecords (meta : ReparentingMetadata) : nat :=
  flaggedIn (tagsToOperations_ meta).

(** The count of reparenting operations covers the flagged records. *)
Definition counted (meta : ReparentingMetadata) : Prop :=
  Z.of_nat (flaggedRecords meta) <= reparentingOperations_ meta.

(** [metaKept P]: the four operations of the metadata that the differ calls
    keep the property [P]. *)
Definition metaKept (P : ReparentingMetadata -> Prop) : Prop :=
  (forall parentTag' node index meta shouldRemove shouldDelete update meta',
     shouldRemoveDeleteUpdate parentTag' node index meta
     = Ok (shouldRemove, shouldDelete, update, meta') ->
     P meta -> P meta')
  /\ (forall parentTag' node index meta shouldInsert shouldCreate update
        meta',
        shouldCreateInsertUpdate parentTag' node index meta
        = Ok (shouldInsert, shouldCreate, update, meta') ->
        P meta -> P meta')
  /\ (forall node meta shouldCreate update meta',
        shouldCreateUpdate node meta = Ok (shouldCreate, update, meta') ->
        P meta -> P meta')
  /\ (forall parentTag' node index meta,
        P meta -> P (markInserted parentTag' node index meta)).

(** [keepsMeta P recurse]: a differ that keeps the property [P] of the
    metadata. *)
Definition keepsMeta (P : ReparentingMetadata -> Prop) (recurse : Differ)
    : Prop :=
  forall mutations meta parent olds news mutations' meta',
    recurse mutations meta parent olds news = Ok (mutations', meta') ->
    P meta -> P meta'.

(** What the recursive differ returns for [moveOld] and [moveNew] with
    reparenting detection enabled, before the pruning pass: the mutations and
    the metadata. *)
Definition moveUnpruned : list ShadowViewMutation :=
  [RemoveMutation (ShadowView_of (viewNode 2 0 [viewNode 9 7 []]))
     (ShadowView_of (viewNode 9 7 [])) 0;
   DeleteMutation (ShadowView_of (viewNode 9 7 []));
   UpdateMutation (ShadowView_of (viewNode 3 0 []))
     (ShadowView_of (viewNode 9 7 [])) (ShadowView_of (viewNode 9 8 [])) (-1);
   InsertMutation (ShadowView_of (viewNode 3 0 []))
     (ShadowView_of (viewNode 9 8 [])) 0].

Definition moveMetadata : ReparentingMetadata :=
  {| enabled_ := true;
     reparentingOperations_ := 1;
     tagsToOperations_ :=
       {[ 9 := {| shouldEraseOp := Type_bit Delete;
                  opExists := Z.lor (Type_bit Remove) (Type_bit Delete);
                  removeInsertIndex := 0;
                  parentTag := 2;
                  oldNode := Some (viewNode 9 7 []);
                  newNode := None |} ]} |}.

(** What the pruning pass keeps true of the metadata once
    [removeUselessRecords] has run: every record flags a mutation for
    erasure, and the count of reparenting operations covers the records. *)
Definition pruning_inv (meta : ReparentingMetadata) : Prop :=
  (forall t op,
     tagsToOperations_ meta !! t = Some op -> shouldEraseOp op <> 0)
  /\ Z.of_nat (base.size (tagsToOperations_ meta))
     <= reparentingOperations_ meta.

(** [firstOf m before]: no mutation of [before] has both the tag and the type
    of [m]. *)
Definition firstOf (m : ShadowViewMutation)
    (before : list ShadowViewMutation) : Prop :=
  Forall (fun m' => mutationTag m' = mutationTag m -> type m' <> type m)
    before.

(* ================================================================== *)
(** * Properties *)
(* ================================================================== *)

(** ** Results *)

Lemma bind_Ok {A B : Type} (r : result A) (k : A -> result B) (b : B) :
  r ≫= k = Ok b -> exists a, r = Ok a /\ k a = Ok b.
Proof.
  destruct r as [a|f]; simpl; intros H; [eauto | discriminate].
Qed.

(** ** TinyMap *)

Lemma size_t_of_int_nonneg (n : Z) : 0 <= n -> size_t_of_int n = n.
Proof.
  intros Hn. unfold size_t_of_int.
  destruct (Z.ltb_spec n 0); [lia | reflexivity].
Qed.

Section TinyMapFacts.
Context {V : Type}.
Implicit Types (m : TinyMap.t V) (l : list (TinyMap.Pair V)).

Lemma filter_live_no_erased l :
  List.filter TinyMap.isErased
    (List.filter (fun item => negb (TinyMap.isErased item)) l) = [].
Proof.
  induction l as [|p l IH]; simpl; [reflexivity|].
  destruct (TinyMap.isErased p) eqn:E; simpl; [exact IH|].
  rewrite E. exact IH.
Qed.

Lemma erased_le_length l :
  (length (List.filter TinyMap.isErased l) <= length l)%nat.
Proof.
  induction l as [|p l IH]; simpl; [lia|].
  destruct (TinyMap.isErased p); simpl; lia.
Qed.

Lemma erased_lt_length l (n : nat) p :
  l !! n = Some p -> TinyMap.isErased p = false ->
  (length (List.filter TinyMap.isErased l) < length l)%nat.
Proof.
  revert n. induction l as [|q l IH]; intros [|n] Hl Hp; simpl in *;
    try discriminate.
  - injection Hl as ->. rewrite Hp. pose proof (erased_le_length l). lia.
  - specialize (IH n Hl Hp). destruct (TinyMap.isErased q); simpl; lia.
Qed.

Lemma erased_after_zeroing l (n : nat) p q :
  l !! n = Some p -> TinyMap.isErased p = false ->
  TinyMap.isErased q = true ->
  length (List.filter TinyMap.isErased (<[n := q]> l))
  = S (length (List.filter TinyMap.isErased l)).
Proof.
  revert n. induction l as [|r l IH]; intros [|n] Hl Hp Hq; simpl in *;
    try discriminate.
  - injection Hl as ->. rewrite Hp, Hq. reflexivity.
  - specialize (IH n Hl Hp Hq).
    destruct (TinyMap.isErased r); simpl; rewrite IH; reflexivity.
Qed.

Lemma live_length_lt l :
  (0 < length (List.filter TinyMap.isErased l))%nat ->
  (length (List.filter (fun item => negb (TinyMap.isErased item)) l)
   < length l)%nat.
Proof.
  induction l as [|p l IH]; simpl; [lia|].
  destruct (TinyMap.isErased p) eqn:E; simpl; intros H.
  - assert (length (List.filter (fun item => negb (TinyMap.isErased item)) l)
            <= length l)%nat; [|lia].
    clear. induction l as [|q l IH]; simpl; [lia|].
    destruct (TinyMap.isErased q); simpl; lia.
  - specialize (IH H). lia.
Qed.

Lemma invariant_empty : TinyMap.invariant (@TinyMap.empty V).
Proof.
  unfold TinyMap.invariant, TinyMap.count_erased, TinyMap.size; simpl.
  repeat split; try lia. constructor.
Qed.

Lemma invariant_compacted m : TinyMap.invariant (TinyMap.compacted m).
Proof.
  unfold TinyMap.invariant, TinyMap.count_erased, TinyMap.size,
    TinyMap.compacted; simpl.
  rewrite filter_live_no_erased. simpl.
  repeat split; try lia. constructor.
Qed.

(** Under the invariant a full [clear()] and the removal of the erased
    entries are the same compaction. *)
Lemma all_erased_filter l :
  length (List.filter TinyMap.isErased l) = length l ->
  List.filter (fun item => negb (TinyMap.isErased item)) l = [].
Proof.
  induction l as [|p l IH]; simpl; [reflexivity|].
  destruct (TinyMap.isErased p) eqn:E; simpl; intros H.
  - apply IH. lia.
  - pose proof (erased_le_length l). lia.
Qed.

Lemma cleanVector_spec forceClean m :
  TinyMap.invariant m ->
  TinyMap.cleanVector forceClean m
  = if TinyMap.compacts forceClean m then TinyMap.compacted m else m.
Proof.
  intros (H0 & H1 & H2 & H3 & H4).
  unfold TinyMap.cleanVector, TinyMap.cleanVector_skips, TinyMap.compacts.
  rewrite !size_t_of_int_nonneg by lia.
  destruct (TinyMap.vector_empty m); simpl;
    [rewrite orb_true_r; reflexivity|].
  rewrite orb_false_r.
  destruct (Z.eqb_spec (TinyMap.numErased_ m) 0); simpl;
    [rewrite orb_true_r; reflexivity|].
  rewrite orb_false_r.
  destruct (Z.eqb_spec (TinyMap.numErased_ m) (TinyMap.erasedAtFront_ m));
    simpl; [rewrite orb_true_r; reflexivity|].
  rewrite orb_false_r.
  destruct (Z.ltb_spec (TinyMap.numErased_ m) (TinyMap.size m / 2)),
    (Z.leb_spec (TinyMap.size m / 2) (TinyMap.numErased_ m)); try lia;
    simpl; destruct forceClean; simpl; try reflexivity.
  all: unfold TinyMap.compacted; f_equal.
  all: destruct (Z.eqb_spec (TinyMap.numErased_ m) (TinyMap.size m));
    [|reflexivity].
  all: symmetry; apply all_erased_filter.
  all: unfold TinyMap.count_erased, TinyMap.size in *; lia.
Qed.

Lemma cleanVector_invariant forceClean m :
  TinyMap.invariant m -> TinyMap.invariant (TinyMap.cleanVector forceClean m).
Proof.
  intros H. rewrite cleanVector_spec by exact H.
  destruct (TinyMap.compacts forceClean m); [apply invariant_compacted | exact H].
Qed.

Lemma insert_invariant pair m m' :
  TinyMap.invariant m -> TinyMap.insert pair m = Ok m' ->
  fst pair <> 0 -> TinyMap.invariant m'.
Proof.
  intros (H0 & H1 & H2 & H3 & H4) Hins Hkey.
  unfold TinyMap.insert in Hins.
  destruct (Z.eqb_spec (fst pair) 0) as [|_]; [contradiction|].
  injection Hins as <-.
  unfold TinyMap.invariant, TinyMap.count_erased, TinyMap.size in *; simpl.
  rewrite List.filter_app, !length_app. simpl.
  unfold TinyMap.isErased at 2.
  destruct (Z.eqb_spec (fst pair) 0) as [|_]; [contradiction|]. simpl.
  repeat split; try lia.
  rewrite take_app_le by lia. exact H4.
Qed.

Lemma find_state key m it m' :
  TinyMap.find key m = Ok (it, m') -> m' = TinyMap.cleanVector false m.
Proof.
  unfold TinyMap.find. intros H.
  destruct (key =? 0); [discriminate|].
  destruct (TinyMap.begin_ _); [|congruence].
  destruct (TinyMap.scan _ _ _); congruence.
Qed.

Lemma begin_state m :
  snd (TinyMap.begin m)
  = TinyMap.cleanVector
      (negb (TinyMap.erasedAtFront_ m =? TinyMap.numErased_ m)) m.
Proof.
  unfold TinyMap.begin. destruct (TinyMap.begin_ _); reflexivity.
Qed.

Lemma erase_invariant it m m' :
  TinyMap.invariant m -> TinyMap.live it m -> TinyMap.erase it m = Ok m' ->
  TinyMap.invariant m'.
Proof.
  intros (H0 & H1 & H2 & H3 & H4) (p & Hp & Hkey) Her.
  unfold TinyMap.erase in Her. rewrite Hp in Her.
  destruct p as [k v], it as [i|]; [|discriminate]. simpl in Hkey.
  unfold TinyMap.deref in Hp.
  destruct (Z.ltb_spec i 0) as [|Hi]; [discriminate|].
  assert (Hlive : TinyMap.isErased (k, v) = false).
  { unfold TinyMap.isErased; simpl. destruct (Z.eqb_spec k 0); congruence. }
  pose proof (erased_lt_length _ _ _ Hp Hlive) as Hlt.
  pose proof (erased_after_zeroing _ _ _ (0, v) Hp Hlive eq_refl) as Hcnt.
  pose proof (lookup_lt_Some _ _ _ Hp) as Hrange.
  assert (Hfront : TinyMap.erasedAtFront_ m <= i).
  { destruct (Z.le_gt_cases (TinyMap.erasedAtFront_ m) i) as [|Hgt];
      [assumption|exfalso].
    rewrite Forall_forall in H4. apply Hkey.
    apply (H4 (k, v)).
    apply (list_elem_of_lookup_2 _ (Z.to_nat i)).
    rewrite lookup_take_lt by lia. exact Hp. }
  unfold TinyMap.begin_, TinyMap.vector_empty, TinyMap.size in Her.
  simpl in Her. rewrite size_t_of_int_nonneg in Her by lia.
  rewrite length_insert in Her.
  destruct (<[Z.to_nat i:=(0, v)]> (TinyMap.vector_ m)) as [|hd tl] eqn:Hvec.
  { apply (f_equal length) in Hvec. rewrite length_insert in Hvec.
    simpl in Hvec. lia. }
  simpl in Her.
  unfold TinyMap.count_erased, TinyMap.size in *.
  destruct (Z.eqb_spec (Z.of_nat (length (TinyMap.vector_ m)))
              (TinyMap.numErased_ m)) as [Heq|_]; [lia|].
  simpl in Her. rewrite <- Hvec in Her.
  destruct (Z.eqb_spec i (0 + TinyMap.erasedAtFront_ m)) as [Hie|Hine];
    injection Her as <-;
    unfold TinyMap.invariant, TinyMap.count_erased, TinyMap.size; simpl;
    unfold TinyMap.Pair in *; rewrite Hcnt, length_insert.
  - repeat split; try lia.
    replace (Z.to_nat (TinyMap.erasedAtFront_ m + 1))
      with (S (Z.to_nat i)) by lia.
    rewrite (take_S_r _ _ (0, v)).
    + rewrite take_insert_ge by lia.
      apply Forall_app. split.
      * replace (Z.to_nat i) with (Z.to_nat (TinyMap.erasedAtFront_ m))
          by lia. exact H4.
      * constructor; [reflexivity | constructor].
    + apply list_lookup_insert_eq. exact Hrange.
  - repeat split; try lia.
    rewrite take_insert_ge by lia. exact H4.
Qed.

(** C10: every map that a sequence of public operations reaches from the
    empty map, with [insert] given non-zero keys and [erase] given live
    iterators, satisfies [0 <= erasedAtFront_ <= numErased_ <= size], has
    exactly [numErased_] zero-keyed entries, and has zero keys in its first
    [erasedAtFront_] entries: [insert], [find], [begin] and [erase]
    preserve the invariant, and [end] does not touch the map. *)
Theorem TinyMap_invariant m : TinyMap.reachable m -> TinyMap.invariant m.
Proof.
  induction 1 as [|m m' pair _ IH Hkey Hins|m m' key it _ IH Hfind
                 |m _ IH|m m' it _ IH Hlive Her].
  - apply invariant_empty.
  - exact (insert_invariant _ _ _ IH Hins Hkey).
  - rewrite (find_state _ _ _ _ Hfind). apply cleanVector_invariant, IH.
  - rewrite begin_state. apply cleanVector_invariant, IH.
  - exact (erase_invariant _ _ _ IH Hlive Her).
Qed.
End TinyMapFacts.

Lemma frontErased_reachable : TinyMap.reachable frontErased.
Proof.
  assert (H1 : TinyMap.reachable (TinyMap.mk [(1, tt)] 0 0)).
  { apply (TinyMap.reach_insert TinyMap.empty _ (1, tt));
      [apply TinyMap.reach_empty|discriminate|reflexivity]. }
  assert (H2 : TinyMap.reachable (TinyMap.mk [(1, tt); (2, tt)] 0 0)).
  { apply (TinyMap.reach_insert _ _ (2, tt) H1);
      [discriminate|reflexivity]. }
  assert (H3 : TinyMap.reachable
                 (TinyMap.mk [(1, tt); (2, tt); (5, tt)] 0 0)).
  { apply (TinyMap.reach_insert _ _ (5, tt) H2);
      [discriminate|reflexivity]. }
  assert (H4 : TinyMap.reachable
                 (TinyMap.mk [(0, tt); (2, tt); (5, tt)] 1 1)).
  { apply (TinyMap.reach_erase
             (TinyMap.mk [(1, tt); (2, tt); (5, tt)] 0 0) _ (Some 0));
      [|exists (1, tt); split; [reflexivity|discriminate]|reflexivity].
    apply (TinyMap.reach_find _ _ 1 (Some 0) H3). reflexivity. }
  apply (TinyMap.reach_erase
           (TinyMap.mk [(0, tt); (2, tt); (5, tt)] 1 1) _ (Some 1));
    [|exists (2, tt); split; [reflexivity|discriminate]|reflexivity].
  apply (TinyMap.reach_find _ _ 2 (Some 1) H4). reflexivity.
Defined.

Lemma TinyMap_invariant_witness :
  TinyMap.reachable frontErased /\ TinyMap.invariant frontErased.
Proof.
  split.
  - exact frontErased_reachable.
  - exact (TinyMap_invariant frontErased frontErased_reachable).
Defined.

(** C5, as stated, fails: [frontErased] is reached by public operations, its
    erased count (2) is at least half of its size (3), and neither [find] nor
    [begin] removes an entry from it. *)
Lemma TinyMap_compaction_counterexample :
  TinyMap.reachable frontErased
  /\ TinyMap.size frontErased / 2 <= TinyMap.numErased_ frontErased
  /\ TinyMap.find 5 frontErased = Ok (Some 2, frontErased)
  /\ TinyMap.begin frontErased = (Some 2, frontErased).
Proof.
  split; [exact frontErased_reachable|].
  split; [vm_compute; discriminate|].
  split; reflexivity.
Qed.

(** C5 (amended): at a cleaning point of a map that satisfies the invariant,
    [find] compacts exactly when the vector is not empty, the erased count is
    neither zero nor equal to the erased-at-front counter, and the erased
    count is at least half of the size of the vector, the half rounded down;
    [begin] compacts exactly when the erased count differs from the
    erased-at-front counter.  A compaction removes the zero-keyed entries,
    which shortens the vector, and resets both counters to 0; a cleaning
    point that does not compact leaves the map as it is. *)
Theorem TinyMap_compaction_policy {V : Type} (m : TinyMap.t V) :
  TinyMap.invariant m ->
  (forall key it m', TinyMap.find key m = Ok (it, m') ->
     m' = if TinyMap.compacts false m then TinyMap.compacted m else m)
  /\ snd (TinyMap.begin m)
     = (if negb (TinyMap.erasedAtFront_ m =? TinyMap.numErased_ m)
        then TinyMap.compacted m else m)
  /\ (forall forceClean, TinyMap.compacts forceClean m = true ->
        (length (TinyMap.vector_ (TinyMap.compacted m))
         < length (TinyMap.vector_ m))%nat
        /\ TinyMap.numErased_ (TinyMap.compacted m) = 0
        /\ TinyMap.erasedAtFront_ (TinyMap.compacted m) = 0).
Proof.
  intros Hinv. split; [|split].
  - intros key it m' Hfind. rewrite (find_state _ _ _ _ Hfind).
    apply cleanVector_spec, Hinv.
  - rewrite begin_state, cleanVector_spec by exact Hinv.
    destruct Hinv as (H0 & H1 & H2 & H3 & H4).
    unfold TinyMap.compacts, TinyMap.vector_empty, TinyMap.size in *.
    destruct (Z.eqb_spec (TinyMap.erasedAtFront_ m) (TinyMap.numErased_ m))
      as [Heq|Hne]; simpl.
    + rewrite Heq, Z.eqb_refl. simpl. rewrite andb_false_r. reflexivity.
    + destruct (TinyMap.vector_ m) as [|p l]; simpl in *; [lia|].
      destruct (Z.eqb_spec (TinyMap.numErased_ m) 0); [lia|].
      destruct (Z.eqb_spec (TinyMap.numErased_ m) (TinyMap.erasedAtFront_ m));
        [lia|].
      simpl. rewrite orb_true_r. reflexivity.
  - intros forceClean Hc. split; [|split; reflexivity].
    destruct Hinv as (H0 & H1 & H2 & H3 & H4).
    unfold TinyMap.compacts in Hc.
    apply andb_prop in Hc as [Hc _]. apply andb_prop in Hc as [Hc _].
    apply andb_prop in Hc as [_ Hc].
    destruct (Z.eqb_spec (TinyMap.numErased_ m) 0); [discriminate|].
    simpl. apply live_length_lt.
    unfold TinyMap.count_erased in H3. lia.
Qed.

Lemma TinyMap_compaction_policy_witness :
  TinyMap.invariant frontErased
  /\ snd (TinyMap.begin frontErased) = frontErased.
Proof.
  assert (Hinv : TinyMap.invariant frontErased).
  { unfold TinyMap.invariant. repeat split; try (vm_compute; congruence).
    simpl. repeat constructor. }
  split; [exact Hinv|].
  exact (proj1 (proj2 (TinyMap_compaction_policy frontErased Hinv))).
Defined.

(** ** The flattener *)

(** C9: a node that forms a view and does not form a stacking context has an
    empty flattened child list, whatever its children are. *)
Theorem slice_of_leaf_view (ANDROID : bool) (node : ShadowNode) :
  FormsView (getTraits node) = true ->
  FormsStackingContext (getTraits node) = false ->
  sliceChildShadowNodeViewPairs ANDROID node = [].
Proof.
  intros Hview Hctx. unfold sliceChildShadowNodeViewPairs.
  rewrite Hview, Hctx. reflexivity.
Qed.

Lemma slice_of_leaf_view_witness :
  sliceChildShadowNodeViewPairs false
    (leafViewNode 1 [viewNode 2 0 []; viewNode 3 0 []]) = [].
Proof.
  apply (slice_of_leaf_view false
           (leafViewNode 1 [viewNode 2 0 []; viewNode 3 0 []]));
    reflexivity.
Defined.

(** ** The mutation factories *)

(** C4 fails on the code: in the list returned for scenario S2 (a child with
    tag 3 appended) the [Create] mutation holds the created view in
    [oldChildShadowView], and its [newChildShadowView] is the
    default-constructed view. *)
Theorem Create_holds_view_in_old_slot :
  calculateShadowViewMutations false appendOld appendNew false
  = Ok [CreateMutation (ShadowView_of (viewNode 3 0 []));
        InsertMutation (ShadowView_of appendOld)
          (ShadowView_of (viewNode 3 0 [])) 1]
  /\ oldChildShadowView (CreateMutation (ShadowView_of (viewNode 3 0 [])))
     = ShadowView_of (viewNode 3 0 [])
  /\ newChildShadowView (CreateMutation (ShadowView_of (viewNode 3 0 [])))
     = ShadowView_default
  /\ ShadowView_of (viewNode 3 0 []) <> ShadowView_default.
Proof.
  split; [vm_compute; reflexivity|].
  split; [reflexivity|]. split; [reflexivity|]. discriminate.
Qed.

(** ** The reparenting metadata *)

(** C6 fails on the code: when reparenting detection is enabled and the tag
    has no record, [markInserted] stores a record with the given index and
    parent tag whose [opExists] is 0, so the [Insert] bit is not set. *)
Theorem markInserted_fresh_record (parentTag' : Tag) (node : ShadowNode)
    (index : Z) (meta : ReparentingMetadata) :
  enabled_ meta = true ->
  tagsToOperations_ meta !! getTag node = None ->
  exists op,
    tagsToOperations_ (markInserted parentTag' node index meta) !! getTag node
    = Some op
    /\ removeInsertIndex op = index
    /\ parentTag op = parentTag'
    /\ opExists op = 0
    /\ has_bit (opExists op) Insert = false.
Proof.
  intros Hen Hfresh. unfold markInserted. rewrite Hen, Hfresh. simpl.
  eexists. split; [apply lookup_insert_eq|].
  repeat split.
Qed.

Lemma markInserted_fresh_record_witness :
  exists op,
    tagsToOperations_
      (markInserted 1 (viewNode 5 0 []) 0 (ReparentingMetadata_init true))
      !! getTag (viewNode 5 0 [])
    = Some op
    /\ removeInsertIndex op = 0
    /\ parentTag op = 1
    /\ opExists op = 0
    /\ has_bit (opExists op) Insert = false.
Proof.
  apply (markInserted_fresh_record 1 (viewNode 5 0 []) 0
           (ReparentingMetadata_init true)); reflexivity.
Defined.

(** ** Update indices *)

(** C7 fails on the code: the child with tag 3 is in slot 1 of the old and of
    the new list, and the [Update] mutation the interleaved walk emits for it
    has index 2, the size of the new list. *)
Theorem matched_Update_index_is_list_size :
  calculateShadowViewMutations false replaceOld replaceNew false
  = Ok replaceMutations
  /\ replaceMutations !! 0%nat
     = Some (UpdateMutation (ShadowView_of replaceOld)
               (ShadowView_of (viewNode 3 5 []))
               (ShadowView_of (viewNode 3 6 [])) 2)
  /\ shadowView <$> sliceChildShadowNodeViewPairs false replaceOld !! 1%nat
     = Some (ShadowView_of (viewNode 3 5 []))
  /\ shadowView <$> sliceChildShadowNodeViewPairs false replaceNew !! 1%nat
     = Some (ShadowView_of (viewNode 3 6 [])).
Proof.
  split; [vm_compute; reflexivity|]. repeat split.
Qed.

(** ** Equality of views *)

(** A view is equal to itself unless a coordinate of its frame is a NaN. *)
Lemma selfEqual_no_NaN (v : ShadowView) :
  selfEqual v
  = negb (is_nan (px (origin (frame (layoutMetrics v))))
          || is_nan (py (origin (frame (layoutMetrics v))))
          || is_nan (width (size (frame (layoutMetrics v))))
          || is_nan (height (size (frame (layoutMetrics v))))).
Proof.
  unfold selfEqual, ShadowView_eqb, LayoutMetrics_eqb, Rect_eqb, Point_eqb,
    Size_eqb, is_nan.
  rewrite !Z.eqb_refl, String.eqb_refl. simpl.
  destruct (PrimFloat.eqb (px _) _), (PrimFloat.eqb (py _) _),
    (PrimFloat.eqb (width _) _), (PrimFloat.eqb (height _) _); reflexivity.
Qed.

(** ** Depth of the nodes of a flattened list *)

Lemma depth_child (n c : ShadowNode) :
  In c (getChildren n) -> (depth c < depth n)%nat.
Proof.
  destruct n as [f t cn p e s l tr o children]. simpl.
  induction children as [|c' cs IH]; simpl; [contradiction|].
  intros [->|Hin]; [lia|]. specialize (IH Hin). lia.
Qed.

Section FlattenerFacts.
Variable ANDROID : bool.

Local Abbreviation sliceRec :=
  (sliceChildShadowNodeViewPairsRecursively ANDROID).

Lemma sliceRec_children pairList layoutOffset n :
  sliceRec pairList layoutOffset n
  = fold_left (sliceChild ANDROID sliceRec layoutOffset) (getChildren n)
      pairList.
Proof. destruct n; reflexivity. Qed.

Lemma sliceChild_In self layoutOffset pairList child pr :
  In pr (sliceChild ANDROID self layoutOffset pairList child) ->
  In pr pairList \/ shadowNode pr = child
  \/ exists pairList' layoutOffset',
       In pr (self pairList' layoutOffset' child)
       /\ forall q, In q pairList' -> In q pairList \/ shadowNode q = child.
Proof.
  unfold sliceChild.
  destruct (negb ANDROID && Hidden (getTraits child)); [auto|].
  set (hasMetrics := negb (LayoutMetrics_eqb _ _)).
  destruct (FormsStackingContext (getTraits child)).
  - rewrite in_app_iff. simpl. intros [H|[<-|[]]]; [auto|].
    right; left. destruct hasMetrics; reflexivity.
  - intros H. right; right. eexists _, _. split; [exact H|].
    intros q. destruct (FormsView (getTraits child)); [|auto].
    rewrite in_app_iff. simpl. intros [Hq|[<-|[]]]; [auto|].
    right. destruct hasMetrics; reflexivity.
Qed.

Lemma sliceRec_depth (k : nat) :
  forall n pairList layoutOffset pr,
    (depth n <= k)%nat ->
    In pr (sliceRec pairList layoutOffset n) ->
    In pr pairList \/ (depth (shadowNode pr) < depth n)%nat.
Proof.
  induction k as [|k IHk]; intros n pairList layoutOffset pr Hk.
  { destruct n; simpl in Hk; lia. }
  rewrite sliceRec_children.
  pose proof (depth_child n) as Hchild.
  assert (Hcs : forall c, In c (getChildren n) ->
                  (depth c <= k)%nat /\ (depth c < depth n)%nat).
  { intros c Hc. specialize (Hchild c Hc). lia. }
  clear Hchild Hk. revert pairList.
  induction (getChildren n) as [|c cs IH]; intros pairList; simpl; [auto|].
  intros Hin.
  assert (Hcs' : forall c', In c' cs ->
                   (depth c' <= k)%nat /\ (depth c' < depth n)%nat)
    by (intros c' Hc'; apply Hcs; right; exact Hc').
  destruct (IH Hcs' _ Hin) as [Hstep|Hdeep]; [|auto].
  destruct (Hcs c (or_introl eq_refl)) as [Hck Hcn].
  destruct (sliceChild_In _ _ _ _ _ Hstep)
    as [H|[H|(pl & off & H & Hpl)]]; [auto| |].
  - right. rewrite H. exact Hcn.
  - destruct (IHk _ _ _ _ Hck H) as [H'|H']; [|right; lia].
    destruct (Hpl _ H') as [H''|H'']; [auto|].
    right. rewrite H''. exact Hcn.
Qed.

Lemma slice_depth n pr :
  In pr (sliceChildShadowNodeViewPairs ANDROID n) ->
  (depth (shadowNode pr) < depth n)%nat.
Proof.
  unfold sliceChildShadowNodeViewPairs.
  destruct (negb _ && _); [contradiction|].
  intros H. destruct (sliceRec_depth (depth n) n [] _ pr (le_n _) H) as [[]|H'].
  exact H'.
Qed.

(** ** Reordering keeps the pairs *)

Lemma stable_insert_In p sorted pr :
  In pr (stable_insert p sorted) -> pr = p \/ In pr sorted.
Proof.
  induction sorted as [|q sorted IH]; simpl.
  - intros [<-|[]]. auto.
  - destruct (shouldFirstPairComesBeforeSecondOne q p); simpl.
    + intros [<-|H]; [auto|]. destruct (IH H); auto.
    + intros [<-|[<-|H]]; auto.
Qed.

Lemma reorder_In pairs pr :
  In pr (reorderInPlaceIfNeeded pairs) -> In pr pairs.
Proof.
  unfold reorderInPlaceIfNeeded.
  destruct (length pairs <? 2)%nat; [auto|].
  destruct (negb _); [auto|].
  unfold stable_sort. induction pairs as [|p pairs IH]; simpl; [auto|].
  intros H. destruct (stable_insert_In _ _ _ H) as [<-|H']; auto.
Qed.

End FlattenerFacts.

(** ** The null diff *)

Lemma set_downward_same b : set_downward (downwardMutations b) b = b.
Proof. destruct b; reflexivity. Qed.

Lemma set_destructiveDownward_same b :
  set_destructiveDownward (destructiveDownwardMutations b) b = b.
Proof. destruct b; reflexivity. Qed.

Section NullDiff.
Variable ANDROID : bool.
Variable recurse : Differ.

Lemma stage1_same parent (l : list ShadowViewNodePair) :
  (forall pr, In pr l ->
     selfEqual (shadowView pr) = true
     /\ idle_on ANDROID recurse (shadowNode pr)) ->
  forall index b meta,
    stage1 ANDROID recurse parent l l index b meta
    = Ok ((index + length l)%nat, b, meta).
Proof.
  induction l as [|pr l IH]; intros Hidle index b meta; simpl.
  - rewrite Nat.add_0_r. reflexivity.
  - rewrite Z.eqb_refl. simpl.
    destruct (Hidle pr (or_introl eq_refl)) as [Hself Hpr].
    unfold updateIfDifferent. unfold selfEqual in Hself. rewrite Hself.
    simpl. unfold updateSubtrees. rewrite !Hpr.
    destruct (negb _); simpl;
      rewrite ?set_downward_same, ?set_destructiveDownward_same;
      (rewrite IH by (intros q Hq; apply Hidle; right; exact Hq));
      do 3 f_equal; lia.
Qed.

Lemma collectMutations_same meta parent (l : list ShadowViewNodePair) :
  (forall pr, In pr l ->
     selfEqual (shadowView pr) = true
     /\ idle_on ANDROID recurse (shadowNode pr)) ->
  collectMutations ANDROID recurse meta parent l l = Ok (Buckets_init, meta).
Proof.
  intros Hidle. unfold collectMutations.
  rewrite stage1_same
    by (intros pr Hpr; apply Hidle; exact (reorder_In _ _ Hpr)).
  simpl. rewrite Nat.eqb_refl, drop_all. reflexivity.
Qed.

End NullDiff.

Lemma null_diff_rec (ANDROID : bool) (fuel : nat) :
  forall n, (depth n <= fuel)%nat ->
    selfEqualBelow ANDROID fuel n = true ->
    idle_on ANDROID (calculateShadowViewMutations_rec ANDROID fuel) n.
Proof.
  induction fuel as [|fuel IH]; intros n Hn Hself.
  { destruct n; simpl in Hn; lia. }
  intros mutations meta parent. simpl.
  unfold calculateShadowViewMutations_body.
  destruct (sliceChildShadowNodeViewPairs ANDROID n) as [|pr l] eqn:Hl;
    [reflexivity|].
  rewrite <- Hl.
  rewrite collectMutations_same.
  - simpl. unfold concatBuckets. simpl. rewrite app_nil_r. reflexivity.
  - intros q Hq. simpl in Hself.
    rewrite forallb_forall in Hself.
    pose proof (Hself q Hq) as Hboth.
    apply andb_true_iff in Hboth as [Hview Hbelow]. split; [exact Hview|].
    apply IH; [|exact Hbelow].
    pose proof (slice_depth ANDROID n q Hq). lia.
Qed.

(** C1, as stated, fails: the child of [nanTree] has a frame with a NaN
    coordinate, so its view is not equal to itself, and the diff of
    [nanTree] with itself holds an [Update] of the child, with or without
    reparenting detection. *)
Lemma null_diff_counterexample :
  selfEqual (ShadowView_of nanChild) = false
  /\ calculateShadowViewMutations false nanTree nanTree false
     = Ok [UpdateMutation (ShadowView_of nanTree) (ShadowView_of nanChild)
             (ShadowView_of nanChild) 0]
  /\ calculateShadowViewMutations false nanTree nanTree true
     = Ok [UpdateMutation (ShadowView_of nanTree) (ShadowView_of nanChild)
             (ShadowView_of nanChild) 0].
Proof.
  split; [reflexivity|]. split; vm_compute; reflexivity.
Qed.

(** C1 (amended): for every shadow node [t] whose views are equal to
    themselves (the view of [t] and the views of the flattened child lists
    below it, on every level: none of them has a NaN coordinate) and either
    value of the flag, the diff of [t] with itself returns the empty mutation
    list. *)
Theorem null_diff_of_self_equal_views (ANDROID : bool) (t : ShadowNode)
    (enableReparentingDetection : bool) :
  selfEqual (ShadowView_of t) = true ->
  selfEqualBelow ANDROID (depth t) t = true ->
  calculateShadowViewMutations ANDROID t t enableReparentingDetection = Ok [].
Proof.
  intros Hroot Hbelow.
  unfold calculateShadowViewMutations, sameFamily, nesting.
  unfold selfEqual in Hroot. rewrite !Z.eqb_refl, Hroot. simpl.
  rewrite Nat.max_id.
  rewrite (null_diff_rec ANDROID (depth t) t (le_n _) Hbelow). reflexivity.
Qed.

Lemma null_diff_of_self_equal_views_witness :
  calculateShadowViewMutations false wrapperTree wrapperTree true = Ok [].
Proof.
  apply (null_diff_of_self_equal_views false wrapperTree true);
    vm_compute; reflexivity.
Defined.

(** ** What the loops keep true of the seven lists *)

Lemma Forall_snoc {A : Type} (P : A -> Prop) (l : list A) (a : A) :
  Forall P l -> P a -> Forall P (l ++ [a]).
Proof. intros Hl Ha. apply Forall_app. split; [exact Hl|]. constructor; [exact Ha|constructor]. Qed.

Lemma level_inv_init parent : level_inv parent 0 Buckets_init.
Proof.
  split; [repeat split; constructor|]. split; constructor.
Qed.

Lemma level_inv_mono parent bound bound' b :
  bound <= bound' -> level_inv parent bound b -> level_inv parent bound' b.
Proof.
  intros Hle (Hty & Hall & Hsorted).
  split; [exact Hty|]. split; [|exact Hsorted].
  eapply Forall_impl; [exact Hall|]. simpl.
  intros m [? ?]. split; [assumption|lia].
Qed.

Lemma push_update_inv parent bound m b :
  type m = Update ->
  level_inv parent bound b -> level_inv parent bound (push_update m b).
Proof.
  intros Hm ((Hu & Hr & Hd & Hc & Hi) & Hasc).
  split; [|exact Hasc]. repeat split; try assumption.
  simpl. apply Forall_snoc; assumption.
Qed.

Lemma push_delete_inv parent bound m b :
  type m = Delete ->
  level_inv parent bound b -> level_inv parent bound (push_delete m b).
Proof.
  intros Hm ((Hu & Hr & Hd & Hc & Hi) & Hasc).
  split; [|exact Hasc]. repeat split; try assumption.
  simpl. apply Forall_snoc; assumption.
Qed.

Lemma push_create_inv parent bound m b :
  type m = Create ->
  level_inv parent bound b -> level_inv parent bound (push_create m b).
Proof.
  intros Hm ((Hu & Hr & Hd & Hc & Hi) & Hasc).
  split; [|exact Hasc]. repeat split; try assumption.
  simpl. apply Forall_snoc; assumption.
Qed.

Lemma push_insert_inv parent bound m b :
  type m = Insert ->
  level_inv parent bound b -> level_inv parent bound (push_insert m b).
Proof.
  intros Hm ((Hu & Hr & Hd & Hc & Hi) & Hasc).
  split; [|exact Hasc]. repeat split; try assumption.
  simpl. apply Forall_snoc; assumption.
Qed.

(** A [Remove] at the position of the old cursor moves the bound one up. *)
Lemma push_remove_inv parent (i : nat) view b :
  level_inv parent (Z.of_nat i) b ->
  level_inv parent (Z.of_nat (S i))
    (push_remove (RemoveMutation parent view (Z.of_nat i)) b).
Proof.
  intros ((Hu & Hr & Hd & Hc & Hi) & Hall & Hsorted).
  split; [|split]; simpl.
  - repeat split; try assumption.
    simpl. apply Forall_snoc; [assumption|reflexivity].
  - apply Forall_snoc.
    + eapply Forall_impl; [exact Hall|]. simpl.
      intros m [? ?]. split; [assumption|lia].
    + simpl. split; [reflexivity|lia].
  - apply StronglySorted_app_2; [|exact Hsorted|repeat constructor].
    intros m1 m2 H1 H2. apply list_elem_of_singleton in H2 as ->. simpl.
    rewrite Forall_forall in Hall. apply (Hall m1 H1).
Qed.

Lemma set_downward_inv parent bound l b :
  level_inv parent bound b -> level_inv parent bound (set_downward l b).
Proof. intros H. exact H. Qed.

Lemma set_destructiveDownward_inv parent bound l b :
  level_inv parent bound b ->
  level_inv parent bound (set_destructiveDownward l b).
Proof. intros H. exact H. Qed.

Lemma updateIfDifferent_inv parent bound p old new i b :
  level_inv parent bound b ->
  level_inv parent bound (updateIfDifferent p old new i b).
Proof.
  intros H. unfold updateIfDifferent.
  destruct (negb _); [|exact H]. apply push_update_inv; [reflexivity|exact H].
Qed.

Section LevelInvariant.
Variable ANDROID : bool.
Variable recurse : Differ.

Lemma updateSubtrees_inv parent bound b meta p oldGrand newGrand b' meta' :
  updateSubtrees recurse b meta p oldGrand newGrand = Ok (b', meta') ->
  level_inv parent bound b -> level_inv parent bound b'.
Proof.
  unfold updateSubtrees. intros H Hinv.
  destruct (negb _); apply bind_Ok in H as ([l m] & _ & H);
    injection H as <- <-; exact Hinv.
Qed.

Lemma stage1_inv parent bound :
  forall olds news index b meta index' b' meta',
    stage1 ANDROID recurse parent olds news index b meta
    = Ok (index', b', meta') ->
    level_inv parent bound b -> level_inv parent bound b'.
Proof.
  induction olds as [|o olds IH]; intros news index b meta index' b' meta' H Hinv.
  - simpl in H. injection H as <- <- <-. exact Hinv.
  - destruct news as [|n news]; simpl in H.
    + injection H as <- <- <-. exact Hinv.
    + destruct (negb _).
      * injection H as <- <- <-. exact Hinv.
      * apply bind_Ok in H as ([b1 m1] & Hsub & H).
        eapply IH; [exact H|].
        eapply updateSubtrees_inv; [exact Hsub|].
        apply updateIfDifferent_inv. exact Hinv.
Qed.

Lemma removeRest_inv parent :
  forall olds index b meta b' meta',
    removeRest ANDROID recurse parent olds index b meta = Ok (b', meta') ->
    level_inv parent (Z.of_nat index) b ->
    level_inv parent (Z.of_nat (index + length olds)) b'.
Proof.
  induction olds as [|o olds IH]; intros index b meta b' meta' H Hinv.
  - simpl in H. injection H as <- <-. simpl. rewrite Nat.add_0_r. exact Hinv.
  - simpl in H.
    apply bind_Ok in H as ([[[shouldRemove shouldDelete] newTreeNode] m1] & _ & H).
    apply bind_Ok in H as ([l m2] & _ & H).
    apply IH in H.
    + simpl. replace (index + S (length olds))%nat
        with (S index + length olds)%nat by lia. exact H.
    + apply set_destructiveDownward_inv.
      assert (H1 : level_inv parent (Z.of_nat index)
                     (if shouldDelete
                      then push_delete (DeleteMutation (shadowView o)) b
                      else b)).
      { destruct shouldDelete; [|exact Hinv].
        apply push_delete_inv; [reflexivity|exact Hinv]. }
      assert (H2 : level_inv parent (Z.of_nat (S index))
                     (if shouldRemove
                      then push_remove
                             (RemoveMutation parent (shadowView o)
                                (Z.of_nat index))
                             (if shouldDelete
                              then push_delete (DeleteMutation (shadowView o)) b
                              else b)
                      else (if shouldDelete
                            then push_delete (DeleteMutation (shadowView o)) b
                            else b))).
      { destruct shouldRemove.
        - apply push_remove_inv. exact H1.
        - eapply level_inv_mono; [|exact H1]. lia. }
      destruct newTreeNode; [|exact H2].
      apply updateIfDifferent_inv. exact H2.
Qed.

Lemma insertRest_inv parent bound :
  forall news index b meta b' meta',
    insertRest ANDROID recurse parent news index b meta = Ok (b', meta') ->
    level_inv parent bound b -> level_inv parent bound b'.
Proof.
  induction news as [|n news IH]; intros index b meta b' meta' H Hinv.
  - simpl in H. injection H as <- <-. exact Hinv.
  - simpl in H.
    apply bind_Ok in H as ([[[shouldInsert shouldCreate] oldTreeNode] m1] & _ & H).
    apply bind_Ok in H as ([l m2] & _ & H).
    apply IH in H; [exact H|].
    apply set_downward_inv.
    assert (H1 : level_inv parent bound
                   (if shouldInsert
                    then push_insert
                           (InsertMutation parent (shadowView n)
                              (Z.of_nat index)) b
                    else b)).
    { destruct shouldInsert; [|exact Hinv].
      apply push_insert_inv; [reflexivity|exact Hinv]. }
    assert (H2 : level_inv parent bound
                   (if shouldCreate
                    then push_create (CreateMutation (shadowView n))
                           (if shouldInsert
                            then push_insert
                                   (InsertMutation parent (shadowView n)
                                      (Z.of_nat index)) b
                            else b)
                    else (if shouldInsert
                          then push_insert
                                 (InsertMutation parent (shadowView n)
                                    (Z.of_nat index)) b
                          else b))).
    { destruct shouldCreate; [|exact H1].
      apply push_create_inv; [reflexivity|exact H1]. }
    destruct oldTreeNode; [|exact H2].
    apply updateIfDifferent_inv. exact H2.
Qed.

Lemma walkInsert_inv parent news st st' :
  walkInsert parent news st = Ok st' ->
  level_inv parent (Z.of_nat (oldIndex st)) (walk_buckets st) ->
  level_inv parent (Z.of_nat (oldIndex st')) (walk_buckets st').
Proof.
  unfold walkInsert. intros H Hinv.
  destruct (news !! newIndex st) as [n|]; [|discriminate].
  apply bind_Ok in H as (ins & _ & H). injection H as <-. simpl.
  apply push_insert_inv; [reflexivity|exact Hinv].
Qed.

Lemma walkMatched_inv parent index o n st st' :
  walkMatched ANDROID recurse parent index o n st = Ok st' ->
  level_inv parent (Z.of_nat (oldIndex st)) (walk_buckets st) ->
  level_inv parent (Z.of_nat (oldIndex st')) (walk_buckets st').
Proof.
  unfold walkMatched. intros H Hinv.
  apply bind_Ok in H as ([it rem] & _ & H).
  apply bind_Ok in H as (rem' & _ & H).
  apply bind_Ok in H as ([b m] & Hsub & H).
  injection H as <-. simpl.
  eapply level_inv_mono;
    [|eapply updateSubtrees_inv;
      [exact Hsub|apply updateIfDifferent_inv; exact Hinv]].
  lia.
Qed.

Lemma walkRemoveInserted_inv parent index o it inserted st st' :
  walkRemoveInserted ANDROID recurse parent index o it inserted st = Ok st' ->
  level_inv parent (Z.of_nat (oldIndex st)) (walk_buckets st) ->
  level_inv parent (Z.of_nat (oldIndex st')) (walk_buckets st').
Proof.
  unfold walkRemoveInserted. intros H Hinv.
  destruct (TinyMap.deref it inserted) as [[key n]|]; [|discriminate].
  apply bind_Ok in H as ([b m] & Hsub & H).
  apply bind_Ok in H as (ins & _ & H).
  injection H as <-. simpl.
  eapply updateSubtrees_inv; [exact Hsub|].
  apply updateIfDifferent_inv. apply push_remove_inv. exact Hinv.
Qed.

Lemma walkRemoveGone_inv parent o st st' :
  walkRemoveGone ANDROID recurse parent o st = Ok st' ->
  level_inv parent (Z.of_nat (oldIndex st)) (walk_buckets st) ->
  level_inv parent (Z.of_nat (oldIndex st')) (walk_buckets st').
Proof.
  unfold walkRemoveGone. intros H Hinv.
  apply bind_Ok in H as ([[[shouldRemove shouldDelete] newTreeNode] m1] & _ & H).
  apply bind_Ok in H as ([l m2] & _ & H).
  injection H as <-. simpl.
  apply set_destructiveDownward_inv.
  pose proof (push_remove_inv parent (oldIndex st) (shadowView o) _ Hinv) as H1.
  assert (H2 : level_inv parent (Z.of_nat (S (oldIndex st)))
                 (if shouldDelete
                  then push_delete (DeleteMutation (shadowView o))
                         (push_remove
                            (RemoveMutation parent (shadowView o)
                               (Z.of_nat (oldIndex st))) (walk_buckets st))
                  else push_remove
                         (RemoveMutation parent (shadowView o)
                            (Z.of_nat (oldIndex st))) (walk_buckets st))).
  { destruct shouldDelete; [|exact H1].
    apply push_delete_inv; [reflexivity|exact H1]. }
  destruct newTreeNode; [|exact H2].
  apply updateIfDifferent_inv. exact H2.
Qed.

Lemma walkStep_inv parent index olds news st st' :
  walkStep ANDROID recurse parent index olds news st = Ok st' ->
  level_inv parent (Z.of_nat (oldIndex st)) (walk_buckets st) ->
  level_inv parent (Z.of_nat (oldIndex st')) (walk_buckets st').
Proof.
  unfold walkStep. intros H Hinv.
  match type of H with
  | match ?m with _ => _ end = _ => destruct m as [[o n]|]
  end.
  { eapply walkMatched_inv; [exact H|exact Hinv]. }
  match type of H with
  | match ?m with _ => _ end = _ => destruct m as [o|]
  end.
  2: { eapply walkInsert_inv; [exact H|exact Hinv]. }
  apply bind_Ok in H as ([insertedIt inserted] & _ & H).
  destruct (negb _).
  { eapply walkRemoveInserted_inv; [exact H|exact Hinv]. }
  apply bind_Ok in H as ([newIt remaining] & _ & H).
  destruct (TinyMap.ptr_eqb _ _).
  - apply walkRemoveGone_inv in H; [exact H|exact Hinv].
  - apply walkInsert_inv in H; [exact H|exact Hinv].
Qed.

Lemma walk_inv parent index olds news :
  forall fuel st st',
    walk ANDROID recurse fuel parent index olds news st = Ok st' ->
    level_inv parent (Z.of_nat (oldIndex st)) (walk_buckets st) ->
    level_inv parent (Z.of_nat (oldIndex st')) (walk_buckets st').
Proof.
  induction fuel as [|fuel IH]; intros st st' H Hinv; simpl in H.
  - destruct (_ || _); [discriminate|]. injection H as <-. exact Hinv.
  - destruct (_ || _); [|injection H as <-; exact Hinv].
    apply bind_Ok in H as (st1 & Hstep & H).
    eapply IH; [exact H|]. eapply walkStep_inv; [exact Hstep|exact Hinv].
Qed.

Lemma createInserted_inv parent bound :
  forall entries b meta b' meta',
    createInserted ANDROID recurse parent entries b meta = Ok (b', meta') ->
    level_inv parent bound b -> level_inv parent bound b'.
Proof.
  induction entries as [|[key n] entries IH]; intros b meta b' meta' H Hinv.
  - simpl in H. injection H as <- <-. exact Hinv.
  - simpl in H. destruct (key =? 0); [eapply IH; [exact H|exact Hinv]|].
    apply bind_Ok in H as ([[shouldCreate updateNode] m1] & _ & H).
    apply bind_Ok in H as ([l m2] & _ & H).
    apply IH in H; [exact H|].
    apply set_downward_inv.
    assert (H1 : level_inv parent bound
                   (if shouldCreate
                    then push_create (CreateMutation (shadowView n)) b
                    else b)).
    { destruct shouldCreate; [|exact Hinv].
      apply push_create_inv; [reflexivity|exact Hinv]. }
    destruct updateNode; [|exact H1].
    apply updateIfDifferent_inv. exact H1.
Qed.

Lemma collectMutations_inv meta parent olds news b meta' :
  collectMutations ANDROID recurse meta parent olds news = Ok (b, meta') ->
  exists bound, level_inv parent bound b.
Proof.
  unfold collectMutations. intros H.
  apply bind_Ok in H as ([[index b1] m1] & Hs1 & H).
  pose proof (stage1_inv _ _ _ _ _ _ _ _ _ _ Hs1 (level_inv_init parent))
    as H1.
  destruct (index =? length _)%nat.
  { eexists. eapply removeRest_inv; [exact H|].
    eapply level_inv_mono; [|exact H1]. lia. }
  destruct (index =? length _)%nat.
  { eexists. eapply insertRest_inv; [exact H|exact H1]. }
  unfold walkLists in H.
  apply bind_Ok in H as (remaining & _ & H).
  apply bind_Ok in H as (st & Hwalk & H).
  destruct (TinyMap.begin (newInsertedPairs st)) as [first inserted].
  eexists. eapply createInserted_inv; [exact H|].
  eapply walk_inv; [exact Hwalk|]. simpl.
  eapply level_inv_mono; [|exact H1]. lia.
Qed.

End LevelInvariant.

(** ** Order of the lists of one activation *)

Lemma StronglySorted_app_In {A : Type} (R : A -> A -> Prop) (l1 l2 : list A) :
  StronglySorted R l1 -> StronglySorted R l2 ->
  (forall a c, In a l1 -> In c l2 -> R a c) ->
  StronglySorted R (l1 ++ l2).
Proof.
  intros H1 H2 H. apply StronglySorted_app_2; [|exact H1|exact H2].
  intros a c Ha Hc. apply H; apply list_elem_of_In; assumption.
Qed.

Lemma StronglySorted_rev_flip {A : Type} (R : A -> A -> Prop) (l : list A) :
  StronglySorted R l -> StronglySorted (fun a c => R c a) (rev l).
Proof.
  induction 1 as [|a l Hl IH Ha]; simpl; [constructor|].
  apply StronglySorted_app_In; [exact IH|repeat constructor|].
  intros c a' Hc [<-|[]]. apply in_rev in Hc.
  rewrite Forall_forall in Ha. apply Ha, list_elem_of_In, Hc.
Qed.

Lemma StronglySorted_lookup {A : Type} (R : A -> A -> Prop) (l : list A) :
  StronglySorted R l ->
  forall (i j : nat) a c,
    (i < j)%nat -> l !! i = Some a -> l !! j = Some c -> R a c.
Proof.
  induction 1 as [|a' l Hl IH Ha]; intros i j a c Hij Hi Hj.
  - discriminate.
  - destruct j as [|j]; [lia|]. simpl in Hj.
    destruct i as [|i]; simpl in Hi.
    + injection Hi as <-. rewrite Forall_forall in Ha.
      apply Ha. eapply list_elem_of_lookup_2. exact Hj.
    + apply (IH i j); [lia|exact Hi|exact Hj].
Qed.

Lemma StronglySorted_same_rank (k : BucketKind)
    (l : list ShadowViewMutation) :
  StronglySorted (fun a c => (bucketRank (fst a) <= bucketRank (fst c))%nat)
    (map (pair k) l).
Proof.
  induction l as [|m l IH]; simpl; constructor; [exact IH|].
  apply Forall_forall. intros c Hc.
  apply list_elem_of_In, in_map_iff in Hc as (m' & <- & _). simpl. lia.
Qed.

Lemma labelled_sorted (b : Buckets) :
  StronglySorted (fun a c => (bucketRank (fst a) <= bucketRank (fst c))%nat)
    (labelled b).
Proof.
  unfold labelled.
  repeat (apply StronglySorted_app_In;
          [apply StronglySorted_same_rank| |
           let a := fresh "a" in
           let c := fresh "c" in
           let Ha := fresh "Ha" in
           let Hc := fresh "Hc" in
           intros a c Ha Hc;
           apply in_map_iff in Ha as (? & <- & _);
           repeat (apply in_app_or in Hc as [Hc|Hc]);
           apply in_map_iff in Hc as (? & <- & _); simpl; lia]).
  apply StronglySorted_same_rank.
Qed.

Lemma labelled_mutations (b : Buckets) :
  map snd (labelled b) = concatBuckets b.
Proof.
  unfold labelled, concatBuckets.
  rewrite !map_app, !map_map. simpl. rewrite !map_id. reflexivity.
Qed.

Lemma labelled_bucket (b : Buckets) (k : BucketKind)
    (m : ShadowViewMutation) :
  In (k, m) (labelled b) <-> In m (bucketOf k b).
Proof.
  unfold labelled. rewrite !in_app_iff, !in_map_iff. split.
  - intros H.
    repeat (destruct H as [H|H]);
      destruct H as (m' & Heq & Hin); injection Heq as <- <-; simpl;
      try exact Hin.
    apply in_rev. exact Hin.
  - destruct k; simpl; intros H.
    + left. eauto.
    + right; left. eauto.
    + right; right; left. exists m. split; [reflexivity|].
      apply in_rev. rewrite rev_involutive. exact H.
    + right; right; right; left. eauto.
    + right; right; right; right; left. eauto.
    + right; right; right; right; right; left. eauto.
    + right; right; right; right; right; right. eauto.
Qed.

Lemma typed_bucket (b : Buckets) (k : BucketKind) (ty : MutationType)
    (m : ShadowViewMutation) :
  typed b -> kindType k = Some ty -> In m (bucketOf k b) -> type m = ty.
Proof.
  intros (Hu & Hr & Hd & Hc & Hi) Hk Hin.
  rewrite Forall_forall in Hu, Hr, Hd, Hc, Hi.
  apply list_elem_of_In in Hin.
  destruct k; simpl in *; try discriminate; injection Hk as <-; auto.
Qed.

(** What one activation returns: nothing on two empty lists, and otherwise
    its seven lists in the order of the concatenation. *)
Lemma activation_result (ANDROID : bool) (fuel : nat)
    (mutations : list ShadowViewMutation) (meta : ReparentingMetadata)
    (parent : ShadowView) (olds news : list ShadowViewNodePair)
    (mutations' : list ShadowViewMutation) (meta' : ReparentingMetadata) :
  calculateShadowViewMutations_rec ANDROID (S fuel) mutations meta parent
    olds news = Ok (mutations', meta') ->
  exists b,
    (collectMutations ANDROID (calculateShadowViewMutations_rec ANDROID fuel)
       meta parent olds news = Ok (b, meta')
     \/ (olds = [] /\ news = [] /\ b = Buckets_init))
    /\ mutations' = mutations ++ concatBuckets b
    /\ exists bound, level_inv parent bound b.
Proof.
  simpl. unfold calculateShadowViewMutations_body. intros H.
  destruct olds as [|o olds]; [destruct news as [|n news]|].
  - injection H as <- <-. exists Buckets_init.
    split; [right; auto|]. split.
    + unfold concatBuckets. simpl. rewrite app_nil_r. reflexivity.
    + exists 0. apply level_inv_init.
  - apply bind_Ok in H as ([b m1] & Hc & H). injection H as <- <-.
    exists b. split; [left; exact Hc|]. split; [reflexivity|].
    eapply collectMutations_inv. exact Hc.
  - apply bind_Ok in H as ([b m1] & Hc & H). injection H as <- <-.
    exists b. split; [left; exact Hc|]. split; [reflexivity|].
    eapply collectMutations_inv. exact Hc.
Qed.

(** C2: what an activation of the recursive differ appends to the caller's
    list is its seven lists in the order destructiveDownward, update, remove
    (reversed), delete, create, downward, insert: of two mutations of the
    appended part the earlier one never comes from a later list, and the
    update, remove, delete, create and insert lists hold only mutations of
    their own type. *)
Theorem bucket_order (ANDROID : bool) (fuel : nat)
    (mutations : list ShadowViewMutation) (meta : ReparentingMetadata)
    (parent : ShadowView) (olds news : list ShadowViewNodePair)
    (mutations' : list ShadowViewMutation) (meta' : ReparentingMetadata) :
  calculateShadowViewMutations_rec ANDROID (S fuel) mutations meta parent
    olds news = Ok (mutations', meta') ->
  exists b,
    (collectMutations ANDROID (calculateShadowViewMutations_rec ANDROID fuel)
       meta parent olds news = Ok (b, meta')
     \/ (olds = [] /\ news = [] /\ b = Buckets_init))
    /\ mutations' = mutations ++ map snd (labelled b)
    /\ (forall k m, In (k, m) (labelled b) <-> In m (bucketOf k b))
    /\ (forall k m ty,
          In (k, m) (labelled b) -> kindType k = Some ty -> type m = ty)
    /\ (forall (i j : nat) k1 m1 k2 m2,
          (i < j)%nat ->
          labelled b !! i = Some (k1, m1) ->
          labelled b !! j = Some (k2, m2) ->
          (bucketRank k1 <= bucketRank k2)%nat).
Proof.
  intros H.
  destruct (activation_result _ _ _ _ _ _ _ _ _ H)
    as (b & Hb & Heq & bound & Hty & _).
  exists b. split; [exact Hb|]. split.
  { rewrite labelled_mutations. exact Heq. }
  split; [intros k m; apply labelled_bucket|]. split.
  - intros k m ty Hin Hk.
    apply (typed_bucket b k ty m Hty Hk). apply labelled_bucket. exact Hin.
  - intros i j k1 m1 k2 m2 Hij Hi Hj.
    exact (StronglySorted_lookup _ _ (labelled_sorted b) i j _ _ Hij Hi Hj).
Qed.

(** C3: the [Remove] mutations of one activation all have the parent view of
    the activation, are all in its remove list, and stand in what the
    activation appends in strictly decreasing order of their indices. *)
Theorem removes_in_decreasing_order (ANDROID : bool) (fuel : nat)
    (mutations : list ShadowViewMutation) (meta : ReparentingMetadata)
    (parent : ShadowView) (olds news : list ShadowViewNodePair)
    (mutations' : list ShadowViewMutation) (meta' : ReparentingMetadata) :
  calculateShadowViewMutations_rec ANDROID (S fuel) mutations meta parent
    olds news = Ok (mutations', meta') ->
  exists b,
    (collectMutations ANDROID (calculateShadowViewMutations_rec ANDROID fuel)
       meta parent olds news = Ok (b, meta')
     \/ (olds = [] /\ news = [] /\ b = Buckets_init))
    /\ mutations'
       = mutations
         ++ (destructiveDownwardMutations b ++ updateMutations b)
         ++ rev (removeMutations b)
         ++ (deleteMutations b ++ createMutations b
             ++ downwardMutations b ++ insertMutations b)
    /\ Forall (fun m => type m = Remove /\ parentShadowView m = parent)
         (rev (removeMutations b))
    /\ Forall (fun m => type m <> Remove)
         (updateMutations b ++ deleteMutations b ++ createMutations b
          ++ insertMutations b)
    /\ StronglySorted (fun m1 m2 => index m2 < index m1)
         (rev (removeMutations b)).
Proof.
  intros H.
  destruct (activation_result _ _ _ _ _ _ _ _ _ H)
    as (b & Hb & Heq & bound & (Hu & Hr & Hd & Hc & Hi) & Hall & Hsorted).
  exists b. split; [exact Hb|]. split.
  { rewrite Heq. unfold concatBuckets. rewrite <- !app_assoc. reflexivity. }
  split; [|split].
  - apply Forall_rev. rewrite Forall_forall in *.
    intros m Hm. split; [apply Hr, Hm|apply Hall, Hm].
  - rewrite !Forall_app. repeat split.
    + eapply Forall_impl; [exact Hu|]. simpl. congruence.
    + eapply Forall_impl; [exact Hd|]. simpl. congruence.
    + eapply Forall_impl; [exact Hc|]. simpl. congruence.
    + eapply Forall_impl; [exact Hi|]. simpl. congruence.
  - apply (StronglySorted_rev_flip _ _ Hsorted).
Qed.

Lemma bucket_order_witness :
  exists b,
    (collectMutations false (calculateShadowViewMutations_rec false 1)
       (ReparentingMetadata_init false) (ShadowView_of replaceOld)
       (sliceChildShadowNodeViewPairs false replaceOld)
       (sliceChildShadowNodeViewPairs false replaceNew)
     = Ok (b, ReparentingMetadata_init false)
     \/ (sliceChildShadowNodeViewPairs false replaceOld = []
         /\ sliceChildShadowNodeViewPairs false replaceNew = []
         /\ b = Buckets_init))
    /\ replaceMutations = [] ++ map snd (labelled b)
    /\ (forall k m, In (k, m) (labelled b) <-> In m (bucketOf k b))
    /\ (forall k m ty,
          In (k, m) (labelled b) -> kindType k = Some ty -> type m = ty)
    /\ (forall (i j : nat) k1 m1 k2 m2,
          (i < j)%nat ->
          labelled b !! i = Some (k1, m1) ->
          labelled b !! j = Some (k2, m2) ->
          (bucketRank k1 <= bucketRank k2)%nat).
Proof.
  apply (bucket_order false 1 [] (ReparentingMetadata_init false)
           (ShadowView_of replaceOld)
           (sliceChildShadowNodeViewPairs false replaceOld)
           (sliceChildShadowNodeViewPairs false replaceNew)
           replaceMutations (ReparentingMetadata_init false)).
  vm_compute. reflexivity.
Defined.

Lemma removes_in_decreasing_order_witness :
  exists b,
    (collectMutations false (calculateShadowViewMutations_rec false 1)
       (ReparentingMetadata_init false) (ShadowView_of shrinkOld)
       (sliceChildShadowNodeViewPairs false shrinkOld)
       (sliceChildShadowNodeViewPairs false shrinkNew)
     = Ok (b, ReparentingMetadata_init false)
     \/ (sliceChildShadowNodeViewPairs false shrinkOld = []
         /\ sliceChildShadowNodeViewPairs false shrinkNew = []
         /\ b = Buckets_init))
    /\ shrinkMutations
       = []
         ++ (destructiveDownwardMutations b ++ updateMutations b)
         ++ rev (removeMutations b)
         ++ (deleteMutations b ++ createMutations b
             ++ downwardMutations b ++ insertMutations b)
    /\ Forall (fun m => type m = Remove
                        /\ parentShadowView m = ShadowView_of shrinkOld)
         (rev (removeMutations b))
    /\ Forall (fun m => type m <> Remove)
         (updateMutations b ++ deleteMutations b ++ createMutations b
          ++ insertMutations b)
    /\ StronglySorted (fun m1 m2 => index m2 < index m1)
         (rev (removeMutations b)).
Proof.
  apply (removes_in_decreasing_order false 1 []
           (ReparentingMetadata_init false) (ShadowView_of shrinkOld)
           (sliceChildShadowNodeViewPairs false shrinkOld)
           (sliceChildShadowNodeViewPairs false shrinkNew)
           shrinkMutations (ReparentingMetadata_init false)).
  vm_compute. reflexivity.
Defined.

(** ** The run without reparenting detection covers the run with it *)

Lemma members_concat b m : In m (concatBuckets b) <-> members b m.
Proof.
  unfold concatBuckets, members. rewrite !in_app_iff, <- in_rev. tauto.
Qed.

Lemma members_push_create m' b m :
  members (push_create m' b) m <-> members b m \/ m = m'.
Proof.
  unfold members; simpl. rewrite in_app_iff. simpl.
  split; intros H; intuition (subst; auto).
Qed.

Lemma members_push_delete m' b m :
  members (push_delete m' b) m <-> members b m \/ m = m'.
Proof.
  unfold members; simpl. rewrite in_app_iff. simpl.
  split; intros H; intuition (subst; auto).
Qed.

Lemma members_push_insert m' b m :
  members (push_insert m' b) m <-> members b m \/ m = m'.
Proof.
  unfold members; simpl. rewrite in_app_iff. simpl.
  split; intros H; intuition (subst; auto).
Qed.

Lemma members_push_remove m' b m :
  members (push_remove m' b) m <-> members b m \/ m = m'.
Proof.
  unfold members; simpl. rewrite in_app_iff. simpl.
  split; intros H; intuition (subst; auto).
Qed.

Lemma members_push_update m' b m :
  members (push_update m' b) m <-> members b m \/ m = m'.
Proof.
  unfold members; simpl. rewrite in_app_iff. simpl.
  split; intros H; intuition (subst; auto).
Qed.

Lemma members_set_downward l b m :
  members (set_downward (downwardMutations b ++ l) b) m
  <-> members b m \/ In m l.
Proof.
  unfold members; simpl. rewrite in_app_iff. tauto.
Qed.

Lemma members_set_destructiveDownward l b m :
  members (set_destructiveDownward (destructiveDownwardMutations b ++ l) b) m
  <-> members b m \/ In m l.
Proof.
  unfold members; simpl. rewrite in_app_iff. tauto.
Qed.

Lemma coveredBuckets_init : coveredBuckets Buckets_init Buckets_init.
Proof. intros m Hm. right. exact Hm. Qed.

Lemma covered_create (c : bool) m' b1 b2 :
  coveredBuckets b1 b2 ->
  coveredBuckets (if c then push_create m' b1 else b1) (push_create m' b2).
Proof.
  intros H m Hm. rewrite members_push_create.
  destruct c; [apply members_push_create in Hm as [Hm| ->]|]; auto;
    destruct (H m Hm); auto.
Qed.

Lemma covered_delete (c : bool) m' b1 b2 :
  coveredBuckets b1 b2 ->
  coveredBuckets (if c then push_delete m' b1 else b1) (push_delete m' b2).
Proof.
  intros H m Hm. rewrite members_push_delete.
  destruct c; [apply members_push_delete in Hm as [Hm| ->]|]; auto;
    destruct (H m Hm); auto.
Qed.

Lemma covered_insert (c : bool) m' b1 b2 :
  coveredBuckets b1 b2 ->
  coveredBuckets (if c then push_insert m' b1 else b1) (push_insert m' b2).
Proof.
  intros H m Hm. rewrite members_push_insert.
  destruct c; [apply members_push_insert in Hm as [Hm| ->]|]; auto;
    destruct (H m Hm); auto.
Qed.

Lemma covered_remove (c : bool) m' b1 b2 :
  coveredBuckets b1 b2 ->
  coveredBuckets (if c then push_remove m' b1 else b1) (push_remove m' b2).
Proof.
  intros H m Hm. rewrite members_push_remove.
  destruct c; [apply members_push_remove in Hm as [Hm| ->]|]; auto;
    destruct (H m Hm); auto.
Qed.

(** An [Update] on the left needs nothing on the right. *)
Lemma covered_update_left parent old new i b1 b2 :
  coveredBuckets b1 b2 ->
  coveredBuckets (updateIfDifferent parent old new i b1) b2.
Proof.
  intros H m Hm. unfold updateIfDifferent in Hm.
  destruct (negb _); [|exact (H m Hm)].
  apply members_push_update in Hm as [Hm| ->]; [exact (H m Hm)|].
  left. reflexivity.
Qed.

Lemma covered_update_both parent old new i b1 b2 :
  coveredBuckets b1 b2 ->
  coveredBuckets (updateIfDifferent parent old new i b1)
    (updateIfDifferent parent old new i b2).
Proof.
  intros H m Hm. unfold updateIfDifferent in *.
  destruct (negb _); [|exact (H m Hm)].
  apply members_push_update in Hm as [Hm| ->]; [|left; reflexivity].
  destruct (H m Hm); [auto|]. right. apply members_push_update. auto.
Qed.

Lemma covered_downward d1 d2 b1 b2 l1 l2 :
  coveredBuckets b1 b2 -> covered d1 d2 ->
  l1 = downwardMutations b1 ++ d1 -> l2 = downwardMutations b2 ++ d2 ->
  coveredBuckets (set_downward l1 b1) (set_downward l2 b2).
Proof.
  intros H Hd -> -> m Hm. rewrite members_set_downward.
  apply members_set_downward in Hm as [Hm|Hm].
  - destruct (H m Hm); auto.
  - destruct (Hd m Hm); auto.
Qed.

Lemma covered_destructiveDownward d1 d2 b1 b2 l1 l2 :
  coveredBuckets b1 b2 -> covered d1 d2 ->
  l1 = destructiveDownwardMutations b1 ++ d1 ->
  l2 = destructiveDownwardMutations b2 ++ d2 ->
  coveredBuckets (set_destructiveDownward l1 b1)
    (set_destructiveDownward l2 b2).
Proof.
  intros H Hd -> -> m Hm. rewrite members_set_destructiveDownward.
  apply members_set_destructiveDownward in Hm as [Hm|Hm].
  - destruct (H m Hm); auto.
  - destruct (Hd m Hm); auto.
Qed.

(** The decision calls with reparenting detection disabled. *)
Lemma shouldRemoveDeleteUpdate_disabled parentTag' node i meta :
  enabled_ meta = false ->
  shouldRemoveDeleteUpdate parentTag' node i meta
  = Ok (true, true, None, meta).
Proof. intros H. unfold shouldRemoveDeleteUpdate. rewrite H. reflexivity. Qed.

Lemma shouldCreateInsertUpdate_disabled parentTag' node i meta :
  enabled_ meta = false ->
  shouldCreateInsertUpdate parentTag' node i meta
  = Ok (true, true, None, meta).
Proof. intros H. unfold shouldCreateInsertUpdate. rewrite H. reflexivity. Qed.

Lemma shouldCreateUpdate_disabled node meta :
  enabled_ meta = false ->
  shouldCreateUpdate node meta = Ok (true, None, meta).
Proof. intros H. unfold shouldCreateUpdate. rewrite H. reflexivity. Qed.

Lemma markInserted_disabled parentTag' node i meta :
  enabled_ meta = false -> markInserted parentTag' node i meta = meta.
Proof. intros H. unfold markInserted. rewrite H. reflexivity. Qed.

Section Simulation.
Variable ANDROID : bool.
Variable recurse : Differ.
Hypothesis recurse_framed : framed recurse.
Hypothesis recurse_simulated : simulated recurse.

Local Abbreviation twin b2 meta2 st :=
  (mkWalkState b2 meta2 (newRemainingPairs st) (newInsertedPairs st)
     (oldIndex st) (newIndex st)).

Lemma recurse_sim l1 l2 meta1 meta2 parent olds news r1 meta1' :
  enabled_ meta2 = false ->
  recurse l1 meta1 parent olds news = Ok (r1, meta1') ->
  exists d1 d2,
    r1 = l1 ++ d1
    /\ recurse l2 meta2 parent olds news = Ok (l2 ++ d2, meta2)
    /\ covered d1 d2.
Proof.
  intros Hen H. rewrite recurse_framed in H.
  apply bind_Ok in H as ([d1 m] & Hr & H). injection H as <- <-.
  destruct (recurse_simulated _ meta2 _ _ _ _ _ Hen Hr) as (d2 & Hr2 & Hc).
  exists d1, d2. split; [reflexivity|]. split; [|exact Hc].
  rewrite recurse_framed, Hr2. reflexivity.
Qed.

Lemma updateSubtrees_sim b1 b2 meta1 meta2 parent oldGrand newGrand b1' meta1' :
  enabled_ meta2 = false ->
  coveredBuckets b1 b2 ->
  updateSubtrees recurse b1 meta1 parent oldGrand newGrand = Ok (b1', meta1') ->
  exists b2',
    updateSubtrees recurse b2 meta2 parent oldGrand newGrand = Ok (b2', meta2)
    /\ coveredBuckets b1' b2'.
Proof.
  intros Hen Hcov H. unfold updateSubtrees in *.
  destruct (negb _); apply bind_Ok in H as ([l m] & Hr & H);
    injection H as <- <-.
  - destruct (recurse_sim _ (downwardMutations b2) _ _ _ _ _ _ _ Hen Hr)
      as (d1 & d2 & -> & Hr2 & Hd).
    rewrite Hr2. simpl. eexists. split; [reflexivity|].
    eapply (covered_downward d1 d2); [assumption|assumption|reflexivity..].
  - destruct (recurse_sim _ (destructiveDownwardMutations b2)
                _ _ _ _ _ _ _ Hen Hr)
      as (d1 & d2 & -> & Hr2 & Hd).
    rewrite Hr2. simpl. eexists. split; [reflexivity|].
    eapply (covered_destructiveDownward d1 d2);
      [assumption|assumption|reflexivity..].
Qed.

Lemma stage1_sim parent meta2 :
  enabled_ meta2 = false ->
  forall olds news index b1 b2 meta1 index' b1' meta1',
    coveredBuckets b1 b2 ->
    stage1 ANDROID recurse parent olds news index b1 meta1
    = Ok (index', b1', meta1') ->
    exists b2',
      stage1 ANDROID recurse parent olds news index b2 meta2
      = Ok (index', b2', meta2)
      /\ coveredBuckets b1' b2'.
Proof.
  intros Hen. induction olds as [|o olds IH];
    intros news index b1 b2 meta1 index' b1' meta1' Hcov H.
  - simpl in *. injection H as <- <- <-. eauto.
  - destruct news as [|n news]; simpl in *.
    + injection H as <- <- <-. eauto.
    + destruct (negb _).
      * injection H as <- <- <-. eauto.
      * apply bind_Ok in H as ([b m] & Hsub & H).
        eapply updateSubtrees_sim in Hsub as (b2' & Hsub2 & Hcov');
          [|exact Hen|apply covered_update_both; exact Hcov].
        rewrite Hsub2. simpl. eapply IH; [exact Hcov'|exact H].
Qed.

Lemma removeRest_sim parent meta2 :
  enabled_ meta2 = false ->
  forall olds index b1 b2 meta1 b1' meta1',
    coveredBuckets b1 b2 ->
    removeRest ANDROID recurse parent olds index b1 meta1 = Ok (b1', meta1') ->
    exists b2',
      removeRest ANDROID recurse parent olds index b2 meta2 = Ok (b2', meta2)
      /\ coveredBuckets b1' b2'.
Proof.
  intros Hen. induction olds as [|o olds IH];
    intros index b1 b2 meta1 b1' meta1' Hcov H; simpl in *.
  - injection H as <- <-. eauto.
  - apply bind_Ok in H
      as ([[[shouldRemove shouldDelete] newTreeNode] m1] & _ & H).
    apply bind_Ok in H as ([l m] & Hr & H).
    rewrite shouldRemoveDeleteUpdate_disabled by exact Hen. simpl.
    match goal with
    | |- context [recurse ?l meta2 _ _ _] =>
        destruct (recurse_sim _ l _ _ _ _ _ _ _ Hen Hr)
          as (d1 & d2 & -> & Hr2 & Hd)
    end.
    rewrite Hr2. simpl. eapply IH; [|exact H].
    eapply (covered_destructiveDownward d1 d2);
      [|exact Hd|reflexivity..].
    destruct newTreeNode; [apply covered_update_left|];
      apply covered_remove; apply covered_delete; exact Hcov.
Qed.

Lemma insertRest_sim parent meta2 :
  enabled_ meta2 = false ->
  forall news index b1 b2 meta1 b1' meta1',
    coveredBuckets b1 b2 ->
    insertRest ANDROID recurse parent news index b1 meta1 = Ok (b1', meta1') ->
    exists b2',
      insertRest ANDROID recurse parent news index b2 meta2 = Ok (b2', meta2)
      /\ coveredBuckets b1' b2'.
Proof.
  intros Hen. induction news as [|n news IH];
    intros index b1 b2 meta1 b1' meta1' Hcov H; simpl in *.
  - injection H as <- <-. eauto.
  - apply bind_Ok in H
      as ([[[shouldInsert shouldCreate] oldTreeNode] m1] & _ & H).
    apply bind_Ok in H as ([l m] & Hr & H).
    rewrite shouldCreateInsertUpdate_disabled by exact Hen. simpl.
    match goal with
    | |- context [recurse ?l meta2 _ _ _] =>
        destruct (recurse_sim _ l _ _ _ _ _ _ _ Hen Hr)
          as (d1 & d2 & -> & Hr2 & Hd)
    end.
    rewrite Hr2. simpl. eapply IH; [|exact H].
    eapply (covered_downward d1 d2); [|exact Hd|reflexivity..].
    destruct oldTreeNode; [apply covered_update_left|];
      apply covered_create; apply covered_insert; exact Hcov.
Qed.

Lemma createInserted_sim parent meta2 :
  enabled_ meta2 = false ->
  forall entries b1 b2 meta1 b1' meta1',
    coveredBuckets b1 b2 ->
    createInserted ANDROID recurse parent entries b1 meta1
    = Ok (b1', meta1') ->
    exists b2',
      createInserted ANDROID recurse parent entries b2 meta2
      = Ok (b2', meta2)
      /\ coveredBuckets b1' b2'.
Proof.
  intros Hen. induction entries as [|[key n] entries IH];
    intros b1 b2 meta1 b1' meta1' Hcov H; simpl in *.
  - injection H as <- <-. eauto.
  - destruct (key =? 0); [eapply IH; [exact Hcov|exact H]|].
    apply bind_Ok in H as ([[shouldCreate updateNode] m1] & _ & H).
    apply bind_Ok in H as ([l m] & Hr & H).
    rewrite shouldCreateUpdate_disabled by exact Hen. simpl.
    match goal with
    | |- context [recurse ?l meta2 _ _ _] =>
        destruct (recurse_sim _ l _ _ _ _ _ _ _ Hen Hr)
          as (d1 & d2 & -> & Hr2 & Hd)
    end.
    rewrite Hr2. simpl. eapply IH; [|exact H].
    eapply (covered_downward d1 d2); [|exact Hd|reflexivity..].
    destruct updateNode; [apply covered_update_left|];
      apply covered_create; exact Hcov.
Qed.

Lemma walkInsert_sim parent news st1 st1' b2 meta2 :
  enabled_ meta2 = false ->
  coveredBuckets (walk_buckets st1) b2 ->
  walkInsert parent news st1 = Ok st1' ->
  exists b2',
    walkInsert parent news (twin b2 meta2 st1) = Ok (twin b2' meta2 st1')
    /\ coveredBuckets (walk_buckets st1') b2'.
Proof.
  intros Hen Hcov H. unfold walkInsert in *. simpl.
  destruct (news !! newIndex st1) as [n|]; [|discriminate].
  apply bind_Ok in H as (ins & Hins & H). injection H as <-.
  rewrite Hins, markInserted_disabled by exact Hen. simpl.
  eexists. split; [reflexivity|].
  apply (covered_insert true). exact Hcov.
Qed.

Lemma walkMatched_sim parent index o n st1 st1' b2 meta2 :
  enabled_ meta2 = false ->
  coveredBuckets (walk_buckets st1) b2 ->
  walkMatched ANDROID recurse parent index o n st1 = Ok st1' ->
  exists b2',
    walkMatched ANDROID recurse parent index o n (twin b2 meta2 st1)
    = Ok (twin b2' meta2 st1')
    /\ coveredBuckets (walk_buckets st1') b2'.
Proof.
  intros Hen Hcov H. unfold walkMatched in *. simpl.
  apply bind_Ok in H as ([it rem] & Hfind & H). rewrite Hfind. simpl.
  apply bind_Ok in H as (rem' & Her & H). rewrite Her. simpl.
  apply bind_Ok in H as ([b m] & Hsub & H). injection H as <-.
  eapply updateSubtrees_sim in Hsub as (b2' & Hsub2 & Hcov');
    [|exact Hen|apply covered_update_both; exact Hcov].
  rewrite Hsub2. simpl. eauto.
Qed.

Lemma walkRemoveInserted_sim parent index o it inserted st1 st1' b2 meta2 :
  enabled_ meta2 = false ->
  coveredBuckets (walk_buckets st1) b2 ->
  walkRemoveInserted ANDROID recurse parent index o it inserted st1
  = Ok st1' ->
  exists b2',
    walkRemoveInserted ANDROID recurse parent index o it inserted
      (twin b2 meta2 st1)
    = Ok (twin b2' meta2 st1')
    /\ coveredBuckets (walk_buckets st1') b2'.
Proof.
  intros Hen Hcov H. unfold walkRemoveInserted in *. simpl.
  destruct (TinyMap.deref it inserted) as [[key n]|]; [|discriminate].
  apply bind_Ok in H as ([b m] & Hsub & H).
  apply bind_Ok in H as (ins & Her & H). injection H as <-.
  eapply updateSubtrees_sim in Hsub as (b2' & Hsub2 & Hcov');
    [|exact Hen
     |apply covered_update_both; apply (covered_remove true); exact Hcov].
  rewrite Hsub2. simpl. rewrite Her. simpl. eauto.
Qed.

Lemma walkRemoveGone_sim parent o st1 st1' b2 meta2 :
  enabled_ meta2 = false ->
  coveredBuckets (walk_buckets st1) b2 ->
  walkRemoveGone ANDROID recurse parent o st1 = Ok st1' ->
  exists b2',
    walkRemoveGone ANDROID recurse parent o (twin b2 meta2 st1)
    = Ok (twin b2' meta2 st1')
    /\ coveredBuckets (walk_buckets st1') b2'.
Proof.
  intros Hen Hcov H. unfold walkRemoveGone in *. simpl.
  apply bind_Ok in H
    as ([[[shouldRemove shouldDelete] newTreeNode] m1] & _ & H).
  apply bind_Ok in H as ([l m] & Hr & H). injection H as <-.
  rewrite shouldRemoveDeleteUpdate_disabled by exact Hen. simpl.
  match goal with
  | |- context [recurse ?l meta2 _ _ _] =>
      destruct (recurse_sim _ l _ _ _ _ _ _ _ Hen Hr)
        as (d1 & d2 & -> & Hr2 & Hd)
  end.
  rewrite Hr2. simpl. eexists. split; [reflexivity|]. simpl.
  eapply (covered_destructiveDownward d1 d2); [|exact Hd|reflexivity..].
  destruct newTreeNode; [apply covered_update_left|];
    apply covered_delete; apply (covered_remove true); exact Hcov.
Qed.

Lemma walkStep_sim parent index olds news st1 st1' b2 meta2 :
  enabled_ meta2 = false ->
  coveredBuckets (walk_buckets st1) b2 ->
  walkStep ANDROID recurse parent index olds news st1 = Ok st1' ->
  exists b2',
    walkStep ANDROID recurse parent index olds news (twin b2 meta2 st1)
    = Ok (twin b2' meta2 st1')
    /\ coveredBuckets (walk_buckets st1') b2'.
Proof.
  intros Hen Hcov H. unfold walkStep in *. simpl.
  match type of H with
  | match ?m with _ => _ end = _ => destruct m as [[o n]|]
  end.
  { eapply walkMatched_sim; eassumption. }
  match type of H with
  | match ?m with _ => _ end = _ => destruct m as [o|]
  end.
  2: { eapply walkInsert_sim; eassumption. }
  apply bind_Ok in H as ([insertedIt inserted] & Hf1 & H).
  rewrite Hf1. simpl.
  destruct (negb _).
  { eapply walkRemoveInserted_sim; eassumption. }
  apply bind_Ok in H as ([newIt remaining] & Hf2 & H).
  rewrite Hf2. simpl.
  destruct (TinyMap.ptr_eqb _ _).
  - eapply walkRemoveGone_sim in H as (b2' & H2 & Hcov');
      [|exact Hen|exact Hcov]. simpl in H2. eauto.
  - eapply walkInsert_sim in H as (b2' & H2 & Hcov');
      [|exact Hen|exact Hcov]. simpl in H2. eauto.
Qed.

Lemma walk_sim parent index olds news meta2 :
  enabled_ meta2 = false ->
  forall fuel st1 st1' b2,
    coveredBuckets (walk_buckets st1) b2 ->
    walk ANDROID recurse fuel parent index olds news st1 = Ok st1' ->
    exists b2',
      walk ANDROID recurse fuel parent index olds news (twin b2 meta2 st1)
      = Ok (twin b2' meta2 st1')
      /\ coveredBuckets (walk_buckets st1') b2'.
Proof.
  intros Hen. induction fuel as [|fuel IH]; intros st1 st1' b2 Hcov H;
    simpl in *.
  - destruct (_ || _); [discriminate|]. injection H as <-. eauto.
  - destruct (_ || _); [|injection H as <-; eauto].
    apply bind_Ok in H as (st & Hstep & H).
    eapply walkStep_sim in Hstep as (b & Hstep2 & Hcov');
      [|exact Hen|exact Hcov].
    rewrite Hstep2. simpl.
    destruct (IH st st1' b Hcov' H) as (b2' & H2 & Hcov'').
    simpl in H2. eauto.
Qed.

Lemma collectMutations_sim meta1 meta2 parent olds news b1 meta1' :
  enabled_ meta2 = false ->
  collectMutations ANDROID recurse meta1 parent olds news = Ok (b1, meta1') ->
  exists b2,
    collectMutations ANDROID recurse meta2 parent olds news = Ok (b2, meta2)
    /\ coveredBuckets b1 b2.
Proof.
  intros Hen H. unfold collectMutations in *.
  apply bind_Ok in H as ([[index b] m] & Hs1 & H).
  eapply stage1_sim in Hs1 as (b2 & Hs2 & Hcov);
    [|exact Hen|exact coveredBuckets_init].
  rewrite Hs2. simpl.
  destruct (index =? length _)%nat.
  { eapply removeRest_sim; eassumption. }
  destruct (index =? length _)%nat.
  { eapply insertRest_sim; eassumption. }
  unfold walkLists in *.
  apply bind_Ok in H as (remaining & Hrem & H). rewrite Hrem. simpl.
  apply bind_Ok in H as (st & Hwalk & H).
  eapply walk_sim in Hwalk as (b2' & Hwalk2 & Hcov');
    [|exact Hen|exact Hcov].
  simpl in Hwalk2. rewrite Hwalk2. simpl.
  destruct (TinyMap.begin (newInsertedPairs st)) as [first inserted].
  eapply createInserted_sim; eassumption.
Qed.

Lemma body_framed : framed (calculateShadowViewMutations_body ANDROID recurse).
Proof.
  intros mutations meta parent olds news.
  unfold calculateShadowViewMutations_body.
  destruct olds as [|o olds]; [destruct news as [|n news]|]; simpl.
  - rewrite app_nil_r. reflexivity.
  - destruct (collectMutations _ _ _ _ _ _) as [[b m]|f]; reflexivity.
  - destruct (collectMutations _ _ _ _ _ _) as [[b m]|f]; reflexivity.
Qed.

Lemma body_simulated :
  simulated (calculateShadowViewMutations_body ANDROID recurse).
Proof.
  intros meta1 meta2 parent olds news d1 meta1' Hen H.
  unfold calculateShadowViewMutations_body in *.
  assert (Hgo : forall olds news,
    ('(b, m) ← collectMutations ANDROID recurse meta1 parent olds news;
     Ok ([] ++ concatBuckets b, m)) = Ok (d1, meta1') ->
    exists d2,
      ('(b, m) ← collectMutations ANDROID recurse meta2 parent olds news;
       Ok ([] ++ concatBuckets b, m)) = Ok (d2, meta2)
      /\ covered d1 d2).
  { clear H olds news. intros olds news H.
    apply bind_Ok in H as ([b m] & Hc & H). injection H as <- <-.
    destruct (collectMutations_sim _ _ _ _ _ _ _ Hen Hc) as (b2 & Hc2 & Hcov).
    rewrite Hc2. simpl. eexists. split; [reflexivity|].
    intros mu Hmu. apply members_concat in Hmu.
    destruct (Hcov mu Hmu) as [?|Hmu2]; [auto|].
    right. apply members_concat. exact Hmu2. }
  destruct olds as [|o olds]; [destruct news as [|n news]|];
    try (apply Hgo; exact H).
  injection H as <- <-. exists []. split; [reflexivity|].
  intros m [].
Qed.

End Simulation.

Lemma rec_framed (ANDROID : bool) (fuel : nat) :
  framed (calculateShadowViewMutations_rec ANDROID fuel).
Proof.
  destruct fuel as [|fuel]; simpl.
  - intros mutations meta parent olds news. reflexivity.
  - apply body_framed.
Qed.

Lemma rec_simulated (ANDROID : bool) (fuel : nat) :
  simulated (calculateShadowViewMutations_rec ANDROID fuel).
Proof.
  induction fuel as [|fuel IH]; simpl.
  - intros meta1 meta2 parent olds news d1 meta1' _ H. discriminate.
  - apply body_simulated; [apply rec_framed|exact IH].
Qed.

Lemma removeObviated_kept (mutations : list ShadowViewMutation) :
  forall meta m, In m (fst (removeObviated mutations meta)) -> In m mutations.
Proof.
  induction mutations as [|m' mutations IH]; intros meta m; simpl; [auto|].
  destruct (reparentingOperations_ meta =? 0).
  { destruct (removeObviated mutations meta) as [kept meta'] eqn:E. simpl.
    intros [<-|H]; [auto|]. right. apply (IH meta). rewrite E. exact H. }
  destruct (tagsToOperations_ meta !! mutationTag m') as [op|].
  - match goal with
    | |- context [removeObviated mutations ?x] =>
        destruct (removeObviated mutations x) as [kept meta'] eqn:E
    end.
    assert (Hkept : forall m, In m kept -> In m mutations).
    { intros m0 H0. eapply IH. rewrite E. exact H0. }
    destruct (has_bit _ _); simpl; [auto|].
    intros [<-|H]; auto.
  - destruct (removeObviated mutations meta) as [kept meta'] eqn:E. simpl.
    intros [<-|H]; [auto|]. right. apply (IH meta). rewrite E. exact H.
Qed.

Lemma hasType_In (ty : MutationType) (l : list ShadowViewMutation) :
  hasType ty l = true <-> exists m, In m l /\ type m = ty.
Proof.
  unfold hasType. rewrite existsb_exists. split.
  - intros (m & Hin & Hm). exists m. split; [exact Hin|].
    unfold MutationType_eqb in Hm. apply Z.eqb_eq in Hm.
    destruct (type m), ty; simpl in Hm; congruence.
  - intros (m & Hin & <-). exists m. split; [exact Hin|].
    unfold MutationType_eqb. apply Z.eqb_refl.
Qed.

(** C8, as stated, fails: for [moveOld] and [moveNew], two trees of one
    family, the list produced with reparenting detection enabled holds an
    [Update] and the list produced with it disabled holds none. *)
Lemma reparenting_superset_counterexample :
  sameFamily moveOld moveNew = true
  /\ calculateShadowViewMutations false moveOld moveNew true
     = Ok moveOnMutations
  /\ calculateShadowViewMutations false moveOld moveNew false
     = Ok moveOffMutations
  /\ hasType Update moveOnMutations = true
  /\ hasType Update moveOffMutations = false.
Proof.
  split; [reflexivity|]. split; [vm_compute; reflexivity|].
  split; [vm_compute; reflexivity|]. split; reflexivity.
Qed.

(** C8 (amended): whenever the run with reparenting detection enabled
    returns a list, the run with it disabled returns one too, and every
    mutation of the enabled run that is not an [Update] is a mutation of the
    disabled run; so every mutation type of the enabled run other than
    [Update] is a mutation type of the disabled run. *)
Theorem reparenting_off_covers_on (ANDROID : bool)
    (oldRootShadowNode newRootShadowNode : ShadowNode)
    (on : list ShadowViewMutation) :
  calculateShadowViewMutations ANDROID oldRootShadowNode newRootShadowNode
    true = Ok on ->
  exists off,
    calculateShadowViewMutations ANDROID oldRootShadowNode newRootShadowNode
      false = Ok off
    /\ (forall m, In m on -> type m = Update \/ In m off)
    /\ (forall ty, ty <> Update ->
          hasType ty on = true -> hasType ty off = true).
Proof.
  unfold calculateShadowViewMutations. intros H.
  destruct (negb (sameFamily _ _)); [discriminate|].
  apply bind_Ok in H as ([r1 m1] & Hrec & H).
  pose proof (rec_framed ANDROID
                (nesting oldRootShadowNode newRootShadowNode)) as Hfr.
  pose proof (rec_simulated ANDROID
                (nesting oldRootShadowNode newRootShadowNode)) as Hsim.
  destruct (recurse_sim _ Hfr Hsim _
              (if negb (ShadowView_eqb (ShadowView_of oldRootShadowNode)
                          (ShadowView_of newRootShadowNode))
               then [] ++ [UpdateMutation ShadowView_default
                             (ShadowView_of oldRootShadowNode)
                             (ShadowView_of newRootShadowNode) (-1)]
               else [])
              _ (ReparentingMetadata_init false) _ _ _ _ _ eq_refl Hrec)
    as (d1 & d2 & -> & Hrec2 & Hd).
  rewrite Hrec2. simpl. eexists. split; [reflexivity|].
  assert (Hcov : forall m, In m on -> type m = Update \/
            In m ((if negb (ShadowView_eqb (ShadowView_of oldRootShadowNode)
                              (ShadowView_of newRootShadowNode))
                   then [] ++ [UpdateMutation ShadowView_default
                                 (ShadowView_of oldRootShadowNode)
                                 (ShadowView_of newRootShadowNode) (-1)]
                   else []) ++ d2)).
  { intros m Hm.
    assert (Hin : In m ((if negb (ShadowView_eqb
                                    (ShadowView_of oldRootShadowNode)
                                    (ShadowView_of newRootShadowNode))
                         then [] ++ [UpdateMutation ShadowView_default
                                       (ShadowView_of oldRootShadowNode)
                                       (ShadowView_of newRootShadowNode) (-1)]
                         else []) ++ d1)).
    { destruct (_ && _); injection H as <-; [|exact Hm].
      eapply removeObviated_kept. exact Hm. }
    rewrite in_app_iff in *. destruct Hin as [Hin|Hin]; [auto|].
    destruct (Hd m Hin); auto. }
  split; [exact Hcov|].
  intros ty Hty Hon. apply hasType_In in Hon as (m & Hin & Hm).
  apply hasType_In. exists m. split; [|exact Hm].
  destruct (Hcov m Hin) as [Hu|Hoff]; [congruence|exact Hoff].
Qed.

Lemma reparenting_off_covers_on_witness :
  exists off,
    calculateShadowViewMutations false moveOld moveNew false = Ok off
    /\ (forall m, In m moveOnMutations -> type m = Update \/ In m off)
    /\ (forall ty, ty <> Update ->
          hasType ty moveOnMutations = true -> hasType ty off = true).
Proof.
  apply (reparenting_off_covers_on false moveOld moveNew moveOnMutations).
  vm_compute. reflexivity.
Defined.

(** ** The fuel of the entry point suffices *)

Lemma result_sat_bind {A B : Type} (Q : A -> Prop) (P : B -> Prop)
    (r : result A) (k : A -> result B) :
  result_sat Q r -> (forall a, Q a -> result_sat P (k a)) ->
  result_sat P (r ≫= k).
Proof.
  intros Hr Hk. destruct r as [a|f]; simpl in *; [apply Hk, Hr|exact Hr].
Qed.

Lemma result_sat_weaken {A : Type} (Q P : A -> Prop) (r : result A) :
  result_sat Q r -> (forall a, Q a -> P a) -> result_sat P r.
Proof. intros Hr H. destruct r; simpl in *; auto. Qed.

Section TinyMapValues.
Context {V : Type} (Q : V -> Prop).
Implicit Types m : TinyMap.t V.

Lemma cleanVector_values forceClean m :
  values_sat Q m -> values_sat Q (TinyMap.cleanVector forceClean m).
Proof.
  unfold values_sat, TinyMap.cleanVector. intros H.
  destruct (TinyMap.cleanVector_skips _ _); [exact H|]. simpl.
  destruct (_ =? _); [constructor|].
  rewrite Forall_forall in *. intros e He.
  apply list_elem_of_In, filter_In in He as [He _].
  apply H, list_elem_of_In, He.
Qed.

Lemma find_values key m :
  values_sat Q m ->
  result_sat (fun r => values_sat Q (snd r)) (TinyMap.find key m).
Proof.
  intros H. unfold TinyMap.find.
  destruct (key =? 0); [discriminate|].
  pose proof (cleanVector_values false m H) as H'.
  destruct (TinyMap.begin_ _); [|exact H'].
  destruct (TinyMap.scan _ _ _); exact H'.
Qed.

Lemma insert_values pair m :
  values_sat Q m -> Q (snd pair) ->
  result_sat (values_sat Q) (TinyMap.insert pair m).
Proof.
  intros H Hp. unfold TinyMap.insert.
  destruct (_ =? _); [discriminate|].
  unfold values_sat. simpl. apply Forall_app. split; [exact H|].
  constructor; [exact Hp|constructor].
Qed.

Lemma deref_values it m key v :
  values_sat Q m -> TinyMap.deref it m = Some (key, v) -> Q v.
Proof.
  unfold values_sat, TinyMap.deref. intros H Hd.
  destruct it as [i|]; [|discriminate].
  destruct (i <? 0); [discriminate|].
  rewrite Forall_forall in H.
  apply (H (key, v)). eapply list_elem_of_lookup_2. exact Hd.
Qed.

Lemma erase_values it m :
  values_sat Q m -> result_sat (values_sat Q) (TinyMap.erase it m).
Proof.
  intros H. unfold TinyMap.erase.
  destruct (TinyMap.deref it m) as [[key v]|] eqn:Hd; [|discriminate].
  destruct it as [i|]; [|discriminate].
  unfold values_sat. simpl.
  apply Forall_insert; [exact H|]. simpl.
  exact (deref_values _ _ _ _ H Hd).
Qed.

Lemma begin_values m :
  values_sat Q m -> values_sat Q (snd (TinyMap.begin m)).
Proof.
  intros H. unfold TinyMap.begin.
  pose proof (cleanVector_values
                (negb (TinyMap.erasedAtFront_ m =? TinyMap.numErased_ m))
                m H) as H'.
  destruct (TinyMap.begin_ _); exact H'.
Qed.

End TinyMapValues.

Lemma entriesFrom_values (Q : ShadowViewNodePair -> Prop) first m :
  values_sat Q m ->
  Forall (fun entry => Q (snd entry)) (entriesFrom first m).
Proof.
  unfold values_sat, entriesFrom. intros H.
  destruct first as [i|]; [|constructor].
  destruct (TinyMap.end_ m); [|constructor].
  apply Forall_drop. exact H.
Qed.

Lemma shouldRemoveDeleteUpdate_sat parentTag' node i meta :
  result_sat (fun _ => True) (shouldRemoveDeleteUpdate parentTag' node i meta).
Proof.
  unfold shouldRemoveDeleteUpdate.
  destruct (negb _); [exact I|].
  destruct (_ !! _); [|exact I].
  destruct (negb _); [discriminate|exact I].
Qed.

Lemma shouldCreateInsertUpdate_sat parentTag' node i meta :
  result_sat (fun _ => True) (shouldCreateInsertUpdate parentTag' node i meta).
Proof.
  unfold shouldCreateInsertUpdate.
  destruct (negb _); [exact I|].
  destruct (_ !! _); [|exact I].
  destruct (negb _); [discriminate|exact I].
Qed.

Lemma shouldCreateUpdate_sat node meta :
  result_sat (fun _ => True) (shouldCreateUpdate node meta).
Proof.
  unfold shouldCreateUpdate.
  destruct (negb _); [exact I|].
  destruct (_ !! _); [|discriminate].
  destruct (has_bit _ _); exact I.
Qed.

Section Fuel.
Variable ANDROID : bool.
Variable ok : ShadowNode -> Prop.
Variable recurse : Differ.
Hypothesis recurse_fuelled : fuelled ANDROID ok recurse.

Local Abbreviation okPair := (fun pr : ShadowViewNodePair => ok (shadowNode pr)).

Lemma sliced_nil : sliced ANDROID ok [].
Proof. left. reflexivity. Qed.

Lemma sliced_slice n :
  ok n -> sliced ANDROID ok (sliceChildShadowNodeViewPairs ANDROID n).
Proof. intros H. right. eauto. Qed.

Lemma updateSubtrees_fuelled b meta parent o n :
  ok o -> ok n ->
  result_sat (fun _ => True)
    (updateSubtrees recurse b meta parent
       (sliceChildShadowNodeViewPairs ANDROID o)
       (sliceChildShadowNodeViewPairs ANDROID n)).
Proof.
  intros Ho Hn. unfold updateSubtrees.
  destruct (negb _);
    (eapply result_sat_bind;
     [apply recurse_fuelled; apply sliced_slice; assumption|]);
    intros [l m] _; exact I.
Qed.

Lemma stage1_fuelled parent :
  forall olds news index b meta,
    Forall okPair olds -> Forall okPair news ->
    result_sat (fun _ => True)
      (stage1 ANDROID recurse parent olds news index b meta).
Proof.
  induction olds as [|o olds IH]; intros news index b meta Ho Hn; simpl;
    [exact I|].
  destruct news as [|n news]; [exact I|].
  destruct (negb _); [exact I|].
  apply Forall_cons in Ho as [Ho Holds]. apply Forall_cons in Hn as [Hn Hnews].
  eapply result_sat_bind; [apply updateSubtrees_fuelled; assumption|].
  intros [b' m'] _. apply IH; assumption.
Qed.

Lemma removeRest_fuelled parent :
  forall olds index b meta,
    Forall okPair olds ->
    result_sat (fun _ => True)
      (removeRest ANDROID recurse parent olds index b meta).
Proof.
  induction olds as [|o olds IH]; intros index b meta Ho; simpl; [exact I|].
  apply Forall_cons in Ho as [Ho Holds].
  eapply result_sat_bind; [apply shouldRemoveDeleteUpdate_sat|].
  intros [[[shouldRemove shouldDelete] newTreeNode] m1] _.
  eapply result_sat_bind;
    [apply recurse_fuelled; [apply sliced_slice; exact Ho|apply sliced_nil]|].
  intros [l m2] _. apply IH. exact Holds.
Qed.

Lemma insertRest_fuelled parent :
  forall news index b meta,
    Forall okPair news ->
    result_sat (fun _ => True)
      (insertRest ANDROID recurse parent news index b meta).
Proof.
  induction news as [|n news IH]; intros index b meta Hn; simpl; [exact I|].
  apply Forall_cons in Hn as [Hn Hnews].
  eapply result_sat_bind; [apply shouldCreateInsertUpdate_sat|].
  intros [[[shouldInsert shouldCreate] oldTreeNode] m1] _.
  eapply result_sat_bind;
    [apply recurse_fuelled; [apply sliced_nil|apply sliced_slice; exact Hn]|].
  intros [l m2] _. apply IH. exact Hnews.
Qed.

Lemma createInserted_fuelled parent :
  forall entries b meta,
    Forall (fun entry => okPair (snd entry)) entries ->
    result_sat (fun _ => True)
      (createInserted ANDROID recurse parent entries b meta).
Proof.
  induction entries as [|[key n] entries IH]; intros b meta He; simpl;
    [exact I|].
  apply Forall_cons in He as [Hn Hentries]. simpl in Hn.
  destruct (key =? 0); [apply IH; exact Hentries|].
  eapply result_sat_bind; [apply shouldCreateUpdate_sat|].
  intros [[shouldCreate updateNode] m1] _.
  eapply result_sat_bind;
    [apply recurse_fuelled; [apply sliced_nil|apply sliced_slice; exact Hn]|].
  intros [l m2] _. apply IH. exact Hentries.
Qed.

Lemma collectRemaining_fuelled :
  forall news remaining,
    result_sat (fun _ => True) (collectRemaining news remaining).
Proof.
  induction news as [|n news IH]; intros remaining; simpl; [exact I|].
  eapply result_sat_bind; [|intros r _; apply IH].
  apply (insert_values (fun _ => True)); [|exact I].
  apply Forall_forall. intros; exact I.
Qed.

Lemma walkInsert_fuelled parent olds news st :
  Forall okPair news -> walk_ok ok olds news st ->
  result_sat (walk_advance ok olds news st) (walkInsert parent news st).
Proof.
  intros Hnews (Hn & Ho & Hv). unfold walkInsert.
  destruct (news !! newIndex st) as [n|] eqn:Hlook; [|discriminate].
  pose proof (lookup_lt_Some _ _ _ Hlook) as Hlt.
  eapply result_sat_bind.
  - apply (insert_values okPair); [exact Hv|]. simpl.
    rewrite Forall_forall in Hnews. apply Hnews.
    eapply list_elem_of_lookup_2. exact Hlook.
  - intros ins Hins. simpl. unfold walk_advance, walk_ok, walk_measure.
    simpl. repeat split; try assumption; lia.
Qed.

Lemma walkMatched_fuelled parent index olds news o n st :
  ok (shadowNode o) -> ok (shadowNode n) ->
  (newIndex st < length news)%nat -> (oldIndex st < length olds)%nat ->
  walk_ok ok olds news st ->
  result_sat (walk_advance ok olds news st)
    (walkMatched ANDROID recurse parent index o n st).
Proof.
  intros Hoko Hokn Hnlt Holt (Hn & Ho & Hv). unfold walkMatched.
  eapply result_sat_bind.
  { apply (find_values (fun _ => True)). apply Forall_forall. intros; exact I. }
  intros [it rem] _.
  eapply result_sat_bind with (Q := fun _ => True).
  { destruct (negb _); [|exact I].
    eapply result_sat_weaken.
    - apply (erase_values (fun _ => True)). apply Forall_forall. intros; exact I.
    - intros; exact I. }
  intros rem' _.
  eapply result_sat_bind; [apply updateSubtrees_fuelled; assumption|].
  intros [b m] _. simpl. unfold walk_advance, walk_ok, walk_measure.
  simpl. repeat split; try assumption; lia.
Qed.

Lemma walkRemoveInserted_fuelled parent index olds news o it inserted st :
  ok (shadowNode o) -> (oldIndex st < length olds)%nat ->
  walk_ok ok olds news st -> values_sat okPair inserted ->
  result_sat (walk_advance ok olds news st)
    (walkRemoveInserted ANDROID recurse parent index o it inserted st).
Proof.
  intros Hoko Holt (Hn & Ho & _) Hv. unfold walkRemoveInserted.
  destruct (TinyMap.deref it inserted) as [[key n]|] eqn:Hd; [|discriminate].
  pose proof (deref_values okPair _ _ _ _ Hv Hd) as Hokn.
  eapply result_sat_bind; [apply updateSubtrees_fuelled; assumption|].
  intros [b m] _.
  eapply result_sat_bind; [apply (erase_values okPair); exact Hv|].
  intros ins Hins. simpl. unfold walk_advance, walk_ok, walk_measure.
  simpl. repeat split; try assumption; lia.
Qed.

Lemma walkRemoveGone_fuelled parent olds news o st :
  ok (shadowNode o) -> (oldIndex st < length olds)%nat ->
  walk_ok ok olds news st ->
  result_sat (walk_advance ok olds news st)
    (walkRemoveGone ANDROID recurse parent o st).
Proof.
  intros Hoko Holt (Hn & Ho & Hv). unfold walkRemoveGone.
  eapply result_sat_bind; [apply shouldRemoveDeleteUpdate_sat|].
  intros [[[shouldRemove shouldDelete] newTreeNode] m1] _.
  eapply result_sat_bind;
    [apply recurse_fuelled; [apply sliced_slice; exact Hoko|apply sliced_nil]|].
  intros [l m2] _. simpl. unfold walk_advance, walk_ok, walk_measure.
  simpl. repeat split; try assumption; lia.
Qed.

Lemma walkStep_fuelled parent index olds news st :
  Forall okPair olds -> Forall okPair news -> walk_ok ok olds news st ->
  result_sat (walk_advance ok olds news st)
    (walkStep ANDROID recurse parent index olds news st).
Proof.
  intros Holds Hnews Hok. unfold walkStep.
  destruct (Nat.ltb_spec (newIndex st) (length news)) as [Hnlt|Hnge];
    destruct (Nat.ltb_spec (oldIndex st) (length olds)) as [Holt|Hoge]; simpl.
  - destruct (news !! newIndex st) as [n|] eqn:Hn;
      destruct (olds !! oldIndex st) as [o|] eqn:Ho;
      try (apply lookup_ge_None in Hn; lia);
      try (apply lookup_ge_None in Ho; lia).
    assert (Hoko : ok (shadowNode o)).
    { rewrite Forall_forall in Holds. apply Holds.
      eapply list_elem_of_lookup_2. exact Ho. }
    assert (Hokn : ok (shadowNode n)).
    { rewrite Forall_forall in Hnews. apply Hnews.
      eapply list_elem_of_lookup_2. exact Hn. }
    destruct (_ =? _).
    { apply walkMatched_fuelled; assumption. }
    eapply result_sat_bind.
    { apply (find_values okPair). apply Hok. }
    intros [insertedIt inserted] Hins. simpl in Hins.
    destruct (negb _).
    { apply walkRemoveInserted_fuelled; assumption. }
    eapply result_sat_bind.
    { apply (find_values (fun _ => True)). apply Forall_forall. intros; exact I. }
    intros [newIt remaining] _.
    set (st2 := mkWalkState (walk_buckets st) (walk_meta st) remaining
                  inserted (oldIndex st) (newIndex st)).
    assert (Hok' : walk_ok ok olds news st2).
    { destruct Hok as (? & ? & ?). repeat split; assumption. }
    destruct (TinyMap.ptr_eqb _ _).
    + eapply result_sat_weaken;
        [apply (walkRemoveGone_fuelled parent olds news o st2 Hoko Holt Hok')|].
      intros st' Hadv. exact Hadv.
    + eapply result_sat_weaken;
        [apply (walkInsert_fuelled parent olds news st2 Hnews Hok')|].
      intros st' Hadv. exact Hadv.
  - apply walkInsert_fuelled; assumption.
  - destruct (olds !! oldIndex st) as [o|] eqn:Ho;
      [|apply lookup_ge_None in Ho; lia].
    assert (Hoko : ok (shadowNode o)).
    { rewrite Forall_forall in Holds. apply Holds.
      eapply list_elem_of_lookup_2. exact Ho. }
    eapply result_sat_bind.
    { apply (find_values okPair). apply Hok. }
    intros [insertedIt inserted] Hins. simpl in Hins.
    destruct (negb _).
    { apply walkRemoveInserted_fuelled; assumption. }
    eapply result_sat_bind.
    { apply (find_values (fun _ => True)). apply Forall_forall. intros; exact I. }
    intros [newIt remaining] _.
    set (st2 := mkWalkState (walk_buckets st) (walk_meta st) remaining
                  inserted (oldIndex st) (newIndex st)).
    assert (Hok' : walk_ok ok olds news st2).
    { destruct Hok as (? & ? & ?). repeat split; assumption. }
    destruct (TinyMap.ptr_eqb _ _).
    + eapply result_sat_weaken;
        [apply (walkRemoveGone_fuelled parent olds news o st2 Hoko Holt Hok')|].
      intros st' Hadv. exact Hadv.
    + eapply result_sat_weaken;
        [apply (walkInsert_fuelled parent olds news st2 Hnews Hok')|].
      intros st' Hadv. exact Hadv.
  - apply walkInsert_fuelled; assumption.
Qed.

Lemma walk_fuelled parent index olds news :
  Forall okPair olds -> Forall okPair news ->
  forall fuel st,
    walk_ok ok olds news st ->
    (walk_measure olds news st <= fuel)%nat ->
    result_sat (fun st' => values_sat okPair (newInsertedPairs st'))
      (walk ANDROID recurse fuel parent index olds news st).
Proof.
  intros Holds Hnews. induction fuel as [|fuel IH]; intros st Hok Hfuel;
    simpl.
  - destruct (Nat.ltb_spec (newIndex st) (length news));
      destruct (Nat.ltb_spec (oldIndex st) (length olds)); simpl;
      unfold walk_measure in Hfuel; try lia.
    apply Hok.
  - destruct (_ || _); [|apply Hok].
    eapply result_sat_bind; [apply walkStep_fuelled; assumption|].
    intros st' (Hok' & Hless). apply IH; [exact Hok'|lia].
Qed.

Lemma walkLists_fuelled parent last olds news b meta :
  Forall okPair olds -> Forall okPair news ->
  (last <= length olds)%nat -> (last <= length news)%nat ->
  result_sat (fun _ => True)
    (walkLists ANDROID recurse parent last olds news b meta).
Proof.
  intros Holds Hnews Hlo Hln. unfold walkLists.
  eapply result_sat_bind; [apply collectRemaining_fuelled|].
  intros remaining _.
  eapply result_sat_bind.
  { apply walk_fuelled; try assumption.
    - repeat split; simpl; try assumption. constructor.
    - unfold walk_measure. simpl. lia. }
  intros st Hst. simpl in Hst.
  pose proof (begin_values okPair _ Hst) as Hb.
  destruct (TinyMap.begin (newInsertedPairs st)) as [first inserted].
  apply createInserted_fuelled.
  apply (entriesFrom_values okPair first inserted). exact Hb.
Qed.

Lemma stage1_index parent :
  forall olds news index b meta index' b' meta',
    stage1 ANDROID recurse parent olds news index b meta
    = Ok (index', b', meta') ->
    (index' <= index + length olds)%nat /\ (index' <= index + length news)%nat.
Proof.
  induction olds as [|o olds IH]; intros news index b meta index' b' meta' H;
    simpl in H.
  - injection H as <- <- <-. lia.
  - destruct news as [|n news]; [injection H as <- <- <-; simpl; lia|].
    destruct (negb _); [injection H as <- <- <-; simpl; lia|].
    apply bind_Ok in H as ([b1 m1] & _ & H).
    apply IH in H. simpl. lia.
Qed.

Lemma collectMutations_fuelled meta parent olds news :
  Forall okPair olds -> Forall okPair news ->
  result_sat (fun _ => True)
    (collectMutations ANDROID recurse meta parent olds news).
Proof.
  intros Holds Hnews. unfold collectMutations.
  assert (Holds' : Forall okPair (reorderInPlaceIfNeeded olds)).
  { rewrite Forall_forall in *. intros pr Hpr.
    apply Holds, list_elem_of_In, reorder_In, list_elem_of_In, Hpr. }
  assert (Hnews' : Forall okPair (reorderInPlaceIfNeeded news)).
  { rewrite Forall_forall in *. intros pr Hpr.
    apply Hnews, list_elem_of_In, reorder_In, list_elem_of_In, Hpr. }
  destruct (stage1 ANDROID recurse parent (reorderInPlaceIfNeeded olds)
              (reorderInPlaceIfNeeded news) 0 Buckets_init meta)
    as [[[index b] m]|f] eqn:Hs1.
  2: { pose proof (stage1_fuelled parent _ _ 0%nat Buckets_init meta
                     Holds' Hnews') as Hs. rewrite Hs1 in Hs. exact Hs. }
  simpl. apply stage1_index in Hs1 as [Hio Hin].
  destruct (index =? length _)%nat.
  { apply removeRest_fuelled. apply Forall_drop. exact Holds'. }
  destruct (index =? length _)%nat.
  { apply insertRest_fuelled. apply Forall_drop. exact Hnews'. }
  apply walkLists_fuelled; try assumption; lia.
Qed.

End Fuel.

Lemma depth_positive (n : ShadowNode) : (1 <= depth n)%nat.
Proof. destruct n; simpl; lia. Qed.

Lemma body_fuelled (ANDROID : bool) (ok : ShadowNode -> Prop)
    (recurse : Differ) mutations meta parent olds news :
  fuelled ANDROID ok recurse ->
  Forall (fun pr => ok (shadowNode pr)) olds ->
  Forall (fun pr => ok (shadowNode pr)) news ->
  result_sat (fun _ => True)
    (calculateShadowViewMutations_body ANDROID recurse mutations meta parent
       olds news).
Proof.
  intros Hrec Holds Hnews. unfold calculateShadowViewMutations_body.
  destruct olds as [|o olds]; [destruct news as [|n news]; [exact I|]|];
    (eapply result_sat_bind;
     [apply (collectMutations_fuelled ANDROID ok recurse Hrec); assumption
     |intros [b m] _; exact I]).
Qed.

Lemma sliced_depth (ANDROID : bool) (fuel : nat)
    (pairs : list ShadowViewNodePair) :
  sliced ANDROID (fun n => (depth n <= S fuel)%nat) pairs ->
  Forall (fun pr => (depth (shadowNode pr) <= fuel)%nat) pairs.
Proof.
  intros [->|(n & Hn & ->)]; [constructor|].
  apply Forall_forall. intros pr Hpr.
  apply list_elem_of_In, slice_depth in Hpr. lia.
Qed.

Lemma rec_fuelled (ANDROID : bool) (fuel : nat) :
  (1 <= fuel)%nat ->
  fuelled ANDROID (fun n => (depth n <= fuel)%nat)
    (calculateShadowViewMutations_rec ANDROID fuel).
Proof.
  induction fuel as [|fuel IH]; [lia|]. intros _.
  intros mutations meta parent olds news Holds Hnews.
  apply sliced_depth in Holds, Hnews. simpl.
  destruct fuel as [|fuel].
  - assert (Hnone : forall pairs : list ShadowViewNodePair,
              Forall (fun pr => (depth (shadowNode pr) <= 0)%nat) pairs ->
              pairs = []).
    { intros [|pr pairs] H; [reflexivity|].
      apply Forall_cons in H as [H _].
      pose proof (depth_positive (shadowNode pr)). lia. }
    rewrite (Hnone _ Holds), (Hnone _ Hnews). exact I.
  - apply (body_fuelled ANDROID (fun n => (depth n <= S fuel)%nat));
      [apply IH; lia|exact Holds|exact Hnews].
Qed.

(** X20: the entry point never runs out of the fuel it gives to the recursion
    and to the interleaved walk: the nesting of the recursive calls is bounded
    by the depth of the deeper tree and the iterations of the walk by the
    lengths of the two lists, so every fault of the model is a failed
    assertion or a read outside a container. *)
Theorem fuel_suffices (ANDROID : bool)
    (oldRootShadowNode newRootShadowNode : ShadowNode)
    (enableReparentingDetection : bool) :
  calculateShadowViewMutations ANDROID oldRootShadowNode newRootShadowNode
    enableReparentingDetection <> Err OutOfFuel.
Proof.
  unfold calculateShadowViewMutations.
  destruct (negb (sameFamily _ _)); [discriminate|].
  pose proof (depth_positive oldRootShadowNode) as Hpos.
  assert (Hfuel : (1 <= nesting oldRootShadowNode newRootShadowNode)%nat)
    by (unfold nesting; lia).
  match goal with
  | |- context [calculateShadowViewMutations_rec ANDROID ?f ?l ?m ?p ?o ?n] =>
      pose proof (rec_fuelled ANDROID f Hfuel l m p o n) as Hrec
  end.
  match type of Hrec with
  | _ -> _ -> result_sat _ ?r => destruct r as [[l m]|f] eqn:Hr
  end; simpl.
  - destruct (_ && _); discriminate.
  - simpl in Hrec. intros Heq. injection Heq as ->.
    apply Hrec; [| |reflexivity]; right; eexists; (split; [|reflexivity]);
      unfold nesting; lia.
Qed.

(** ** TinyMap: lookups, erasure and iteration *)

Section TinyMapLookups.
Context {V : Type}.
Implicit Types (m : TinyMap.t V) (l : list (TinyMap.Pair V)).

Local Abbreviation isLive :=
  (fun item : TinyMap.Pair V => negb (TinyMap.isErased item)).

Lemma filter_live_idem l :
  List.filter isLive (List.filter isLive l) = List.filter isLive l.
Proof.
  induction l as [|p l IH]; simpl; [reflexivity|].
  destruct (negb (TinyMap.isErased p)) eqn:E; simpl; [rewrite E, IH|];
    auto.
Qed.

Lemma filter_live_all_erased l :
  Forall (fun p => fst p = 0) l -> List.filter isLive l = [].
Proof.
  induction 1 as [|p l Hp _ IH]; simpl; [reflexivity|].
  unfold TinyMap.isErased. rewrite Hp. simpl. exact IH.
Qed.

Lemma filter_live_none_erased l :
  length (List.filter TinyMap.isErased l) = 0%nat ->
  List.filter isLive l = l.
Proof.
  induction l as [|p l IH]; simpl; [reflexivity|].
  destruct (TinyMap.isErased p); simpl; [discriminate|].
  intros H. rewrite IH by exact H. reflexivity.
Qed.

Lemma erased_count_all l :
  Forall (fun p => fst p = 0) l ->
  length (List.filter TinyMap.isErased l) = length l.
Proof.
  induction 1 as [|p l Hp _ IH]; simpl; [reflexivity|].
  unfold TinyMap.isErased at 1. rewrite Hp. simpl. rewrite IH. reflexivity.
Qed.

Lemma liveEntries_compacted m :
  liveEntries (TinyMap.compacted m) = liveEntries m.
Proof. unfold liveEntries, TinyMap.compacted. simpl. apply filter_live_idem. Qed.

Lemma liveEntries_cleanVector forceClean m :
  TinyMap.invariant m ->
  liveEntries (TinyMap.cleanVector forceClean m) = liveEntries m.
Proof.
  intros H. rewrite cleanVector_spec by exact H.
  destruct (TinyMap.compacts _ _); [apply liveEntries_compacted|reflexivity].
Qed.

(** The live entries are the live entries behind the erased front. *)
Lemma liveEntries_behind_front m :
  TinyMap.invariant m ->
  liveEntries m
  = List.filter isLive
      (drop (Z.to_nat (TinyMap.erasedAtFront_ m)) (TinyMap.vector_ m)).
Proof.
  intros (_ & _ & _ & _ & H). unfold liveEntries.
  rewrite <- (take_drop (Z.to_nat (TinyMap.erasedAtFront_ m))
                (TinyMap.vector_ m)) at 1.
  rewrite List.filter_app, (filter_live_all_erased _ H). reflexivity.
Qed.

Lemma scan_first (key : Z) :
  key <> 0 ->
  forall l pos,
    match TinyMap.scan key l pos with
    | Some i =>
        exists (j : nat) p,
          i = pos + Z.of_nat j /\ l !! j = Some p
          /\ List.find (fun item => fst item =? key) (List.filter isLive l)
             = Some p
    | None =>
        List.find (fun item => fst item =? key) (List.filter isLive l) = None
    end.
Proof.
  intros Hkey. induction l as [|p l IH]; intros pos; simpl; [reflexivity|].
  destruct (Z.eqb_spec (fst p) key) as [Heq|Hne].
  - exists 0%nat, p. split; [lia|]. split; [reflexivity|].
    unfold TinyMap.isErased. destruct (Z.eqb_spec (fst p) 0); [congruence|].
    simpl. rewrite Heq, Z.eqb_refl. reflexivity.
  - specialize (IH (pos + 1)).
    assert (Hskip :
      List.find (fun item => fst item =? key) (List.filter isLive (p :: l))
      = List.find (fun item => fst item =? key) (List.filter isLive l)).
    { simpl. destruct (negb (TinyMap.isErased p)); [|reflexivity]. simpl.
      destruct (Z.eqb_spec (fst p) key); [contradiction|reflexivity]. }
    change (match TinyMap.scan key l (pos + 1) with
            | Some i =>
                exists (j : nat) q,
                  i = pos + Z.of_nat j /\ (p :: l) !! j = Some q
                  /\ List.find (fun item => fst item =? key)
                       (List.filter isLive (p :: l)) = Some q
            | None =>
                List.find (fun item => fst item =? key)
                  (List.filter isLive (p :: l)) = None
            end).
    rewrite Hskip.
    destruct (TinyMap.scan key l (pos + 1)) as [i|]; [|exact IH].
    destruct IH as (j & q & -> & Hj & Hfind).
    exists (S j), q. split; [lia|]. split; assumption.
Qed.

(** What [find] returns on a map that satisfies the invariant. *)
Lemma find_first_live (key : Z) m :
  TinyMap.invariant m -> key <> 0 ->
  exists it m',
    TinyMap.find key m = Ok (it, m')
    /\ TinyMap.invariant m'
    /\ liveEntries m' = liveEntries m
    /\ match firstWithKey key m with
       | Some p =>
           TinyMap.deref it m' = Some p
           /\ TinyMap.ptr_eqb it (TinyMap.end_ m') = false
       | None => it = TinyMap.end_ m'
       end.
Proof.
  intros Hinv Hkey. unfold TinyMap.find, firstWithKey.
  destruct (Z.eqb_spec key 0) as [|_]; [contradiction|].
  pose proof (cleanVector_invariant false m Hinv) as Hinv1.
  pose proof (liveEntries_cleanVector false m Hinv) as Hlive.
  set (m1 := TinyMap.cleanVector false m) in *.
  rewrite <- Hlive.
  pose proof (liveEntries_behind_front m1 Hinv1) as Hfront.
  destruct Hinv1 as (H0 & H1 & H2 & H3 & H4).
  assert (Hinv1 : TinyMap.invariant m1) by (repeat split; assumption).
  unfold TinyMap.begin_.
  destruct (TinyMap.vector_empty m1
            || (TinyMap.size m1 =? size_t_of_int (TinyMap.numErased_ m1)))
    eqn:Hnone.
  - exists (TinyMap.end_ m1), m1.
    split; [reflexivity|]. split; [exact Hinv1|]. split; [reflexivity|].
    assert (Hall : liveEntries m1 = []).
    { unfold liveEntries. apply all_erased_filter.
      unfold TinyMap.count_erased, TinyMap.size, TinyMap.vector_empty in *.
      rewrite size_t_of_int_nonneg in Hnone by lia.
      destruct (TinyMap.vector_ m1) as [|p l]; [reflexivity|].
      cbn [orb] in Hnone. apply Z.eqb_eq in Hnone. lia. }
    rewrite Hall. reflexivity.
  - pose proof (scan_first key Hkey
                  (drop (Z.to_nat (0 + TinyMap.erasedAtFront_ m1))
                     (TinyMap.vector_ m1))
                  (0 + TinyMap.erasedAtFront_ m1)) as Hscan.
    replace (Z.to_nat (0 + TinyMap.erasedAtFront_ m1))
      with (Z.to_nat (TinyMap.erasedAtFront_ m1)) in * by lia.
    rewrite <- Hfront in Hscan.
    destruct (TinyMap.scan _ _ _) as [i|].
    + destruct Hscan as (j & p & -> & Hj & Hfind).
      exists (Some (0 + TinyMap.erasedAtFront_ m1 + Z.of_nat j)), m1.
      split; [reflexivity|]. split; [exact Hinv1|]. split; [reflexivity|].
      rewrite Hfind. rewrite lookup_drop in Hj.
      pose proof (lookup_lt_Some _ _ _ Hj) as Hlt. split.
      * unfold TinyMap.deref.
        destruct (Z.ltb_spec (0 + TinyMap.erasedAtFront_ m1 + Z.of_nat j) 0);
          [lia|].
        replace (Z.to_nat (0 + TinyMap.erasedAtFront_ m1 + Z.of_nat j))
          with (Z.to_nat (TinyMap.erasedAtFront_ m1) + j)%nat by lia.
        exact Hj.
      * unfold TinyMap.end_.
        destruct (TinyMap.vector_empty m1
                  || (size_t_of_int (TinyMap.numErased_ m1)
                      =? TinyMap.size m1)); [reflexivity|].
        simpl. apply Z.eqb_neq. unfold TinyMap.size, TinyMap.Pair in *. lia.
    + exists (TinyMap.end_ m1), m1.
      split; [reflexivity|]. split; [exact Hinv1|]. split; [reflexivity|].
      rewrite Hscan. reflexivity.
Qed.

Lemma insert_succeeds pair m :
  fst pair <> 0 ->
  exists m', TinyMap.insert pair m = Ok m'
             /\ liveEntries m' = liveEntries m ++ [pair].
Proof.
  intros Hkey. unfold TinyMap.insert, liveEntries.
  destruct (Z.eqb_spec (fst pair) 0) as [|_]; [contradiction|].
  eexists. split; [reflexivity|]. simpl.
  rewrite List.filter_app. simpl. unfold TinyMap.isErased at 2.
  destruct (Z.eqb_spec (fst pair) 0) as [|_]; [contradiction|]. reflexivity.
Qed.

Lemma find_app_none {A : Type} (f : A -> bool) (l1 l2 : list A) :
  List.find f l1 = None -> List.find f (l1 ++ l2) = List.find f l2.
Proof.
  induction l1 as [|a l1 IH]; simpl; [reflexivity|].
  destruct (f a); [discriminate|exact IH].
Qed.

(** Erasing a live entry takes it, and nothing else, out of the live
    entries. *)
Lemma erase_live it m p :
  TinyMap.deref it m = Some p -> fst p <> 0 ->
  exists m' (i : nat),
    TinyMap.erase it m = Ok m'
    /\ liveEntries m
       = List.filter isLive (take i (TinyMap.vector_ m))
         ++ p :: List.filter isLive (drop (S i) (TinyMap.vector_ m))
    /\ liveEntries m'
       = List.filter isLive (take i (TinyMap.vector_ m))
         ++ List.filter isLive (drop (S i) (TinyMap.vector_ m))
    /\ TinyMap.vector_ m !! i = Some p.
Proof.
  intros Hd Hkey. unfold TinyMap.erase. rewrite Hd.
  destruct p as [k v], it as [z|]; [|discriminate]. simpl in Hkey.
  unfold TinyMap.deref in Hd.
  destruct (z <? 0); [discriminate|].
  eexists _, (Z.to_nat z). split; [reflexivity|].
  pose proof (lookup_lt_Some _ _ _ Hd) as Hlt.
  assert (Hlive : isLive (k, v) = true).
  { unfold TinyMap.isErased. simpl.
    destruct (Z.eqb_spec k 0); [congruence|reflexivity]. }
  unfold liveEntries. simpl. split; [|split; [|exact Hd]].
  - rewrite <- (take_drop_middle _ _ _ Hd) at 1.
    rewrite List.filter_app. simpl. rewrite Hlive. reflexivity.
  - rewrite insert_take_drop by exact Hlt.
    rewrite List.filter_app. reflexivity.
Qed.

End TinyMapLookups.

(** The entries between [begin()] and [end()] of a map that satisfies the
    invariant are its live entries. *)
Lemma entriesFrom_begin (m : TinyMap.t ShadowViewNodePair) :
  TinyMap.invariant m ->
  entriesFrom (fst (TinyMap.begin m)) (snd (TinyMap.begin m)) = liveEntries m.
Proof.
  intros Hinv.
  pose proof (cleanVector_invariant
                (negb (TinyMap.erasedAtFront_ m =? TinyMap.numErased_ m))
                m Hinv) as Hinv1.
  pose proof (liveEntries_cleanVector
                (negb (TinyMap.erasedAtFront_ m =? TinyMap.numErased_ m))
                m Hinv) as Hlive.
  assert (Hfront :
    TinyMap.erasedAtFront_
      (TinyMap.cleanVector
         (negb (TinyMap.erasedAtFront_ m =? TinyMap.numErased_ m)) m)
    = TinyMap.numErased_
        (TinyMap.cleanVector
           (negb (TinyMap.erasedAtFront_ m =? TinyMap.numErased_ m)) m)).
  { rewrite cleanVector_spec by exact Hinv.
    destruct Hinv as (H0 & H1 & H2 & H3 & H4).
    unfold TinyMap.compacts, TinyMap.vector_empty, TinyMap.size in *.
    destruct (Z.eqb_spec (TinyMap.erasedAtFront_ m) (TinyMap.numErased_ m))
      as [Heq|Hne]; simpl.
    - rewrite Heq, Z.eqb_refl. simpl. rewrite andb_false_r. exact Heq.
    - destruct (TinyMap.vector_ m) as [|p l]; simpl in *; [lia|].
      destruct (Z.eqb_spec (TinyMap.numErased_ m) 0); [lia|].
      destruct (Z.eqb_spec (TinyMap.numErased_ m) (TinyMap.erasedAtFront_ m));
        [lia|].
      simpl. rewrite orb_true_r. reflexivity. }
  rewrite <- Hlive. unfold TinyMap.begin.
  set (m1 := TinyMap.cleanVector _ m) in *.
  pose proof (liveEntries_behind_front m1 Hinv1) as Hbehind.
  destruct Hinv1 as (H0 & H1 & H2 & H3 & H4).
  assert (Hnone : TinyMap.vector_empty m1
                  || (TinyMap.size m1 =? TinyMap.numErased_ m1) = true ->
                  liveEntries m1 = []).
  { intros Hnone. unfold liveEntries. apply all_erased_filter.
    unfold TinyMap.count_erased, TinyMap.size, TinyMap.vector_empty in *.
    destruct (TinyMap.vector_ m1) as [|p l]; [reflexivity|].
    cbn [orb] in Hnone. apply Z.eqb_eq in Hnone. lia. }
  unfold TinyMap.begin_.
  rewrite size_t_of_int_nonneg by lia.
  destruct (TinyMap.vector_empty m1
            || (TinyMap.size m1 =? TinyMap.numErased_ m1)) eqn:Hc; simpl;
    unfold entriesFrom, TinyMap.end_;
    rewrite ?size_t_of_int_nonneg by lia;
    rewrite ?(Z.eqb_sym (TinyMap.numErased_ m1) (TinyMap.size m1)), ?Hc.
  - symmetry. apply Hnone. reflexivity.
  - replace (Z.to_nat (0 + TinyMap.erasedAtFront_ m1))
      with (Z.to_nat (TinyMap.erasedAtFront_ m1)) by lia.
    rewrite Hbehind. symmetry. apply filter_live_none_erased.
    pose proof (erased_count_all _ H4) as Hcount.
    rewrite length_take in Hcount.
    unfold TinyMap.count_erased, TinyMap.size in *.
    rewrite <- (take_drop (Z.to_nat (TinyMap.erasedAtFront_ m1))
                  (TinyMap.vector_ m1)) in H3 at 1.
    rewrite List.filter_app, length_app in H3.
    unfold TinyMap.Pair in *. lia.
Qed.

Lemma ptr_eqb_refl (it : TinyMap.Iterator) : TinyMap.ptr_eqb it it = true.
Proof. destruct it; simpl; [apply Z.eqb_refl|reflexivity]. Qed.

Lemma find_filter_nil {A : Type} (f : A -> bool) (l : list A) :
  List.filter f l = [] -> List.find f l = None.
Proof.
  induction l as [|a l IH]; simpl; [reflexivity|].
  destruct (f a); [discriminate|exact IH].
Qed.

Lemma frontErased_invariant : TinyMap.invariant frontErased.
Proof.
  unfold TinyMap.invariant. repeat split; try (vm_compute; congruence).
  simpl. repeat constructor.
Defined.

Lemma oneErased_invariant : TinyMap.invariant oneErased.
Proof.
  unfold TinyMap.invariant. repeat split; try (vm_compute; congruence).
  simpl. repeat constructor.
Defined.

(** X1: on a map that satisfies the invariant, [find] with a non-zero key
    succeeds, keeps the live entries as they are, and returns an iterator to
    the first live entry with that key, which differs from [end()], or
    [end()] when no live entry has the key. *)
Theorem TinyMap_find_key {V : Type} (key : Z) (m : TinyMap.t V) :
  TinyMap.invariant m -> key <> 0 ->
  exists it m',
    TinyMap.find key m = Ok (it, m')
    /\ TinyMap.invariant m'
    /\ liveEntries m' = liveEntries m
    /\ match firstWithKey key m with
       | Some p =>
           TinyMap.deref it m' = Some p
           /\ TinyMap.ptr_eqb it (TinyMap.end_ m') = false
       | None => it = TinyMap.end_ m'
       end.
Proof. exact (find_first_live key m). Qed.

Lemma TinyMap_find_key_witness :
  exists it m',
    TinyMap.find 5 frontErased = Ok (it, m')
    /\ TinyMap.invariant m'
    /\ liveEntries m' = liveEntries frontErased
    /\ match firstWithKey 5 frontErased with
       | Some p =>
           TinyMap.deref it m' = Some p
           /\ TinyMap.ptr_eqb it (TinyMap.end_ m') = false
       | None => it = TinyMap.end_ m'
       end.
Proof.
  apply (TinyMap_find_key 5 frontErased frontErased_invariant). discriminate.
Defined.

(** X2: on a map that satisfies the invariant and has no live entry with a
    non-zero key, [insert] of a pair with that key succeeds and a [find] of
    the key then returns an iterator to the inserted pair; the live entries
    are the former ones followed by the pair. *)
Theorem TinyMap_insert_then_find {V : Type} (key : Z) (value : V)
    (m : TinyMap.t V) :
  TinyMap.invariant m -> key <> 0 -> firstWithKey key m = None ->
  exists m1 it m2,
    TinyMap.insert (key, value) m = Ok m1
    /\ TinyMap.find key m1 = Ok (it, m2)
    /\ TinyMap.deref it m2 = Some (key, value)
    /\ TinyMap.ptr_eqb it (TinyMap.end_ m2) = false
    /\ liveEntries m2 = liveEntries m ++ [(key, value)].
Proof.
  intros Hinv Hkey Hfresh.
  destruct (insert_succeeds (key, value) m Hkey) as (m1 & Hins & Hlive1).
  pose proof (insert_invariant _ _ _ Hinv Hins Hkey) as Hinv1.
  destruct (find_first_live key m1 Hinv1 Hkey)
    as (it & m2 & Hfind & _ & Hlive2 & Hit).
  exists m1, it, m2. split; [exact Hins|]. split; [exact Hfind|].
  assert (Hfirst : firstWithKey key m1 = Some (key, value)).
  { unfold firstWithKey in *. rewrite Hlive1, find_app_none by exact Hfresh.
    simpl. rewrite Z.eqb_refl. reflexivity. }
  rewrite Hfirst in Hit. destruct Hit as [Hd Hne].
  split; [exact Hd|]. split; [exact Hne|]. rewrite Hlive2. exact Hlive1.
Qed.

Lemma TinyMap_insert_then_find_witness :
  exists m1 it m2,
    TinyMap.insert (7, tt) frontErased = Ok m1
    /\ TinyMap.find 7 m1 = Ok (it, m2)
    /\ TinyMap.deref it m2 = Some (7, tt)
    /\ TinyMap.ptr_eqb it (TinyMap.end_ m2) = false
    /\ liveEntries m2 = liveEntries frontErased ++ [(7, tt)].
Proof.
  apply (TinyMap_insert_then_find 7 tt frontErased frontErased_invariant);
    [discriminate|reflexivity].
Defined.

(** What erasing the iterator that [find] returned does to the live
    entries. *)
Lemma erase_found {V : Type} (key : Z) (m : TinyMap.t V) it m1 :
  TinyMap.invariant m -> key <> 0 ->
  TinyMap.find key m = Ok (it, m1) ->
  TinyMap.ptr_eqb it (TinyMap.end_ m1) = false ->
  exists m2 p before after,
    TinyMap.erase it m1 = Ok m2
    /\ TinyMap.invariant m2
    /\ fst p = key
    /\ liveEntries m = before ++ p :: after
    /\ liveEntries m2 = before ++ after.
Proof.
  intros Hinv Hkey Hfind Hne.
  destruct (find_first_live key m Hinv Hkey)
    as (it' & m1' & Hfind' & Hinv1 & Hlive1 & Hit).
  rewrite Hfind in Hfind'. injection Hfind' as <- <-.
  destruct (firstWithKey key m) as [p|] eqn:Hfirst.
  2: { rewrite Hit, ptr_eqb_refl in Hne. discriminate. }
  destruct Hit as [Hd _].
  apply find_some in Hfirst as [_ Hp]. apply Z.eqb_eq in Hp.
  assert (Hp0 : fst p <> 0) by congruence.
  destruct (erase_live it m1 p Hd Hp0) as (m2 & i & Her & Hl1 & Hl2 & _).
  eexists m2, p, _, _. split; [exact Her|]. split.
  { apply (erase_invariant it m1 m2 Hinv1); [|exact Her].
    exists p. split; assumption. }
  split; [exact Hp|]. split; [|exact Hl2]. rewrite <- Hlive1. exact Hl1.
Qed.

(** X3: erasing the iterator that a successful [find] returned succeeds,
    keeps the invariant, and takes one live entry with the searched key, and
    no other entry, out of the live entries. *)
Theorem TinyMap_erase_found {V : Type} (key : Z) (m : TinyMap.t V) it m1 :
  TinyMap.invariant m -> key <> 0 ->
  TinyMap.find key m = Ok (it, m1) ->
  TinyMap.ptr_eqb it (TinyMap.end_ m1) = false ->
  exists m2 p before after,
    TinyMap.erase it m1 = Ok m2
    /\ TinyMap.invariant m2
    /\ fst p = key
    /\ liveEntries m = before ++ p :: after
    /\ liveEntries m2 = before ++ after.
Proof. exact (erase_found key m it m1). Qed.

Lemma TinyMap_erase_found_witness :
  exists m2 p before after,
    TinyMap.erase (Some 2) frontErased = Ok m2
    /\ TinyMap.invariant m2
    /\ fst p = 5
    /\ liveEntries frontErased = before ++ p :: after
    /\ liveEntries m2 = before ++ after.
Proof.
  apply (TinyMap_erase_found 5 frontErased (Some 2) frontErased
           frontErased_invariant); [discriminate|reflexivity|reflexivity].
Defined.

(** X4: when exactly one live entry has the key, a [find] of the key after
    the found entry was erased returns [end()]. *)
Theorem TinyMap_find_after_erase {V : Type} (key : Z) (m : TinyMap.t V)
    it m1 m2 :
  TinyMap.invariant m -> key <> 0 ->
  length (List.filter (fun item => fst item =? key) (liveEntries m)) = 1%nat ->
  TinyMap.find key m = Ok (it, m1) ->
  TinyMap.ptr_eqb it (TinyMap.end_ m1) = false ->
  TinyMap.erase it m1 = Ok m2 ->
  exists m3, TinyMap.find key m2 = Ok (TinyMap.end_ m3, m3).
Proof.
  intros Hinv Hkey Hone Hfind Hne Her.
  destruct (erase_found key m it m1 Hinv Hkey Hfind Hne)
    as (m2' & p & before & after & Her' & Hinv2 & Hp & Hl & Hl2).
  rewrite Her in Her'. injection Her' as <-.
  destruct (find_first_live key m2 Hinv2 Hkey)
    as (it3 & m3 & Hfind3 & _ & _ & Hit).
  assert (Hnone : firstWithKey key m2 = None).
  { unfold firstWithKey. rewrite Hl2. apply find_filter_nil.
    rewrite Hl, List.filter_app in Hone. simpl in Hone.
    rewrite Hp, Z.eqb_refl, length_app in Hone. simpl in Hone.
    rewrite List.filter_app.
    destruct (List.filter _ before); [|simpl in Hone; lia].
    destruct (List.filter _ after); [reflexivity|simpl in Hone; lia]. }
  rewrite Hnone in Hit. subst it3. exists m3. exact Hfind3.
Qed.

Lemma TinyMap_find_after_erase_witness :
  exists m3,
    TinyMap.find 5 (TinyMap.mk [(0, tt); (0, tt); (0, tt)] 3 3)
    = Ok (TinyMap.end_ m3, m3).
Proof.
  apply (TinyMap_find_after_erase 5 frontErased (Some 2) frontErased
           (TinyMap.mk [(0, tt); (0, tt); (0, tt)] 3 3)
           frontErased_invariant);
    [discriminate|reflexivity|reflexivity|reflexivity|reflexivity].
Defined.

(** X5: on a map that satisfies the invariant, the entries from [begin()] up
    to [end()] are the live entries, in the order of their insertion; none of
    them has the erased key 0. *)
Theorem TinyMap_iteration_visits_live (m : TinyMap.t ShadowViewNodePair) :
  TinyMap.invariant m ->
  entriesFrom (fst (TinyMap.begin m)) (snd (TinyMap.begin m)) = liveEntries m
  /\ Forall (fun entry => fst entry <> 0)
       (entriesFrom (fst (TinyMap.begin m)) (snd (TinyMap.begin m))).
Proof.
  intros Hinv. rewrite entriesFrom_begin by exact Hinv.
  split; [reflexivity|]. unfold liveEntries.
  apply List.Forall_forall. intros entry Hin.
  apply filter_In in Hin as [_ Hlive]. unfold TinyMap.isErased in Hlive.
  destruct (Z.eqb_spec (fst entry) 0); [discriminate|assumption].
Qed.

Lemma TinyMap_iteration_visits_live_witness :
  entriesFrom (fst (TinyMap.begin oneErased)) (snd (TinyMap.begin oneErased))
  = liveEntries oneErased
  /\ Forall (fun entry => fst entry <> 0)
       (entriesFrom (fst (TinyMap.begin oneErased))
          (snd (TinyMap.begin oneErased))).
Proof.
  exact (TinyMap_iteration_visits_live oneErased oneErased_invariant).
Defined.

(** ** Reordering *)

Lemma stable_insert_perm p sorted :
  Permutation (stable_insert p sorted) (p :: sorted).
Proof.
  induction sorted as [|q sorted IH]; simpl; [reflexivity|].
  destruct (shouldFirstPairComesBeforeSecondOne q p); [|reflexivity].
  rewrite IH. apply perm_swap.
Qed.

Lemma stable_sort_perm pairs : Permutation (stable_sort pairs) pairs.
Proof.
  unfold stable_sort. induction pairs as [|p pairs IH]; simpl; [reflexivity|].
  rewrite stable_insert_perm, IH. reflexivity.
Qed.

Lemma stable_insert_sorted p sorted :
  StronglySorted orderIndexLe sorted ->
  StronglySorted orderIndexLe (stable_insert p sorted).
Proof.
  induction 1 as [|q sorted Hs IH Hq]; simpl; [repeat constructor|].
  unfold shouldFirstPairComesBeforeSecondOne.
  destruct (Z.ltb_spec (getOrderIndex (shadowNode q))
              (getOrderIndex (shadowNode p))) as [Hlt|Hge].
  - constructor; [exact IH|].
    rewrite Forall_forall. intros r Hr.
    apply list_elem_of_In in Hr.
    eapply Permutation_in in Hr; [|apply stable_insert_perm].
    destruct Hr as [<-|Hr]; [unfold orderIndexLe; lia|].
    rewrite Forall_forall in Hq. apply Hq, list_elem_of_In, Hr.
  - constructor; [constructor; assumption|].
    constructor; [exact Hge|].
    eapply Forall_impl; [exact Hq|]. unfold orderIndexLe. simpl. intros; lia.
Qed.

Lemma stable_sort_sorted pairs : StronglySorted orderIndexLe (stable_sort pairs).
Proof.
  unfold stable_sort. induction pairs as [|p pairs IH]; simpl; [constructor|].
  apply stable_insert_sorted. exact IH.
Qed.

Lemma stable_insert_stable k p sorted :
  withOrderIndex k (stable_insert p sorted) = withOrderIndex k (p :: sorted).
Proof.
  unfold withOrderIndex.
  induction sorted as [|q sorted IH]; simpl; [reflexivity|].
  unfold shouldFirstPairComesBeforeSecondOne.
  destruct (Z.ltb_spec (getOrderIndex (shadowNode q))
              (getOrderIndex (shadowNode p))) as [Hlt|Hge]; [|reflexivity].
  simpl. rewrite IH. simpl.
  destruct (Z.eqb_spec (getOrderIndex (shadowNode p)) k),
    (Z.eqb_spec (getOrderIndex (shadowNode q)) k); try reflexivity. lia.
Qed.

Lemma stable_sort_stable k pairs :
  withOrderIndex k (stable_sort pairs) = withOrderIndex k pairs.
Proof.
  unfold stable_sort. induction pairs as [|p pairs IH]; simpl; [reflexivity|].
  rewrite stable_insert_stable. unfold withOrderIndex in *. simpl.
  rewrite IH. reflexivity.
Qed.

Lemma stable_sort_of_sorted pairs :
  StronglySorted orderIndexLe pairs -> stable_sort pairs = pairs.
Proof.
  unfold stable_sort. induction 1 as [|p pairs Hs IH Hp]; simpl; [reflexivity|].
  rewrite IH. destruct pairs as [|q pairs]; simpl; [reflexivity|].
  unfold shouldFirstPairComesBeforeSecondOne.
  apply Forall_cons in Hp as [Hpq _]. unfold orderIndexLe in Hpq.
  destruct (Z.ltb_spec (getOrderIndex (shadowNode q))
              (getOrderIndex (shadowNode p))); [lia|reflexivity].
Qed.

Lemma all_zero_sorted pairs :
  existsb (fun pair => negb (getOrderIndex (shadowNode pair) =? 0)) pairs
  = false ->
  StronglySorted orderIndexLe pairs.
Proof.
  induction pairs as [|p pairs IH]; simpl; [constructor|].
  intros H. apply orb_false_elim in H as [Hp Hrest].
  constructor; [apply IH, Hrest|].
  apply negb_false_iff, Z.eqb_eq in Hp.
  clear IH. induction pairs as [|q pairs IH]; [constructor|].
  simpl in Hrest. apply orb_false_elim in Hrest as [Hq Hrest].
  apply negb_false_iff, Z.eqb_eq in Hq.
  constructor; [unfold orderIndexLe; lia|apply IH, Hrest].
Qed.

Lemma short_sorted pairs :
  (length pairs < 2)%nat -> StronglySorted orderIndexLe pairs.
Proof.
  destruct pairs as [|p [|q pairs]]; simpl; intros H; try lia;
    repeat constructor.
Qed.

Lemma reorder_sorted pairs :
  StronglySorted orderIndexLe (reorderInPlaceIfNeeded pairs).
Proof.
  unfold reorderInPlaceIfNeeded.
  destruct (Nat.ltb_spec (length pairs) 2) as [Hshort|_];
    [apply short_sorted, Hshort|].
  destruct (existsb _ pairs) eqn:Hneeded; simpl;
    [apply stable_sort_sorted|apply all_zero_sorted, Hneeded].
Qed.

Lemma reorder_of_sorted pairs :
  StronglySorted orderIndexLe pairs -> reorderInPlaceIfNeeded pairs = pairs.
Proof.
  intros Hl. unfold reorderInPlaceIfNeeded.
  destruct (length pairs <? 2)%nat; [reflexivity|].
  destruct (negb _); [reflexivity|]. apply stable_sort_of_sorted, Hl.
Qed.

(** X6: [reorderInPlaceIfNeeded] returns a permutation of its list that is
    in non-decreasing order of the order indices and keeps the pairs of equal
    order index in the order they had: it is a stable sort, also on the paths
    that return early.  Reordering the result again changes nothing. *)
Theorem reorder_is_stable_sort (pairs : list ShadowViewNodePair) :
  Permutation (reorderInPlaceIfNeeded pairs) pairs
  /\ StronglySorted orderIndexLe (reorderInPlaceIfNeeded pairs)
  /\ (forall k,
        withOrderIndex k (reorderInPlaceIfNeeded pairs)
        = withOrderIndex k pairs)
  /\ reorderInPlaceIfNeeded (reorderInPlaceIfNeeded pairs)
     = reorderInPlaceIfNeeded pairs.
Proof.
  split; [|split; [apply reorder_sorted|split]].
  - unfold reorderInPlaceIfNeeded.
    destruct (length pairs <? 2)%nat; [reflexivity|].
    destruct (negb _); [reflexivity|apply stable_sort_perm].
  - intros k. unfold reorderInPlaceIfNeeded.
    destruct (length pairs <? 2)%nat; [reflexivity|].
    destruct (negb _); [reflexivity|apply stable_sort_stable].
  - apply reorder_of_sorted, reorder_sorted.
Qed.

(** X7: a list that is already in non-decreasing order of the order indices
    comes back unchanged. *)
Theorem reorder_keeps_sorted (pairs : list ShadowViewNodePair) :
  StronglySorted orderIndexLe pairs -> reorderInPlaceIfNeeded pairs = pairs.
Proof. exact (reorder_of_sorted pairs). Qed.

Lemma reorder_keeps_sorted_witness :
  reorderInPlaceIfNeeded
    [mkPair (ShadowView_of (viewNode 2 0 [])) (viewNode 2 0 []);
     mkPair (ShadowView_of (viewNode 3 0 []))
       (mkShadowNode 3 3 "View" 0 0 0 EmptyLayoutMetrics viewTraits 4 []);
     mkPair (ShadowView_of (viewNode 4 0 []))
       (mkShadowNode 4 4 "View" 0 0 0 EmptyLayoutMetrics viewTraits 4 [])]
  = [mkPair (ShadowView_of (viewNode 2 0 [])) (viewNode 2 0 []);
     mkPair (ShadowView_of (viewNode 3 0 []))
       (mkShadowNode 3 3 "View" 0 0 0 EmptyLayoutMetrics viewTraits 4 []);
     mkPair (ShadowView_of (viewNode 4 0 []))
       (mkShadowNode 4 4 "View" 0 0 0 EmptyLayoutMetrics viewTraits 4 [])].
Proof.
  apply reorder_keeps_sorted.
  repeat constructor; unfold orderIndexLe; simpl; lia.
Defined.

(** ** The flattener: what it lists and in which order *)

Section FlattenerOrder.
Variable ANDROID : bool.

Local Abbreviation sliceRec :=
  (sliceChildShadowNodeViewPairsRecursively ANDROID).

Lemma flattenNodes_children n :
  flattenNodes ANDROID n
  = flat_map
      (fun child =>
         if negb ANDROID && Hidden (getTraits child) then []
         else if FormsStackingContext (getTraits child) then [child]
         else (if FormsView (getTraits child) then [child] else [])
              ++ flattenNodes ANDROID child)
      (getChildren n).
Proof. destruct n; reflexivity. Qed.

Lemma projectsNode_own (n : ShadowNode) (layoutOffset : Point) :
  projectsNode
    (mkPair
       (if negb (LayoutMetrics_eqb (layoutMetrics (ShadowView_of n))
                   EmptyLayoutMetrics)
        then
          {| tag := tag (ShadowView_of n);
             componentName := componentName (ShadowView_of n);
             props := props (ShadowView_of n);
             eventEmitter := eventEmitter (ShadowView_of n);
             layoutMetrics :=
               {| frame :=
                    {| origin :=
                         Point_add
                           (origin (frame (layoutMetrics (ShadowView_of n))))
                           layoutOffset;
                       size := size (frame (layoutMetrics (ShadowView_of n))) |};
                  otherMetrics :=
                    otherMetrics (layoutMetrics (ShadowView_of n)) |};
             state := state (ShadowView_of n) |}
        else ShadowView_of n) n).
Proof.
  unfold projectsNode. simpl.
  destruct (LayoutMetrics_eqb (getLayoutMetrics n) EmptyLayoutMetrics);
    simpl; repeat split; try reflexivity. discriminate.
Qed.

Lemma sliceChild_good layoutOffset child :
  sliceRec_good ANDROID child ->
  forall pairList,
    sliceChild ANDROID sliceRec layoutOffset pairList child
    = pairList ++ sliceChild ANDROID sliceRec layoutOffset [] child
    /\ map shadowNode (sliceChild ANDROID sliceRec layoutOffset [] child)
       = (if negb ANDROID && Hidden (getTraits child) then []
          else if FormsStackingContext (getTraits child) then [child]
          else (if FormsView (getTraits child) then [child] else [])
               ++ flattenNodes ANDROID child)
    /\ Forall projectsNode (sliceChild ANDROID sliceRec layoutOffset [] child).
Proof.
  intros Hgood pairList. unfold sliceChild.
  destruct (negb ANDROID && Hidden (getTraits child)).
  { rewrite app_nil_r. repeat split. constructor. }
  pose proof (projectsNode_own child layoutOffset) as Hown.
  set (view := if negb _ then _ else ShadowView_of child) in *.
  set (offset := if negb _ then _ else layoutOffset).
  destruct (FormsStackingContext (getTraits child)).
  { repeat split. constructor; [exact Hown|constructor]. }
  destruct (Hgood [] offset) as (_ & Hnodes & Hproj).
  destruct (FormsView (getTraits child)).
  - destruct (Hgood (pairList ++ [mkPair view child]) offset) as (-> & _ & _).
    destruct (Hgood ([] ++ [mkPair view child]) offset) as (-> & _ & _).
    rewrite <- app_assoc. split; [reflexivity|]. split.
    + rewrite map_app, Hnodes. reflexivity.
    + apply Forall_app. split; [|exact Hproj].
      constructor; [exact Hown|constructor].
  - destruct (Hgood pairList offset) as (-> & _ & _).
    split; [reflexivity|]. split; [exact Hnodes|exact Hproj].
Qed.

Lemma sliceRec_is_good (k : nat) :
  forall n, (depth n <= k)%nat -> sliceRec_good ANDROID n.
Proof.
  induction k as [|k IHk]; intros n Hk.
  { destruct n; simpl in Hk; lia. }
  intros pairList layoutOffset.
  rewrite !sliceRec_children, flattenNodes_children.
  assert (Hcs : forall c, In c (getChildren n) -> sliceRec_good ANDROID c).
  { intros c Hc. apply IHk. pose proof (depth_child n c Hc). lia. }
  clear Hk. revert pairList.
  induction (getChildren n) as [|c cs IH]; intros pairList; simpl.
  { rewrite app_nil_r. repeat split. constructor. }
  assert (Hcs' : forall c', In c' cs -> sliceRec_good ANDROID c')
    by (intros c' Hc'; apply Hcs; right; exact Hc').
  specialize (IH Hcs').
  pose proof (sliceChild_good layoutOffset c (Hcs c (or_introl eq_refl)))
    as Hchild.
  destruct (Hchild pairList) as (Happ & _ & _).
  destruct (Hchild []) as (_ & Hnodes & Hproj).
  destruct (IH (sliceChild ANDROID sliceRec layoutOffset pairList c))
    as (-> & _ & _).
  destruct (IH (sliceChild ANDROID sliceRec layoutOffset [] c))
    as (-> & _ & _).
  destruct (IH []) as (_ & Hrest & Hprojrest).
  rewrite Happ, <- app_assoc. split; [reflexivity|]. split.
  - rewrite map_app, Hnodes, Hrest. reflexivity.
  - apply Forall_app. split; assumption.
Qed.

Lemma flattenNodes_sound (k : nat) :
  forall n c, (depth n <= k)%nat ->
    In c (flattenNodes ANDROID n) ->
    flattenedUnder ANDROID n c
    /\ (FormsStackingContext (getTraits c) = true
        \/ FormsView (getTraits c) = true).
Proof.
  induction k as [|k IHk]; intros n c Hk.
  { destruct n; simpl in Hk; lia. }
  rewrite flattenNodes_children. intros Hin.
  apply in_flat_map in Hin as (w & Hw & Hin).
  assert (Hwk : (depth w <= k)%nat)
    by (pose proof (depth_child n w Hw); lia).
  destruct (negb ANDROID && Hidden (getTraits w)) eqn:Hskip;
    [contradiction|].
  assert (Hvisible : notSkipped ANDROID w).
  { unfold notSkipped. destruct ANDROID; [auto|]. simpl in Hskip. auto. }
  destruct (FormsStackingContext (getTraits w)) eqn:Hctx.
  { destruct Hin as [<-|[]]. split; [|auto].
    apply flattened_child; assumption. }
  apply in_app_or in Hin as [Hin|Hin].
  - destruct (FormsView (getTraits w)) eqn:Hview; [|contradiction].
    destruct Hin as [<-|[]]. split; [|auto].
    apply flattened_child; assumption.
  - destruct (IHk w c Hwk Hin) as [Hunder Hforms]. split; [|exact Hforms].
    eapply flattened_through; eassumption.
Qed.

Lemma flattenedUnder_visible n c :
  flattenedUnder ANDROID n c -> notSkipped ANDROID c.
Proof. induction 1; assumption. Qed.

End FlattenerOrder.

(** X8: the view of every pair of a flattened list shows the node of the
    pair: tag, component name, props, event emitter, state, size and the other
    metrics are the node's, and a node without layout keeps its whole view;
    only the origin of a frame is moved. *)
Theorem slice_views_show_nodes (ANDROID : bool) (n : ShadowNode) :
  Forall projectsNode (sliceChildShadowNodeViewPairs ANDROID n).
Proof.
  unfold sliceChildShadowNodeViewPairs.
  destruct (negb _ && _); [constructor|].
  apply (sliceRec_is_good ANDROID (depth n) n (le_n _) [] (mkPoint 0 0)).
Qed.

(** X9: the recursion of the flattener only appends to the list it is given,
    and the nodes of what it appends are [flattenNodes], whatever the layout
    offset: children in order, a skipped child and its subtree left out, a
    stacking context listed and not entered, a view listed before what is
    below it, any other node replaced by what is below it. *)
Theorem slice_lists_nodes_in_order (ANDROID : bool) (n : ShadowNode)
    (pairList : list ShadowViewNodePair) (layoutOffset : Point) :
  sliceChildShadowNodeViewPairsRecursively ANDROID pairList layoutOffset n
  = pairList
    ++ sliceChildShadowNodeViewPairsRecursively ANDROID [] layoutOffset n
  /\ map shadowNode
       (sliceChildShadowNodeViewPairsRecursively ANDROID [] layoutOffset n)
     = flattenNodes ANDROID n
  /\ map shadowNode (sliceChildShadowNodeViewPairs ANDROID n)
     = (if negb (FormsStackingContext (getTraits n))
           && FormsView (getTraits n)
        then [] else flattenNodes ANDROID n).
Proof.
  pose proof (sliceRec_is_good ANDROID (depth n) n (le_n _)) as Hgood.
  destruct (Hgood pairList layoutOffset) as (Happ & Hnodes & _).
  split; [exact Happ|]. split; [exact Hnodes|].
  unfold sliceChildShadowNodeViewPairs.
  destruct (negb _ && _); [reflexivity|].
  apply (Hgood [] (mkPoint 0 0)).
Qed.

(** X10: the node of every pair of a flattened list is below the flattened
    node on a path without a skipped node and without a stacking context
    strictly between the two; it forms a view or a stacking context; and on a
    build that is not Android it is not hidden. *)
Theorem slice_nodes_are_visible_views (ANDROID : bool) (n : ShadowNode)
    (pr : ShadowViewNodePair) :
  In pr (sliceChildShadowNodeViewPairs ANDROID n) ->
  flattenedUnder ANDROID n (shadowNode pr)
  /\ (FormsStackingContext (getTraits (shadowNode pr)) = true
      \/ FormsView (getTraits (shadowNode pr)) = true)
  /\ (ANDROID = false -> Hidden (getTraits (shadowNode pr)) = false).
Proof.
  intros Hin.
  assert (Hnode : In (shadowNode pr) (flattenNodes ANDROID n)).
  { unfold sliceChildShadowNodeViewPairs in Hin.
    destruct (negb _ && _); [contradiction|].
    destruct (sliceRec_is_good ANDROID (depth n) n (le_n _) [] (mkPoint 0 0))
      as (_ & <- & _).
    apply in_map. exact Hin. }
  destruct (flattenNodes_sound ANDROID (depth n) n _ (le_n _) Hnode)
    as [Hunder Hforms].
  split; [exact Hunder|]. split; [exact Hforms|].
  intros ->. destruct (flattenedUnder_visible false _ _ Hunder) as [H|H];
    [discriminate|exact H].
Qed.

Lemma slice_nodes_are_visible_views_witness :
  flattenedUnder false wrapperTree
    (mkShadowNode 6 6 "View" 0 0 0
       (mkLayoutMetrics (mkRect (mkPoint 1 2) (mkSize 3 3)) 0)
       (mkTraits true true false) 0 [])
  /\ (true = true \/ true = true)
  /\ (false = false -> false = false).
Proof.
  apply (slice_nodes_are_visible_views false wrapperTree
           (mkPair
              (mkShadowView 6 "View" 0 0
                 (mkLayoutMetrics (mkRect (mkPoint 11 22) (mkSize 3 3)) 0) 0)
              (mkShadowNode 6 6 "View" 0 0 0
                 (mkLayoutMetrics (mkRect (mkPoint 1 2) (mkSize 3 3)) 0)
                 (mkTraits true true false) 0 []))).
  vm_compute. right; left. reflexivity.
Defined.

(** ** The differ: lists with the same tags *)

Section Aligned.
Variable ANDROID : bool.
Variable recurse : Differ.

Lemma updateSubtrees_own b meta parent oldGrand newGrand b' meta' :
  updateSubtrees recurse b meta parent oldGrand newGrand = Ok (b', meta') ->
  createMutations b' = createMutations b
  /\ deleteMutations b' = deleteMutations b
  /\ insertMutations b' = insertMutations b
  /\ removeMutations b' = removeMutations b
  /\ updateMutations b' = updateMutations b.
Proof.
  unfold updateSubtrees. intros H.
  destruct (negb _); apply bind_Ok in H as ([l m] & _ & H);
    injection H as <- <-; repeat split.
Qed.

Lemma stage1_aligned parent :
  forall olds news index b meta index' b' meta',
    map pairTag olds = map pairTag news ->
    stage1 ANDROID recurse parent olds news index b meta
    = Ok (index', b', meta') ->
    index' = (index + length olds)%nat
    /\ createMutations b' = createMutations b
    /\ deleteMutations b' = deleteMutations b
    /\ insertMutations b' = insertMutations b
    /\ removeMutations b' = removeMutations b
    /\ updateMutations b'
       = updateMutations b ++ alignedUpdates parent olds news index.
Proof.
  induction olds as [|o olds IH];
    intros news index b meta index' b' meta' Htags H.
  - simpl in *. injection H as <- <- <-. rewrite app_nil_r.
    repeat split. lia.
  - destruct news as [|n news]; [discriminate|].
    simpl in Htags. injection Htags as Htag Htags. unfold pairTag in Htag.
    simpl in H. rewrite Htag, Z.eqb_refl in H. simpl in H.
    apply bind_Ok in H as ([b1 m1] & Hsub & H).
    apply updateSubtrees_own in Hsub as (Hc & Hd & Hi & Hr & Hu).
    destruct (IH _ _ _ _ _ _ _ Htags H) as (-> & Hc' & Hd' & Hi' & Hr' & Hu').
    rewrite Hc', Hd', Hi', Hr', Hu', Hc, Hd, Hi, Hr, Hu.
    unfold updateIfDifferent. simpl.
    destruct (negb (ShadowView_eqb _ _)); simpl;
      rewrite <- ?app_assoc; repeat split; lia.
Qed.

Lemma collectMutations_aligned meta parent olds news b meta' :
  map pairTag (reorderInPlaceIfNeeded olds)
  = map pairTag (reorderInPlaceIfNeeded news) ->
  collectMutations ANDROID recurse meta parent olds news = Ok (b, meta') ->
  createMutations b = []
  /\ deleteMutations b = []
  /\ insertMutations b = []
  /\ removeMutations b = []
  /\ updateMutations b
     = alignedUpdates parent (reorderInPlaceIfNeeded olds)
         (reorderInPlaceIfNeeded news) 0.
Proof.
  intros Htags H. unfold collectMutations in H.
  apply bind_Ok in H as ([[index b1] m1] & Hs1 & H).
  apply (stage1_aligned _ _ _ _ _ _ _ _ _ Htags) in Hs1
    as (-> & Hc & Hd & Hi & Hr & Hu).
  assert (Hlen : length (reorderInPlaceIfNeeded olds)
                 = length (reorderInPlaceIfNeeded news)).
  { apply (f_equal length) in Htags. rewrite !length_map in Htags.
    exact Htags. }
  simpl in H. rewrite Hlen, Nat.eqb_refl in H.
  rewrite <- Hlen, drop_all in H. simpl in H. injection H as <- <-.
  rewrite Hc, Hd, Hi, Hr, Hu. repeat split.
Qed.

End Aligned.

(** X11: when the two child lists of an activation, reordered, have the same
    tags in the same order, the activation emits no Create, Delete, Insert or
    Remove of its own, and its Update mutations are one for every slot whose
    two views differ, with the slot as index, in the order of the slots. *)
Theorem same_tags_only_update (ANDROID : bool) (fuel : nat)
    (meta : ReparentingMetadata) (parent : ShadowView)
    (olds news : list ShadowViewNodePair) (b : Buckets)
    (meta' : ReparentingMetadata) :
  map pairTag (reorderInPlaceIfNeeded olds)
  = map pairTag (reorderInPlaceIfNeeded news) ->
  collectMutations ANDROID (calculateShadowViewMutations_rec ANDROID fuel)
    meta parent olds news = Ok (b, meta') ->
  createMutations b = []
  /\ deleteMutations b = []
  /\ insertMutations b = []
  /\ removeMutations b = []
  /\ updateMutations b
     = alignedUpdates parent (reorderInPlaceIfNeeded olds)
         (reorderInPlaceIfNeeded news) 0.
Proof. apply collectMutations_aligned. Qed.

(** ** The differ: Remove and Insert carry the slot of their child *)

Lemma slots_inv_same parent olds news b b' :
  removeMutations b' = removeMutations b ->
  insertMutations b' = insertMutations b ->
  slots_inv parent olds news b -> slots_inv parent olds news b'.
Proof. unfold slots_inv. intros -> ->. auto. Qed.

Lemma slots_inv_update parent olds news p old new i b :
  slots_inv parent olds news b ->
  slots_inv parent olds news (updateIfDifferent p old new i b).
Proof.
  apply slots_inv_same; unfold updateIfDifferent; destruct (negb _);
    reflexivity.
Qed.

Lemma slots_inv_downward parent olds news l b :
  slots_inv parent olds news b ->
  slots_inv parent olds news (set_downward l b).
Proof. intros H. exact H. Qed.

Lemma slots_inv_destructiveDownward parent olds news l b :
  slots_inv parent olds news b ->
  slots_inv parent olds news (set_destructiveDownward l b).
Proof. intros H. exact H. Qed.

Lemma slots_inv_create parent olds news m b :
  slots_inv parent olds news b -> slots_inv parent olds news (push_create m b).
Proof. intros H. exact H. Qed.

Lemma slots_inv_delete parent olds news m b :
  slots_inv parent olds news b -> slots_inv parent olds news (push_delete m b).
Proof. intros H. exact H. Qed.

Lemma slots_inv_remove parent olds news (i : nat) pr b :
  olds !! i = Some pr ->
  slots_inv parent olds news b ->
  slots_inv parent olds news
    (push_remove (RemoveMutation parent (shadowView pr) (Z.of_nat i)) b).
Proof.
  intros Hi [Hr Hins]. split; [|exact Hins]. simpl.
  apply Forall_app. split; [exact Hr|].
  constructor; [|constructor]. exists i, pr. auto.
Qed.

Lemma slots_inv_insert parent olds news (i : nat) pr b :
  news !! i = Some pr ->
  slots_inv parent olds news b ->
  slots_inv parent olds news
    (push_insert (InsertMutation parent (shadowView pr) (Z.of_nat i)) b).
Proof.
  intros Hi [Hr Hins]. split; [exact Hr|]. simpl.
  apply Forall_app. split; [exact Hins|].
  constructor; [|constructor]. exists i, pr. auto.
Qed.

Section Slots.
Variable ANDROID : bool.
Variable recurse : Differ.
Variable parent : ShadowView.
Variables olds news : list ShadowViewNodePair.

Local Abbreviation inv := (slots_inv parent olds news).

Lemma updateSubtrees_slots b meta p oldGrand newGrand b' meta' :
  updateSubtrees recurse b meta p oldGrand newGrand = Ok (b', meta') ->
  inv b -> inv b'.
Proof.
  intros H. apply updateSubtrees_own in H as (_ & _ & Hi & Hr & _).
  apply slots_inv_same; assumption.
Qed.

Lemma stage1_slots :
  forall os ns index b meta index' b' meta',
    stage1 ANDROID recurse parent os ns index b meta = Ok (index', b', meta') ->
    inv b -> inv b'.
Proof.
  induction os as [|o os IH]; intros ns index b meta index' b' meta' H Hinv.
  - simpl in H. injection H as <- <- <-. exact Hinv.
  - destruct ns as [|n ns]; simpl in H.
    + injection H as <- <- <-. exact Hinv.
    + destruct (negb _).
      * injection H as <- <- <-. exact Hinv.
      * apply bind_Ok in H as ([b1 m1] & Hsub & H).
        eapply IH; [exact H|].
        eapply updateSubtrees_slots; [exact Hsub|].
        apply slots_inv_update. exact Hinv.
Qed.

Lemma removeRest_slots :
  forall os index b meta b' meta',
    (forall (j : nat) pr, os !! j = Some pr ->
       olds !! (index + j)%nat = Some pr) ->
    removeRest ANDROID recurse parent os index b meta = Ok (b', meta') ->
    inv b -> inv b'.
Proof.
  induction os as [|o os IH]; intros index b meta b' meta' Hos H Hinv.
  - simpl in H. injection H as <- <-. exact Hinv.
  - simpl in H.
    apply bind_Ok in H
      as ([[[shouldRemove shouldDelete] newTreeNode] m1] & _ & H).
    apply bind_Ok in H as ([l m2] & _ & H).
    eapply IH; [|exact H|].
    { intros j pr Hj. replace (S index + j)%nat with (index + S j)%nat by lia.
      apply Hos. exact Hj. }
    apply slots_inv_destructiveDownward.
    assert (Ho : olds !! index = Some o).
    { rewrite <- (Nat.add_0_r index). apply Hos. reflexivity. }
    assert (H1 : inv (if shouldDelete
                      then push_delete (DeleteMutation (shadowView o)) b
                      else b)).
    { destruct shouldDelete; [|exact Hinv].
      apply slots_inv_delete. exact Hinv. }
    assert (H2 : inv (if shouldRemove
                      then push_remove
                             (RemoveMutation parent (shadowView o)
                                (Z.of_nat index))
                             (if shouldDelete
                              then push_delete (DeleteMutation (shadowView o)) b
                              else b)
                      else if shouldDelete
                           then push_delete (DeleteMutation (shadowView o)) b
                           else b)).
    { destruct shouldRemove; [|exact H1].
      apply slots_inv_remove; assumption. }
    destruct newTreeNode; [apply slots_inv_update|]; exact H2.
Qed.

Lemma insertRest_slots :
  forall ns index b meta b' meta',
    (forall (j : nat) pr, ns !! j = Some pr ->
       news !! (index + j)%nat = Some pr) ->
    insertRest ANDROID recurse parent ns index b meta = Ok (b', meta') ->
    inv b -> inv b'.
Proof.
  induction ns as [|n ns IH]; intros index b meta b' meta' Hns H Hinv.
  - simpl in H. injection H as <- <-. exact Hinv.
  - simpl in H.
    apply bind_Ok in H
      as ([[[shouldInsert shouldCreate] oldTreeNode] m1] & _ & H).
    apply bind_Ok in H as ([l m2] & _ & H).
    eapply IH; [|exact H|].
    { intros j pr Hj. replace (S index + j)%nat with (index + S j)%nat by lia.
      apply Hns. exact Hj. }
    assert (Hn : news !! index = Some n).
    { rewrite <- (Nat.add_0_r index). apply Hns. reflexivity. }
    assert (H1 : inv (if shouldInsert
                      then push_insert
                             (InsertMutation parent (shadowView n)
                                (Z.of_nat index)) b
                      else b)).
    { destruct shouldInsert; [|exact Hinv].
      apply slots_inv_insert; assumption. }
    assert (H2 : inv (if shouldCreate
                      then push_create (CreateMutation (shadowView n))
                             (if shouldInsert
                              then push_insert
                                     (InsertMutation parent (shadowView n)
                                        (Z.of_nat index)) b
                              else b)
                      else if shouldInsert
                           then push_insert
                                  (InsertMutation parent (shadowView n)
                                     (Z.of_nat index)) b
                           else b)).
    { destruct shouldCreate; [|exact H1].
      apply slots_inv_create. exact H1. }
    apply slots_inv_downward.
    destruct oldTreeNode; [apply slots_inv_update|]; exact H2.
Qed.

Lemma createInserted_slots :
  forall entries b meta b' meta',
    createInserted ANDROID recurse parent entries b meta = Ok (b', meta') ->
    inv b -> inv b'.
Proof.
  induction entries as [|[key n] entries IH]; intros b meta b' meta' H Hinv.
  - simpl in H. injection H as <- <-. exact Hinv.
  - simpl in H. destruct (key =? 0); [eapply IH; [exact H|exact Hinv]|].
    apply bind_Ok in H as ([[shouldCreate updateNode] m1] & _ & H).
    apply bind_Ok in H as ([l m2] & _ & H).
    eapply IH; [exact H|].
    assert (H1 : inv (if shouldCreate
                      then push_create (CreateMutation (shadowView n)) b
                      else b)).
    { destruct shouldCreate; [|exact Hinv].
      apply slots_inv_create. exact Hinv. }
    apply slots_inv_downward.
    destruct updateNode; [apply slots_inv_update|]; exact H1.
Qed.

Lemma walkInsert_slots st st' :
  walkInsert parent news st = Ok st' ->
  inv (walk_buckets st) -> inv (walk_buckets st').
Proof.
  unfold walkInsert. intros H Hinv.
  destruct (news !! newIndex st) as [n|] eqn:Hn; [|discriminate].
  apply bind_Ok in H as (ins & _ & H). injection H as <-. simpl.
  apply slots_inv_insert; assumption.
Qed.

Lemma walkMatched_slots index o n st st' :
  walkMatched ANDROID recurse parent index o n st = Ok st' ->
  inv (walk_buckets st) -> inv (walk_buckets st').
Proof.
  unfold walkMatched. intros H Hinv.
  apply bind_Ok in H as ([it rem] & _ & H).
  apply bind_Ok in H as (rem' & _ & H).
  apply bind_Ok in H as ([b m] & Hsub & H).
  injection H as <-. simpl.
  eapply updateSubtrees_slots; [exact Hsub|].
  apply slots_inv_update. exact Hinv.
Qed.

Lemma walkRemoveInserted_slots index o it inserted st st' :
  olds !! oldIndex st = Some o ->
  walkRemoveInserted ANDROID recurse parent index o it inserted st = Ok st' ->
  inv (walk_buckets st) -> inv (walk_buckets st').
Proof.
  unfold walkRemoveInserted. intros Ho H Hinv.
  destruct (TinyMap.deref it inserted) as [[key n]|]; [|discriminate].
  apply bind_Ok in H as ([b m] & Hsub & H).
  apply bind_Ok in H as (ins & _ & H).
  injection H as <-. simpl.
  eapply updateSubtrees_slots; [exact Hsub|].
  apply slots_inv_update. apply slots_inv_remove; assumption.
Qed.

Lemma walkRemoveGone_slots o st st' :
  olds !! oldIndex st = Some o ->
  walkRemoveGone ANDROID recurse parent o st = Ok st' ->
  inv (walk_buckets st) -> inv (walk_buckets st').
Proof.
  unfold walkRemoveGone. intros Ho H Hinv.
  apply bind_Ok in H
    as ([[[shouldRemove shouldDelete] newTreeNode] m1] & _ & H).
  apply bind_Ok in H as ([l m2] & _ & H).
  injection H as <-. simpl.
  pose proof (slots_inv_remove parent olds news _ _ _ Ho Hinv) as H1.
  assert (H2 : inv (if shouldDelete
                    then push_delete (DeleteMutation (shadowView o))
                           (push_remove
                              (RemoveMutation parent (shadowView o)
                                 (Z.of_nat (oldIndex st))) (walk_buckets st))
                    else push_remove
                           (RemoveMutation parent (shadowView o)
                              (Z.of_nat (oldIndex st))) (walk_buckets st))).
  { destruct shouldDelete; [|exact H1].
    apply slots_inv_delete. exact H1. }
  apply slots_inv_destructiveDownward.
  destruct newTreeNode; [apply slots_inv_update|]; exact H2.
Qed.

Lemma walkStep_slots index st st' :
  walkStep ANDROID recurse parent index olds news st = Ok st' ->
  inv (walk_buckets st) -> inv (walk_buckets st').
Proof.
  unfold walkStep. intros H Hinv.
  match type of H with
  | match ?m with _ => _ end = _ => destruct m as [[o n]|]
  end.
  { eapply walkMatched_slots; [exact H|exact Hinv]. }
  destruct (oldIndex st <? length olds)%nat.
  2: { eapply walkInsert_slots; [exact H|exact Hinv]. }
  destruct (olds !! oldIndex st) as [o|] eqn:Ho.
  2: { eapply walkInsert_slots; [exact H|exact Hinv]. }
  apply bind_Ok in H as ([insertedIt inserted] & _ & H).
  destruct (negb _).
  { eapply walkRemoveInserted_slots; [exact Ho|exact H|exact Hinv]. }
  apply bind_Ok in H as ([newIt remaining] & _ & H).
  destruct (TinyMap.ptr_eqb _ _).
  - apply walkRemoveGone_slots in H; [exact H|exact Ho|exact Hinv].
  - apply walkInsert_slots in H; [exact H|exact Hinv].
Qed.

Lemma walk_slots index :
  forall fuel st st',
    walk ANDROID recurse fuel parent index olds news st = Ok st' ->
    inv (walk_buckets st) -> inv (walk_buckets st').
Proof.
  induction fuel as [|fuel IH]; intros st st' H Hinv; simpl in H.
  - destruct (_ || _); [discriminate|]. injection H as <-. exact Hinv.
  - destruct (_ || _); [|injection H as <-; exact Hinv].
    apply bind_Ok in H as (st1 & Hstep & H).
    eapply IH; [exact H|]. eapply walkStep_slots; [exact Hstep|exact Hinv].
Qed.

End Slots.

Lemma collectMutations_slots (ANDROID : bool) (recurse : Differ) meta parent
    olds news b meta' :
  collectMutations ANDROID recurse meta parent olds news = Ok (b, meta') ->
  slots_inv parent (reorderInPlaceIfNeeded olds)
    (reorderInPlaceIfNeeded news) b.
Proof.
  unfold collectMutations. intros H.
  apply bind_Ok in H as ([[index b1] m1] & Hs1 & H).
  assert (Hinit : slots_inv parent (reorderInPlaceIfNeeded olds)
                    (reorderInPlaceIfNeeded news) Buckets_init)
    by (split; constructor).
  pose proof (stage1_slots _ _ _ _ _ _ _ _ _ _ _ _ _ Hs1 Hinit) as H1.
  simpl in H.
  destruct (index =? length _)%nat.
  { eapply removeRest_slots; [|exact H|exact H1].
    intros j pr Hj. rewrite lookup_drop in Hj. exact Hj. }
  destruct (index =? length _)%nat.
  { eapply insertRest_slots; [|exact H|exact H1].
    intros j pr Hj. rewrite lookup_drop in Hj. exact Hj. }
  unfold walkLists in H.
  apply bind_Ok in H as (remaining & _ & H).
  apply bind_Ok in H as (st & Hwalk & H).
  destruct (TinyMap.begin (newInsertedPairs st)) as [first inserted].
  eapply createInserted_slots; [exact H|].
  eapply walk_slots; [exact Hwalk|]. exact H1.
Qed.

(** X12: every Remove an activation emits is the Remove, under the parent
    view of the activation, of the pair that is in the slot given by its
    index in the reordered old list, and every Insert it emits is the Insert,
    under the same parent, of the pair that is in the slot given by its index
    in the reordered new list. *)
Theorem Remove_and_Insert_carry_slots (ANDROID : bool) (fuel : nat)
    (meta : ReparentingMetadata) (parent : ShadowView)
    (olds news : list ShadowViewNodePair) (b : Buckets)
    (meta' : ReparentingMetadata) :
  collectMutations ANDROID (calculateShadowViewMutations_rec ANDROID fuel)
    meta parent olds news = Ok (b, meta') ->
  Forall (removesSlot parent (reorderInPlaceIfNeeded olds)) (removeMutations b)
  /\ Forall (insertsSlot parent (reorderInPlaceIfNeeded news))
       (insertMutations b).
Proof. apply collectMutations_slots. Qed.

(** ** The differ with reparenting detection disabled *)

Section Disabled.
Variable ANDROID : bool.
Variable recurse : Differ.
Hypothesis recurse_framed : framed recurse.
Hypothesis recurse_simulated : simulated recurse.

Lemma recurse_disabled l meta parent olds news l' meta' :
  enabled_ meta = false ->
  recurse l meta parent olds news = Ok (l', meta') ->
  meta' = meta /\ exists appended, l' = l ++ appended.
Proof.
  intros Hen H.
  destruct (recurse_sim recurse recurse_framed recurse_simulated
              l l meta meta parent olds news l' meta' Hen H)
    as (d1 & d2 & -> & H2 & _).
  rewrite H in H2. injection H2 as Hl ->. split; [reflexivity|eauto].
Qed.

Lemma updateSubtrees_disabled b meta parent oldGrand newGrand b' meta' :
  enabled_ meta = false ->
  updateSubtrees recurse b meta parent oldGrand newGrand = Ok (b', meta') ->
  meta' = meta.
Proof.
  unfold updateSubtrees. intros Hen H.
  destruct (negb _); apply bind_Ok in H as ([l m] & Hr & H);
    injection H as <- <-;
    exact (proj1 (recurse_disabled _ _ _ _ _ _ _ Hen Hr)).
Qed.

Lemma stage1_prefix parent meta :
  enabled_ meta = false ->
  forall olds news index b index' b' meta',
    map pairTag (take (length news) olds) = map pairTag news
    \/ map pairTag (take (length olds) news) = map pairTag olds ->
    stage1 ANDROID recurse parent olds news index b meta
    = Ok (index', b', meta') ->
    index' = (index + Nat.min (length olds) (length news))%nat
    /\ meta' = meta
    /\ createMutations b' = createMutations b
    /\ deleteMutations b' = deleteMutations b
    /\ insertMutations b' = insertMutations b
    /\ removeMutations b' = removeMutations b
    /\ updateMutations b'
       = updateMutations b ++ alignedUpdates parent olds news index.
Proof.
  intros Hen. induction olds as [|o olds IH];
    intros news index b index' b' meta' Htags H.
  - simpl in *. injection H as <- <- <-. rewrite app_nil_r.
    repeat split. lia.
  - destruct news as [|n news].
    { simpl in *. injection H as <- <- <-. rewrite app_nil_r.
      repeat split. lia. }
    assert (Htag : pairTag o = pairTag n)
      by (destruct Htags as [Ht|Ht]; simpl in Ht; congruence).
    assert (Htags' :
      map pairTag (take (length news) olds) = map pairTag news
      \/ map pairTag (take (length olds) news) = map pairTag olds)
      by (destruct Htags as [Ht|Ht]; simpl in Ht; injection Ht; auto).
    unfold pairTag in Htag.
    simpl in H. rewrite Htag, Z.eqb_refl in H. simpl in H.
    apply bind_Ok in H as ([b1 m1] & Hsub & H).
    pose proof (updateSubtrees_disabled _ _ _ _ _ _ _ Hen Hsub) as ->.
    apply updateSubtrees_own in Hsub as (Hc & Hd & Hi & Hr & Hu).
    destruct (IH _ _ _ _ _ _ Htags' H)
      as (-> & -> & Hc' & Hd' & Hi' & Hr' & Hu').
    rewrite Hc', Hd', Hi', Hr', Hu', Hc, Hd, Hi, Hr, Hu.
    unfold updateIfDifferent. simpl.
    destruct (negb (ShadowView_eqb _ _)); simpl;
      rewrite <- ?app_assoc; repeat split; lia.
Qed.

Lemma removeRest_disabled parent meta :
  enabled_ meta = false ->
  forall olds index b b' meta',
    removeRest ANDROID recurse parent olds index b meta = Ok (b', meta') ->
    meta' = meta
    /\ createMutations b' = createMutations b
    /\ insertMutations b' = insertMutations b
    /\ updateMutations b' = updateMutations b
    /\ deleteMutations b'
       = deleteMutations b
         ++ map (fun pr => DeleteMutation (shadowView pr)) olds
    /\ removeMutations b'
       = removeMutations b
         ++ imap (fun j pr =>
                    RemoveMutation parent (shadowView pr)
                      (Z.of_nat (index + j))) olds.
Proof.
  intros Hen. induction olds as [|o olds IH]; intros index b b' meta' H.
  - simpl in *. injection H as <- <-. rewrite !app_nil_r. repeat split.
  - simpl in H.
    rewrite shouldRemoveDeleteUpdate_disabled in H by exact Hen.
    simpl in H. apply bind_Ok in H as ([l m] & Hr & H).
    pose proof (proj1 (recurse_disabled _ _ _ _ _ _ _ Hen Hr)) as ->.
    destruct (IH _ _ _ _ H) as (-> & Hc & Hi & Hu & Hd & Hrm).
    rewrite Hc, Hi, Hu, Hd, Hrm. simpl.
    rewrite <- !app_assoc, Nat.add_0_r. simpl. repeat split.
    f_equal. simpl. f_equal. apply imap_ext. intros j pr _. simpl.
    do 2 f_equal. lia.
Qed.

Lemma insertRest_disabled parent meta :
  enabled_ meta = false ->
  forall news index b b' meta',
    insertRest ANDROID recurse parent news index b meta = Ok (b', meta') ->
    meta' = meta
    /\ deleteMutations b' = deleteMutations b
    /\ removeMutations b' = removeMutations b
    /\ updateMutations b' = updateMutations b
    /\ createMutations b'
       = createMutations b
         ++ map (fun pr => CreateMutation (shadowView pr)) news
    /\ insertMutations b'
       = insertMutations b
         ++ imap (fun j pr =>
                    InsertMutation parent (shadowView pr)
                      (Z.of_nat (index + j))) news.
Proof.
  intros Hen. induction news as [|n news IH]; intros index b b' meta' H.
  - simpl in *. injection H as <- <-. rewrite !app_nil_r. repeat split.
  - simpl in H.
    rewrite shouldCreateInsertUpdate_disabled in H by exact Hen.
    simpl in H. apply bind_Ok in H as ([l m] & Hr & H).
    pose proof (proj1 (recurse_disabled _ _ _ _ _ _ _ Hen Hr)) as ->.
    destruct (IH _ _ _ _ H) as (-> & Hd & Hrm & Hu & Hc & Hi).
    rewrite Hc, Hi, Hu, Hd, Hrm. simpl.
    rewrite <- !app_assoc, Nat.add_0_r. simpl. repeat split.
    f_equal. simpl. f_equal. apply imap_ext. intros j pr _. simpl.
    do 2 f_equal. lia.
Qed.

Lemma collectMutations_shrunk meta parent olds news b meta' :
  enabled_ meta = false ->
  map pairTag (take (length (reorderInPlaceIfNeeded news))
                 (reorderInPlaceIfNeeded olds))
  = map pairTag (reorderInPlaceIfNeeded news) ->
  collectMutations ANDROID recurse meta parent olds news = Ok (b, meta') ->
  meta' = meta
  /\ createMutations b = []
  /\ insertMutations b = []
  /\ updateMutations b
     = alignedUpdates parent (reorderInPlaceIfNeeded olds)
         (reorderInPlaceIfNeeded news) 0
  /\ deleteMutations b
     = map (fun pr => DeleteMutation (shadowView pr))
         (drop (length (reorderInPlaceIfNeeded news))
            (reorderInPlaceIfNeeded olds))
  /\ removeMutations b
     = imap (fun j pr =>
               RemoveMutation parent (shadowView pr)
                 (Z.of_nat (length (reorderInPlaceIfNeeded news) + j)))
         (drop (length (reorderInPlaceIfNeeded news))
            (reorderInPlaceIfNeeded olds)).
Proof.
  intros Hen Htags H. unfold collectMutations in H.
  apply bind_Ok in H as ([[index b1] m1] & Hs1 & H).
  assert (Hlen : (length (reorderInPlaceIfNeeded news)
                  <= length (reorderInPlaceIfNeeded olds))%nat).
  { apply (f_equal length) in Htags.
    rewrite !length_map, length_take in Htags. lia. }
  apply (stage1_prefix parent meta Hen) in Hs1
    as (-> & -> & Hc & Hd & Hi & Hr & Hu); [|left; exact Htags].
  simpl in H. rewrite Nat.min_r in H by exact Hlen.
  rewrite Nat.eqb_refl in H.
  apply (removeRest_disabled parent meta Hen) in H
    as (-> & Hc' & Hi' & Hu' & Hd' & Hr').
  rewrite Hc', Hi', Hu', Hd', Hr', Hc, Hd, Hi, Hr, Hu. repeat split.
Qed.

Lemma collectMutations_grown meta parent olds news b meta' :
  enabled_ meta = false ->
  map pairTag (take (length (reorderInPlaceIfNeeded olds))
                 (reorderInPlaceIfNeeded news))
  = map pairTag (reorderInPlaceIfNeeded olds) ->
  collectMutations ANDROID recurse meta parent olds news = Ok (b, meta') ->
  meta' = meta
  /\ deleteMutations b = []
  /\ removeMutations b = []
  /\ updateMutations b
     = alignedUpdates parent (reorderInPlaceIfNeeded olds)
         (reorderInPlaceIfNeeded news) 0
  /\ createMutations b
     = map (fun pr => CreateMutation (shadowView pr))
         (drop (length (reorderInPlaceIfNeeded olds))
            (reorderInPlaceIfNeeded news))
  /\ insertMutations b
     = imap (fun j pr =>
               InsertMutation parent (shadowView pr)
                 (Z.of_nat (length (reorderInPlaceIfNeeded olds) + j)))
         (drop (length (reorderInPlaceIfNeeded olds))
            (reorderInPlaceIfNeeded news)).
Proof.
  intros Hen Htags H. unfold collectMutations in H.
  apply bind_Ok in H as ([[index b1] m1] & Hs1 & H).
  assert (Hlen : (length (reorderInPlaceIfNeeded olds)
                  <= length (reorderInPlaceIfNeeded news))%nat).
  { apply (f_equal length) in Htags.
    rewrite !length_map, length_take in Htags. lia. }
  apply (stage1_prefix parent meta Hen) in Hs1
    as (-> & -> & Hc & Hd & Hi & Hr & Hu); [|right; exact Htags].
  simpl in H. rewrite Nat.min_l in H by exact Hlen.
  destruct (Nat.eqb_spec (length (reorderInPlaceIfNeeded olds))
              (length (reorderInPlaceIfNeeded news))) as [Heq|Hne].
  - rewrite drop_all in H. simpl in H. injection H as <- <-.
    rewrite Heq, drop_all. simpl.
    rewrite Hc, Hd, Hi, Hr, Hu. repeat split.
  - rewrite Nat.eqb_refl in H.
    apply (insertRest_disabled parent meta Hen) in H
      as (-> & Hd' & Hr' & Hu' & Hc' & Hi').
    rewrite Hc', Hi', Hu', Hd', Hr', Hc, Hd, Hi, Hr, Hu. repeat split.
Qed.

End Disabled.

(** X13: an activation of the recursive differ only appends to the list it
    is given: what it returns is that list followed by what the same
    activation returns for the empty list; with reparenting detection
    disabled it returns the metadata unchanged. *)
Theorem differ_only_appends (ANDROID : bool) (fuel : nat)
    (mutations : list ShadowViewMutation) (meta : ReparentingMetadata)
    (parent : ShadowView) (olds news : list ShadowViewNodePair)
    (mutations' : list ShadowViewMutation) (meta' : ReparentingMetadata) :
  calculateShadowViewMutations_rec ANDROID fuel mutations meta parent olds
    news = Ok (mutations', meta') ->
  exists appended,
    mutations' = mutations ++ appended
    /\ calculateShadowViewMutations_rec ANDROID fuel [] meta parent olds news
       = Ok (appended, meta')
    /\ (enabled_ meta = false -> meta' = meta).
Proof.
  intros H. pose proof H as H0. rewrite rec_framed in H0.
  apply bind_Ok in H0 as ([appended m] & Hr & H0). injection H0 as <- <-.
  exists appended. split; [reflexivity|]. split; [exact Hr|].
  intros Hen.
  exact (proj1 (recurse_disabled _ (rec_framed ANDROID fuel)
                  (rec_simulated ANDROID fuel) _ _ _ _ _ _ _ Hen H)).
Qed.

(** X14: with reparenting detection disabled, when the reordered new list
    has the tags of the first slots of the reordered old list, the activation
    emits a Remove, at its slot, and a Delete for every old pair behind these
    slots, in slot order, an Update for every shared slot whose views differ,
    and no Create or Insert of its own. *)
Theorem shrunk_list_removes_tail (ANDROID : bool) (fuel : nat)
    (meta : ReparentingMetadata) (parent : ShadowView)
    (olds news : list ShadowViewNodePair) (b : Buckets)
    (meta' : ReparentingMetadata) :
  enabled_ meta = false ->
  map pairTag (take (length (reorderInPlaceIfNeeded news))
                 (reorderInPlaceIfNeeded olds))
  = map pairTag (reorderInPlaceIfNeeded news) ->
  collectMutations ANDROID (calculateShadowViewMutations_rec ANDROID fuel)
    meta parent olds news = Ok (b, meta') ->
  meta' = meta
  /\ createMutations b = []
  /\ insertMutations b = []
  /\ updateMutations b
     = alignedUpdates parent (reorderInPlaceIfNeeded olds)
         (reorderInPlaceIfNeeded news) 0
  /\ deleteMutations b
     = map (fun pr => DeleteMutation (shadowView pr))
         (drop (length (reorderInPlaceIfNeeded news))
            (reorderInPlaceIfNeeded olds))
  /\ removeMutations b
     = imap (fun j pr =>
               RemoveMutation parent (shadowView pr)
                 (Z.of_nat (length (reorderInPlaceIfNeeded news) + j)))
         (drop (length (reorderInPlaceIfNeeded news))
            (reorderInPlaceIfNeeded olds)).
Proof.
  apply collectMutations_shrunk; [apply rec_framed|apply rec_simulated].
Qed.

(** X15: with reparenting detection disabled, when the reordered old list
    has the tags of the first slots of the reordered new list, the activation
    emits a Create and an Insert, at its slot, for every new pair behind
    these slots, in slot order, an Update for every shared slot whose views
    differ, and no Delete or Remove of its own. *)
Theorem grown_list_inserts_tail (ANDROID : bool) (fuel : nat)
    (meta : ReparentingMetadata) (parent : ShadowView)
    (olds news : list ShadowViewNodePair) (b : Buckets)
    (meta' : ReparentingMetadata) :
  enabled_ meta = false ->
  map pairTag (take (length (reorderInPlaceIfNeeded olds))
                 (reorderInPlaceIfNeeded news))
  = map pairTag (reorderInPlaceIfNeeded olds) ->
  collectMutations ANDROID (calculateShadowViewMutations_rec ANDROID fuel)
    meta parent olds news = Ok (b, meta') ->
  meta' = meta
  /\ deleteMutations b = []
  /\ removeMutations b = []
  /\ updateMutations b
     = alignedUpdates parent (reorderInPlaceIfNeeded olds)
         (reorderInPlaceIfNeeded news) 0
  /\ createMutations b
     = map (fun pr => CreateMutation (shadowView pr))
         (drop (length (reorderInPlaceIfNeeded olds))
            (reorderInPlaceIfNeeded news))
  /\ insertMutations b
     = imap (fun j pr =>
               InsertMutation parent (shadowView pr)
                 (Z.of_nat (length (reorderInPlaceIfNeeded olds) + j)))
         (drop (length (reorderInPlaceIfNeeded olds))
            (reorderInPlaceIfNeeded news)).
Proof.
  apply collectMutations_grown; [apply rec_framed|apply rec_simulated].
Qed.

(** ** The differ on well-tagged trees, detection disabled *)

Lemma subtreeTags_unfold n :
  subtreeTags n = getTag n :: flat_map subtreeTags (getChildren n).
Proof. destruct n; reflexivity. Qed.

Lemma subtreeTags_children (cs : list ShadowNode) c :
  In c cs -> subtreeTags c `sublist_of` flat_map subtreeTags cs.
Proof.
  induction cs as [|a cs IH]; [contradiction|]. intros [->|Hc]; simpl.
  - apply sublist_inserts_r. reflexivity.
  - apply sublist_inserts_l, IH, Hc.
Qed.

Lemma wellTagged_sublist (l1 l2 : list Tag) :
  l1 `sublist_of` l2 ->
  NoDup l2 /\ Forall (fun t => t <> 0) l2 ->
  NoDup l1 /\ Forall (fun t => t <> 0) l1.
Proof.
  intros Hsub [Hnd Hnz]. split; [eapply sublist_NoDup; eassumption|].
  rewrite Forall_forall in *. intros t Ht. apply Hnz.
  eapply elem_of_sublist; eassumption.
Qed.

Lemma wellTagged_child n c :
  In c (getChildren n) -> wellTagged n -> wellTagged c.
Proof.
  intros Hc. apply wellTagged_sublist. rewrite (subtreeTags_unfold n).
  apply sublist_cons, subtreeTags_children, Hc.
Qed.

Lemma wellTagged_under ANDROID n c :
  flattenedUnder ANDROID n c -> wellTagged n -> wellTagged c.
Proof.
  induction 1 as [n c Hc _|n w c Hw _ _ _ IH]; intros Hn.
  - exact (wellTagged_child n c Hc Hn).
  - apply IH. exact (wellTagged_child n w Hw Hn).
Qed.

Lemma flattenNodes_tags ANDROID (k : nat) :
  forall n, (depth n <= k)%nat ->
    map getTag (flattenNodes ANDROID n)
    `sublist_of` flat_map subtreeTags (getChildren n).
Proof.
  induction k as [|k IHk]; intros n Hk.
  { destruct n; simpl in Hk; lia. }
  rewrite flattenNodes_children.
  assert (Hcs : forall c, In c (getChildren n) -> (depth c <= k)%nat).
  { intros c Hc. pose proof (depth_child n c Hc). lia. }
  clear Hk. induction (getChildren n) as [|c cs IH]; simpl; [constructor|].
  rewrite map_app. apply sublist_app.
  - pose proof (IHk c (Hcs c (or_introl eq_refl))) as Hc.
    rewrite (subtreeTags_unfold c).
    destruct (negb ANDROID && Hidden (getTraits c)); [apply sublist_nil_l|].
    destruct (FormsStackingContext (getTraits c)).
    { simpl. apply sublist_skip, sublist_nil_l. }
    destruct (FormsView (getTraits c)); simpl.
    + apply sublist_skip, Hc.
    + apply sublist_cons, Hc.
  - apply IH. intros c' Hc'. apply Hcs. right. exact Hc'.
Qed.

Lemma projectsNode_tag pr :
  projectsNode pr -> pairTag pr = getTag (shadowNode pr).
Proof. intros (Htag & _). exact Htag. Qed.

Lemma slice_goodPairs ANDROID (fuel : nat) n :
  (depth n <= S fuel)%nat -> wellTagged n ->
  goodPairs (fun c => (depth c <= fuel)%nat /\ wellTagged c)
    (sliceChildShadowNodeViewPairs ANDROID n).
Proof.
  intros Hdepth Hn.
  assert (Hnodes : forall pr,
            In pr (sliceChildShadowNodeViewPairs ANDROID n) ->
            In (shadowNode pr) (flattenNodes ANDROID n)
            /\ projectsNode pr).
  { intros pr Hin. unfold sliceChildShadowNodeViewPairs in Hin.
    destruct (negb _ && _); [contradiction|].
    destruct (sliceRec_is_good ANDROID (depth n) n (le_n _) [] (mkPoint 0 0))
      as (_ & <- & Hproj).
    split; [apply in_map, Hin|].
    rewrite Forall_forall in Hproj. apply Hproj, list_elem_of_In, Hin. }
  assert (Htags : map pairTag (sliceChildShadowNodeViewPairs ANDROID n)
                  `sublist_of` subtreeTags n).
  { rewrite (subtreeTags_unfold n). apply sublist_cons.
    unfold sliceChildShadowNodeViewPairs.
    destruct (negb _ && _); [apply sublist_nil_l|].
    destruct (sliceRec_is_good ANDROID (depth n) n (le_n _) [] (mkPoint 0 0))
      as (_ & Hmap & Hproj).
    replace (map pairTag
               (sliceChildShadowNodeViewPairsRecursively ANDROID []
                  (mkPoint 0 0) n))
      with (map getTag (flattenNodes ANDROID n)).
    { apply (flattenNodes_tags ANDROID (depth n) n (le_n _)). }
    rewrite <- Hmap, map_map. apply map_ext_in. intros pr Hpr.
    symmetry. apply projectsNode_tag.
    rewrite Forall_forall in Hproj. apply Hproj, list_elem_of_In, Hpr. }
  destruct (wellTagged_sublist _ _ Htags Hn) as [Hnd Hnz].
  split; [exact Hnd|].
  apply Forall_forall. intros pr Hpr. apply list_elem_of_In in Hpr.
  split; [|split].
  - rewrite Forall_forall in Hnz. apply Hnz, list_elem_of_In, in_map, Hpr.
  - pose proof (slice_depth ANDROID n pr Hpr). lia.
  - destruct (Hnodes pr Hpr) as [Hin _].
    destruct (flattenNodes_sound ANDROID (depth n) n _ (le_n _) Hin)
      as [Hunder _].
    exact (wellTagged_under ANDROID n _ Hunder Hn).
Qed.

Lemma reorder_perm pairs : Permutation (reorderInPlaceIfNeeded pairs) pairs.
Proof.
  unfold reorderInPlaceIfNeeded.
  destruct (length pairs <? 2)%nat; [reflexivity|].
  destruct (negb _); [reflexivity|apply stable_sort_perm].
Qed.

Lemma goodPairs_reorder ok pairs :
  goodPairs ok pairs -> goodPairs ok (reorderInPlaceIfNeeded pairs).
Proof.
  intros [Hnd Hall]. pose proof (reorder_perm pairs) as Hperm. split.
  - eapply NoDup_Permutation_proper; [|exact Hnd].
    apply Permutation_map. exact Hperm.
  - rewrite Forall_forall in *. intros pr Hpr. apply Hall.
    apply list_elem_of_In. apply list_elem_of_In in Hpr.
    eapply Permutation_in; eassumption.
Qed.

(** *** Keys of the scratch maps *)

Lemma firstWithKey_none {V : Type} key (m : TinyMap.t V) :
  firstWithKey key m = None -> ~ In key (liveKeys m).
Proof.
  unfold firstWithKey, liveKeys. intros Hnone Hin.
  apply in_map_iff in Hin as (p & Hp & Hin).
  pose proof (find_none _ _ Hnone p Hin) as Hf. simpl in Hf. lia.
Qed.

Lemma firstWithKey_some {V : Type} key (m : TinyMap.t V) p :
  firstWithKey key m = Some p -> fst p = key /\ In key (liveKeys m).
Proof.
  unfold firstWithKey, liveKeys. intros Hsome.
  apply find_some in Hsome as [Hin Hkey].
  assert (fst p = key) as <- by lia.
  split; [reflexivity|apply in_map, Hin].
Qed.

Lemma find_keys {V : Type} key (m : TinyMap.t V) :
  TinyMap.invariant m -> key <> 0 ->
  exists it m',
    TinyMap.find key m = Ok (it, m')
    /\ TinyMap.invariant m'
    /\ liveEntries m' = liveEntries m
    /\ (if TinyMap.ptr_eqb it (TinyMap.end_ m')
        then ~ In key (liveKeys m)
        else In key (liveKeys m)
             /\ exists v, TinyMap.deref it m' = Some (key, v)).
Proof.
  intros Hinv Hkey.
  destruct (find_first_live key m Hinv Hkey)
    as (it & m' & Hfind & Hinv' & Hlive & Hcase).
  exists it, m'.
  split; [exact Hfind|split; [exact Hinv'|split; [exact Hlive|]]].
  destruct (firstWithKey key m) as [p|] eqn:Hfirst.
  - destruct Hcase as [Hderef ->].
    apply firstWithKey_some in Hfirst as [Hp Hin].
    split; [exact Hin|]. exists (snd p). rewrite Hderef, <- Hp.
    destruct p; reflexivity.
  - subst it. rewrite ptr_eqb_refl. exact (firstWithKey_none _ _ Hfirst).
Qed.

Lemma erase_keys {V : Type} key (m : TinyMap.t V) it m1 :
  TinyMap.invariant m -> key <> 0 ->
  TinyMap.find key m = Ok (it, m1) ->
  TinyMap.ptr_eqb it (TinyMap.end_ m1) = false ->
  exists m2,
    TinyMap.erase it m1 = Ok m2
    /\ TinyMap.invariant m2
    /\ (forall t, In t (liveKeys m2) -> In t (liveKeys m))
    /\ (forall t, In t (liveKeys m) -> t = key \/ In t (liveKeys m2)).
Proof.
  intros Hinv Hkey Hfind Hfound.
  destruct (erase_found key m it m1 Hinv Hkey Hfind Hfound)
    as (m2 & p & before & after & Herase & Hinv2 & Hp & Hm & Hm2).
  exists m2. split; [exact Herase|split; [exact Hinv2|]].
  split; unfold liveKeys; rewrite Hm, Hm2, !map_app; simpl; intros t Ht;
    apply in_app_or in Ht as [Ht|Ht].
  - apply in_or_app. left. exact Ht.
  - apply in_or_app. right. right. exact Ht.
  - right. apply in_or_app. left. exact Ht.
  - destruct Ht as [<-|Ht]; [left; exact Hp|].
    right. apply in_or_app. right. exact Ht.
Qed.

Lemma NoDup_take_lookup {A : Type} (f : A -> Z) (l : list A) :
  NoDup (map f l) ->
  forall (i : nat) x, l !! i = Some x -> ~ In (f x) (map f (take i l)).
Proof.
  induction l as [|a l IH]; intros Hnd i x Hx; [discriminate|].
  simpl in Hnd. apply NoDup_cons in Hnd as [Ha Hnd].
  destruct i as [|i]; simpl; [tauto|]. simpl in Hx.
  intros [Heq|Hin].
  - apply Ha. rewrite Heq. apply list_elem_of_In, in_map, list_elem_of_In.
    eapply list_elem_of_lookup_2. exact Hx.
  - exact (IH Hnd i x Hx Hin).
Qed.

Section Safety.
Variable ANDROID : bool.
Variable ok : ShadowNode -> Prop.
Variable recurse : Differ.
Hypothesis recurse_safe : safe ANDROID ok recurse.

Local Abbreviation okPair :=
  (fun pr : ShadowViewNodePair => ok (shadowNode pr)).
Local Abbreviation goodPair :=
  (fun pr : ShadowViewNodePair => pairTag pr <> 0 /\ ok (shadowNode pr)).

Lemma goodPairs_ok pairs : goodPairs ok pairs -> Forall okPair pairs.
Proof.
  intros [_ H]. eapply Forall_impl; [exact H|]. intros pr [_ Hok]. exact Hok.
Qed.

Lemma updateSubtrees_safe b meta parent o n :
  enabled_ meta = false -> ok o -> ok n ->
  exists b',
    updateSubtrees recurse b meta parent
      (sliceChildShadowNodeViewPairs ANDROID o)
      (sliceChildShadowNodeViewPairs ANDROID n)
    = Ok (b', meta).
Proof.
  intros Hen Ho Hn. unfold updateSubtrees.
  destruct (negb _);
    match goal with
    | |- context [recurse ?l meta parent ?os ?ns] =>
        destruct (recurse_safe l meta parent os ns Hen
                    (sliced_slice ANDROID ok o Ho)
                    (sliced_slice ANDROID ok n Hn)) as (l' & ->)
    end; simpl; eauto.
Qed.

Lemma stage1_safe parent meta :
  enabled_ meta = false ->
  forall olds news index b,
    Forall okPair olds -> Forall okPair news ->
    exists index' b',
      stage1 ANDROID recurse parent olds news index b meta
      = Ok (index', b', meta).
Proof.
  intros Hen. induction olds as [|o olds IH]; intros news index b Ho Hn;
    simpl; [eauto|].
  destruct news as [|n news]; [eauto|].
  destruct (negb _); [eauto|].
  apply Forall_cons in Ho as [Ho Holds]. apply Forall_cons in Hn as [Hn Hnews].
  match goal with
  | |- context [updateSubtrees recurse ?b0 meta ?p _ _] =>
      destruct (updateSubtrees_safe b0 meta p (shadowNode o) (shadowNode n)
                  Hen Ho Hn) as (b' & ->)
  end.
  simpl. apply IH; assumption.
Qed.

Lemma removeRest_safe parent meta :
  enabled_ meta = false ->
  forall olds index b,
    Forall okPair olds ->
    exists b',
      removeRest ANDROID recurse parent olds index b meta = Ok (b', meta).
Proof.
  intros Hen. induction olds as [|o olds IH]; intros index b Ho; simpl;
    [eauto|].
  apply Forall_cons in Ho as [Ho Holds].
  rewrite shouldRemoveDeleteUpdate_disabled by exact Hen. simpl.
  match goal with
  | |- context [recurse ?l meta ?p ?os ?ns] =>
      destruct (recurse_safe l meta p os ns Hen
                  (sliced_slice ANDROID ok _ Ho) (sliced_nil ANDROID ok))
        as (l' & ->)
  end.
  simpl. apply IH, Holds.
Qed.

Lemma insertRest_safe parent meta :
  enabled_ meta = false ->
  forall news index b,
    Forall okPair news ->
    exists b',
      insertRest ANDROID recurse parent news index b meta = Ok (b', meta).
Proof.
  intros Hen. induction news as [|n news IH]; intros index b Hn; simpl;
    [eauto|].
  apply Forall_cons in Hn as [Hn Hnews].
  rewrite shouldCreateInsertUpdate_disabled by exact Hen. simpl.
  match goal with
  | |- context [recurse ?l meta ?p ?os ?ns] =>
      destruct (recurse_safe l meta p os ns Hen
                  (sliced_nil ANDROID ok) (sliced_slice ANDROID ok _ Hn))
        as (l' & ->)
  end.
  simpl. apply IH, Hnews.
Qed.

Lemma createInserted_safe parent meta :
  enabled_ meta = false ->
  forall entries b,
    Forall (fun entry => okPair (snd entry)) entries ->
    exists b',
      createInserted ANDROID recurse parent entries b meta = Ok (b', meta).
Proof.
  intros Hen. induction entries as [|[key n] entries IH]; intros b He; simpl;
    [eauto|].
  apply Forall_cons in He as [Hn Hentries]. simpl in Hn.
  destruct (key =? 0); [apply IH, Hentries|].
  rewrite shouldCreateUpdate_disabled by exact Hen. simpl.
  match goal with
  | |- context [recurse ?l meta ?p ?os ?ns] =>
      destruct (recurse_safe l meta p os ns Hen
                  (sliced_nil ANDROID ok) (sliced_slice ANDROID ok _ Hn))
        as (l' & ->)
  end.
  simpl. apply IH, Hentries.
Qed.

Lemma collectRemaining_safe :
  forall news remaining,
    Forall (fun pr => pairTag pr <> 0) news ->
    TinyMap.invariant remaining ->
    exists remaining',
      collectRemaining news remaining = Ok remaining'
      /\ TinyMap.invariant remaining'
      /\ liveKeys remaining' = liveKeys remaining ++ map pairTag news.
Proof.
  induction news as [|n news IH]; intros remaining Hn Hinv; simpl.
  - exists remaining. rewrite app_nil_r. auto.
  - apply Forall_cons in Hn as [Hn Hnews].
    destruct (insert_succeeds (tag (shadowView n), n) remaining Hn)
      as (m1 & Hins & Hlive).
    rewrite Hins. simpl.
    destruct (IH m1 Hnews (insert_invariant _ _ _ Hinv Hins Hn))
      as (r & Hr & Hinvr & Hkeys).
    exists r. split; [exact Hr|split; [exact Hinvr|]].
    rewrite Hkeys. unfold liveKeys. rewrite Hlive, map_app, <- app_assoc.
    reflexivity.
Qed.

Lemma walkInsert_safe parent olds news st :
  Forall goodPair news -> walk_safe ok olds news st ->
  (newIndex st < length news)%nat ->
  exists st',
    walkInsert parent news st = Ok st'
    /\ walk_safe_advance ok olds news st st'.
Proof.
  intros Hnews ((Hn & Ho & Hv) & Hen & Hrem & Hins & Hkeys) Hlt.
  unfold walkInsert.
  destruct (news !! newIndex st) as [n|] eqn:Hlook;
    [|apply lookup_ge_None in Hlook; lia].
  assert (Hgood : pairTag n <> 0 /\ ok (shadowNode n)).
  { rewrite Forall_forall in Hnews. apply Hnews.
    eapply list_elem_of_lookup_2, Hlook. }
  destruct Hgood as [Htag Hokn].
  destruct (insert_succeeds (tag (shadowView n), n) (newInsertedPairs st)
              Htag) as (ins & Hinsert & Hlive).
  rewrite Hinsert. simpl. eexists. split; [reflexivity|].
  split; [|split; [simpl; apply markInserted_disabled, Hen
                  |unfold walk_measure; simpl; lia]].
  split; [|split; [|split; [|split]]]; simpl.
  - repeat split; simpl; [lia|exact Ho|].
    pose proof (insert_values okPair (tag (shadowView n), n) _ Hv Hokn)
      as Hval.
    rewrite Hinsert in Hval. exact Hval.
  - rewrite markInserted_disabled by exact Hen. exact Hen.
  - exact Hrem.
  - exact (insert_invariant _ _ _ Hins Hinsert Htag).
  - intros t Ht. destruct (Hkeys t Ht) as [H|[H|H]].
    + rewrite (drop_S _ _ _ Hlook) in H. simpl in H. destruct H as [<-|H].
      * right; left. unfold liveKeys. rewrite Hlive, map_app.
        apply in_or_app. right. left. reflexivity.
      * left. exact H.
    + right; left. unfold liveKeys. rewrite Hlive, map_app.
      apply in_or_app. left. exact H.
    + right; right. exact H.
Qed.

Lemma walkMatched_safe parent index olds news o n st :
  olds !! oldIndex st = Some o -> news !! newIndex st = Some n ->
  tag (shadowView n) = tag (shadowView o) ->
  pairTag o <> 0 -> ok (shadowNode o) -> ok (shadowNode n) ->
  walk_safe ok olds news st ->
  exists st',
    walkMatched ANDROID recurse parent index o n st = Ok st'
    /\ walk_safe_advance ok olds news st st'.
Proof.
  intros Hlo Hln Htag Hnz Hoko Hokn ((Hn & Ho & Hv) & Hen & Hrem & Hins & Hkeys).
  pose proof (lookup_lt_Some _ _ _ Hlo) as Holt.
  pose proof (lookup_lt_Some _ _ _ Hln) as Hnlt.
  unfold walkMatched. cbv zeta.
  destruct (find_keys (tag (shadowView o)) (newRemainingPairs st) Hrem Hnz)
    as (it & rem & Hfind & Hinv' & Hlive & Hcase).
  rewrite Hfind. simpl.
  assert (Herase :
    exists rem',
      (if negb (TinyMap.ptr_eqb it (TinyMap.end_ rem))
       then TinyMap.erase it rem else Ok rem) = Ok rem'
      /\ TinyMap.invariant rem'
      /\ forall t, In t (liveKeys rem') ->
                   In t (liveKeys (newRemainingPairs st))).
  { destruct (TinyMap.ptr_eqb it (TinyMap.end_ rem)) eqn:Hend; simpl.
    - exists rem. split; [reflexivity|split; [exact Hinv'|]].
      unfold liveKeys. rewrite Hlive. auto.
    - destruct (erase_keys _ _ _ _ Hrem Hnz Hfind Hend)
        as (m2 & He & Hi2 & Hsub & _).
      exists m2. auto. }
  destruct Herase as (rem' & -> & Hinvr & Hsub). simpl.
  match goal with
  | |- context [updateSubtrees recurse ?b0 ?m ?p _ _] =>
      destruct (updateSubtrees_safe b0 m p (shadowNode o) (shadowNode n)
                  Hen Hoko Hokn) as (b' & ->)
  end.
  simpl. eexists. split; [reflexivity|].
  split; [|split; [reflexivity|unfold walk_measure; simpl; lia]].
  split; [|split; [|split; [|split]]]; simpl.
  - repeat split; simpl; [lia|lia|exact Hv].
  - exact Hen.
  - exact Hinvr.
  - exact Hins.
  - intros t Ht. destruct (Hkeys t (Hsub t Ht)) as [H|[H|H]].
    + rewrite (drop_S _ _ _ Hln) in H. simpl in H. destruct H as [<-|H].
      * right; right. rewrite (take_S_r _ _ _ Hlo), map_app.
        apply in_or_app. right. left. unfold pairTag. symmetry. exact Htag.
      * left. exact H.
    + right; left. exact H.
    + right; right. rewrite (take_S_r _ _ _ Hlo), map_app.
      apply in_or_app. left. exact H.
Qed.

Lemma walkRemoveInserted_safe parent index olds news o it inserted st :
  olds !! oldIndex st = Some o -> pairTag o <> 0 -> ok (shadowNode o) ->
  walk_safe ok olds news st ->
  TinyMap.find (tag (shadowView o)) (newInsertedPairs st)
  = Ok (it, inserted) ->
  TinyMap.ptr_eqb it (TinyMap.end_ inserted) = false ->
  exists st',
    walkRemoveInserted ANDROID recurse parent index o it inserted st = Ok st'
    /\ walk_safe_advance ok olds news st st'.
Proof.
  intros Hlo Hnz Hoko ((Hn & Ho & Hv) & Hen & Hrem & Hins & Hkeys)
    Hfind Hfound.
  pose proof (lookup_lt_Some _ _ _ Hlo) as Holt.
  destruct (find_keys (tag (shadowView o)) (newInsertedPairs st) Hins Hnz)
    as (it' & ins' & Hfind' & Hinv' & Hlive & Hcase).
  rewrite Hfind in Hfind'. injection Hfind' as <- <-.
  rewrite Hfound in Hcase. destruct Hcase as [Hin (v & Hderef)].
  unfold walkRemoveInserted. rewrite Hderef. cbv zeta.
  assert (Hv' : values_sat okPair inserted).
  { rewrite (find_state _ _ _ _ Hfind). apply cleanVector_values, Hv. }
  pose proof (deref_values okPair _ _ _ _ Hv' Hderef) as Hokn.
  match goal with
  | |- context [updateSubtrees recurse ?b0 ?m ?p _ _] =>
      destruct (updateSubtrees_safe b0 m p (shadowNode o) (shadowNode v)
                  Hen Hoko Hokn) as (b' & ->)
  end.
  simpl.
  destruct (erase_keys _ _ _ _ Hins Hnz Hfind Hfound)
    as (m2 & Herase & Hinv2 & Hsub & Hsup).
  rewrite Herase. simpl. eexists. split; [reflexivity|].
  split; [|split; [reflexivity|unfold walk_measure; simpl; lia]].
  split; [|split; [|split; [|split]]]; simpl.
  - repeat split; simpl; [exact Hn|lia|].
    pose proof (erase_values okPair it inserted Hv') as Hval.
    rewrite Herase in Hval. exact Hval.
  - exact Hen.
  - exact Hrem.
  - exact Hinv2.
  - intros t Ht. destruct (Hkeys t Ht) as [H|[H|H]].
    + left. exact H.
    + destruct (Hsup t H) as [->|H'].
      * right; right. rewrite (take_S_r _ _ _ Hlo), map_app.
        apply in_or_app. right. left. reflexivity.
      * right; left. exact H'.
    + right; right. rewrite (take_S_r _ _ _ Hlo), map_app.
      apply in_or_app. left. exact H.
Qed.

Lemma walkRemoveGone_safe parent olds news o st :
  olds !! oldIndex st = Some o -> ok (shadowNode o) ->
  walk_safe ok olds news st ->
  exists st',
    walkRemoveGone ANDROID recurse parent o st = Ok st'
    /\ walk_safe_advance ok olds news st st'.
Proof.
  intros Hlo Hoko ((Hn & Ho & Hv) & Hen & Hrem & Hins & Hkeys).
  pose proof (lookup_lt_Some _ _ _ Hlo) as Holt.
  unfold walkRemoveGone.
  rewrite shouldRemoveDeleteUpdate_disabled by exact Hen. simpl.
  match goal with
  | |- context [recurse ?l ?m ?p ?os ?ns] =>
      destruct (recurse_safe l m p os ns Hen
                  (sliced_slice ANDROID ok _ Hoko) (sliced_nil ANDROID ok))
        as (l' & ->)
  end.
  simpl. eexists. split; [reflexivity|].
  split; [|split; [reflexivity|unfold walk_measure; simpl; lia]].
  split; [|split; [|split; [|split]]]; simpl.
  - repeat split; simpl; [exact Hn|lia|exact Hv].
  - exact Hen.
  - exact Hrem.
  - exact Hins.
  - intros t Ht. destruct (Hkeys t Ht) as [H|[H|H]].
    + left. exact H.
    + right; left. exact H.
    + right; right. rewrite (take_S_r _ _ _ Hlo), map_app.
      apply in_or_app. left. exact H.
Qed.

Lemma walkOld_safe parent index olds news o st :
  NoDup (map pairTag olds) -> Forall goodPair news ->
  olds !! oldIndex st = Some o -> pairTag o <> 0 -> ok (shadowNode o) ->
  walk_safe ok olds news st ->
  exists st',
    ('(insertedIt, inserted) ←
       TinyMap.find (tag (shadowView o)) (newInsertedPairs st);
     if negb (TinyMap.ptr_eqb insertedIt (TinyMap.end_ inserted))
     then
       walkRemoveInserted ANDROID recurse parent index o insertedIt inserted
         st
     else
       '(newIt, remaining) ←
         TinyMap.find (tag (shadowView o)) (newRemainingPairs st);
       if TinyMap.ptr_eqb newIt (TinyMap.end_ remaining)
       then
         walkRemoveGone ANDROID recurse parent o
           (mkWalkState (walk_buckets st) (walk_meta st) remaining inserted
              (oldIndex st) (newIndex st))
       else
         walkInsert parent news
           (mkWalkState (walk_buckets st) (walk_meta st) remaining inserted
              (oldIndex st) (newIndex st)))
    = Ok st'
    /\ walk_safe_advance ok olds news st st'.
Proof.
  intros Hnd Hnews Hlo Hnz Hoko Hsafe.
  pose proof Hsafe as ((Hn & Ho & Hv) & Hen & Hrem & Hins & Hkeys).
  destruct (find_keys (tag (shadowView o)) (newInsertedPairs st) Hins Hnz)
    as (it & ins & Hfind & Hinvi & Hlivei & Hcasei).
  rewrite Hfind. simpl.
  destruct (TinyMap.ptr_eqb it (TinyMap.end_ ins)) eqn:Hend; simpl.
  2: { apply walkRemoveInserted_safe; assumption. }
  destruct (find_keys (tag (shadowView o)) (newRemainingPairs st) Hrem Hnz)
    as (nit & rem & Hfindr & Hinvr & Hliver & Hcaser).
  rewrite Hfindr. simpl.
  set (st2 := mkWalkState (walk_buckets st) (walk_meta st) rem ins
                (oldIndex st) (newIndex st)).
  assert (Hsafe2 : walk_safe ok olds news st2).
  { split; [|split; [|split; [|split]]]; simpl.
    - repeat split; simpl; [exact Hn|exact Ho|].
      rewrite (find_state _ _ _ _ Hfind). apply cleanVector_values, Hv.
    - exact Hen.
    - exact Hinvr.
    - exact Hinvi.
    - unfold liveKeys. rewrite Hliver, Hlivei. exact Hkeys. }
  assert (Hback : forall st',
            walk_safe_advance ok olds news st2 st' ->
            walk_safe_advance ok olds news st st').
  { intros st' H. exact H. }
  destruct (TinyMap.ptr_eqb nit (TinyMap.end_ rem)) eqn:Hendr.
  - destruct (walkRemoveGone_safe parent olds news o st2 Hlo Hoko Hsafe2)
      as (st' & Hst' & Hadv).
    exists st'. split; [exact Hst'|apply Hback, Hadv].
  - destruct Hcaser as [Hin _].
    assert (Hlt : (newIndex st < length news)%nat).
    { destruct (Hkeys _ Hin) as [H|[H|H]].
      - destruct (Nat.lt_ge_cases (newIndex st) (length news)) as [Hl|Hg];
          [exact Hl|].
        rewrite drop_ge in H by exact Hg. contradiction.
      - contradiction.
      - exfalso. exact (NoDup_take_lookup pairTag olds Hnd _ _ Hlo H). }
    destruct (walkInsert_safe parent olds news st2 Hnews Hsafe2 Hlt)
      as (st' & Hst' & Hadv).
    exists st'. split; [exact Hst'|apply Hback, Hadv].
Qed.

Lemma walkStep_safe parent index olds news st :
  goodPairs ok olds -> goodPairs ok news -> walk_safe ok olds news st ->
  (newIndex st < length news)%nat \/ (oldIndex st < length olds)%nat ->
  exists st',
    walkStep ANDROID recurse parent index olds news st = Ok st'
    /\ walk_safe_advance ok olds news st st'.
Proof.
  intros [Hndo Holds] [Hndn Hnews] Hsafe Hrange. unfold walkStep.
  assert (Hold : forall o, olds !! oldIndex st = Some o ->
                           pairTag o <> 0 /\ ok (shadowNode o)).
  { intros o Ho. rewrite Forall_forall in Holds. apply Holds.
    eapply list_elem_of_lookup_2, Ho. }
  assert (Hnew : forall n, news !! newIndex st = Some n ->
                           pairTag n <> 0 /\ ok (shadowNode n)).
  { intros n Hn. rewrite Forall_forall in Hnews. apply Hnews.
    eapply list_elem_of_lookup_2, Hn. }
  destruct (Nat.ltb_spec (newIndex st) (length news)) as [Hnlt|Hnge];
    destruct (Nat.ltb_spec (oldIndex st) (length olds)) as [Holt|Hoge]; simpl.
  - destruct (news !! newIndex st) as [n|] eqn:Hn;
      [|apply lookup_ge_None in Hn; lia].
    destruct (olds !! oldIndex st) as [o|] eqn:Ho;
      [|apply lookup_ge_None in Ho; lia].
    destruct (Hold o eq_refl) as [Hnz Hoko].
    destruct (Hnew n eq_refl) as [_ Hokn].
    destruct (Z.eqb_spec (tag (shadowView n)) (tag (shadowView o)))
      as [Heq|Hne].
    + apply walkMatched_safe; assumption.
    + apply walkOld_safe; assumption.
  - apply walkInsert_safe; assumption.
  - destruct (olds !! oldIndex st) as [o|] eqn:Ho;
      [|apply lookup_ge_None in Ho; lia].
    destruct (Hold o eq_refl) as [Hnz Hoko].
    apply walkOld_safe; assumption.
  - lia.
Qed.

Lemma walk_runs parent index olds news :
  goodPairs ok olds -> goodPairs ok news ->
  forall fuel st,
    walk_safe ok olds news st ->
    (walk_measure olds news st <= fuel)%nat ->
    exists st',
      walk ANDROID recurse fuel parent index olds news st = Ok st'
      /\ walk_safe ok olds news st'
      /\ walk_meta st' = walk_meta st.
Proof.
  intros Holds Hnews. induction fuel as [|fuel IH]; intros st Hsafe Hfuel;
    simpl;
    destruct ((newIndex st <? length news)%nat
              || (oldIndex st <? length olds)%nat) eqn:Hcond;
    try solve [exists st; auto].
  - unfold walk_measure in Hfuel.
    apply orb_true_iff in Hcond as [H|H]; apply Nat.ltb_lt in H; lia.
  - assert (Hrange : (newIndex st < length news)%nat
                     \/ (oldIndex st < length olds)%nat).
    { apply orb_true_iff in Hcond as [H|H]; apply Nat.ltb_lt in H; auto. }
    destruct (walkStep_safe parent index olds news st Holds Hnews Hsafe
                Hrange) as (st1 & -> & Hsafe1 & Hmeta1 & Hless).
    simpl.
    destruct (IH st1 Hsafe1 ltac:(lia)) as (st' & Hwalk & Hsafe' & Hmeta').
    exists st'. split; [exact Hwalk|split; [exact Hsafe'|congruence]].
Qed.

Lemma walkLists_safe parent last olds news b meta :
  enabled_ meta = false -> goodPairs ok olds -> goodPairs ok news ->
  (last <= length olds)%nat -> (last <= length news)%nat ->
  exists b',
    walkLists ANDROID recurse parent last olds news b meta = Ok (b', meta).
Proof.
  intros Hen Holds Hnews Hlo Hln. unfold walkLists.
  assert (Htags : Forall (fun pr => pairTag pr <> 0) (drop last news)).
  { apply Forall_drop. destruct Hnews as [_ H].
    eapply Forall_impl; [exact H|]. intros pr [Hnz _]. exact Hnz. }
  destruct (collectRemaining_safe (drop last news) TinyMap.empty Htags
              invariant_empty) as (rem & -> & Hinv & Hkeys).
  simpl.
  set (st0 := mkWalkState b meta rem TinyMap.empty last last).
  assert (Hsafe0 : walk_safe ok olds news st0).
  { split; [|split; [|split; [|split]]]; simpl.
    - repeat split; simpl; [exact Hln|exact Hlo|constructor].
    - exact Hen.
    - exact Hinv.
    - exact invariant_empty.
    - intros t Ht. left. rewrite Hkeys in Ht. exact Ht. }
  assert (Hfuel : (walk_measure olds news st0
                   <= (length news - last) + (length olds - last))%nat)
    by (unfold walk_measure; simpl; lia).
  destruct (walk_runs parent (length news) olds news Holds Hnews
              ((length news - last) + (length olds - last))%nat st0 Hsafe0
              Hfuel)
    as (st & -> & Hsafe & Hmeta).
  simpl. simpl in Hmeta. rewrite Hmeta.
  destruct Hsafe as ((_ & _ & Hv) & _).
  pose proof (begin_values okPair _ Hv) as Hb.
  destruct (TinyMap.begin (newInsertedPairs st)) as [first inserted].
  apply createInserted_safe; [exact Hen|].
  apply (entriesFrom_values okPair first inserted). exact Hb.
Qed.

Lemma collectMutations_safe meta parent olds news :
  enabled_ meta = false -> goodPairs ok olds -> goodPairs ok news ->
  exists b,
    collectMutations ANDROID recurse meta parent olds news = Ok (b, meta).
Proof.
  intros Hen Holds Hnews. unfold collectMutations.
  apply goodPairs_reorder in Holds, Hnews.
  destruct (stage1_safe parent meta Hen (reorderInPlaceIfNeeded olds)
              (reorderInPlaceIfNeeded news) 0%nat Buckets_init
              (goodPairs_ok _ Holds) (goodPairs_ok _ Hnews))
    as (index & b & Hs1).
  rewrite Hs1. simpl. apply stage1_index in Hs1 as [Hio Hin].
  destruct (index =? length _)%nat.
  { apply removeRest_safe; [exact Hen|].
    apply Forall_drop, goodPairs_ok, Holds. }
  destruct (index =? length _)%nat.
  { apply insertRest_safe; [exact Hen|].
    apply Forall_drop, goodPairs_ok, Hnews. }
  apply walkLists_safe; try assumption; lia.
Qed.

Lemma body_safe mutations meta parent olds news :
  enabled_ meta = false -> goodPairs ok olds -> goodPairs ok news ->
  exists mutations',
    calculateShadowViewMutations_body ANDROID recurse mutations meta parent
      olds news = Ok (mutations', meta).
Proof.
  intros Hen Holds Hnews. unfold calculateShadowViewMutations_body.
  destruct (collectMutations_safe meta parent olds news Hen Holds Hnews)
    as (b & Hb).
  destruct olds as [|o olds]; [destruct news as [|n news]; [eauto|]|];
    rewrite Hb; simpl; eauto.
Qed.

End Safety.

Lemma rec_safe (ANDROID : bool) (fuel : nat) :
  (1 <= fuel)%nat ->
  safe ANDROID (fun n => (depth n <= fuel)%nat /\ wellTagged n)
    (calculateShadowViewMutations_rec ANDROID fuel).
Proof.
  induction fuel as [|fuel IH]; [lia|]. intros _.
  intros mutations meta parent olds news Hen Holds Hnews.
  assert (Hgood : forall pairs,
            sliced ANDROID
              (fun n => (depth n <= S fuel)%nat /\ wellTagged n) pairs ->
            goodPairs (fun c => (depth c <= fuel)%nat /\ wellTagged c) pairs).
  { intros pairs [->|(n & [Hd Hw] & ->)]; [split; constructor|].
    apply slice_goodPairs; assumption. }
  apply Hgood in Holds, Hnews. simpl.
  destruct fuel as [|fuel].
  - assert (Hnone : forall pairs,
              goodPairs (fun c => (depth c <= 0)%nat /\ wellTagged c) pairs ->
              pairs = []).
    { intros [|pr pairs] [_ H]; [reflexivity|].
      apply Forall_cons in H as [(_ & H & _) _].
      pose proof (depth_positive (shadowNode pr)). lia. }
    rewrite (Hnone _ Holds), (Hnone _ Hnews). simpl. eauto.
  - apply (body_safe ANDROID
             (fun c => (depth c <= S fuel)%nat /\ wellTagged c));
      [apply IH; lia|exact Hen|exact Holds|exact Hnews].
Qed.

(** X16: with reparenting detection disabled, on two trees of the same
    family whose tags are pairwise distinct within each tree and not zero,
    the entry point returns a list of mutations: no assertion of the differ
    or of its scratch maps fails, and no read leaves a list or a map. *)
Theorem differ_succeeds_without_detection (ANDROID : bool)
    (oldRootShadowNode newRootShadowNode : ShadowNode) :
  sameFamily oldRootShadowNode newRootShadowNode = true ->
  wellTagged oldRootShadowNode -> wellTagged newRootShadowNode ->
  exists mutations,
    calculateShadowViewMutations ANDROID oldRootShadowNode newRootShadowNode
      false = Ok mutations.
Proof.
  intros Hfam Hold Hnew. unfold calculateShadowViewMutations.
  rewrite Hfam. simpl.
  pose proof (depth_positive oldRootShadowNode) as Hpos.
  assert (Hfuel : (1 <= nesting oldRootShadowNode newRootShadowNode)%nat)
    by (unfold nesting; lia).
  match goal with
  | |- context [calculateShadowViewMutations_rec ANDROID ?f ?l ?m ?p ?os ?ns] =>
      destruct (rec_safe ANDROID f Hfuel l m p os ns eq_refl) as (l' & ->)
  end.
  - right. exists oldRootShadowNode.
    split; [split; [unfold nesting; lia|exact Hold]|reflexivity].
  - right. exists newRootShadowNode.
    split; [split; [unfold nesting; lia|exact Hnew]|reflexivity].
  - simpl. eauto.
Qed.

(** ** Reparenting metadata: two sightings of a tag *)

Lemma lookup_set_tagOperations tag op meta :
  tagsToOperations_ (set_tagOperations tag op meta) !! tag = Some op.
Proof. unfold set_tagOperations. simpl. apply lookup_insert_eq. Qed.

(** X17: with detection enabled, a node removed under one parent and then
    seen again as a new child is recognised as reparented: the first sighting
    asks for Remove and Delete and stores the node, the second one suppresses
    the Create, hands the stored old node back for an Update, asks for the
    Insert unless slot and parent are the ones of the removal, and counts one
    reparenting; any later sighting of the tag fails the assertion. *)
Theorem removed_then_inserted_is_reparented (meta : ReparentingMetadata)
    (oldParent newParent : Tag) (oldNode' newNode' : ShadowNode)
    (oldIndex' newIndex' : Z) :
  enabled_ meta = true ->
  tagsToOperations_ meta !! getTag oldNode' = None ->
  getTag newNode' = getTag oldNode' ->
  exists meta1 meta2,
    shouldRemoveDeleteUpdate oldParent oldNode' oldIndex' meta
    = Ok (true, true, None, meta1)
    /\ shouldCreateInsertUpdate newParent newNode' newIndex' meta1
       = Ok (negb ((oldIndex' =? newIndex') && (oldParent =? newParent)),
             false, Some oldNode', meta2)
    /\ reparentingOperations_ meta2 = reparentingOperations_ meta + 1
    /\ (forall parent node index',
          getTag node = getTag oldNode' ->
          shouldRemoveDeleteUpdate parent node index' meta2
          = Err AssertionFailed
          /\ shouldCreateInsertUpdate parent node index' meta2
             = Err AssertionFailed).
Proof.
  intros Hen Hnone Htag.
  set (same := (oldIndex' =? newIndex') && (oldParent =? newParent)).
  set (meta1 :=
         set_tagOperations (getTag oldNode')
           (mkOperationsOnTag 0 10 oldIndex' oldParent (Some oldNode') None)
           meta).
  set (meta2 :=
         bump_reparentingOperations
           (set_tagOperations (getTag oldNode')
              (mkOperationsOnTag (if same then 10 else 2) 10 oldIndex'
                 oldParent (Some oldNode') None)
              meta1)).
  exists meta1, meta2. split; [|split; [|split]].
  - unfold shouldRemoveDeleteUpdate. rewrite Hen, Hnone. reflexivity.
  - unfold shouldCreateInsertUpdate. simpl. rewrite Hen, Htag. simpl.
    rewrite lookup_insert_eq. simpl. fold same.
    unfold meta2. destruct same; reflexivity.
  - reflexivity.
  - intros parent node index' Hnode.
    unfold shouldRemoveDeleteUpdate, shouldCreateInsertUpdate.
    simpl. rewrite Hen, Hnode. simpl. rewrite lookup_insert_eq.
    destruct same; split; reflexivity.
Qed.

(** X18: in the other order, a node first seen as a new child and then
    removed is recognised as well: the second sighting suppresses the Delete,
    hands the stored new node back for an Update and counts one reparenting.
    The record of the first sighting keeps the parent tag [-1], so the Remove
    is suppressed only when the slots agree and the removal is under a parent
    of tag [-1]. *)
Theorem inserted_then_removed_is_reparented (meta : ReparentingMetadata)
    (oldParent newParent : Tag) (oldNode' newNode' : ShadowNode)
    (oldIndex' newIndex' : Z) :
  enabled_ meta = true ->
  tagsToOperations_ meta !! getTag newNode' = None ->
  getTag oldNode' = getTag newNode' ->
  exists meta1 meta2,
    shouldCreateInsertUpdate newParent newNode' newIndex' meta
    = Ok (true, true, None, meta1)
    /\ shouldRemoveDeleteUpdate oldParent oldNode' oldIndex' meta1
       = Ok (negb ((newIndex' =? oldIndex') && (-1 =? oldParent)),
             false, Some newNode', meta2)
    /\ reparentingOperations_ meta2 = reparentingOperations_ meta + 1
    /\ (forall parent node index',
          getTag node = getTag newNode' ->
          shouldRemoveDeleteUpdate parent node index' meta2
          = Err AssertionFailed
          /\ shouldCreateInsertUpdate parent node index' meta2
             = Err AssertionFailed).
Proof.
  intros Hen Hnone Htag.
  set (same := (newIndex' =? oldIndex') && (-1 =? oldParent)).
  set (meta1 :=
         set_tagOperations (getTag newNode')
           (mkOperationsOnTag 0 5 newIndex' (-1) None (Some newNode'))
           meta).
  set (meta2 :=
         bump_reparentingOperations
           (set_tagOperations (getTag newNode')
              (mkOperationsOnTag (if same then 5 else 1) 5 newIndex' (-1)
                 None (Some newNode'))
              meta1)).
  exists meta1, meta2. split; [|split; [|split]].
  - unfold shouldCreateInsertUpdate. rewrite Hen, Hnone. reflexivity.
  - unfold shouldRemoveDeleteUpdate. simpl. rewrite Hen, Htag. simpl.
    rewrite lookup_insert_eq. simpl.
    change (match oldParent with
            | Z.neg q => (1 =? q)%positive
            | _ => false
            end) with (-1 =? oldParent).
    fold same. unfold meta2. destruct same; reflexivity.
  - reflexivity.
  - intros parent node index' Hnode.
    unfold shouldRemoveDeleteUpdate, shouldCreateInsertUpdate.
    simpl. rewrite Hen, Hnode. simpl. rewrite lookup_insert_eq.
    destruct same; split; reflexivity.
Qed.

(** ** The pruning pass *)

Lemma removeObviated_idle mutations meta :
  reparentingOperations_ meta = 0 ->
  removeObviated mutations meta = (mutations, meta).
Proof.
  intros Hzero. induction mutations as [|m rest IH]; simpl; [reflexivity|].
  rewrite Hzero. simpl. rewrite IH. reflexivity.
Qed.

Lemma removeObviated_sublist mutations :
  forall meta,
    fst (removeObviated mutations meta) `sublist_of` mutations
    /\ forall m,
         In m mutations ->
         tagsToOperations_ meta !! mutationTag m = None ->
         In m (fst (removeObviated mutations meta)).
Proof.
  induction mutations as [|mutation rest IH]; intros meta; simpl.
  { split; [constructor|contradiction]. }
  destruct (reparentingOperations_ meta =? 0).
  { destruct (IH meta) as [Hsub Hkept].
    destruct (removeObviated rest meta) as [kept meta']. simpl in *.
    split; [apply sublist_skip, Hsub|].
    intros m [<-|Hin] Hnone; [left; reflexivity|right; auto]. }
  destruct (tagsToOperations_ meta !! mutationTag mutation) as [op|] eqn:Hop.
  2: { destruct (IH meta) as [Hsub Hkept].
       destruct (removeObviated rest meta) as [kept meta']. simpl in *.
       split; [apply sublist_skip, Hsub|].
       intros m [<-|Hin] Hnone; [left; reflexivity|right; auto]. }
  match goal with
  | |- context [removeObviated rest ?meta1] =>
      destruct (IH meta1) as [Hsub Hkept];
      assert (Hsame : forall t, tagsToOperations_ meta !! t = None ->
                                tagsToOperations_ meta1 !! t = None);
      [|destruct (removeObviated rest meta1) as [kept meta'] eqn:Hrest]
  end.
  { intros t Ht.
    assert (Hne : mutationTag mutation <> t).
    { intros Heq. subst t.
      pose proof (eq_trans (eq_sym Hop) Ht) as Habs. discriminate. }
    destruct (_ =? 0); simpl.
    - rewrite lookup_delete_ne by exact Hne. exact Ht.
    - rewrite lookup_insert_ne by exact Hne. exact Ht. }
  simpl in *.
  assert (Hrestkept : forall m, In m rest ->
            tagsToOperations_ meta !! mutationTag m = None -> In m kept).
  { intros m Hin Hnone. apply Hkept; [exact Hin|apply Hsame, Hnone]. }
  destruct (has_bit _ _); simpl.
  - split; [apply sublist_cons, Hsub|].
    intros m [<-|Hin] Hnone; [congruence|auto].
  - split; [apply sublist_skip, Hsub|].
    intros m [<-|Hin] Hnone; [left; reflexivity|right; auto].
Qed.

(** X19: the pruning pass returns its list with some mutations left out and
    the others in their order; a mutation whose tag has no record in the
    metadata is never left out; and when the count of reparenting operations
    is zero the pass returns the list and the metadata unchanged. *)
Theorem pruning_only_drops_recorded (mutations : list ShadowViewMutation)
    (meta : ReparentingMetadata) :
  fst (removeObviated mutations meta) `sublist_of` mutations
  /\ (forall m,
        In m mutations ->
        tagsToOperations_ meta !! mutationTag m = None ->
        In m (fst (removeObviated mutations meta)))
  /\ (reparentingOperations_ meta = 0 ->
      removeObviated mutations meta = (mutations, meta)).
Proof.
  destruct (removeObviated_sublist mutations meta) as [Hsub Hkept].
  split; [exact Hsub|]. split; [exact Hkept|].
  apply removeObviated_idle.
Qed.

(** ** The differ: the children that stay *)

Lemma existsb_absent (slots : list nat) (pos : nat) :
  Forall (fun s => (s < pos)%nat) slots ->
  existsb (Nat.eqb pos) slots = false.
Proof.
  induction 1 as [|s slots Hs _ IH]; simpl; [reflexivity|].
  rewrite IH, orb_false_r. apply Nat.eqb_neq. lia.
Qed.

Lemma withoutSlots_snoc {A : Type} (slots : list nat) (l : list A) x :
  forall pos,
    withoutSlots slots pos (l ++ [x])
    = withoutSlots slots pos l
      ++ (if existsb (Nat.eqb (pos + length l)%nat) slots then [] else [x]).
Proof.
  induction l as [|y l IH]; intros pos; simpl.
  - rewrite Nat.add_0_r. destruct (existsb _ _); reflexivity.
  - rewrite IH. replace (S pos + length l)%nat with (pos + S (length l))%nat
      by lia.
    destruct (existsb (Nat.eqb pos) slots); reflexivity.
Qed.

Lemma withoutSlots_behind {A : Type} (slots : list nat) (s : nat)
    (l : list A) :
  forall pos,
    (pos + length l <= s)%nat ->
    withoutSlots (slots ++ [s]) pos l = withoutSlots slots pos l.
Proof.
  induction l as [|y l IH]; intros pos Hs; simpl; [reflexivity|].
  simpl in Hs. rewrite existsb_app. simpl.
  replace (pos =? s)%nat with false by (symmetry; apply Nat.eqb_neq; lia).
  rewrite !orb_false_r, IH by lia. reflexivity.
Qed.

Lemma sorted_snoc (l : list nat) (x : nat) :
  StronglySorted lt l -> Forall (fun s => (s < x)%nat) l ->
  StronglySorted lt (l ++ [x]).
Proof.
  induction 1 as [|y l Hl IH Hy]; intros Hx; simpl.
  - repeat constructor.
  - apply Forall_cons in Hx as [Hyx Hx]. constructor; [apply IH, Hx|].
    apply Forall_app. split; [exact Hy|]. repeat constructor. exact Hyx.
Qed.

Section Align.
Variable ANDROID : bool.
Variable recurse : Differ.
Variable parent : ShadowView.
Variables olds news : list ShadowViewNodePair.

Local Abbreviation ainv := (align_inv olds news).

Lemma align_same oi ni b b' :
  removeMutations b' = removeMutations b ->
  insertMutations b' = insertMutations b ->
  ainv oi ni b -> ainv oi ni b'.
Proof. unfold align_inv. intros -> ->. auto. Qed.

Lemma align_update oi ni p old new i b :
  ainv oi ni b -> ainv oi ni (updateIfDifferent p old new i b).
Proof.
  apply align_same; unfold updateIfDifferent; destruct (negb _); reflexivity.
Qed.

Lemma align_match oi ni o n b :
  olds !! oi = Some o -> news !! ni = Some n ->
  pairTag o = pairTag n ->
  ainv oi ni b -> ainv (S oi) (S ni) b.
Proof.
  intros Ho Hn Htag (Hoi & Hni & Hrs & Hrb & His & Hib & Hkept).
  pose proof (lookup_lt_Some _ _ _ Ho) as Holt.
  pose proof (lookup_lt_Some _ _ _ Hn) as Hnlt.
  split; [lia|]. split; [lia|]. split; [exact Hrs|].
  split; [eapply Forall_impl; [exact Hrb|]; simpl; lia|].
  split; [exact His|].
  split; [eapply Forall_impl; [exact Hib|]; simpl; lia|].
  rewrite (take_S_r _ _ _ Ho), (take_S_r _ _ _ Hn), !withoutSlots_snoc.
  rewrite !length_take, !Nat.min_l by lia. simpl.
  rewrite (existsb_absent _ _ Hrb), (existsb_absent _ _ Hib).
  rewrite !map_app, Hkept. simpl. rewrite Htag. reflexivity.
Qed.

Lemma align_remove oi ni o b :
  olds !! oi = Some o ->
  ainv oi ni b ->
  ainv (S oi) ni
    (push_remove (RemoveMutation parent (shadowView o) (Z.of_nat oi)) b).
Proof.
  intros Ho (Hoi & Hni & Hrs & Hrb & His & Hib & Hkept).
  pose proof (lookup_lt_Some _ _ _ Ho) as Holt.
  assert (Hslot : slot (RemoveMutation parent (shadowView o) (Z.of_nat oi))
                  = oi) by (unfold slot; simpl; lia).
  split; [lia|]. split; [exact Hni|]. simpl.
  rewrite map_app. simpl. rewrite Hslot.
  split; [apply sorted_snoc; assumption|].
  split.
  { apply Forall_app. split; [|repeat constructor; lia].
    eapply Forall_impl; [exact Hrb|]. simpl. lia. }
  split; [exact His|]. split; [exact Hib|].
  rewrite <- Hkept, (take_S_r _ _ _ Ho), withoutSlots_snoc.
  rewrite length_take, Nat.min_l by lia. simpl.
  rewrite existsb_app. simpl. rewrite Nat.eqb_refl, orb_true_r, app_nil_r.
  rewrite withoutSlots_behind; [reflexivity|].
  rewrite length_take. lia.
Qed.

Lemma align_insert oi ni n b :
  news !! ni = Some n ->
  ainv oi ni b ->
  ainv oi (S ni)
    (push_insert (InsertMutation parent (shadowView n) (Z.of_nat ni)) b).
Proof.
  intros Hn (Hoi & Hni & Hrs & Hrb & His & Hib & Hkept).
  pose proof (lookup_lt_Some _ _ _ Hn) as Hnlt.
  assert (Hslot : slot (InsertMutation parent (shadowView n) (Z.of_nat ni))
                  = ni) by (unfold slot; simpl; lia).
  split; [exact Hoi|]. split; [lia|]. simpl.
  split; [exact Hrs|]. split; [exact Hrb|].
  rewrite map_app. simpl. rewrite Hslot.
  split; [apply sorted_snoc; assumption|].
  split.
  { apply Forall_app. split; [|repeat constructor; lia].
    eapply Forall_impl; [exact Hib|]. simpl. lia. }
  rewrite Hkept, (take_S_r _ _ _ Hn), withoutSlots_snoc.
  rewrite length_take, Nat.min_l by lia. simpl.
  rewrite existsb_app. simpl. rewrite Nat.eqb_refl, orb_true_r, app_nil_r.
  rewrite withoutSlots_behind; [reflexivity|].
  rewrite length_take. lia.
Qed.

Lemma updateSubtrees_align oi ni b meta p oldGrand newGrand b' meta' :
  updateSubtrees recurse b meta p oldGrand newGrand = Ok (b', meta') ->
  ainv oi ni b -> ainv oi ni b'.
Proof.
  intros H. apply updateSubtrees_own in H as (_ & _ & Hi & Hr & _).
  apply align_same; assumption.
Qed.

Lemma stage1_align :
  forall os ns index b meta index' b' meta',
    (forall (j : nat) pr, os !! j = Some pr ->
       olds !! (index + j)%nat = Some pr) ->
    (forall (j : nat) pr, ns !! j = Some pr ->
       news !! (index + j)%nat = Some pr) ->
    stage1 ANDROID recurse parent os ns index b meta = Ok (index', b', meta') ->
    ainv index index b -> ainv index' index' b'.
Proof.
  induction os as [|o os IH];
    intros ns index b meta index' b' meta' Hos Hns H Hinv.
  - simpl in H. injection H as <- <- <-. exact Hinv.
  - destruct ns as [|n ns]; simpl in H.
    + injection H as <- <- <-. exact Hinv.
    + destruct (Z.eqb_spec (tag (shadowView o)) (tag (shadowView n)))
        as [Htag|Hne]; simpl in H.
      2: { injection H as <- <- <-. exact Hinv. }
      apply bind_Ok in H as ([b1 m1] & Hsub & H).
      assert (Ho : olds !! index = Some o).
      { rewrite <- (Nat.add_0_r index). apply Hos. reflexivity. }
      assert (Hn : news !! index = Some n).
      { rewrite <- (Nat.add_0_r index). apply Hns. reflexivity. }
      eapply IH; [| |exact H|].
      * intros j pr Hj.
        replace (S index + j)%nat with (index + S j)%nat by lia.
        apply Hos. exact Hj.
      * intros j pr Hj.
        replace (S index + j)%nat with (index + S j)%nat by lia.
        apply Hns. exact Hj.
      * eapply updateSubtrees_align; [exact Hsub|].
        apply align_update.
        exact (align_match index index o n b Ho Hn Htag Hinv).
Qed.

Lemma removeRest_align ni meta :
  enabled_ meta = false ->
  (forall l m p os ns l' m',
     enabled_ m = false -> recurse l m p os ns = Ok (l', m') -> m' = m) ->
  forall os index b b' meta',
    (forall (j : nat) pr, os !! j = Some pr ->
       olds !! (index + j)%nat = Some pr) ->
    removeRest ANDROID recurse parent os index b meta = Ok (b', meta') ->
    ainv index ni b -> ainv (index + length os) ni b'.
Proof.
  intros Hen Hrec.
  induction os as [|o os IH]; intros index b b' meta' Hos H Hinv.
  - simpl in H. injection H as <- <-. simpl. rewrite Nat.add_0_r. exact Hinv.
  - simpl in H.
    rewrite shouldRemoveDeleteUpdate_disabled in H by exact Hen.
    simpl in H. apply bind_Ok in H as ([l m2] & Hr & H).
    pose proof (Hrec _ _ _ _ _ _ _ Hen Hr) as ->.
    assert (Ho : olds !! index = Some o).
    { rewrite <- (Nat.add_0_r index). apply Hos. reflexivity. }
    simpl. replace (index + S (length os))%nat
      with (S index + length os)%nat by lia.
    eapply IH; [|exact H|].
    { intros j pr Hj. replace (S index + j)%nat with (index + S j)%nat by lia.
      apply Hos. exact Hj. }
    apply (align_same (S index) ni
             (push_remove
                (RemoveMutation parent (shadowView o) (Z.of_nat index)) b));
      [reflexivity|reflexivity|].
    apply align_remove; assumption.
Qed.

Lemma insertRest_align oi meta :
  enabled_ meta = false ->
  (forall l m p os ns l' m',
     enabled_ m = false -> recurse l m p os ns = Ok (l', m') -> m' = m) ->
  forall ns index b b' meta',
    (forall (j : nat) pr, ns !! j = Some pr ->
       news !! (index + j)%nat = Some pr) ->
    insertRest ANDROID recurse parent ns index b meta = Ok (b', meta') ->
    ainv oi index b -> ainv oi (index + length ns) b'.
Proof.
  intros Hen Hrec.
  induction ns as [|n ns IH]; intros index b b' meta' Hns H Hinv.
  - simpl in H. injection H as <- <-. simpl. rewrite Nat.add_0_r. exact Hinv.
  - simpl in H.
    rewrite shouldCreateInsertUpdate_disabled in H by exact Hen.
    simpl in H. apply bind_Ok in H as ([l m2] & Hr & H).
    pose proof (Hrec _ _ _ _ _ _ _ Hen Hr) as ->.
    assert (Hn : news !! index = Some n).
    { rewrite <- (Nat.add_0_r index). apply Hns. reflexivity. }
    simpl. replace (index + S (length ns))%nat
      with (S index + length ns)%nat by lia.
    eapply IH; [|exact H|].
    { intros j pr Hj. replace (S index + j)%nat with (index + S j)%nat by lia.
      apply Hns. exact Hj. }
    apply (align_same oi (S index)
             (push_insert
                (InsertMutation parent (shadowView n) (Z.of_nat index)) b));
      [reflexivity|reflexivity|].
    apply align_insert; assumption.
Qed.

Lemma createInserted_align oi ni :
  forall entries b meta b' meta',
    createInserted ANDROID recurse parent entries b meta = Ok (b', meta') ->
    ainv oi ni b -> ainv oi ni b'.
Proof.
  induction entries as [|[key n] entries IH]; intros b meta b' meta' H Hinv.
  - simpl in H. injection H as <- <-. exact Hinv.
  - simpl in H. destruct (key =? 0); [eapply IH; [exact H|exact Hinv]|].
    apply bind_Ok in H as ([[shouldCreate updateNode] m1] & _ & H).
    apply bind_Ok in H as ([l m2] & _ & H).
    eapply IH; [exact H|].
    eapply align_same; [| |exact Hinv];
      destruct shouldCreate, updateNode; simpl;
      unfold updateIfDifferent; try destruct (negb _); reflexivity.
Qed.

Local Abbreviation sinv :=
  (fun st => ainv (oldIndex st) (newIndex st) (walk_buckets st)).

Lemma walkInsert_align st st' :
  walkInsert parent news st = Ok st' -> sinv st -> sinv st'.
Proof.
  unfold walkInsert. intros H Hinv.
  destruct (news !! newIndex st) as [n|] eqn:Hn; [|discriminate].
  apply bind_Ok in H as (ins & _ & H). injection H as <-. simpl.
  apply align_insert; assumption.
Qed.

Lemma walkMatched_align index o n st st' :
  olds !! oldIndex st = Some o -> news !! newIndex st = Some n ->
  pairTag o = pairTag n ->
  walkMatched ANDROID recurse parent index o n st = Ok st' ->
  sinv st -> sinv st'.
Proof.
  unfold walkMatched. intros Ho Hn Htag H Hinv.
  apply bind_Ok in H as ([it rem] & _ & H).
  apply bind_Ok in H as (rem' & _ & H).
  apply bind_Ok in H as ([b m] & Hsub & H).
  injection H as <-. simpl.
  eapply updateSubtrees_align; [exact Hsub|].
  apply align_update.
  exact (align_match _ _ o n _ Ho Hn Htag Hinv).
Qed.

Lemma walkRemoveInserted_align index o it inserted st st' :
  olds !! oldIndex st = Some o ->
  walkRemoveInserted ANDROID recurse parent index o it inserted st = Ok st' ->
  sinv st -> sinv st'.
Proof.
  unfold walkRemoveInserted. intros Ho H Hinv.
  destruct (TinyMap.deref it inserted) as [[key n]|]; [|discriminate].
  apply bind_Ok in H as ([b m] & Hsub & H).
  apply bind_Ok in H as (ins & _ & H).
  injection H as <-. simpl.
  eapply updateSubtrees_align; [exact Hsub|].
  apply align_update. apply align_remove; assumption.
Qed.

Lemma walkRemoveGone_align o st st' :
  olds !! oldIndex st = Some o ->
  walkRemoveGone ANDROID recurse parent o st = Ok st' ->
  sinv st -> sinv st'.
Proof.
  unfold walkRemoveGone. intros Ho H Hinv.
  apply bind_Ok in H
    as ([[[shouldRemove shouldDelete] newTreeNode] m1] & _ & H).
  apply bind_Ok in H as ([l m2] & _ & H).
  injection H as <-. simpl.
  pose proof (align_remove _ _ _ _ Ho Hinv) as H1.
  eapply align_same; [| |exact H1];
    destruct shouldDelete, newTreeNode; simpl;
    unfold updateIfDifferent; try destruct (negb _); reflexivity.
Qed.

Lemma walkStep_align index st st' :
  walkStep ANDROID recurse parent index olds news st = Ok st' ->
  sinv st -> sinv st'.
Proof.
  unfold walkStep. intros H Hinv.
  destruct ((newIndex st <? length news)%nat
            && (oldIndex st <? length olds)%nat).
  - destruct (news !! newIndex st) as [n|] eqn:Hn;
      destruct (olds !! oldIndex st) as [o|] eqn:Ho.
    + destruct (Z.eqb_spec (tag (shadowView n)) (tag (shadowView o)))
        as [Htag|Hne].
      { eapply walkMatched_align; [exact Ho|exact Hn| |exact H|exact Hinv].
        unfold pairTag. symmetry. exact Htag. }
      destruct (oldIndex st <? length olds)%nat.
      2: { eapply walkInsert_align; [exact H|exact Hinv]. }
      apply bind_Ok in H as ([insertedIt inserted] & _ & H).
      destruct (negb _).
      { eapply walkRemoveInserted_align; [exact Ho|exact H|exact Hinv]. }
      apply bind_Ok in H as ([newIt remaining] & _ & H).
      destruct (TinyMap.ptr_eqb _ _).
      * apply walkRemoveGone_align in H; [exact H|exact Ho|exact Hinv].
      * apply walkInsert_align in H; [exact H|exact Hinv].
    + destruct (oldIndex st <? length olds)%nat;
        eapply walkInsert_align; [exact H|exact Hinv|exact H|exact Hinv].
    + destruct (oldIndex st <? length olds)%nat.
      2: { eapply walkInsert_align; [exact H|exact Hinv]. }
      apply bind_Ok in H as ([insertedIt inserted] & _ & H).
      destruct (negb _).
      { eapply walkRemoveInserted_align; [exact Ho|exact H|exact Hinv]. }
      apply bind_Ok in H as ([newIt remaining] & _ & H).
      destruct (TinyMap.ptr_eqb _ _).
      * apply walkRemoveGone_align in H; [exact H|exact Ho|exact Hinv].
      * apply walkInsert_align in H; [exact H|exact Hinv].
    + destruct (oldIndex st <? length olds)%nat;
        eapply walkInsert_align; [exact H|exact Hinv|exact H|exact Hinv].
  - destruct (oldIndex st <? length olds)%nat.
    2: { eapply walkInsert_align; [exact H|exact Hinv]. }
    destruct (olds !! oldIndex st) as [o|] eqn:Ho.
    2: { eapply walkInsert_align; [exact H|exact Hinv]. }
    apply bind_Ok in H as ([insertedIt inserted] & _ & H).
    destruct (negb _).
    { eapply walkRemoveInserted_align; [exact Ho|exact H|exact Hinv]. }
    apply bind_Ok in H as ([newIt remaining] & _ & H).
    destruct (TinyMap.ptr_eqb _ _).
    + apply walkRemoveGone_align in H; [exact H|exact Ho|exact Hinv].
    + apply walkInsert_align in H; [exact H|exact Hinv].
Qed.

Lemma walk_align index :
  forall fuel st st',
    walk ANDROID recurse fuel parent index olds news st = Ok st' ->
    sinv st ->
    ainv (length olds) (length news) (walk_buckets st').
Proof.
  assert (Hexit : forall st,
            (newIndex st <? length news)%nat
            || (oldIndex st <? length olds)%nat = false ->
            sinv st ->
            ainv (length olds) (length news) (walk_buckets st)).
  { intros st Hcond Hinv. apply orb_false_iff in Hcond as [Hn Ho].
    apply Nat.ltb_ge in Hn, Ho. pose proof Hinv as (Hoi & Hni & _).
    replace (length olds) with (oldIndex st) by lia.
    replace (length news) with (newIndex st) by lia. exact Hinv. }
  induction fuel as [|fuel IH]; intros st st' H Hinv; simpl in H;
    destruct ((newIndex st <? length news)%nat
              || (oldIndex st <? length olds)%nat) eqn:Hcond.
  - discriminate.
  - injection H as <-. apply Hexit; assumption.
  - apply bind_Ok in H as (st1 & Hstep & H).
    eapply IH; [exact H|].
    eapply walkStep_align; [exact Hstep|exact Hinv].
  - injection H as <-. apply Hexit; assumption.
Qed.

End Align.

Lemma stage1_disabled (ANDROID : bool) (recurse : Differ) parent meta :
  enabled_ meta = false ->
  (forall l m p os ns l' m',
     enabled_ m = false -> recurse l m p os ns = Ok (l', m') -> m' = m) ->
  forall olds news index b index' b' meta',
    stage1 ANDROID recurse parent olds news index b meta
    = Ok (index', b', meta') ->
    meta' = meta.
Proof.
  intros Hen Hrec.
  induction olds as [|o olds IH]; intros news index b index' b' meta' H.
  - simpl in H. injection H as <- <- <-. reflexivity.
  - destruct news as [|n news]; simpl in H.
    + injection H as <- <- <-. reflexivity.
    + destruct (negb _).
      * injection H as <- <- <-. reflexivity.
      * apply bind_Ok in H as ([b1 m1] & Hsub & H).
        assert (m1 = meta) as ->.
        { unfold updateSubtrees in Hsub.
          destruct (negb _); apply bind_Ok in Hsub as ([l m] & Hr & Hsub);
            injection Hsub as <- <-; exact (Hrec _ _ _ _ _ _ _ Hen Hr). }
        eapply IH. exact H.
Qed.

Lemma collectMutations_align (ANDROID : bool) (recurse : Differ) meta parent
    olds news b meta' :
  enabled_ meta = false ->
  (forall l m p os ns l' m',
     enabled_ m = false -> recurse l m p os ns = Ok (l', m') -> m' = m) ->
  collectMutations ANDROID recurse meta parent olds news = Ok (b, meta') ->
  align_inv (reorderInPlaceIfNeeded olds) (reorderInPlaceIfNeeded news)
    (length (reorderInPlaceIfNeeded olds))
    (length (reorderInPlaceIfNeeded news)) b.
Proof.
  intros Hen Hrec. unfold collectMutations. intros H.
  set (olds' := reorderInPlaceIfNeeded olds) in *.
  set (news' := reorderInPlaceIfNeeded news) in *.
  apply bind_Ok in H as ([[index b1] m1] & Hs1 & H).
  assert (Hinit : align_inv olds' news' 0 0 Buckets_init).
  { unfold align_inv. simpl. repeat split; try lia; constructor. }
  pose proof (stage1_disabled ANDROID recurse parent meta Hen Hrec
                _ _ _ _ _ _ _ Hs1) as ->.
  pose proof (stage1_index ANDROID recurse parent _ _ _ _ _ _ _ _ Hs1)
    as [Hio Hin].
  assert (H1 : align_inv olds' news' index index b1).
  { eapply (stage1_align ANDROID recurse parent olds' news');
      [| |exact Hs1|exact Hinit]; intros j pr Hj; exact Hj. }
  simpl in H.
  destruct (Nat.eqb_spec index (length news')) as [Hnew|Hnew].
  { replace (length olds') with (index + length (drop index olds'))%nat
      by (rewrite length_drop; lia).
    rewrite <- Hnew.
    eapply (removeRest_align ANDROID recurse parent olds' news');
      [exact Hen|exact Hrec| |exact H|exact H1].
    intros j pr Hj. rewrite lookup_drop in Hj. exact Hj. }
  destruct (Nat.eqb_spec index (length olds')) as [Hold|Hold].
  { replace (length news') with (index + length (drop index news'))%nat
      by (rewrite length_drop; lia).
    rewrite <- Hold.
    eapply (insertRest_align ANDROID recurse parent olds' news');
      [exact Hen|exact Hrec| |exact H|exact H1].
    intros j pr Hj. rewrite lookup_drop in Hj. exact Hj. }
  unfold walkLists in H.
  apply bind_Ok in H as (remaining & _ & H).
  apply bind_Ok in H as (st & Hwalk & H).
  destruct (TinyMap.begin (newInsertedPairs st)) as [first inserted].
  eapply createInserted_align; [exact H|].
  eapply walk_align; [exact Hwalk|]. exact H1.
Qed.

(** X21: with reparenting detection disabled, the Remove mutations of an
    activation name ascending slots of the reordered old list, its Insert
    mutations ascending slots of the reordered new list, and the old pairs
    that are not removed have the tags of the new pairs that are not
    inserted, in the same order: the children that stay keep their relative
    order, so removing and then inserting turns the one list of tags into the
    other. *)
Theorem kept_children_align (ANDROID : bool) (fuel : nat)
    (meta : ReparentingMetadata) (parent : ShadowView)
    (olds news : list ShadowViewNodePair) (b : Buckets)
    (meta' : ReparentingMetadata) :
  enabled_ meta = false ->
  collectMutations ANDROID (calculateShadowViewMutations_rec ANDROID fuel)
    meta parent olds news = Ok (b, meta') ->
  StronglySorted lt (map slot (removeMutations b))
  /\ StronglySorted lt (map slot (insertMutations b))
  /\ map pairTag
       (withoutSlots (map slot (removeMutations b)) 0
          (reorderInPlaceIfNeeded olds))
     = map pairTag
         (withoutSlots (map slot (insertMutations b)) 0
            (reorderInPlaceIfNeeded news)).
Proof.
  intros Hen H.
  assert (Hrec : forall l m p os ns l' m',
            enabled_ m = false ->
            calculateShadowViewMutations_rec ANDROID fuel l m p os ns
            = Ok (l', m') -> m' = m).
  { intros l m p os ns l' m' Hm Hr.
    exact (proj1 (recurse_disabled _ (rec_framed ANDROID fuel)
                    (rec_simulated ANDROID fuel) _ _ _ _ _ _ _ Hm Hr)). }
  destruct (collectMutations_align ANDROID _ meta parent olds news b meta'
              Hen Hrec H) as (_ & _ & Hrs & _ & His & _ & Hkept).
  rewrite !firstn_all in Hkept. auto.
Qed.

(** ** The differ: Create comes with Insert, Delete with Remove *)

Lemma shouldRemoveDeleteUpdate_pairs parentTag' node i meta r d n meta' :
  shouldRemoveDeleteUpdate parentTag' node i meta = Ok (r, d, n, meta') ->
  d = true -> r = true.
Proof.
  unfold shouldRemoveDeleteUpdate. intros H.
  destruct (negb _); [injection H as <- <- <- <-; auto|].
  destruct (_ !! _) as [op|]; [|injection H as <- <- <- <-; auto].
  destruct (negb _); [discriminate|].
  injection H as <- <- <- <-. discriminate.
Qed.

Lemma shouldCreateInsertUpdate_pairs parentTag' node i meta ins c n meta' :
  shouldCreateInsertUpdate parentTag' node i meta = Ok (ins, c, n, meta') ->
  c = true -> ins = true.
Proof.
  unfold shouldCreateInsertUpdate. intros H.
  destruct (negb _); [injection H as <- <- <- <-; auto|].
  destruct (_ !! _) as [op|]; [|injection H as <- <- <- <-; auto].
  destruct (negb _); [discriminate|].
  injection H as <- <- <- <-. discriminate.
Qed.

Lemma paired_grows parent b b' :
  deleteMutations b' = deleteMutations b ->
  createMutations b' = createMutations b ->
  (exists more, removeMutations b' = removeMutations b ++ more) ->
  (exists more, insertMutations b' = insertMutations b ++ more) ->
  paired parent b -> paired parent b'.
Proof.
  unfold paired. intros -> -> [r ->] [i ->] [Hd Hc]. split.
  - eapply Forall_impl; [exact Hd|]. intros m (v & j & -> & Hin).
    exists v, j. split; [reflexivity|apply in_or_app; left; exact Hin].
  - eapply Forall_impl; [exact Hc|]. intros m (v & j & -> & Hin).
    exists v, j. split; [reflexivity|apply in_or_app; left; exact Hin].
Qed.

Lemma paired_same parent b b' :
  deleteMutations b' = deleteMutations b ->
  createMutations b' = createMutations b ->
  removeMutations b' = removeMutations b ->
  insertMutations b' = insertMutations b ->
  paired parent b -> paired parent b'.
Proof.
  intros Hd Hc Hr Hi. apply paired_grows; try assumption;
    exists []; rewrite app_nil_r; assumption.
Qed.

Lemma paired_update parent p old new i b :
  paired parent b -> paired parent (updateIfDifferent p old new i b).
Proof.
  apply paired_same; unfold updateIfDifferent; destruct (negb _);
    reflexivity.
Qed.

Lemma paired_remove parent m b :
  paired parent b -> paired parent (push_remove m b).
Proof.
  apply paired_grows; try reflexivity; simpl; [eauto|].
  exists []. rewrite app_nil_r. reflexivity.
Qed.

Lemma paired_insert parent m b :
  paired parent b -> paired parent (push_insert m b).
Proof.
  apply paired_grows; try reflexivity; simpl; [|eauto].
  exists []. rewrite app_nil_r. reflexivity.
Qed.

Lemma paired_delete parent v i b :
  In (RemoveMutation parent v i) (removeMutations b) ->
  paired parent b -> paired parent (push_delete (DeleteMutation v) b).
Proof.
  intros Hin [Hd Hc]. split; [|exact Hc]. simpl.
  apply Forall_app. split; [exact Hd|].
  constructor; [|constructor]. exists v, i. auto.
Qed.

Lemma paired_create parent v i b :
  In (InsertMutation parent v i) (insertMutations b) ->
  paired parent b -> paired parent (push_create (CreateMutation v) b).
Proof.
  intros Hin [Hd Hc]. split; [exact Hd|]. simpl.
  apply Forall_app. split; [exact Hc|].
  constructor; [|constructor]. exists v, i. auto.
Qed.

Lemma insertedUnder_grows parent (inserts more : list ShadowViewMutation)
    (m : TinyMap.t ShadowViewNodePair) :
  values_sat (insertedUnder parent inserts) m ->
  values_sat (insertedUnder parent (inserts ++ more)) m.
Proof.
  unfold values_sat. intros H. eapply Forall_impl; [exact H|].
  intros entry [i Hin]. exists i. apply in_or_app. left. exact Hin.
Qed.

Section Paired.
Variable ANDROID : bool.
Variable recurse : Differ.
Variable parent : ShadowView.
Variables olds news : list ShadowViewNodePair.

Local Abbreviation pinv := (paired parent).

Lemma updateSubtrees_paired b meta p oldGrand newGrand b' meta' :
  updateSubtrees recurse b meta p oldGrand newGrand = Ok (b', meta') ->
  pinv b -> pinv b'.
Proof.
  intros H. apply updateSubtrees_own in H as (Hc & Hd & Hi & Hr & _).
  apply paired_same; assumption.
Qed.

Lemma stage1_paired :
  forall os ns index b meta index' b' meta',
    stage1 ANDROID recurse parent os ns index b meta = Ok (index', b', meta') ->
    pinv b -> pinv b'.
Proof.
  induction os as [|o os IH]; intros ns index b meta index' b' meta' H Hinv.
  - simpl in H. injection H as <- <- <-. exact Hinv.
  - destruct ns as [|n ns]; simpl in H.
    + injection H as <- <- <-. exact Hinv.
    + destruct (negb _).
      * injection H as <- <- <-. exact Hinv.
      * apply bind_Ok in H as ([b1 m1] & Hsub & H).
        eapply IH; [exact H|].
        eapply updateSubtrees_paired; [exact Hsub|].
        apply paired_update. exact Hinv.
Qed.

Lemma removeRest_paired :
  forall os index b meta b' meta',
    removeRest ANDROID recurse parent os index b meta = Ok (b', meta') ->
    pinv b -> pinv b'.
Proof.
  induction os as [|o os IH]; intros index b meta b' meta' H Hinv.
  - simpl in H. injection H as <- <-. exact Hinv.
  - simpl in H.
    apply bind_Ok in H
      as ([[[shouldRemove shouldDelete] newTreeNode] m1] & Hshould & H).
    apply bind_Ok in H as ([l m2] & _ & H).
    eapply IH; [exact H|].
    pose proof (shouldRemoveDeleteUpdate_pairs _ _ _ _ _ _ _ _ Hshould)
      as Hpairs.
    eapply (paired_same parent
              (if shouldDelete
               then push_delete (DeleteMutation (shadowView o))
                      (push_remove
                         (RemoveMutation parent (shadowView o)
                            (Z.of_nat index)) b)
               else if shouldRemove
                    then push_remove
                           (RemoveMutation parent (shadowView o)
                              (Z.of_nat index)) b
                    else b)).
    1-4: destruct shouldDelete;
      [rewrite (Hpairs eq_refl)|destruct shouldRemove];
      destruct newTreeNode; simpl; unfold updateIfDifferent;
      try destruct (negb _); reflexivity.
    destruct shouldDelete.
    + eapply paired_delete; [|apply paired_remove, Hinv].
      simpl. apply in_or_app. right. left. reflexivity.
    + destruct shouldRemove; [apply paired_remove|]; exact Hinv.
Qed.

Lemma insertRest_paired :
  forall ns index b meta b' meta',
    insertRest ANDROID recurse parent ns index b meta = Ok (b', meta') ->
    pinv b -> pinv b'.
Proof.
  induction ns as [|n ns IH]; intros index b meta b' meta' H Hinv.
  - simpl in H. injection H as <- <-. exact Hinv.
  - simpl in H.
    apply bind_Ok in H
      as ([[[shouldInsert shouldCreate] oldTreeNode] m1] & Hshould & H).
    apply bind_Ok in H as ([l m2] & _ & H).
    eapply IH; [exact H|].
    pose proof (shouldCreateInsertUpdate_pairs _ _ _ _ _ _ _ _ Hshould)
      as Hpairs.
    eapply (paired_same parent
              (if shouldCreate
               then push_create (CreateMutation (shadowView n))
                      (push_insert
                         (InsertMutation parent (shadowView n)
                            (Z.of_nat index)) b)
               else if shouldInsert
                    then push_insert
                           (InsertMutation parent (shadowView n)
                              (Z.of_nat index)) b
                    else b)).
    1-4: destruct shouldCreate;
      [rewrite (Hpairs eq_refl)|destruct shouldInsert];
      destruct oldTreeNode; simpl; unfold updateIfDifferent;
      try destruct (negb _); reflexivity.
    destruct shouldCreate.
    + eapply paired_create; [|apply paired_insert, Hinv].
      simpl. apply in_or_app. right. left. reflexivity.
    + destruct shouldInsert; [apply paired_insert|]; exact Hinv.
Qed.

Lemma createInserted_paired :
  forall entries b meta b' meta',
    Forall (fun entry => insertedUnder parent (insertMutations b)
                           (snd entry)) entries ->
    createInserted ANDROID recurse parent entries b meta = Ok (b', meta') ->
    pinv b -> pinv b'.
Proof.
  induction entries as [|[key n] entries IH];
    intros b meta b' meta' Hentries H Hinv.
  - simpl in H. injection H as <- <-. exact Hinv.
  - apply Forall_cons in Hentries as [[i Hn] Hentries]. simpl in Hn.
    simpl in H.
    destruct (key =? 0); [eapply IH; [exact Hentries|exact H|exact Hinv]|].
    apply bind_Ok in H as ([[shouldCreate updateNode] m1] & _ & H).
    apply bind_Ok in H as ([l m2] & _ & H).
    eapply IH; [|exact H|].
    { eapply Forall_impl; [exact Hentries|]. intros entry He.
      destruct shouldCreate, updateNode; simpl; unfold updateIfDifferent;
        try destruct (negb _); exact He. }
    eapply (paired_same parent
              (if shouldCreate
               then push_create (CreateMutation (shadowView n)) b
               else b)).
    1-4: destruct shouldCreate, updateNode; simpl; unfold updateIfDifferent;
      try destruct (negb _); reflexivity.
    destruct shouldCreate; [|exact Hinv].
    eapply paired_create; [exact Hn|exact Hinv].
Qed.

Local Abbreviation sinv :=
  (fun st =>
     pinv (walk_buckets st)
     /\ values_sat
          (insertedUnder parent (insertMutations (walk_buckets st)))
          (newInsertedPairs st)).

Lemma walkInsert_paired st st' :
  walkInsert parent news st = Ok st' -> sinv st -> sinv st'.
Proof.
  unfold walkInsert. intros H [Hinv Hv].
  destruct (news !! newIndex st) as [n|] eqn:Hn; [|discriminate].
  apply bind_Ok in H as (ins & Hins & H). injection H as <-. simpl.
  split; [apply paired_insert, Hinv|].
  pose proof (insert_values
                (insertedUnder parent
                   (insertMutations (walk_buckets st)
                    ++ [InsertMutation parent (shadowView n)
                          (Z.of_nat (newIndex st))]))
                (tag (shadowView n), n) (newInsertedPairs st)) as Hval.
  rewrite Hins in Hval. apply Hval.
  - apply insertedUnder_grows, Hv.
  - simpl. exists (Z.of_nat (newIndex st)). apply in_or_app. right. left.
    reflexivity.
Qed.

Lemma walkMatched_paired index o n st st' :
  walkMatched ANDROID recurse parent index o n st = Ok st' ->
  sinv st -> sinv st'.
Proof.
  unfold walkMatched. intros H [Hinv Hv].
  apply bind_Ok in H as ([it rem] & _ & H).
  apply bind_Ok in H as (rem' & _ & H).
  apply bind_Ok in H as ([b m] & Hsub & H).
  injection H as <-. simpl.
  pose proof (updateSubtrees_own _ _ _ _ _ _ _ _ Hsub)
    as (_ & _ & Hi & _ & _).
  split.
  - eapply updateSubtrees_paired; [exact Hsub|].
    apply paired_update. exact Hinv.
  - rewrite Hi. unfold updateIfDifferent. destruct (negb _); exact Hv.
Qed.

Lemma walkRemoveInserted_paired index o it inserted st st' :
  values_sat (insertedUnder parent (insertMutations (walk_buckets st)))
    inserted ->
  walkRemoveInserted ANDROID recurse parent index o it inserted st = Ok st' ->
  pinv (walk_buckets st) -> sinv st'.
Proof.
  unfold walkRemoveInserted. intros Hv H Hinv.
  destruct (TinyMap.deref it inserted) as [[key n]|]; [|discriminate].
  apply bind_Ok in H as ([b m] & Hsub & H).
  apply bind_Ok in H as (ins & Hins & H).
  injection H as <-. simpl.
  pose proof (updateSubtrees_own _ _ _ _ _ _ _ _ Hsub)
    as (_ & _ & Hi & _ & _).
  split.
  - eapply updateSubtrees_paired; [exact Hsub|].
    apply paired_update, paired_remove, Hinv.
  - rewrite Hi.
    pose proof (erase_values
                  (insertedUnder parent (insertMutations (walk_buckets st)))
                  it inserted Hv) as Hval.
    rewrite Hins in Hval. unfold updateIfDifferent.
    destruct (negb _); exact Hval.
Qed.

Lemma walkRemoveGone_paired o st st' :
  walkRemoveGone ANDROID recurse parent o st = Ok st' ->
  sinv st -> sinv st'.
Proof.
  unfold walkRemoveGone. intros H [Hinv Hv].
  apply bind_Ok in H
    as ([[[shouldRemove shouldDelete] newTreeNode] m1] & _ & H).
  apply bind_Ok in H as ([l m2] & _ & H).
  injection H as <-. simpl. split.
  - eapply (paired_same parent
              (if shouldDelete
               then push_delete (DeleteMutation (shadowView o))
                      (push_remove
                         (RemoveMutation parent (shadowView o)
                            (Z.of_nat (oldIndex st))) (walk_buckets st))
               else push_remove
                      (RemoveMutation parent (shadowView o)
                         (Z.of_nat (oldIndex st))) (walk_buckets st))).
    1-4: destruct shouldDelete, newTreeNode; simpl; unfold updateIfDifferent;
      try destruct (negb _); reflexivity.
    destruct shouldDelete; [|apply paired_remove, Hinv].
    eapply paired_delete; [|apply paired_remove, Hinv].
    simpl. apply in_or_app. right. left. reflexivity.
  - destruct shouldDelete, newTreeNode; simpl; unfold updateIfDifferent;
      try destruct (negb _); exact Hv.
Qed.

Lemma walkOld_paired index o st st' :
  ('(insertedIt, inserted) ←
     TinyMap.find (tag (shadowView o)) (newInsertedPairs st);
   if negb (TinyMap.ptr_eqb insertedIt (TinyMap.end_ inserted))
   then
     walkRemoveInserted ANDROID recurse parent index o insertedIt inserted st
   else
     '(newIt, remaining) ←
       TinyMap.find (tag (shadowView o)) (newRemainingPairs st);
     if TinyMap.ptr_eqb newIt (TinyMap.end_ remaining)
     then
       walkRemoveGone ANDROID recurse parent o
         (mkWalkState (walk_buckets st) (walk_meta st) remaining inserted
            (oldIndex st) (newIndex st))
     else
       walkInsert parent news
         (mkWalkState (walk_buckets st) (walk_meta st) remaining inserted
            (oldIndex st) (newIndex st)))
  = Ok st' ->
  sinv st -> sinv st'.
Proof.
  intros H [Hinv Hv].
  apply bind_Ok in H as ([insertedIt inserted] & Hfind & H).
  assert (Hv' : values_sat
                  (insertedUnder parent (insertMutations (walk_buckets st)))
                  inserted).
  { rewrite (find_state _ _ _ _ Hfind). apply cleanVector_values, Hv. }
  destruct (negb _).
  { eapply walkRemoveInserted_paired; [exact Hv'|exact H|exact Hinv]. }
  apply bind_Ok in H as ([newIt remaining] & _ & H).
  destruct (TinyMap.ptr_eqb _ _).
  - apply walkRemoveGone_paired in H; [exact H|]. split; assumption.
  - apply walkInsert_paired in H; [exact H|]. split; assumption.
Qed.

Lemma walkStep_paired index st st' :
  walkStep ANDROID recurse parent index olds news st = Ok st' ->
  sinv st -> sinv st'.
Proof.
  unfold walkStep. intros H Hinv.
  match type of H with
  | match ?m with _ => _ end = _ => destruct m as [[o n]|]
  end.
  { eapply walkMatched_paired; [exact H|exact Hinv]. }
  destruct (oldIndex st <? length olds)%nat.
  2: { eapply walkInsert_paired; [exact H|exact Hinv]. }
  destruct (olds !! oldIndex st) as [o|] eqn:Ho.
  2: { eapply walkInsert_paired; [exact H|exact Hinv]. }
  eapply walkOld_paired; [exact H|exact Hinv].
Qed.

Lemma walk_paired index :
  forall fuel st st',
    walk ANDROID recurse fuel parent index olds news st = Ok st' ->
    sinv st -> sinv st'.
Proof.
  induction fuel as [|fuel IH]; intros st st' H Hinv; simpl in H.
  - destruct (_ || _); [discriminate|]. injection H as <-. exact Hinv.
  - destruct (_ || _); [|injection H as <-; exact Hinv].
    apply bind_Ok in H as (st1 & Hstep & H).
    eapply IH; [exact H|]. eapply walkStep_paired; [exact Hstep|exact Hinv].
Qed.

End Paired.

Lemma collectMutations_paired (ANDROID : bool) (recurse : Differ) meta parent
    olds news b meta' :
  collectMutations ANDROID recurse meta parent olds news = Ok (b, meta') ->
  paired parent b.
Proof.
  unfold collectMutations. intros H.
  apply bind_Ok in H as ([[index b1] m1] & Hs1 & H).
  assert (Hinit : paired parent Buckets_init) by (split; constructor).
  pose proof (stage1_paired _ _ _ _ _ _ _ _ _ _ _ Hs1 Hinit) as H1.
  simpl in H.
  destruct (index =? length _)%nat.
  { eapply removeRest_paired; [exact H|exact H1]. }
  destruct (index =? length _)%nat.
  { eapply insertRest_paired; [exact H|exact H1]. }
  unfold walkLists in H.
  apply bind_Ok in H as (remaining & _ & H).
  apply bind_Ok in H as (st & Hwalk & H).
  eapply walk_paired in Hwalk as [Hinv Hv]; [|split; [exact H1|constructor]].
  pose proof (begin_values _ _ Hv) as Hb.
  destruct (TinyMap.begin (newInsertedPairs st)) as [first inserted].
  eapply createInserted_paired; [|exact H|exact Hinv].
  apply (entriesFrom_values _ first inserted). exact Hb.
Qed.

(** X22: whether reparenting detection is enabled or not, every Delete an
    activation emits goes with a Remove of the same view from under the
    parent of the activation, and every Create with an Insert of the same view
    under that parent: the activation itself never deletes a view it leaves
    mounted and never creates one it does not mount. *)
Theorem Delete_goes_with_Remove_and_Create_with_Insert (ANDROID : bool)
    (fuel : nat) (meta : ReparentingMetadata) (parent : ShadowView)
    (olds news : list ShadowViewNodePair) (b : Buckets)
    (meta' : ReparentingMetadata) :
  collectMutations ANDROID (calculateShadowViewMutations_rec ANDROID fuel)
    meta parent olds news = Ok (b, meta') ->
  Forall (deletesRemoved parent (removeMutations b)) (deleteMutations b)
  /\ Forall (createsInserted parent (insertMutations b)) (createMutations b).
Proof. apply collectMutations_paired. Qed.

(** ** The differ: what is deleted and what is created *)

Lemma hasTag_app t l1 l2 : hasTag t (l1 ++ l2) = hasTag t l1 || hasTag t l2.
Proof. apply existsb_app. Qed.

Lemma hasTag_In t l : hasTag t l = true <-> In t (map pairTag l).
Proof.
  unfold hasTag. rewrite existsb_exists, in_map_iff. split.
  - intros (pr & Hin & Heq). exists pr. split; [lia|exact Hin].
  - intros (pr & Heq & Hin). exists pr. split; [exact Hin|lia].
Qed.

Lemma hasTag_false t l : hasTag t l = false <-> ~ In t (map pairTag l).
Proof.
  rewrite <- hasTag_In. destruct (hasTag t l); split; congruence.
Qed.

Lemma goneFrom_snoc l o x :
  goneFrom (l ++ [o]) x = goneFrom l x && negb (pairTag o =? pairTag x).
Proof.
  unfold goneFrom. rewrite hasTag_app. simpl. rewrite orb_false_r.
  apply negb_orb.
Qed.

Lemma goneFrom_tags l l' x :
  map pairTag l = map pairTag l' -> goneFrom l x = goneFrom l' x.
Proof.
  intros Htags. unfold goneFrom. f_equal.
  destruct (hasTag (pairTag x) l) eqn:H1; symmetry.
  - apply hasTag_In. rewrite <- Htags. apply hasTag_In, H1.
  - apply hasTag_false. rewrite <- Htags. apply hasTag_false, H1.
Qed.

Lemma filter_sublist {A : Type} (f : A -> bool) (l : list A) :
  List.filter f l `sublist_of` l.
Proof.
  induction l as [|x l IH]; simpl; [constructor|].
  destruct (f x); [apply sublist_skip|apply sublist_cons]; exact IH.
Qed.

Lemma map_sublist {A B : Type} (f : A -> B) (l1 l2 : list A) :
  l1 `sublist_of` l2 -> map f l1 `sublist_of` map f l2.
Proof.
  induction 1; simpl; [constructor|apply sublist_skip|apply sublist_cons];
    assumption.
Qed.

Lemma filter_all {A : Type} (f : A -> bool) (l : list A) :
  (forall x, In x l -> f x = true) -> List.filter f l = l.
Proof.
  induction l as [|x l IH]; intros H; simpl; [reflexivity|].
  rewrite (H x (or_introl eq_refl)), IH; [reflexivity|].
  intros y Hy. apply H. right. exact Hy.
Qed.

Lemma filter_none {A : Type} (f : A -> bool) (l : list A) :
  (forall x, In x l -> f x = false) -> List.filter f l = [].
Proof.
  induction l as [|x l IH]; intros H; simpl; [reflexivity|].
  rewrite (H x (or_introl eq_refl)). apply IH.
  intros y Hy. apply H. right. exact Hy.
Qed.

Lemma filter_and {A : Type} (f g : A -> bool) (l : list A) :
  List.filter (fun x => f x && g x) l = List.filter g (List.filter f l).
Proof.
  induction l as [|x l IH]; simpl; [reflexivity|].
  destruct (f x); simpl; [destruct (g x)|]; rewrite IH; reflexivity.
Qed.

(** In a list of distinct tags, the tag at a position is not the tag of a
    pair in front of it, nor of one behind it. *)
Lemma NoDup_tag_before (l : list ShadowViewNodePair) (i : nat) x y :
  NoDup (map pairTag l) -> l !! i = Some x -> In y (take i l) ->
  pairTag y <> pairTag x.
Proof.
  intros Hnd Hx Hy Heq.
  apply (NoDup_take_lookup pairTag l Hnd i x Hx).
  rewrite <- Heq. apply in_map, Hy.
Qed.

Lemma NoDup_tag_behind (l : list ShadowViewNodePair) (i : nat) x y :
  NoDup (map pairTag l) -> l !! i = Some x -> In y (drop (S i) l) ->
  pairTag y <> pairTag x.
Proof.
  intros Hnd Hx Hy Heq.
  rewrite <- (take_drop i l), (drop_S _ _ _ Hx) in Hnd.
  rewrite map_app in Hnd. apply NoDup_app in Hnd as (_ & _ & Hnd).
  simpl in Hnd. apply NoDup_cons in Hnd as [Hnotin _].
  apply Hnotin. rewrite <- Heq. apply list_elem_of_In, in_map, Hy.
Qed.

Lemma NoDup_tag_across (l : list ShadowViewNodePair) (i : nat) x y :
  NoDup (map pairTag l) -> In x (take i l) -> In y (drop i l) ->
  pairTag x <> pairTag y.
Proof.
  intros Hnd Hx Hy Heq.
  rewrite <- (take_drop i l), map_app in Hnd.
  apply NoDup_app in Hnd as (_ & Hsep & _).
  apply (Hsep (pairTag x)).
  - apply list_elem_of_In, in_map, Hx.
  - rewrite Heq. apply list_elem_of_In, in_map, Hy.
Qed.

Lemma take_drop_snoc {A : Type} (l : list A) (k i : nat) x :
  (k <= i)%nat -> l !! i = Some x ->
  drop k (take (S i) l) = drop k (take i l) ++ [x].
Proof.
  intros Hk Hx. pose proof (lookup_lt_Some _ _ _ Hx) as Hlt.
  rewrite (take_S_r _ _ _ Hx), drop_app_le; [reflexivity|].
  rewrite length_take. lia.
Qed.

(** Taking an entry out of a list of entries with distinct keys is filtering
    by its key. *)
Lemma filter_out_entry (L : list ShadowViewNodePair)
    (before after : list (TinyMap.Pair ShadowViewNodePair))
    (p : TinyMap.Pair ShadowViewNodePair) :
  NoDup (map pairTag L) ->
  map entryOf L = before ++ p :: after ->
  map entryOf
    (List.filter (fun x => negb (fst p =? pairTag x)) L)
  = before ++ after.
Proof.
  revert before. induction L as [|x L IH]; intros before Hnd Hmap.
  - destruct before; discriminate.
  - simpl in Hnd. apply NoDup_cons in Hnd as [Hx Hnd].
    destruct before as [|q before]; simpl in Hmap.
    + injection Hmap as <- <-. simpl. rewrite Z.eqb_refl. simpl.
      rewrite filter_all; [reflexivity|].
      intros y Hy. apply negb_true_iff, Z.eqb_neq. intros Heq.
      apply Hx. rewrite Heq. apply list_elem_of_In, in_map, Hy.
    + injection Hmap as <- Hmap. simpl.
      assert (Hne : fst p <> pairTag x).
      { intros Heq. apply Hx. rewrite <- Heq.
        assert (Hin : In p (map entryOf L))
          by (rewrite Hmap; apply in_or_app; right; left; reflexivity).
        apply in_map_iff in Hin as (y & <- & Hy).
        apply list_elem_of_In.
        change (In (pairTag y) (map pairTag L)). apply in_map, Hy. }
      apply Z.eqb_neq in Hne. rewrite Hne. simpl.
      rewrite (IH before Hnd Hmap). reflexivity.
Qed.

Lemma insert_Ok {V : Type} (pair : TinyMap.Pair V) (m m' : TinyMap.t V) :
  TinyMap.invariant m -> TinyMap.insert pair m = Ok m' ->
  TinyMap.invariant m' /\ liveEntries m' = liveEntries m ++ [pair].
Proof.
  intros Hinv H.
  assert (Hkey : fst pair <> 0).
  { unfold TinyMap.insert in H. destruct (Z.eqb_spec (fst pair) 0);
      [discriminate|assumption]. }
  destruct (insert_succeeds pair m Hkey) as (m1 & Hins & Hlive).
  rewrite H in Hins. injection Hins as <-.
  split; [exact (insert_invariant _ _ _ Hinv H Hkey)|exact Hlive].
Qed.

Lemma find_Ok {V : Type} key (m : TinyMap.t V) it m' :
  TinyMap.invariant m -> TinyMap.find key m = Ok (it, m') ->
  key <> 0
  /\ TinyMap.invariant m'
  /\ liveEntries m' = liveEntries m
  /\ (if TinyMap.ptr_eqb it (TinyMap.end_ m')
      then ~ In key (liveKeys m)
      else In key (liveKeys m)).
Proof.
  intros Hinv H.
  assert (Hkey : key <> 0).
  { unfold TinyMap.find in H. destruct (Z.eqb_spec key 0);
      [discriminate|assumption]. }
  destruct (find_keys key m Hinv Hkey)
    as (it1 & m1 & Hfind & Hinv1 & Hlive & Hcase).
  rewrite H in Hfind. injection Hfind as <- <-.
  split; [exact Hkey|]. split; [exact Hinv1|]. split; [exact Hlive|].
  destruct (TinyMap.ptr_eqb it (TinyMap.end_ m')); [exact Hcase|].
  exact (proj1 Hcase).
Qed.

Lemma erase_Ok {V : Type} key (m : TinyMap.t V) it m1 m2 :
  TinyMap.invariant m ->
  TinyMap.find key m = Ok (it, m1) ->
  TinyMap.ptr_eqb it (TinyMap.end_ m1) = false ->
  TinyMap.erase it m1 = Ok m2 ->
  TinyMap.invariant m2
  /\ exists p before after,
       fst p = key
       /\ liveEntries m = before ++ p :: after
       /\ liveEntries m2 = before ++ after.
Proof.
  intros Hinv Hfind Hfound Herase.
  destruct (find_Ok key m it m1 Hinv Hfind) as (Hkey & _).
  destruct (erase_found key m it m1 Hinv Hkey Hfind Hfound)
    as (m3 & p & before & after & He & Hinv3 & Hp & Hm & Hm3).
  rewrite Herase in He. injection He as <-.
  split; [exact Hinv3|]. exists p, before, after. auto.
Qed.

Lemma deleteMutations_update p old new i b :
  deleteMutations (updateIfDifferent p old new i b) = deleteMutations b.
Proof. unfold updateIfDifferent. destruct (negb _); reflexivity. Qed.

Lemma createMutations_update p old new i b :
  createMutations (updateIfDifferent p old new i b) = createMutations b.
Proof. unfold updateIfDifferent. destruct (negb _); reflexivity. Qed.

Section Exact.
Variable ANDROID : bool.
Variable recurse : Differ.
Variable parent : ShadowView.
Variables olds news : list ShadowViewNodePair.
Variable k : nat.
Hypothesis recurse_keeps :
  forall l m p os ns l' m',
    enabled_ m = false -> recurse l m p os ns = Ok (l', m') -> m' = m.
Hypothesis olds_distinct : NoDup (map pairTag olds).
Hypothesis news_distinct : NoDup (map pairTag news).
Hypothesis stage1_tags :
  map pairTag (take k olds) = map pairTag (take k news).

Local Abbreviation einv := (exact_inv k olds news).

Lemma updateSubtrees_keeps b meta p oldGrand newGrand b' meta' :
  enabled_ meta = false ->
  updateSubtrees recurse b meta p oldGrand newGrand = Ok (b', meta') ->
  meta' = meta.
Proof.
  unfold updateSubtrees. intros Hen H.
  destruct (negb _); apply bind_Ok in H as ([l m] & Hr & H);
    injection H as <- <-; exact (recurse_keeps _ _ _ _ _ _ _ Hen Hr).
Qed.

(** The new pairs between [k] and the new cursor. *)
Lemma between_news (ni : nat) x :
  In x (drop k (take ni news)) -> In x (take ni news).
Proof.
  intros H. apply list_elem_of_In.
  eapply elem_of_sublist; [apply list_elem_of_In, H|apply sublist_drop].
Qed.

Lemma inserted_distinct (oi ni : nat) :
  NoDup
    (map pairTag
       (List.filter (goneFrom (take oi olds)) (drop k (take ni news)))).
Proof.
  apply (sublist_NoDup _ (map pairTag news) news_distinct).
  apply map_sublist.
  etrans; [apply filter_sublist|].
  etrans; [apply sublist_drop|apply sublist_take].
Qed.

Lemma walkInsert_exact st st' :
  walkInsert parent news st = Ok st' -> einv st -> einv st'.
Proof.
  unfold walkInsert.
  intros H (Hoi & Hni & Hen & Hrem & Hins & Hd & Hc & Hlive & Hj & Hk2).
  destruct (news !! newIndex st) as [n|] eqn:Hn; [|discriminate].
  pose proof (lookup_lt_Some _ _ _ Hn) as Hnlt.
  apply bind_Ok in H as (ins & Hinsert & H). injection H as <-.
  destruct (insert_Ok _ _ _ Hins Hinsert) as [Hins' Hlive'].
  rewrite (drop_S _ _ _ Hn) in Hj, Hk2.
  apply Forall_cons in Hj as [_ Hj]. apply Forall_cons in Hk2 as [Hn2 Hk2].
  unfold exact_inv. simpl.
  split; [exact Hoi|]. split; [lia|].
  split; [rewrite markInserted_disabled by exact Hen; exact Hen|].
  split; [exact Hrem|]. split; [exact Hins'|].
  split; [exact Hd|]. split; [exact Hc|].
  split; [|split; assumption].
  rewrite Hlive', Hlive, (take_drop_snoc _ _ _ _ (proj1 Hni) Hn).
  rewrite List.filter_app, map_app. simpl. rewrite Hn2. reflexivity.
Qed.

Lemma walkMatched_exact index o n st st' :
  olds !! oldIndex st = Some o -> news !! newIndex st = Some n ->
  pairTag n = pairTag o ->
  walkMatched ANDROID recurse parent index o n st = Ok st' ->
  einv st -> einv st'.
Proof.
  unfold walkMatched.
  intros Ho Hn Htag H
    (Hoi & Hni & Hen & Hrem & Hins & Hd & Hc & Hlive & Hj & Hk2).
  pose proof (lookup_lt_Some _ _ _ Ho) as Holt.
  pose proof (lookup_lt_Some _ _ _ Hn) as Hnlt.
  apply bind_Ok in H as ([it rem] & Hfind & H).
  apply bind_Ok in H as (rem' & Herase & H).
  apply bind_Ok in H as ([b m] & Hsub & H).
  injection H as <-.
  pose proof (updateSubtrees_keeps _ _ _ _ _ _ _ Hen Hsub) as ->.
  apply updateSubtrees_own in Hsub as (Hcb & Hdb & _ & _ & _).
  destruct (find_Ok _ _ _ _ Hrem Hfind) as (Hkey & Hinvr & Hliver & Hcase).
  assert (Hrem' : TinyMap.invariant rem'
                  /\ forall t, In t (liveKeys (newRemainingPairs st)) ->
                               t = pairTag o \/ In t (liveKeys rem')).
  { destruct (TinyMap.ptr_eqb it (TinyMap.end_ rem)) eqn:Hend;
      simpl in Herase.
    - injection Herase as <-. split; [exact Hinvr|].
      intros t Ht. right. unfold liveKeys. rewrite Hliver. exact Ht.
    - destruct (erase_Ok _ _ _ _ _ Hrem Hfind Hend Herase)
        as (Hinv2 & p & before & after & Hp & Hm & Hm2).
      split; [exact Hinv2|]. intros t Ht. unfold liveKeys in *.
      rewrite Hm in Ht. rewrite Hm2. rewrite map_app in *. simpl in Ht.
      apply in_app_or in Ht as [Ht|[Ht|Ht]].
      + right. apply in_or_app. left. exact Ht.
      + left. rewrite <- Ht. exact Hp.
      + right. apply in_or_app. right. exact Ht. }
  destruct Hrem' as [Hinvr' Hsup].
  rewrite (drop_S _ _ _ Hn) in Hj, Hk2.
  apply Forall_cons in Hj as [_ Hj]. apply Forall_cons in Hk2 as [_ Hk2].
  assert (Hbehind : forall x, In x (drop (S (newIndex st)) news) ->
                              pairTag x <> pairTag o).
  { intros x Hx. rewrite <- Htag.
    exact (NoDup_tag_behind news _ n x news_distinct Hn Hx). }
  unfold exact_inv. simpl.
  split; [lia|]. split; [lia|]. split; [exact Hen|].
  split; [exact Hinvr'|]. split; [exact Hins|].
  split; [|split; [|split; [|split]]].
  - rewrite Hdb, deleteMutations_update.
    rewrite Hd, (take_S_r _ _ _ Ho), List.filter_app. simpl.
    assert (Hhere : goneFrom news o = false).
    { unfold goneFrom. apply negb_false_iff, hasTag_In.
      rewrite <- Htag. apply in_map.
      apply list_elem_of_In. eapply list_elem_of_lookup_2, Hn. }
    rewrite Hhere, app_nil_r. reflexivity.
  - rewrite Hcb, createMutations_update. exact Hc.
  - rewrite Hlive, (take_drop_snoc _ _ _ _ (proj1 Hni) Hn).
    rewrite (take_S_r _ _ _ Ho), List.filter_app. simpl.
    rewrite goneFrom_snoc, Htag, Z.eqb_refl, andb_false_r, app_nil_r.
    f_equal. apply List.filter_ext_in. intros x Hx.
    rewrite goneFrom_snoc.
    assert (Hne : pairTag o <> pairTag x).
    { intros Heq. apply (NoDup_tag_before news _ n x news_distinct Hn).
      - apply between_news, Hx.
      - congruence. }
    apply Z.eqb_neq in Hne. rewrite Hne, andb_true_r. reflexivity.
  - apply Forall_forall. intros x Hx. rewrite Forall_forall in Hj.
    pose proof (Hbehind x (proj1 (list_elem_of_In _ _) Hx)) as Hne.
    destruct (Hsup _ (Hj x Hx)) as [Heq|Hin]; [contradiction|exact Hin].
  - rewrite (take_S_r _ _ _ Ho).
    apply Forall_forall. intros x Hx. rewrite Forall_forall in Hk2.
    pose proof (Hbehind x (proj1 (list_elem_of_In _ _) Hx)) as Hne.
    rewrite goneFrom_snoc, (Hk2 x Hx). simpl.
    apply negb_true_iff, Z.eqb_neq. congruence.
Qed.

Lemma walkRemoveInserted_exact index o it inserted st st' :
  olds !! oldIndex st = Some o ->
  TinyMap.find (tag (shadowView o)) (newInsertedPairs st)
  = Ok (it, inserted) ->
  TinyMap.ptr_eqb it (TinyMap.end_ inserted) = false ->
  walkRemoveInserted ANDROID recurse parent index o it inserted st = Ok st' ->
  einv st -> einv st'.
Proof.
  unfold walkRemoveInserted.
  intros Ho Hfind Hfound H
    (Hoi & Hni & Hen & Hrem & Hins & Hd & Hc & Hlive & Hj & Hk2).
  pose proof (lookup_lt_Some _ _ _ Ho) as Holt.
  destruct (TinyMap.deref it inserted) as [[key n]|]; [|discriminate].
  apply bind_Ok in H as ([b m] & Hsub & H).
  apply bind_Ok in H as (ins & Herase & H).
  injection H as <-.
  pose proof (updateSubtrees_keeps _ _ _ _ _ _ _ Hen Hsub) as ->.
  apply updateSubtrees_own in Hsub as (Hcb & Hdb & _ & _ & _).
  destruct (erase_Ok _ _ _ _ _ Hins Hfind Hfound Herase)
    as (Hinv2 & p & before & after & Hp & Hm & Hm2).
  set (L := List.filter (goneFrom (take (oldIndex st) olds))
              (drop k (take (newIndex st) news))) in *.
  assert (Hx : exists x, In x L /\ pairTag x = pairTag o).
  { assert (Hin : In p (map entryOf L))
      by (rewrite <- Hlive, Hm; apply in_or_app; right; left; reflexivity).
    apply in_map_iff in Hin as (x & <- & Hx). exists x. auto. }
  destruct Hx as (x & HxL & Hxtag).
  assert (Hxnews : In x (take (newIndex st) news)).
  { apply between_news. apply List.filter_In in HxL as [HxL _]. exact HxL. }
  unfold exact_inv. simpl.
  split; [lia|]. split; [exact Hni|]. split; [exact Hen|].
  split; [exact Hrem|]. split; [exact Hinv2|].
  split; [|split; [|split; [|split]]].
  - rewrite Hdb, deleteMutations_update. simpl.
    rewrite Hd, (take_S_r _ _ _ Ho), List.filter_app. simpl.
    assert (Hhere : goneFrom news o = false).
    { unfold goneFrom. apply negb_false_iff, hasTag_In.
      rewrite <- Hxtag. apply in_map.
      apply list_elem_of_In. eapply elem_of_sublist;
        [apply list_elem_of_In, Hxnews|apply sublist_take]. }
    rewrite Hhere, app_nil_r. reflexivity.
  - rewrite Hcb, createMutations_update. exact Hc.
  - rewrite Hm2, (take_S_r _ _ _ Ho).
    rewrite (List.filter_ext _ (fun y => goneFrom (take (oldIndex st) olds) y
                                    && negb (fst p =? pairTag y)))
      by (intros y; rewrite goneFrom_snoc, Hp; reflexivity).
    rewrite filter_and. fold L. symmetry.
    apply filter_out_entry; [apply inserted_distinct|].
    rewrite <- Hlive. exact Hm.
  - exact Hj.
  - rewrite (take_S_r _ _ _ Ho).
    apply Forall_forall. intros y Hy. rewrite Forall_forall in Hk2.
    pose proof (NoDup_tag_across news _ x y news_distinct Hxnews
                  (proj1 (list_elem_of_In _ _) Hy)) as Hne.
    rewrite goneFrom_snoc, (Hk2 y Hy). simpl.
    apply negb_true_iff, Z.eqb_neq. congruence.
Qed.

Lemma walkRemoveGone_exact o st st' :
  olds !! oldIndex st = Some o ->
  ~ In (pairTag o) (liveKeys (newInsertedPairs st)) ->
  ~ In (pairTag o) (liveKeys (newRemainingPairs st)) ->
  walkRemoveGone ANDROID recurse parent o st = Ok st' ->
  einv st -> einv st'.
Proof.
  unfold walkRemoveGone.
  intros Ho Hnotins Hnotrem H
    (Hoi & Hni & Hen & Hrem & Hins & Hd & Hc & Hlive & Hj & Hk2).
  pose proof (lookup_lt_Some _ _ _ Ho) as Holt.
  rewrite shouldRemoveDeleteUpdate_disabled in H by exact Hen.
  simpl in H. apply bind_Ok in H as ([l m2] & Hr & H).
  injection H as <-.
  pose proof (recurse_keeps _ _ _ _ _ _ _ Hen Hr) as ->.
  assert (Hold : hasTag (pairTag o) (take (oldIndex st) olds) = false).
  { apply hasTag_false. exact (NoDup_take_lookup pairTag olds olds_distinct
                                 _ _ Ho). }
  assert (Hbetween : forall x, In x (drop k (take (newIndex st) news)) ->
                               pairTag x <> pairTag o).
  { intros x Hx Heq. apply Hnotins. unfold liveKeys. rewrite Hlive.
    rewrite map_map. simpl. rewrite <- Heq. apply in_map.
    apply List.filter_In. split; [exact Hx|].
    unfold goneFrom. rewrite Heq, Hold. reflexivity. }
  assert (Hbehind : forall x, In x (drop (newIndex st) news) ->
                              pairTag x <> pairTag o).
  { intros x Hx Heq. apply Hnotrem. rewrite <- Heq.
    rewrite Forall_forall in Hj. apply Hj, list_elem_of_In, Hx. }
  assert (Hgone : goneFrom news o = true).
  { unfold goneFrom. apply negb_true_iff, hasTag_false. intros Hin.
    apply in_map_iff in Hin as (x & Heq & Hx).
    rewrite <- (take_drop (newIndex st) news) in Hx.
    apply in_app_or in Hx as [Hx|Hx]; [|exact (Hbehind x Hx Heq)].
    rewrite <- (take_drop k (take (newIndex st) news)) in Hx.
    apply in_app_or in Hx as [Hx|Hx]; [|exact (Hbetween x Hx Heq)].
    rewrite take_take, Nat.min_l in Hx by lia.
    apply hasTag_false in Hold. apply Hold.
    assert (Hin : In (pairTag o) (map pairTag (take k olds))).
    { rewrite stage1_tags, <- Heq. apply in_map, Hx. }
    apply in_map_iff in Hin as (y & Hy & Hin).
    rewrite <- Hy. apply in_map.
    apply list_elem_of_In.
    apply (elem_of_sublist (take k (take (oldIndex st) olds)));
      [|apply sublist_take].
    rewrite take_take, Nat.min_l by lia. apply list_elem_of_In, Hin. }
  unfold exact_inv. simpl.
  split; [lia|]. split; [exact Hni|]. split; [exact Hen|].
  split; [exact Hrem|]. split; [exact Hins|].
  split; [|split; [|split; [|split]]].
  - rewrite Hd, (take_S_r _ _ _ Ho), List.filter_app, map_app. simpl.
    rewrite Hgone. reflexivity.
  - exact Hc.
  - rewrite Hlive, (take_S_r _ _ _ Ho). f_equal.
    apply List.filter_ext_in. intros x Hx. rewrite goneFrom_snoc.
    pose proof (Hbetween x Hx) as Hne.
    replace (pairTag o =? pairTag x) with false
      by (symmetry; apply Z.eqb_neq; congruence).
    rewrite andb_true_r. reflexivity.
  - exact Hj.
  - rewrite (take_S_r _ _ _ Ho).
    apply Forall_forall. intros y Hy. rewrite Forall_forall in Hk2.
    pose proof (Hbehind y (proj1 (list_elem_of_In _ _) Hy)) as Hne.
    rewrite goneFrom_snoc, (Hk2 y Hy). simpl.
    apply negb_true_iff, Z.eqb_neq. congruence.
Qed.

Lemma walkOld_exact index o st st' :
  olds !! oldIndex st = Some o ->
  ('(insertedIt, inserted) ←
     TinyMap.find (tag (shadowView o)) (newInsertedPairs st);
   if negb (TinyMap.ptr_eqb insertedIt (TinyMap.end_ inserted))
   then
     walkRemoveInserted ANDROID recurse parent index o insertedIt inserted st
   else
     '(newIt, remaining) ←
       TinyMap.find (tag (shadowView o)) (newRemainingPairs st);
     if TinyMap.ptr_eqb newIt (TinyMap.end_ remaining)
     then
       walkRemoveGone ANDROID recurse parent o
         (mkWalkState (walk_buckets st) (walk_meta st) remaining inserted
            (oldIndex st) (newIndex st))
     else
       walkInsert parent news
         (mkWalkState (walk_buckets st) (walk_meta st) remaining inserted
            (oldIndex st) (newIndex st)))
  = Ok st' ->
  einv st -> einv st'.
Proof.
  intros Ho H Hinv.
  pose proof Hinv
    as (Hoi & Hni & Hen & Hrem & Hins & Hd & Hc & Hlive & Hj & Hk2).
  apply bind_Ok in H as ([it ins] & Hfind & H).
  destruct (find_Ok _ _ _ _ Hins Hfind) as (Hkey & Hinvi & Hlivei & Hcasei).
  destruct (TinyMap.ptr_eqb it (TinyMap.end_ ins)) eqn:Hend; simpl in H.
  2: { eapply walkRemoveInserted_exact; eassumption. }
  apply bind_Ok in H as ([nit rem] & Hfindr & H).
  destruct (find_Ok _ _ _ _ Hrem Hfindr) as (_ & Hinvr & Hliver & Hcaser).
  set (st2 := mkWalkState (walk_buckets st) (walk_meta st) rem ins
                (oldIndex st) (newIndex st)) in *.
  assert (Hinv2 : einv st2).
  { unfold exact_inv, st2, liveKeys. simpl. rewrite Hliver, Hlivei.
    repeat (split; [assumption|]). assumption. }
  destruct (TinyMap.ptr_eqb nit (TinyMap.end_ rem)).
  - eapply (walkRemoveGone_exact o st2); [exact Ho| | |exact H|exact Hinv2];
      unfold st2, liveKeys; simpl; [rewrite Hlivei|rewrite Hliver];
      assumption.
  - eapply walkInsert_exact; [exact H|exact Hinv2].
Qed.

Lemma walkStep_exact index st st' :
  walkStep ANDROID recurse parent index olds news st = Ok st' ->
  einv st -> einv st'.
Proof.
  unfold walkStep. intros H Hinv.
  destruct (Nat.ltb_spec (newIndex st) (length news)) as [Hnlt|Hnge];
    destruct (Nat.ltb_spec (oldIndex st) (length olds)) as [Holt|Hoge];
    cbn [andb] in H.
  - destruct (news !! newIndex st) as [n|] eqn:Hn;
      [|apply lookup_ge_None in Hn; lia].
    destruct (olds !! oldIndex st) as [o|] eqn:Ho;
      [|apply lookup_ge_None in Ho; lia].
    destruct (Z.eqb_spec (tag (shadowView n)) (tag (shadowView o)))
      as [Heq|Hne].
    + eapply walkMatched_exact; [exact Ho|exact Hn|exact Heq|exact H|
                                 exact Hinv].
    + eapply walkOld_exact; [exact Ho|exact H|exact Hinv].
  - eapply walkInsert_exact; [exact H|exact Hinv].
  - destruct (olds !! oldIndex st) as [o|] eqn:Ho;
      [|apply lookup_ge_None in Ho; lia].
    eapply walkOld_exact; [exact Ho|exact H|exact Hinv].
  - eapply walkInsert_exact; [exact H|exact Hinv].
Qed.

Lemma walk_exact index :
  forall fuel st st',
    walk ANDROID recurse fuel parent index olds news st = Ok st' ->
    einv st ->
    einv st' /\ oldIndex st' = length olds /\ newIndex st' = length news.
Proof.
  assert (Hexit : forall st,
            (newIndex st <? length news)%nat
            || (oldIndex st <? length olds)%nat = false ->
            einv st ->
            einv st /\ oldIndex st = length olds
            /\ newIndex st = length news).
  { intros st Hcond Hinv. apply orb_false_iff in Hcond as [Hn Ho].
    apply Nat.ltb_ge in Hn, Ho. pose proof Hinv as (Hoi & Hni & _).
    split; [exact Hinv|]. lia. }
  induction fuel as [|fuel IH]; intros st st' H Hinv; simpl in H;
    destruct ((newIndex st <? length news)%nat
              || (oldIndex st <? length olds)%nat) eqn:Hcond.
  - discriminate.
  - injection H as <-. apply Hexit; assumption.
  - apply bind_Ok in H as (st1 & Hstep & H).
    eapply IH; [exact H|].
    eapply walkStep_exact; [exact Hstep|exact Hinv].
  - injection H as <-. apply Hexit; assumption.
Qed.

Lemma createInserted_exact meta :
  enabled_ meta = false ->
  forall entries b b' meta',
    Forall (fun entry => fst entry <> 0) entries ->
    createInserted ANDROID recurse parent entries b meta = Ok (b', meta') ->
    createMutations b'
    = createMutations b
      ++ map (fun entry => CreateMutation (shadowView (snd entry))) entries
    /\ deleteMutations b' = deleteMutations b
    /\ updateMutations b' = updateMutations b.
Proof.
  intros Hen. induction entries as [|[key n] entries IH];
    intros b b' meta' Hkeys H.
  - simpl in H. injection H as <- <-. rewrite app_nil_r. auto.
  - apply Forall_cons in Hkeys as [Hkey Hkeys]. simpl in Hkey, H.
    apply Z.eqb_neq in Hkey. rewrite Hkey in H.
    rewrite shouldCreateUpdate_disabled in H by exact Hen.
    simpl in H. apply bind_Ok in H as ([l m2] & Hr & H).
    pose proof (recurse_keeps _ _ _ _ _ _ _ Hen Hr) as ->.
    destruct (IH _ _ _ Hkeys H) as (Hc & Hd & Hu).
    rewrite Hc, Hd, Hu. simpl. rewrite <- app_assoc. auto.
Qed.

Lemma collectRemaining_keys :
  forall pairs remaining remaining',
    TinyMap.invariant remaining ->
    collectRemaining pairs remaining = Ok remaining' ->
    TinyMap.invariant remaining'
    /\ liveKeys remaining' = liveKeys remaining ++ map pairTag pairs.
Proof.
  induction pairs as [|n pairs IH]; intros remaining remaining' Hinv H;
    simpl in H.
  - injection H as <-. rewrite app_nil_r. auto.
  - apply bind_Ok in H as (m1 & Hins & H).
    destruct (insert_Ok _ _ _ Hinv Hins) as [Hinv1 Hlive1].
    destruct (IH _ _ Hinv1 H) as [Hinv' Hkeys].
    split; [exact Hinv'|]. rewrite Hkeys. unfold liveKeys.
    rewrite Hlive1, map_app, <- app_assoc. reflexivity.
Qed.

Lemma liveEntries_nonzero {V : Type} (m : TinyMap.t V) :
  Forall (fun entry => fst entry <> 0) (liveEntries m).
Proof.
  apply Forall_forall. intros e He. apply list_elem_of_In in He.
  unfold liveEntries in He. apply List.filter_In in He as [_ He].
  unfold TinyMap.isErased in He. apply negb_true_iff, Z.eqb_neq in He.
  exact He.
Qed.

Lemma exact_init b meta remaining :
  enabled_ meta = false ->
  (k <= length olds)%nat -> (k <= length news)%nat ->
  deleteMutations b = [] -> createMutations b = [] ->
  collectRemaining (drop k news) TinyMap.empty = Ok remaining ->
  einv (mkWalkState b meta remaining TinyMap.empty k k).
Proof.
  intros Hen Hko Hkn Hd Hc Hcollect.
  destruct (collectRemaining_keys _ _ _ invariant_empty Hcollect)
    as [Hinvr Hkeys].
  simpl in Hkeys.
  assert (Hprefix : List.filter (goneFrom news) (take k olds) = []).
  { apply filter_none. intros x Hx. unfold goneFrom.
    apply negb_false_iff, hasTag_In.
    assert (Hin : In (pairTag x) (map pairTag (take k news)))
      by (rewrite <- stage1_tags; apply in_map, Hx).
    apply in_map_iff in Hin as (y & Hy & Hin). rewrite <- Hy.
    apply in_map. apply list_elem_of_In.
    eapply elem_of_sublist; [apply list_elem_of_In, Hin|apply sublist_take]. }
  unfold exact_inv. simpl.
  split; [lia|]. split; [lia|]. split; [exact Hen|].
  split; [exact Hinvr|]. split; [exact invariant_empty|].
  split; [rewrite Hd, Hprefix; reflexivity|]. split; [exact Hc|].
  split; [|split].
  - rewrite drop_ge by (rewrite length_take; lia). reflexivity.
  - apply Forall_forall. intros x Hx. rewrite Hkeys.
    apply in_map, list_elem_of_In, Hx.
  - apply Forall_forall. intros x Hx.
    rewrite (goneFrom_tags _ _ x stage1_tags).
    unfold goneFrom. apply negb_true_iff, hasTag_false. intros Hin.
    apply in_map_iff in Hin as (y & Hy & Hin).
    exact (NoDup_tag_across news k y x news_distinct Hin
             (proj1 (list_elem_of_In _ _) Hx) Hy).
Qed.

Lemma walkLists_exact b meta b' meta' :
  enabled_ meta = false ->
  (k <= length olds)%nat -> (k <= length news)%nat ->
  deleteMutations b = [] -> createMutations b = [] ->
  walkLists ANDROID recurse parent k olds news b meta = Ok (b', meta') ->
  deleteMutations b'
  = map (fun pr => DeleteMutation (shadowView pr))
      (List.filter (goneFrom news) olds)
  /\ createMutations b'
     = map (fun pr => CreateMutation (shadowView pr))
         (List.filter (goneFrom olds) (drop k news)).
Proof.
  intros Hen Hko Hkn Hd Hc H. unfold walkLists in H.
  apply bind_Ok in H as (rem & Hcollect & H).
  apply bind_Ok in H as (st & Hwalk & H).
  pose proof (exact_init b meta rem Hen Hko Hkn Hd Hc Hcollect) as Hinit.
  destruct (walk_exact _ _ _ _ Hwalk Hinit)
    as ((_ & _ & Hen' & _ & Hins & Hd' & Hc' & Hlive & _) & Hoi & Hni).
  simpl in Hen'.
  pose proof (entriesFrom_begin _ Hins) as Hentries.
  destruct (TinyMap.begin (newInsertedPairs st)) as [first inserted].
  simpl in Hentries.
  assert (Hnz : Forall (fun entry => fst entry <> 0)
                  (entriesFrom first inserted))
    by (rewrite Hentries; apply liveEntries_nonzero).
  destruct (createInserted_exact _ Hen' _ _ _ _ Hnz H)
    as (Hcreate & Hdelete & _).
  rewrite Hdelete, Hd', Hcreate, Hc', Hentries, Hlive, Hoi, Hni.
  rewrite !firstn_all, map_map. simpl. auto.
Qed.

End Exact.

Lemma stage1_matched (ANDROID : bool) (recurse : Differ) parent :
  forall os ns index b meta index' b' meta',
    stage1 ANDROID recurse parent os ns index b meta = Ok (index', b', meta') ->
    exists j : nat,
      index' = (index + j)%nat
      /\ (j <= length os)%nat /\ (j <= length ns)%nat
      /\ map pairTag (take j os) = map pairTag (take j ns)
      /\ createMutations b' = createMutations b
      /\ deleteMutations b' = deleteMutations b.
Proof.
  induction os as [|o os IH]; intros ns index b meta index' b' meta' H.
  - simpl in H. injection H as <- <- <-. exists 0%nat. simpl.
    repeat split; lia.
  - destruct ns as [|n ns]; simpl in H.
    + injection H as <- <- <-. exists 0%nat. simpl. repeat split; lia.
    + destruct (Z.eqb_spec (tag (shadowView o)) (tag (shadowView n)))
        as [Htag|Hne]; simpl in H.
      2: { injection H as <- <- <-. exists 0%nat. simpl.
           repeat split; lia. }
      apply bind_Ok in H as ([b1 m1] & Hsub & H).
      apply updateSubtrees_own in Hsub as (Hc & Hd & _ & _ & _).
      destruct (IH _ _ _ _ _ _ _ H) as (j & -> & Hjo & Hjn & Htags & Hc' & Hd').
      exists (S j). simpl.
      rewrite Hc', Hd', Hc, Hd, createMutations_update,
        deleteMutations_update.
      repeat split; try lia. unfold pairTag at 1 3. rewrite Htag, Htags.
      reflexivity.
Qed.

Lemma prefix_not_gone (A B : list ShadowViewNodePair) (k : nat) :
  map pairTag (take k A) = map pairTag (take k B) ->
  List.filter (goneFrom B) (take k A) = [].
Proof.
  intros Htags. apply filter_none. intros x Hx. unfold goneFrom.
  apply negb_false_iff, hasTag_In.
  assert (Hin : In (pairTag x) (map pairTag (take k B)))
    by (rewrite <- Htags; apply in_map, Hx).
  apply in_map_iff in Hin as (y & Hy & Hin). rewrite <- Hy.
  apply in_map. apply list_elem_of_In.
  eapply elem_of_sublist; [apply list_elem_of_In, Hin|apply sublist_take].
Qed.

Lemma filter_gone_split (A B : list ShadowViewNodePair) (k : nat) :
  map pairTag (take k A) = map pairTag (take k B) ->
  List.filter (goneFrom B) A = List.filter (goneFrom B) (drop k A).
Proof.
  intros Htags. rewrite <- (take_drop k A) at 1.
  rewrite List.filter_app, (prefix_not_gone A B k Htags). reflexivity.
Qed.

Lemma suffix_gone (A B : list ShadowViewNodePair) (k : nat) :
  NoDup (map pairTag A) ->
  map pairTag (take k A) = map pairTag B ->
  List.filter (goneFrom B) (drop k A) = drop k A.
Proof.
  intros Hnd Htags. apply filter_all. intros x Hx. unfold goneFrom.
  apply negb_true_iff, hasTag_false. rewrite <- Htags. intros Hin.
  apply in_map_iff in Hin as (y & Hy & Hin).
  exact (NoDup_tag_across A k y x Hnd Hin Hx Hy).
Qed.

Lemma collectMutations_exact (ANDROID : bool) (recurse : Differ) meta parent
    olds news b meta' :
  framed recurse -> simulated recurse ->
  enabled_ meta = false ->
  NoDup (map pairTag olds) -> NoDup (map pairTag news) ->
  collectMutations ANDROID recurse meta parent olds news = Ok (b, meta') ->
  deleteMutations b
  = map (fun pr => DeleteMutation (shadowView pr))
      (List.filter (goneFrom (reorderInPlaceIfNeeded news))
         (reorderInPlaceIfNeeded olds))
  /\ createMutations b
     = map (fun pr => CreateMutation (shadowView pr))
         (List.filter (goneFrom (reorderInPlaceIfNeeded olds))
            (reorderInPlaceIfNeeded news)).
Proof.
  intros Hframed Hsim Hen Hndo Hndn. unfold collectMutations. intros H.
  assert (Hrec : forall l m p os ns l' m',
            enabled_ m = false -> recurse l m p os ns = Ok (l', m') ->
            m' = m).
  { intros l m p os ns l' m' Hm Hr.
    exact (proj1 (recurse_disabled _ Hframed Hsim _ _ _ _ _ _ _ Hm Hr)). }
  assert (Hndo' : NoDup (map pairTag (reorderInPlaceIfNeeded olds))).
  { eapply NoDup_Permutation_proper; [|exact Hndo].
    apply Permutation_map, reorder_perm. }
  assert (Hndn' : NoDup (map pairTag (reorderInPlaceIfNeeded news))).
  { eapply NoDup_Permutation_proper; [|exact Hndn].
    apply Permutation_map, reorder_perm. }
  set (olds' := reorderInPlaceIfNeeded olds) in *.
  set (news' := reorderInPlaceIfNeeded news) in *.
  apply bind_Ok in H as ([[index b1] m1] & Hs1 & H).
  pose proof (stage1_disabled ANDROID recurse parent meta Hen Hrec
                _ _ _ _ _ _ _ Hs1) as ->.
  destruct (stage1_matched _ _ _ _ _ _ _ _ _ _ _ Hs1)
    as (k & -> & Hko & Hkn & Htags & Hc1 & Hd1).
  simpl in H, Hc1, Hd1.
  destruct (Nat.eqb_spec k (length news')) as [Hnew|Hnew].
  { apply (removeRest_disabled ANDROID recurse Hframed Hsim parent meta Hen)
      in H as (_ & Hc & _ & _ & Hd & _).
    rewrite Hc, Hd, Hc1, Hd1. simpl.
    assert (Htags' : map pairTag (take k olds') = map pairTag news')
      by (rewrite Htags, Hnew, firstn_all; reflexivity).
    rewrite (filter_gone_split olds' news' k Htags).
    rewrite (suffix_gone olds' news' k Hndo' Htags').
    split; [reflexivity|].
    rewrite <- (firstn_all news'), <- Hnew.
    rewrite (prefix_not_gone news' olds' k (eq_sym Htags)). reflexivity. }
  destruct (Nat.eqb_spec k (length olds')) as [Hold|Hold].
  { apply (insertRest_disabled ANDROID recurse Hframed Hsim parent meta Hen)
      in H as (_ & Hd & _ & _ & Hc & _).
    rewrite Hc, Hd, Hc1, Hd1. simpl.
    assert (Htags' : map pairTag (take k news') = map pairTag olds')
      by (rewrite <- Htags, Hold, firstn_all; reflexivity).
    rewrite (filter_gone_split news' olds' k (eq_sym Htags)).
    rewrite (suffix_gone news' olds' k Hndn' Htags').
    split; [|reflexivity].
    rewrite <- (firstn_all olds'), <- Hold.
    rewrite (prefix_not_gone olds' news' k Htags). reflexivity. }
  destruct (walkLists_exact ANDROID recurse parent olds' news' k Hrec
              Hndo' Hndn' Htags b1 meta b meta' Hen Hko Hkn Hd1 Hc1 H)
    as [Hd Hc].
  split; [exact Hd|].
  rewrite Hc, (filter_gone_split news' olds' k (eq_sym Htags)). reflexivity.
Qed.

(** X23: with reparenting detection disabled, for child lists whose tags are
    pairwise distinct within each list, the Delete mutations of an activation
    are exactly those of the old pairs whose tag no new pair has, in the order
    of the reordered old list, and its Create mutations exactly those of the
    new pairs whose tag no old pair has, in the order of the reordered new
    list. *)
Theorem deletes_the_gone_creates_the_new (ANDROID : bool) (fuel : nat)
    (meta : ReparentingMetadata) (parent : ShadowView)
    (olds news : list ShadowViewNodePair) (b : Buckets)
    (meta' : ReparentingMetadata) :
  enabled_ meta = false ->
  NoDup (map pairTag olds) -> NoDup (map pairTag news) ->
  collectMutations ANDROID (calculateShadowViewMutations_rec ANDROID fuel)
    meta parent olds news = Ok (b, meta') ->
  deleteMutations b
  = map (fun pr => DeleteMutation (shadowView pr))
      (List.filter (goneFrom (reorderInPlaceIfNeeded news))
         (reorderInPlaceIfNeeded olds))
  /\ createMutations b
     = map (fun pr => CreateMutation (shadowView pr))
         (List.filter (goneFrom (reorderInPlaceIfNeeded olds))
            (reorderInPlaceIfNeeded news)).
Proof.
  apply collectMutations_exact; [apply rec_framed|apply rec_simulated].
Qed.

(** ** The differ: what is updated *)

Lemma updateMutations_update p old new i b :
  updateMutations (updateIfDifferent p old new i b)
  = updateMutations b
    ++ (if negb (ShadowView_eqb old new)
        then [UpdateMutation p old new i] else []).
Proof.
  unfold updateIfDifferent. destruct (negb _); simpl;
    [reflexivity|rewrite app_nil_r; reflexivity].
Qed.

Lemma flat_map_none {A B : Type} (f : A -> list B) (l : list A) :
  (forall x, In x l -> f x = []) -> flat_map f l = [].
Proof.
  induction l as [|x l IH]; intros H; simpl; [reflexivity|].
  rewrite (H x (or_introl eq_refl)), IH; [reflexivity|].
  intros y Hy. apply H. right. exact Hy.
Qed.

Lemma partner_unique (pairs : list ShadowViewNodePair) n o :
  NoDup (map pairTag pairs) -> In n pairs -> pairTag n = pairTag o ->
  partner pairs o = Some n.
Proof.
  unfold partner. induction pairs as [|x pairs IH]; intros Hnd Hin Htag;
    [contradiction|].
  simpl in Hnd. apply NoDup_cons in Hnd as [Hx Hnd]. simpl.
  destruct Hin as [->|Hin].
  - rewrite Htag, Z.eqb_refl. reflexivity.
  - destruct (Z.eqb_spec (pairTag x) (pairTag o)) as [Heq|Hne];
      [|exact (IH Hnd Hin Htag)].
    exfalso. apply Hx. rewrite Heq, <- Htag.
    apply list_elem_of_In, in_map, Hin.
Qed.

Lemma partner_gone (pairs : list ShadowViewNodePair) o :
  goneFrom pairs o = true -> partner pairs o = None.
Proof.
  unfold goneFrom, hasTag, partner. intros H.
  apply negb_true_iff in H.
  induction pairs as [|x pairs IH]; simpl in *; [reflexivity|].
  apply orb_false_iff in H as [Hx H]. rewrite Hx. exact (IH H).
Qed.

Lemma find_entry {V : Type} key (m : TinyMap.t V) it m' :
  TinyMap.invariant m -> TinyMap.find key m = Ok (it, m') ->
  TinyMap.ptr_eqb it (TinyMap.end_ m') = false ->
  exists p, TinyMap.deref it m' = Some p /\ In p (liveEntries m).
Proof.
  intros Hinv H Hfound.
  destruct (find_Ok key m it m' Hinv H) as (Hkey & _).
  destruct (find_first_live key m Hinv Hkey)
    as (it1 & m1 & Hfind & _ & _ & Hcase).
  rewrite H in Hfind. injection Hfind as <- <-.
  destruct (firstWithKey key m) as [p|] eqn:Hfirst.
  - destruct Hcase as [Hderef _]. exists p. split; [exact Hderef|].
    unfold firstWithKey in Hfirst. apply find_some in Hfirst as [Hin _].
    exact Hin.
  - subst it. rewrite ptr_eqb_refl in Hfound. discriminate.
Qed.

Section Updates.
Variable ANDROID : bool.
Variable recurse : Differ.
Variable parent : ShadowView.
Variables olds news : list ShadowViewNodePair.
Variable k : nat.
Variable index : nat.
Variable updates0 : list ShadowViewMutation.
Hypothesis olds_distinct : NoDup (map pairTag olds).
Hypothesis news_distinct : NoDup (map pairTag news).
Hypothesis stage1_tags :
  map pairTag (take k olds) = map pairTag (take k news).

Local Abbreviation einv := (exact_inv k olds news).
Local Abbreviation uinv := (updates_inv parent k index updates0 olds news).

Lemma absent_is_gone o st :
  olds !! oldIndex st = Some o ->
  ~ In (pairTag o) (liveKeys (newInsertedPairs st)) ->
  ~ In (pairTag o) (liveKeys (newRemainingPairs st)) ->
  einv st -> goneFrom news o = true.
Proof.
  intros Ho Hnotins Hnotrem
    (Hoi & Hni & Hen & Hrem & Hins & Hd & Hc & Hlive & Hj & Hk2).
  assert (Hold : hasTag (pairTag o) (take (oldIndex st) olds) = false).
  { apply hasTag_false. exact (NoDup_take_lookup pairTag olds olds_distinct
                                 _ _ Ho). }
  unfold goneFrom. apply negb_true_iff, hasTag_false. intros Hin.
  apply in_map_iff in Hin as (x & Heq & Hx).
  rewrite <- (take_drop (newIndex st) news) in Hx.
  apply in_app_or in Hx as [Hx|Hx].
  2: { apply Hnotrem. rewrite <- Heq.
       rewrite Forall_forall in Hj. apply Hj, list_elem_of_In, Hx. }
  rewrite <- (take_drop k (take (newIndex st) news)) in Hx.
  apply in_app_or in Hx as [Hx|Hx].
  2: { apply Hnotins. unfold liveKeys. rewrite Hlive.
       rewrite map_map. simpl. rewrite <- Heq. apply in_map.
       apply List.filter_In. split; [exact Hx|].
       unfold goneFrom. rewrite Heq, Hold. reflexivity. }
  rewrite take_take, Nat.min_l in Hx by lia.
  apply hasTag_false in Hold. apply Hold.
  assert (Hin : In (pairTag o) (map pairTag (take k olds))).
  { rewrite stage1_tags, <- Heq. apply in_map, Hx. }
  apply in_map_iff in Hin as (y & Hy & Hin).
  rewrite <- Hy. apply in_map.
  apply list_elem_of_In.
  apply (elem_of_sublist (take k (take (oldIndex st) olds)));
    [|apply sublist_take].
  rewrite take_take, Nat.min_l by lia. apply list_elem_of_In, Hin.
Qed.

Lemma uinv_advance o (st st' : WalkState) :
  olds !! oldIndex st = Some o ->
  oldIndex st' = S (oldIndex st) ->
  (k <= oldIndex st)%nat ->
  updateMutations (walk_buckets st')
  = updateMutations (walk_buckets st)
    ++ updateFor parent news (Z.of_nat index) o ->
  uinv st -> uinv st'.
Proof.
  unfold updates_inv. intros Ho -> Hk -> ->.
  rewrite (take_drop_snoc _ _ _ _ Hk Ho), flat_map_app. simpl.
  rewrite app_nil_r, <- app_assoc. reflexivity.
Qed.

Lemma walkInsert_updates st st' :
  walkInsert parent news st = Ok st' -> uinv st -> uinv st'.
Proof.
  unfold walkInsert, updates_inv. intros H Hu.
  destruct (news !! newIndex st) as [n|]; [|discriminate].
  apply bind_Ok in H as (ins & _ & H). injection H as <-. exact Hu.
Qed.

Lemma walkMatched_updates o n st st' :
  olds !! oldIndex st = Some o -> news !! newIndex st = Some n ->
  pairTag n = pairTag o ->
  walkMatched ANDROID recurse parent index o n st = Ok st' ->
  einv st -> uinv st -> uinv st'.
Proof.
  unfold walkMatched. intros Ho Hn Htag H (Hoi & _) Hu.
  apply bind_Ok in H as ([it rem] & _ & H).
  apply bind_Ok in H as (rem' & _ & H).
  apply bind_Ok in H as ([b m] & Hsub & H).
  injection H as <-.
  apply updateSubtrees_own in Hsub as (_ & _ & _ & _ & Hub).
  eapply (uinv_advance o st); [exact Ho|reflexivity|lia| |exact Hu].
  simpl. rewrite Hub, updateMutations_update. f_equal.
  unfold updateFor.
  rewrite (partner_unique news n o news_distinct); [reflexivity| |exact Htag].
  apply list_elem_of_In. eapply list_elem_of_lookup_2, Hn.
Qed.

Lemma walkRemoveInserted_updates o it inserted st st' :
  olds !! oldIndex st = Some o ->
  TinyMap.find (tag (shadowView o)) (newInsertedPairs st)
  = Ok (it, inserted) ->
  TinyMap.ptr_eqb it (TinyMap.end_ inserted) = false ->
  walkRemoveInserted ANDROID recurse parent index o it inserted st = Ok st' ->
  einv st -> uinv st -> uinv st'.
Proof.
  unfold walkRemoveInserted.
  intros Ho Hfind Hfound H
    (Hoi & Hni & Hen & Hrem & Hins & Hd & Hc & Hlive & Hj & Hk2) Hu.
  destruct (find_entry _ _ _ _ Hins Hfind Hfound) as (p & Hderef & Hp).
  destruct (find_keys (tag (shadowView o)) (newInsertedPairs st) Hins
              (proj1 (find_Ok _ _ _ _ Hins Hfind)))
    as (it1 & m1 & Hfind1 & _ & _ & Hcase).
  rewrite Hfind in Hfind1. injection Hfind1 as <- <-.
  rewrite Hfound in Hcase. destruct Hcase as [_ (v & Hderef')].
  rewrite Hderef' in Hderef. injection Hderef as <-.
  rewrite Hderef' in H.
  apply bind_Ok in H as ([b m] & Hsub & H).
  apply bind_Ok in H as (ins & _ & H).
  injection H as <-.
  apply updateSubtrees_own in Hsub as (_ & _ & _ & _ & Hub).
  rewrite Hlive in Hp. apply in_map_iff in Hp as (x & Hx & HxL).
  injection Hx as Hxtag ->.
  apply List.filter_In in HxL as [HxL _].
  eapply (uinv_advance o st); [exact Ho|reflexivity|lia| |exact Hu].
  simpl. rewrite Hub, updateMutations_update. simpl. f_equal.
  unfold updateFor.
  rewrite (partner_unique news v o news_distinct); [reflexivity| |exact Hxtag].
  apply list_elem_of_In.
  eapply elem_of_sublist; [apply list_elem_of_In, HxL|].
  etrans; [apply sublist_drop|apply sublist_take].
Qed.

Lemma walkRemoveGone_updates o st st' :
  olds !! oldIndex st = Some o ->
  ~ In (pairTag o) (liveKeys (newInsertedPairs st)) ->
  ~ In (pairTag o) (liveKeys (newRemainingPairs st)) ->
  walkRemoveGone ANDROID recurse parent o st = Ok st' ->
  einv st -> uinv st -> uinv st'.
Proof.
  intros Ho Hnotins Hnotrem H Hinv Hu.
  pose proof (absent_is_gone o st Ho Hnotins Hnotrem Hinv) as Hgone.
  destruct Hinv as (Hoi & _ & Hen & _).
  unfold walkRemoveGone in H.
  rewrite shouldRemoveDeleteUpdate_disabled in H by exact Hen.
  simpl in H. apply bind_Ok in H as ([l m2] & _ & H).
  injection H as <-.
  eapply (uinv_advance o st); [exact Ho|reflexivity|lia| |exact Hu].
  simpl. unfold updateFor. rewrite (partner_gone news o Hgone), app_nil_r.
  reflexivity.
Qed.

Lemma walkOld_updates o st st' :
  olds !! oldIndex st = Some o ->
  ('(insertedIt, inserted) ←
     TinyMap.find (tag (shadowView o)) (newInsertedPairs st);
   if negb (TinyMap.ptr_eqb insertedIt (TinyMap.end_ inserted))
   then
     walkRemoveInserted ANDROID recurse parent index o insertedIt inserted st
   else
     '(newIt, remaining) ←
       TinyMap.find (tag (shadowView o)) (newRemainingPairs st);
     if TinyMap.ptr_eqb newIt (TinyMap.end_ remaining)
     then
       walkRemoveGone ANDROID recurse parent o
         (mkWalkState (walk_buckets st) (walk_meta st) remaining inserted
            (oldIndex st) (newIndex st))
     else
       walkInsert parent news
         (mkWalkState (walk_buckets st) (walk_meta st) remaining inserted
            (oldIndex st) (newIndex st)))
  = Ok st' ->
  einv st -> uinv st -> uinv st'.
Proof.
  intros Ho H Hinv Hu.
  pose proof Hinv
    as (Hoi & Hni & Hen & Hrem & Hins & Hd & Hc & Hlive & Hj & Hk2).
  apply bind_Ok in H as ([it ins] & Hfind & H).
  destruct (find_Ok _ _ _ _ Hins Hfind) as (Hkey & Hinvi & Hlivei & Hcasei).
  destruct (TinyMap.ptr_eqb it (TinyMap.end_ ins)) eqn:Hend; simpl in H.
  2: { eapply walkRemoveInserted_updates; eassumption. }
  apply bind_Ok in H as ([nit rem] & Hfindr & H).
  destruct (find_Ok _ _ _ _ Hrem Hfindr) as (_ & Hinvr & Hliver & Hcaser).
  set (st2 := mkWalkState (walk_buckets st) (walk_meta st) rem ins
                (oldIndex st) (newIndex st)) in *.
  assert (Hinv2 : einv st2).
  { unfold exact_inv, st2, liveKeys. simpl. rewrite Hliver, Hlivei.
    repeat (split; [assumption|]). assumption. }
  assert (Hu2 : uinv st2) by exact Hu.
  destruct (TinyMap.ptr_eqb nit (TinyMap.end_ rem)).
  - eapply (walkRemoveGone_updates o st2);
      [exact Ho| | |exact H|exact Hinv2|exact Hu2];
      unfold st2, liveKeys; simpl; [rewrite Hlivei|rewrite Hliver];
      assumption.
  - eapply walkInsert_updates; [exact H|exact Hu2].
Qed.

Lemma walkStep_updates st st' :
  walkStep ANDROID recurse parent index olds news st = Ok st' ->
  einv st -> uinv st -> uinv st'.
Proof.
  unfold walkStep. intros H Hinv Hu.
  destruct (Nat.ltb_spec (newIndex st) (length news)) as [Hnlt|Hnge];
    destruct (Nat.ltb_spec (oldIndex st) (length olds)) as [Holt|Hoge];
    cbn [andb] in H.
  - destruct (news !! newIndex st) as [n|] eqn:Hn;
      [|apply lookup_ge_None in Hn; lia].
    destruct (olds !! oldIndex st) as [o|] eqn:Ho;
      [|apply lookup_ge_None in Ho; lia].
    destruct (Z.eqb_spec (tag (shadowView n)) (tag (shadowView o)))
      as [Heq|Hne].
    + eapply walkMatched_updates; [exact Ho|exact Hn|exact Heq|exact H|
                                   exact Hinv|exact Hu].
    + eapply walkOld_updates; [exact Ho|exact H|exact Hinv|exact Hu].
  - eapply walkInsert_updates; [exact H|exact Hu].
  - destruct (olds !! oldIndex st) as [o|] eqn:Ho;
      [|apply lookup_ge_None in Ho; lia].
    eapply walkOld_updates; [exact Ho|exact H|exact Hinv|exact Hu].
  - eapply walkInsert_updates; [exact H|exact Hu].
Qed.

End Updates.

Lemma walk_updates (ANDROID : bool) (recurse : Differ) parent olds news
    (k index : nat) updates0 :
  (forall l m p os ns l' m',
     enabled_ m = false -> recurse l m p os ns = Ok (l', m') -> m' = m) ->
  NoDup (map pairTag olds) -> NoDup (map pairTag news) ->
  map pairTag (take k olds) = map pairTag (take k news) ->
  forall fuel st st',
    walk ANDROID recurse fuel parent index olds news st = Ok st' ->
    exact_inv k olds news st ->
    updates_inv parent k index updates0 olds news st ->
    updates_inv parent k index updates0 olds news st'.
Proof.
  intros Hrec Hndo Hndn Htags.
  induction fuel as [|fuel IH]; intros st st' H Hinv Hu; simpl in H;
    destruct ((newIndex st <? length news)%nat
              || (oldIndex st <? length olds)%nat).
  - discriminate.
  - injection H as <-. exact Hu.
  - apply bind_Ok in H as (st1 & Hstep & H).
    eapply IH; [exact H| |].
    + exact (walkStep_exact ANDROID recurse parent olds news k Hrec Hndo
               Hndn Htags index st st1 Hstep Hinv).
    + exact (walkStep_updates ANDROID recurse parent olds news k index
               updates0 Hndo Hndn Htags st st1 Hstep Hinv Hu).
  - injection H as <-. exact Hu.
Qed.

Lemma walkLists_updates (ANDROID : bool) (recurse : Differ) parent olds news
    (k : nat) b meta b' meta' :
  (forall l m p os ns l' m',
     enabled_ m = false -> recurse l m p os ns = Ok (l', m') -> m' = m) ->
  NoDup (map pairTag olds) -> NoDup (map pairTag news) ->
  map pairTag (take k olds) = map pairTag (take k news) ->
  enabled_ meta = false ->
  (k <= length olds)%nat -> (k <= length news)%nat ->
  deleteMutations b = [] -> createMutations b = [] ->
  walkLists ANDROID recurse parent k olds news b meta = Ok (b', meta') ->
  updateMutations b'
  = updateMutations b
    ++ flat_map (updateFor parent news (Z.of_nat (length news)))
         (drop k olds).
Proof.
  intros Hrec Hndo Hndn Htags Hen Hko Hkn Hd Hc H. unfold walkLists in H.
  apply bind_Ok in H as (rem & Hcollect & H).
  apply bind_Ok in H as (st & Hwalk & H).
  pose proof (exact_init olds news k Hndn Htags b meta rem Hen Hko Hkn Hd Hc
                Hcollect) as Hinit.
  assert (Hu0 : updates_inv parent k (length news) (updateMutations b) olds
                  news (mkWalkState b meta rem TinyMap.empty k k)).
  { unfold updates_inv. simpl.
    rewrite drop_ge by (rewrite length_take; lia). simpl.
    rewrite app_nil_r. reflexivity. }
  pose proof (walk_updates ANDROID recurse parent olds news k (length news)
                (updateMutations b) Hrec Hndo Hndn Htags _ _ _ Hwalk Hinit
                Hu0) as Hu.
  destruct (walk_exact ANDROID recurse parent olds news k Hrec Hndo Hndn
              Htags _ _ _ _ Hwalk Hinit)
    as ((_ & _ & Hen' & _ & Hins & _) & Hoi & Hni).
  simpl in Hen'.
  pose proof (entriesFrom_begin _ Hins) as Hentries.
  destruct (TinyMap.begin (newInsertedPairs st)) as [first inserted].
  simpl in Hentries.
  assert (Hnz : Forall (fun entry => fst entry <> 0)
                  (entriesFrom first inserted))
    by (rewrite Hentries; apply liveEntries_nonzero).
  destruct (createInserted_exact ANDROID recurse parent Hrec _ Hen' _ _ _ _
              Hnz H) as (_ & _ & Hupdate).
  rewrite Hupdate. unfold updates_inv in Hu. rewrite Hu, Hoi, firstn_all.
  reflexivity.
Qed.

Lemma stage1_updates (ANDROID : bool) (recurse : Differ) parent :
  forall os ns index b meta index' b' meta',
    stage1 ANDROID recurse parent os ns index b meta = Ok (index', b', meta') ->
    index' = (index + matchedPrefix os ns)%nat
    /\ updateMutations b'
       = updateMutations b
         ++ alignedUpdates parent (take (matchedPrefix os ns) os)
              (take (matchedPrefix os ns) ns) index.
Proof.
  induction os as [|o os IH]; intros ns index b meta index' b' meta' H.
  - simpl in H. injection H as <- <- <-. simpl. rewrite app_nil_r.
    split; [lia|reflexivity].
  - destruct ns as [|n ns]; simpl in H.
    + injection H as <- <- <-. simpl. rewrite app_nil_r.
      split; [lia|reflexivity].
    + assert (Hmp : matchedPrefix (o :: os) (n :: ns)
                    = if pairTag o =? pairTag n
                      then S (matchedPrefix os ns) else 0%nat)
        by reflexivity.
      rewrite Hmp. clear Hmp.
      change (tag (shadowView o) =? tag (shadowView n))
        with (pairTag o =? pairTag n) in H.
      destruct (pairTag o =? pairTag n); simpl in H.
      2: { injection H as <- <- <-. simpl. rewrite app_nil_r.
           split; [lia|reflexivity]. }
      apply bind_Ok in H as ([b1 m1] & Hsub & H).
      apply updateSubtrees_own in Hsub as (_ & _ & _ & _ & Hu).
      destruct (IH _ _ _ _ _ _ _ H) as (-> & Hu').
      split; [lia|]. rewrite Hu', Hu, updateMutations_update. simpl.
      rewrite <- app_assoc. reflexivity.
Qed.

Lemma collectMutations_updates (ANDROID : bool) (recurse : Differ) meta
    parent olds news b meta' :
  framed recurse -> simulated recurse ->
  enabled_ meta = false ->
  NoDup (map pairTag olds) -> NoDup (map pairTag news) ->
  collectMutations ANDROID recurse meta parent olds news = Ok (b, meta') ->
  updateMutations b
  = alignedUpdates parent
      (take (matchedPrefix (reorderInPlaceIfNeeded olds)
               (reorderInPlaceIfNeeded news))
         (reorderInPlaceIfNeeded olds))
      (take (matchedPrefix (reorderInPlaceIfNeeded olds)
               (reorderInPlaceIfNeeded news))
         (reorderInPlaceIfNeeded news)) 0
    ++ flat_map
         (updateFor parent (reorderInPlaceIfNeeded news)
            (Z.of_nat (length (reorderInPlaceIfNeeded news))))
         (drop (matchedPrefix (reorderInPlaceIfNeeded olds)
                  (reorderInPlaceIfNeeded news))
            (reorderInPlaceIfNeeded olds)).
Proof.
  intros Hframed Hsim Hen Hndo Hndn. unfold collectMutations. intros H.
  assert (Hrec : forall l m p os ns l' m',
            enabled_ m = false -> recurse l m p os ns = Ok (l', m') ->
            m' = m).
  { intros l m p os ns l' m' Hm Hr.
    exact (proj1 (recurse_disabled _ Hframed Hsim _ _ _ _ _ _ _ Hm Hr)). }
  assert (Hndo' : NoDup (map pairTag (reorderInPlaceIfNeeded olds))).
  { eapply NoDup_Permutation_proper; [|exact Hndo].
    apply Permutation_map, reorder_perm. }
  assert (Hndn' : NoDup (map pairTag (reorderInPlaceIfNeeded news))).
  { eapply NoDup_Permutation_proper; [|exact Hndn].
    apply Permutation_map, reorder_perm. }
  set (olds' := reorderInPlaceIfNeeded olds) in *.
  set (news' := reorderInPlaceIfNeeded news) in *.
  apply bind_Ok in H as ([[index b1] m1] & Hs1 & H).
  pose proof (stage1_disabled ANDROID recurse parent meta Hen Hrec
                _ _ _ _ _ _ _ Hs1) as ->.
  destruct (stage1_updates _ _ _ _ _ _ _ _ _ _ _ Hs1) as (Hindex & Hu1).
  destruct (stage1_matched _ _ _ _ _ _ _ _ _ _ _ Hs1)
    as (k & Hk & Hko & Hkn & Htags & Hc1 & Hd1).
  simpl in Hindex, Hk, Hu1, Hc1, Hd1.
  assert (Hkeq : matchedPrefix olds' news' = k) by lia.
  rewrite Hkeq in *. subst index. simpl in H.
  destruct (Nat.eqb_spec k (length news')) as [Hnew|Hnew].
  { apply (removeRest_disabled ANDROID recurse Hframed Hsim parent meta Hen)
      in H as (_ & _ & _ & Hu & _ & _).
    rewrite Hu, Hu1.
    assert (Htags' : map pairTag (take k olds') = map pairTag news')
      by (rewrite Htags, Hnew, firstn_all; reflexivity).
    pose proof (suffix_gone olds' news' k Hndo' Htags') as Hgone.
    rewrite flat_map_none; [rewrite app_nil_r; reflexivity|].
    intros o Ho.
    unfold updateFor. rewrite partner_gone; [reflexivity|].
    rewrite <- Hgone in Ho. apply List.filter_In in Ho as [_ Ho]. exact Ho. }
  destruct (Nat.eqb_spec k (length olds')) as [Hold|Hold].
  { apply (insertRest_disabled ANDROID recurse Hframed Hsim parent meta Hen)
      in H as (_ & _ & _ & Hu & _ & _).
    rewrite Hu, Hu1, Hold, drop_all. simpl. rewrite app_nil_r.
    reflexivity. }
  rewrite (walkLists_updates ANDROID recurse parent olds' news' k b1 meta b
             meta' Hrec Hndo' Hndn' Htags Hen Hko Hkn Hd1 Hc1 H).
  rewrite Hu1. reflexivity.
Qed.

(** X24: with reparenting detection disabled, for child lists whose tags are
    pairwise distinct within each list, the Update mutations of an activation
    are, first, one for every leading slot in which both reordered lists have
    the same tag with different views, with the slot as index, and then, in
    the order of the reordered old list, one for every old pair behind these
    slots whose tag a new pair has with a different view, with the size of
    the new list as index. *)
Theorem updates_the_changed (ANDROID : bool) (fuel : nat)
    (meta : ReparentingMetadata) (parent : ShadowView)
    (olds news : list ShadowViewNodePair) (b : Buckets)
    (meta' : ReparentingMetadata) :
  enabled_ meta = false ->
  NoDup (map pairTag olds) -> NoDup (map pairTag news) ->
  collectMutations ANDROID (calculateShadowViewMutations_rec ANDROID fuel)
    meta parent olds news = Ok (b, meta') ->
  updateMutations b
  = alignedUpdates parent
      (take (matchedPrefix (reorderInPlaceIfNeeded olds)
               (reorderInPlaceIfNeeded news))
         (reorderInPlaceIfNeeded olds))
      (take (matchedPrefix (reorderInPlaceIfNeeded olds)
               (reorderInPlaceIfNeeded news))
         (reorderInPlaceIfNeeded news)) 0
    ++ flat_map
         (updateFor parent (reorderInPlaceIfNeeded news)
            (Z.of_nat (length (reorderInPlaceIfNeeded news))))
         (drop (matchedPrefix (reorderInPlaceIfNeeded olds)
                  (reorderInPlaceIfNeeded news))
            (reorderInPlaceIfNeeded olds)).
Proof.
  apply collectMutations_updates; [apply rec_framed|apply rec_simulated].
Qed.

(** ** The differ: Remove before Delete, Create before Insert *)

Lemma orderedIn_mono before l after before' after' :
  orderedIn before l after -> orderedIn (before' ++ before) l (after ++ after').
Proof.
  intros H l1 m l2 Hl. destruct (H l1 m l2 Hl) as [Hd Hc]. split.
  - intros v Hv. destruct (Hd v Hv) as (p & i & Hin). exists p, i.
    rewrite <- app_assoc. apply in_or_app. right. exact Hin.
  - intros v Hv. destruct (Hc v Hv) as (p & i & Hin). exists p, i.
    rewrite app_assoc. apply in_or_app. left. exact Hin.
Qed.

Lemma orderedIn_app before A B after :
  orderedIn before A (B ++ after) -> orderedIn (before ++ A) B after ->
  orderedIn before (A ++ B) after.
Proof.
  intros HA HB l1 m l2 Hl.
  apply app_eq_app in Hl as (l' & [[HAeq HBeq]|[Hl1 HBeq]]).
  - destruct l' as [|m' l'].
    + simpl in HBeq. rewrite app_nil_r in HAeq. subst l1.
      destruct (HB [] m l2 (eq_sym HBeq)) as [Hd Hc].
      rewrite app_nil_r in Hd. split; assumption.
    + simpl in HBeq. injection HBeq as <- ->.
      destruct (HA l1 m l' HAeq) as [Hd Hc]. split; [exact Hd|].
      rewrite <- app_assoc. exact Hc.
  - subst l1. destruct (HB l' m l2 HBeq) as [Hd Hc]. split; [|exact Hc].
    rewrite app_assoc. exact Hd.
Qed.

Lemma orderedIn_typed before l after :
  Forall (fun m => type m <> Delete /\ type m <> Create) l ->
  orderedIn before l after.
Proof.
  intros Hl l1 m l2 ->. rewrite Forall_forall in Hl.
  destruct (Hl m) as [Hd Hc].
  { apply list_elem_of_In, in_or_app. right. left. reflexivity. }
  split; intros v ->; [exfalso; apply Hd|exfalso; apply Hc]; reflexivity.
Qed.

Lemma orderedIn_deletes parent removes before l after :
  Forall (deletesRemoved parent removes) l ->
  (forall m, In m removes -> In m before) ->
  orderedIn before l after.
Proof.
  intros Hl Hsub l1 m l2 ->. rewrite Forall_forall in Hl.
  destruct (Hl m) as (v & i & -> & Hin).
  { apply list_elem_of_In, in_or_app. right. left. reflexivity. }
  split; [|intros w Hw; discriminate].
  intros w Hw. injection Hw as <-. exists parent, i.
  apply in_or_app. left. apply Hsub, Hin.
Qed.

Lemma orderedIn_creates parent inserts before l after :
  Forall (createsInserted parent inserts) l ->
  (forall m, In m inserts -> In m after) ->
  orderedIn before l after.
Proof.
  intros Hl Hsub l1 m l2 ->. rewrite Forall_forall in Hl.
  destruct (Hl m) as (v & i & -> & Hin).
  { apply list_elem_of_In, in_or_app. right. left. reflexivity. }
  split; [intros w Hw; discriminate|].
  intros w Hw. injection Hw as <-. exists parent, i.
  apply in_or_app. right. apply Hsub, Hin.
Qed.

Lemma wellOrdered_inside before l after :
  wellOrdered l -> orderedIn before l after.
Proof.
  intros H. pose proof (orderedIn_mono [] l [] before after H) as H'.
  rewrite app_nil_r in H'. exact H'.
Qed.

Lemma concat_ordered parent b :
  typed b -> paired parent b -> nested_ordered b ->
  wellOrdered (concatBuckets b).
Proof.
  intros (Hu & Hr & Hd & Hc & Hi) [Hpd Hpc] [Hdw Hddw].
  unfold wellOrdered, concatBuckets.
  apply orderedIn_app; [apply wellOrdered_inside, Hddw|].
  apply orderedIn_app.
  { apply orderedIn_typed. eapply Forall_impl; [exact Hu|].
    simpl. intros m ->. split; discriminate. }
  apply orderedIn_app.
  { apply orderedIn_typed. apply Forall_forall. intros m Hm.
    apply list_elem_of_In, in_rev in Hm. rewrite Forall_forall in Hr.
    rewrite (Hr m (proj2 (list_elem_of_In _ _) Hm)). split; discriminate. }
  apply orderedIn_app.
  { eapply orderedIn_deletes; [exact Hpd|]. intros m Hm.
    apply in_or_app. right. apply in_rev in Hm. exact Hm. }
  apply orderedIn_app.
  { eapply orderedIn_creates; [exact Hpc|]. intros m Hm.
    apply in_or_app. left. apply in_or_app. right. exact Hm. }
  apply orderedIn_app; [apply wellOrdered_inside, Hdw|].
  apply orderedIn_typed. eapply Forall_impl; [exact Hi|].
  simpl. intros m ->. split; discriminate.
Qed.

Section Ordered.
Variable ANDROID : bool.
Variable recurse : Differ.
Hypothesis recurse_ordering : ordering recurse.
Variable parent : ShadowView.
Variables olds news : list ShadowViewNodePair.

Lemma nested_same b b' :
  downwardMutations b' = downwardMutations b ->
  destructiveDownwardMutations b' = destructiveDownwardMutations b ->
  nested_ordered b -> nested_ordered b'.
Proof. unfold nested_ordered. intros -> ->. auto. Qed.

Lemma nested_update p old new i b :
  nested_ordered b -> nested_ordered (updateIfDifferent p old new i b).
Proof.
  apply nested_same; unfold updateIfDifferent; destruct (negb _);
    reflexivity.
Qed.

Lemma nested_downward l meta p os ns l' meta' b :
  recurse l meta p os ns = Ok (l', meta') ->
  l = downwardMutations b ->
  nested_ordered b -> nested_ordered (set_downward l' b).
Proof.
  intros Hr -> [Hdw Hddw]. split; [|exact Hddw]. simpl.
  exact (recurse_ordering _ _ _ _ _ _ _ Hr Hdw).
Qed.

Lemma nested_destructive l meta p os ns l' meta' b :
  recurse l meta p os ns = Ok (l', meta') ->
  l = destructiveDownwardMutations b ->
  nested_ordered b -> nested_ordered (set_destructiveDownward l' b).
Proof.
  intros Hr -> [Hdw Hddw]. split; [exact Hdw|]. simpl.
  exact (recurse_ordering _ _ _ _ _ _ _ Hr Hddw).
Qed.

Lemma updateSubtrees_nested b meta p oldGrand newGrand b' meta' :
  updateSubtrees recurse b meta p oldGrand newGrand = Ok (b', meta') ->
  nested_ordered b -> nested_ordered b'.
Proof.
  unfold updateSubtrees. intros H Hinv.
  destruct (negb _); apply bind_Ok in H as ([l m] & Hr & H);
    injection H as <- <-.
  - eapply nested_downward; [exact Hr|reflexivity|exact Hinv].
  - eapply nested_destructive; [exact Hr|reflexivity|exact Hinv].
Qed.

Lemma stage1_nested :
  forall os ns index b meta index' b' meta',
    stage1 ANDROID recurse parent os ns index b meta = Ok (index', b', meta') ->
    nested_ordered b -> nested_ordered b'.
Proof.
  induction os as [|o os IH]; intros ns index b meta index' b' meta' H Hinv.
  - simpl in H. injection H as <- <- <-. exact Hinv.
  - destruct ns as [|n ns]; simpl in H.
    + injection H as <- <- <-. exact Hinv.
    + destruct (negb _).
      * injection H as <- <- <-. exact Hinv.
      * apply bind_Ok in H as ([b1 m1] & Hsub & H).
        eapply IH; [exact H|].
        eapply updateSubtrees_nested; [exact Hsub|].
        apply nested_update. exact Hinv.
Qed.

Lemma removeRest_nested :
  forall os index b meta b' meta',
    removeRest ANDROID recurse parent os index b meta = Ok (b', meta') ->
    nested_ordered b -> nested_ordered b'.
Proof.
  induction os as [|o os IH]; intros index b meta b' meta' H Hinv.
  - simpl in H. injection H as <- <-. exact Hinv.
  - simpl in H.
    apply bind_Ok in H
      as ([[[shouldRemove shouldDelete] newTreeNode] m1] & _ & H).
    apply bind_Ok in H as ([l m2] & Hr & H).
    eapply IH; [exact H|].
    eapply nested_destructive; [exact Hr|reflexivity|].
    eapply nested_same; [| |exact Hinv];
      destruct shouldRemove, shouldDelete, newTreeNode; simpl;
      unfold updateIfDifferent; try destruct (negb _); reflexivity.
Qed.

Lemma insertRest_nested :
  forall ns index b meta b' meta',
    insertRest ANDROID recurse parent ns index b meta = Ok (b', meta') ->
    nested_ordered b -> nested_ordered b'.
Proof.
  induction ns as [|n ns IH]; intros index b meta b' meta' H Hinv.
  - simpl in H. injection H as <- <-. exact Hinv.
  - simpl in H.
    apply bind_Ok in H
      as ([[[shouldInsert shouldCreate] oldTreeNode] m1] & _ & H).
    apply bind_Ok in H as ([l m2] & Hr & H).
    eapply IH; [exact H|].
    eapply nested_downward; [exact Hr|reflexivity|].
    eapply nested_same; [| |exact Hinv];
      destruct shouldInsert, shouldCreate, oldTreeNode; simpl;
      unfold updateIfDifferent; try destruct (negb _); reflexivity.
Qed.

Lemma createInserted_nested :
  forall entries b meta b' meta',
    createInserted ANDROID recurse parent entries b meta = Ok (b', meta') ->
    nested_ordered b -> nested_ordered b'.
Proof.
  induction entries as [|[key n] entries IH]; intros b meta b' meta' H Hinv.
  - simpl in H. injection H as <- <-. exact Hinv.
  - simpl in H. destruct (key =? 0); [eapply IH; [exact H|exact Hinv]|].
    apply bind_Ok in H as ([[shouldCreate updateNode] m1] & _ & H).
    apply bind_Ok in H as ([l m2] & Hr & H).
    eapply IH; [exact H|].
    eapply nested_downward; [exact Hr|reflexivity|].
    eapply nested_same; [| |exact Hinv];
      destruct shouldCreate, updateNode; simpl;
      unfold updateIfDifferent; try destruct (negb _); reflexivity.
Qed.

Local Abbreviation sinv := (fun st => nested_ordered (walk_buckets st)).

Lemma walkInsert_nested st st' :
  walkInsert parent news st = Ok st' -> sinv st -> sinv st'.
Proof.
  unfold walkInsert. intros H Hinv.
  destruct (news !! newIndex st) as [n|]; [|discriminate].
  apply bind_Ok in H as (ins & _ & H). injection H as <-. exact Hinv.
Qed.

Lemma walkMatched_nested index o n st st' :
  walkMatched ANDROID recurse parent index o n st = Ok st' ->
  sinv st -> sinv st'.
Proof.
  unfold walkMatched. intros H Hinv.
  apply bind_Ok in H as ([it rem] & _ & H).
  apply bind_Ok in H as (rem' & _ & H).
  apply bind_Ok in H as ([b m] & Hsub & H).
  injection H as <-. simpl.
  eapply updateSubtrees_nested; [exact Hsub|].
  apply nested_update. exact Hinv.
Qed.

Lemma walkRemoveInserted_nested index o it inserted st st' :
  walkRemoveInserted ANDROID recurse parent index o it inserted st = Ok st' ->
  sinv st -> sinv st'.
Proof.
  unfold walkRemoveInserted. intros H Hinv.
  destruct (TinyMap.deref it inserted) as [[key n]|]; [|discriminate].
  apply bind_Ok in H as ([b m] & Hsub & H).
  apply bind_Ok in H as (ins & _ & H).
  injection H as <-. simpl.
  eapply updateSubtrees_nested; [exact Hsub|].
  apply nested_update. exact Hinv.
Qed.

Lemma walkRemoveGone_nested o st st' :
  walkRemoveGone ANDROID recurse parent o st = Ok st' ->
  sinv st -> sinv st'.
Proof.
  unfold walkRemoveGone. intros H Hinv.
  apply bind_Ok in H
    as ([[[shouldRemove shouldDelete] newTreeNode] m1] & _ & H).
  apply bind_Ok in H as ([l m2] & Hr & H).
  injection H as <-. simpl.
  eapply nested_destructive; [exact Hr|reflexivity|].
  eapply nested_same; [| |exact Hinv];
    destruct shouldDelete, newTreeNode; simpl;
    unfold updateIfDifferent; try destruct (negb _); reflexivity.
Qed.

Lemma walkStep_nested index st st' :
  walkStep ANDROID recurse parent index olds news st = Ok st' ->
  sinv st -> sinv st'.
Proof.
  unfold walkStep. intros H Hinv.
  match type of H with
  | match ?m with _ => _ end = _ => destruct m as [[o n]|]
  end.
  { eapply walkMatched_nested; [exact H|exact Hinv]. }
  destruct (oldIndex st <? length olds)%nat.
  2: { eapply walkInsert_nested; [exact H|exact Hinv]. }
  destruct (olds !! oldIndex st) as [o|] eqn:Ho.
  2: { eapply walkInsert_nested; [exact H|exact Hinv]. }
  apply bind_Ok in H as ([insertedIt inserted] & _ & H).
  destruct (negb _).
  { eapply walkRemoveInserted_nested; [exact H|exact Hinv]. }
  apply bind_Ok in H as ([newIt remaining] & _ & H).
  destruct (TinyMap.ptr_eqb _ _).
  - apply walkRemoveGone_nested in H; [exact H|exact Hinv].
  - apply walkInsert_nested in H; [exact H|exact Hinv].
Qed.

Lemma walk_nested index :
  forall fuel st st',
    walk ANDROID recurse fuel parent index olds news st = Ok st' ->
    sinv st -> sinv st'.
Proof.
  induction fuel as [|fuel IH]; intros st st' H Hinv; simpl in H.
  - destruct (_ || _); [discriminate|]. injection H as <-. exact Hinv.
  - destruct (_ || _); [|injection H as <-; exact Hinv].
    apply bind_Ok in H as (st1 & Hstep & H).
    eapply IH; [exact H|]. eapply walkStep_nested; [exact Hstep|exact Hinv].
Qed.

End Ordered.

Lemma collectMutations_nested (ANDROID : bool) (recurse : Differ) meta parent
    olds news b meta' :
  ordering recurse ->
  collectMutations ANDROID recurse meta parent olds news = Ok (b, meta') ->
  nested_ordered b.
Proof.
  intros Hrec. unfold collectMutations. intros H.
  apply bind_Ok in H as ([[index b1] m1] & Hs1 & H).
  assert (Hinit : nested_ordered Buckets_init).
  { split; intros l1 m l2 Hl; destruct l1; discriminate. }
  pose proof (stage1_nested ANDROID recurse Hrec _ _ _ _ _ _ _ _ _ Hs1 Hinit)
    as H1.
  simpl in H.
  destruct (index =? length _)%nat.
  { eapply removeRest_nested; [exact Hrec|exact H|exact H1]. }
  destruct (index =? length _)%nat.
  { eapply insertRest_nested; [exact Hrec|exact H|exact H1]. }
  unfold walkLists in H.
  apply bind_Ok in H as (remaining & _ & H).
  apply bind_Ok in H as (st & Hwalk & H).
  destruct (TinyMap.begin (newInsertedPairs st)) as [first inserted].
  eapply createInserted_nested; [exact Hrec|exact H|].
  eapply walk_nested; [exact Hrec|exact Hwalk|]. exact H1.
Qed.

Lemma body_ordering (ANDROID : bool) (recurse : Differ) :
  ordering recurse ->
  ordering (calculateShadowViewMutations_body ANDROID recurse).
Proof.
  intros Hrec mutations meta parent olds news mutations' meta' H Hm.
  unfold calculateShadowViewMutations_body in H.
  assert (Hcase : olds = [] /\ news = [] /\ mutations' = mutations
                  \/ exists b,
                       collectMutations ANDROID recurse meta parent olds news
                       = Ok (b, meta')
                       /\ mutations' = mutations ++ concatBuckets b).
  { destruct olds as [|o olds]; [destruct news as [|n news]|].
    - left. injection H as <- <-. auto.
    - right. apply bind_Ok in H as ([b m] & Hb & H). injection H as <- <-.
      eauto.
    - right. apply bind_Ok in H as ([b m] & Hb & H). injection H as <- <-.
      eauto. }
  destruct Hcase as [(_ & _ & ->)|(b & Hb & ->)]; [exact Hm|].
  destruct (collectMutations_inv ANDROID recurse _ _ _ _ _ _ Hb)
    as (bound & Htyped & _).
  pose proof (collectMutations_paired ANDROID recurse _ _ _ _ _ _ Hb)
    as Hpaired.
  pose proof (collectMutations_nested ANDROID recurse _ _ _ _ _ _ Hrec Hb)
    as Hnested.
  pose proof (concat_ordered parent b Htyped Hpaired Hnested) as Hconcat.
  unfold wellOrdered. apply orderedIn_app.
  - apply wellOrdered_inside, Hm.
  - apply wellOrdered_inside, Hconcat.
Qed.

Lemma rec_ordering (ANDROID : bool) (fuel : nat) :
  ordering (calculateShadowViewMutations_rec ANDROID fuel).
Proof.
  induction fuel as [|fuel IH].
  - intros mutations meta parent olds news mutations' meta' H. discriminate.
  - apply body_ordering, IH.
Qed.

(** X25: with reparenting detection disabled, in the list the entry point
    returns every Delete of a view has a Remove of that view in front of it,
    and every Create of a view has an Insert of that view behind it: a view
    is taken out of its parent before it is deleted and exists before it is
    mounted. *)
Theorem Remove_precedes_Delete_and_Create_precedes_Insert (ANDROID : bool)
    (oldRootShadowNode newRootShadowNode : ShadowNode)
    (mutations : list ShadowViewMutation) :
  calculateShadowViewMutations ANDROID oldRootShadowNode newRootShadowNode
    false = Ok mutations ->
  forall before m after,
    mutations = before ++ m :: after ->
    (forall v, m = DeleteMutation v ->
       exists p i, In (RemoveMutation p v i) before)
    /\ (forall v, m = CreateMutation v ->
          exists p i, In (InsertMutation p v i) after).
Proof.
  unfold calculateShadowViewMutations. intros H.
  destruct (negb (sameFamily _ _)); [discriminate|].
  apply bind_Ok in H as ([l m] & Hrec & H).
  rewrite andb_false_r in H. injection H as <-.
  assert (Hinit : wellOrdered
                    (if negb (ShadowView_eqb (ShadowView_of oldRootShadowNode)
                                (ShadowView_of newRootShadowNode))
                     then [] ++ [UpdateMutation ShadowView_default
                                   (ShadowView_of oldRootShadowNode)
                                   (ShadowView_of newRootShadowNode) (-1)]
                     else [])).
  { destruct (negb (ShadowView_eqb _ _)).
    - apply orderedIn_typed. repeat constructor; discriminate.
    - intros l1 m1 l2 Hl. destruct l1; discriminate. }
  pose proof (rec_ordering ANDROID _ _ _ _ _ _ _ _ Hrec Hinit) as Hl.
  intros before m' after Heq. destruct (Hl before m' after Heq) as [Hd Hc].
  simpl in Hd. rewrite app_nil_r in Hc. auto.
Qed.

(** ** The flattener: the offsets of the views *)

Section FlattenerOffsets.
Variable ANDROID : bool.

Local Abbreviation sliceRec :=
  (sliceChildShadowNodeViewPairsRecursively ANDROID).

Lemma sliceChild_at self layoutOffset pairList child pr :
  In pr (sliceChild ANDROID self layoutOffset pairList child) ->
  In pr pairList
  \/ notSkipped ANDROID child
     /\ (pr = mkPair (viewAt layoutOffset child) child
         \/ FormsStackingContext (getTraits child) = false
            /\ exists pairList',
                 In pr (self pairList' (offsetBelow layoutOffset child) child)
                 /\ forall q, In q pairList' ->
                      In q pairList
                      \/ q = mkPair (viewAt layoutOffset child) child).
Proof.
  unfold sliceChild.
  destruct (negb ANDROID && Hidden (getTraits child)) eqn:Hskip; [auto|].
  assert (Hvisible : notSkipped ANDROID child).
  { unfold notSkipped. destruct ANDROID; [auto|]. simpl in Hskip. auto. }
  fold (hasLayout child). fold (viewAt layoutOffset child).
  fold (offsetBelow layoutOffset child).
  destruct (FormsStackingContext (getTraits child)).
  - rewrite in_app_iff. simpl. intros [H|[<-|[]]]; auto.
  - intros H. right. split; [exact Hvisible|]. right.
    split; [reflexivity|]. eexists. split; [exact H|].
    intros q. destruct (FormsView (getTraits child)); [|auto].
    rewrite in_app_iff. simpl. intros [Hq|[<-|[]]]; auto.
Qed.

Lemma sliceRec_at (k : nat) :
  forall n pairList layoutOffset pr,
    (depth n <= k)%nat ->
    In pr (sliceRec pairList layoutOffset n) ->
    In pr pairList
    \/ exists offset,
         flattenedAt ANDROID n layoutOffset (shadowNode pr) offset
         /\ shadowView pr = viewAt offset (shadowNode pr).
Proof.
  induction k as [|k IHk]; intros n pairList layoutOffset pr Hk.
  { destruct n; simpl in Hk; lia. }
  rewrite sliceRec_children.
  assert (Hcs : forall c, In c (getChildren n) ->
                  In c (getChildren n) /\ (depth c <= k)%nat).
  { intros c Hc. pose proof (depth_child n c Hc). split; [exact Hc|lia]. }
  clear Hk. revert pairList Hcs.
  enough (Hlist : forall cs pairList,
            (forall c, In c cs ->
               In c (getChildren n) /\ (depth c <= k)%nat) ->
            In pr (fold_left (sliceChild ANDROID sliceRec layoutOffset)
                     cs pairList) ->
            In pr pairList
            \/ exists offset,
                 flattenedAt ANDROID n layoutOffset (shadowNode pr) offset
                 /\ shadowView pr = viewAt offset (shadowNode pr))
    by (intros pairList; apply Hlist).
  induction cs as [|c cs IH]; intros pairList Hcs; simpl; [auto|].
  intros Hin.
  assert (Hcs' : forall c', In c' cs ->
                   In c' (getChildren n) /\ (depth c' <= k)%nat)
    by (intros c' Hc'; apply Hcs; right; exact Hc').
  destruct (IH _ Hcs' Hin) as [Hstep|Hdeep]; [|auto].
  destruct (Hcs c (or_introl eq_refl)) as [Hc Hck].
  destruct (sliceChild_at _ _ _ _ _ Hstep)
    as [H|[Hvisible [Heq|(Hctx & pl & H & Hpl)]]]; [auto| |].
  - subst pr. right. exists layoutOffset. split; [|reflexivity].
    apply flattenedAt_child; assumption.
  - destruct (IHk _ _ _ _ Hck H) as [H'|(offset & Hat & Hview)].
    + destruct (Hpl _ H') as [H''|Heq]; [auto|].
      subst pr. right. exists layoutOffset. split; [|reflexivity].
      apply flattenedAt_child; assumption.
    + right. exists offset. split; [|exact Hview].
      eapply flattenedAt_through; eassumption.
Qed.

End FlattenerOffsets.

(** X26: every pair of a flattened list is met on a path from the flattened
    node down through nodes that are not skipped and form no stacking
    context; its view is the node's view with the origin of the frame moved
    by the sum of the origins of the nodes with layout metrics on that path,
    and a node without layout metrics keeps its view. *)
Theorem slice_views_carry_offsets (ANDROID : bool) (n : ShadowNode)
    (pr : ShadowViewNodePair) :
  In pr (sliceChildShadowNodeViewPairs ANDROID n) ->
  exists offset,
    flattenedAt ANDROID n (mkPoint 0 0) (shadowNode pr) offset
    /\ shadowView pr = viewAt offset (shadowNode pr).
Proof.
  unfold sliceChildShadowNodeViewPairs.
  destruct (negb _ && _); [contradiction|].
  intros H.
  destruct (sliceRec_at ANDROID (depth n) n [] _ pr (le_n _) H) as [[]|H'].
  exact H'.
Qed.

(** ** The differ: the bookkeeping of the metadata *)

Section MetaKept.
Variable ANDROID : bool.
Variable P : ReparentingMetadata -> Prop.
Variable recurse : Differ.
Hypothesis operations_keep : metaKept P.
Hypothesis recurse_keeps : keepsMeta P recurse.

Lemma updateSubtrees_meta b meta p oldGrand newGrand b' meta' :
  updateSubtrees recurse b meta p oldGrand newGrand = Ok (b', meta') ->
  P meta -> P meta'.
Proof.
  unfold updateSubtrees. intros H Hp.
  destruct (negb _); apply bind_Ok in H as ([l m] & Hrec & H);
    injection H as _ <-; eapply recurse_keeps; eassumption.
Qed.

Lemma stage1_meta parent :
  forall os ns index b meta index' b' meta',
    stage1 ANDROID recurse parent os ns index b meta = Ok (index', b', meta') ->
    P meta -> P meta'.
Proof.
  induction os as [|o os IH]; intros ns index b meta index' b' meta' H Hp.
  - simpl in H. injection H as _ _ <-. exact Hp.
  - destruct ns as [|n ns]; simpl in H.
    + injection H as _ _ <-. exact Hp.
    + destruct (negb _).
      * injection H as _ _ <-. exact Hp.
      * apply bind_Ok in H as ([b1 m1] & Hsub & H).
        eapply IH; [exact H|].
        eapply updateSubtrees_meta; eassumption.
Qed.

Lemma removeRest_meta parent :
  forall os index b meta b' meta',
    removeRest ANDROID recurse parent os index b meta = Ok (b', meta') ->
    P meta -> P meta'.
Proof.
  destruct operations_keep as (Hsrdu & _).
  induction os as [|o os IH]; intros index b meta b' meta' H Hp.
  - simpl in H. injection H as _ <-. exact Hp.
  - simpl in H.
    apply bind_Ok in H
      as ([[[shouldRemove shouldDelete] newTreeNode] m1] & Hshould & H).
    apply bind_Ok in H as ([l m2] & Hrec & H).
    eapply IH; [exact H|].
    eapply recurse_keeps; [exact Hrec|].
    eapply Hsrdu; eassumption.
Qed.

Lemma insertRest_meta parent :
  forall ns index b meta b' meta',
    insertRest ANDROID recurse parent ns index b meta = Ok (b', meta') ->
    P meta -> P meta'.
Proof.
  destruct operations_keep as (_ & Hsciu & _).
  induction ns as [|n ns IH]; intros index b meta b' meta' H Hp.
  - simpl in H. injection H as _ <-. exact Hp.
  - simpl in H.
    apply bind_Ok in H
      as ([[[shouldInsert shouldCreate] oldTreeNode] m1] & Hshould & H).
    apply bind_Ok in H as ([l m2] & Hrec & H).
    eapply IH; [exact H|].
    eapply recurse_keeps; [exact Hrec|].
    eapply Hsciu; eassumption.
Qed.

Lemma createInserted_meta parent :
  forall entries b meta b' meta',
    createInserted ANDROID recurse parent entries b meta = Ok (b', meta') ->
    P meta -> P meta'.
Proof.
  destruct operations_keep as (_ & _ & Hscu & _).
  induction entries as [|[key n] entries IH]; intros b meta b' meta' H Hp.
  - simpl in H. injection H as _ <-. exact Hp.
  - simpl in H.
    destruct (key =? 0); [eapply IH; eassumption|].
    apply bind_Ok in H as ([[shouldCreate updateNode] m1] & Hshould & H).
    apply bind_Ok in H as ([l m2] & Hrec & H).
    eapply IH; [exact H|].
    eapply recurse_keeps; [exact Hrec|].
    eapply Hscu; eassumption.
Qed.

Lemma walkInsert_meta parent news st st' :
  walkInsert parent news st = Ok st' ->
  P (walk_meta st) -> P (walk_meta st').
Proof.
  destruct operations_keep as (_ & _ & _ & Hmark).
  unfold walkInsert. intros H Hp.
  destruct (news !! newIndex st) as [n|]; [|discriminate].
  apply bind_Ok in H as (ins & _ & H). injection H as <-. simpl.
  apply Hmark, Hp.
Qed.

Lemma walkMatched_meta parent index o n st st' :
  walkMatched ANDROID recurse parent index o n st = Ok st' ->
  P (walk_meta st) -> P (walk_meta st').
Proof.
  unfold walkMatched. intros H Hp.
  apply bind_Ok in H as ([it rem] & _ & H).
  apply bind_Ok in H as (rem' & _ & H).
  apply bind_Ok in H as ([b m] & Hsub & H).
  injection H as <-. simpl.
  eapply updateSubtrees_meta; eassumption.
Qed.

Lemma walkRemoveInserted_meta parent index o it inserted st st' :
  walkRemoveInserted ANDROID recurse parent index o it inserted st = Ok st' ->
  P (walk_meta st) -> P (walk_meta st').
Proof.
  unfold walkRemoveInserted. intros H Hp.
  destruct (TinyMap.deref it inserted) as [[key n]|]; [|discriminate].
  apply bind_Ok in H as ([b m] & Hsub & H).
  apply bind_Ok in H as (ins & _ & H).
  injection H as <-. simpl.
  eapply updateSubtrees_meta; eassumption.
Qed.

Lemma walkRemoveGone_meta parent o st st' :
  walkRemoveGone ANDROID recurse parent o st = Ok st' ->
  P (walk_meta st) -> P (walk_meta st').
Proof.
  destruct operations_keep as (Hsrdu & _).
  unfold walkRemoveGone. intros H Hp.
  apply bind_Ok in H
    as ([[[shouldRemove shouldDelete] newTreeNode] m1] & Hshould & H).
  apply bind_Ok in H as ([l m2] & Hrec & H).
  injection H as <-. simpl.
  eapply recurse_keeps; [exact Hrec|].
  eapply Hsrdu; eassumption.
Qed.

Lemma walkStep_meta parent index olds news st st' :
  walkStep ANDROID recurse parent index olds news st = Ok st' ->
  P (walk_meta st) -> P (walk_meta st').
Proof.
  unfold walkStep. intros H Hp.
  match type of H with
  | match ?m with _ => _ end = _ => destruct m as [[o n]|]
  end.
  { eapply walkMatched_meta; eassumption. }
  match type of H with
  | match ?m with _ => _ end = _ => destruct m as [o|]
  end.
  2: { eapply walkInsert_meta; eassumption. }
  apply bind_Ok in H as ([insertedIt inserted] & _ & H).
  destruct (negb _).
  { eapply walkRemoveInserted_meta; eassumption. }
  apply bind_Ok in H as ([newIt remaining] & _ & H).
  destruct (TinyMap.ptr_eqb _ _).
  - apply walkRemoveGone_meta in H; [exact H|exact Hp].
  - apply walkInsert_meta in H; [exact H|exact Hp].
Qed.

Lemma walk_meta_kept parent index olds news :
  forall fuel st st',
    walk ANDROID recurse fuel parent index olds news st = Ok st' ->
    P (walk_meta st) -> P (walk_meta st').
Proof.
  induction fuel as [|fuel IH]; intros st st' H Hp; simpl in H.
  - destruct (_ || _); [discriminate|]. injection H as <-. exact Hp.
  - destruct (_ || _); [|injection H as <-; exact Hp].
    apply bind_Ok in H as (st1 & Hstep & H).
    eapply IH; [exact H|]. eapply walkStep_meta; eassumption.
Qed.

Lemma collectMutations_meta meta parent olds news b meta' :
  collectMutations ANDROID recurse meta parent olds news = Ok (b, meta') ->
  P meta -> P meta'.
Proof.
  unfold collectMutations. intros H Hp.
  apply bind_Ok in H as ([[index b1] m1] & Hs1 & H).
  pose proof (stage1_meta _ _ _ _ _ _ _ _ _ Hs1 Hp) as H1.
  destruct (index =? length _)%nat.
  { eapply removeRest_meta; eassumption. }
  destruct (index =? length _)%nat.
  { eapply insertRest_meta; eassumption. }
  unfold walkLists in H.
  apply bind_Ok in H as (remaining & _ & H).
  apply bind_Ok in H as (st & Hwalk & H).
  destruct (TinyMap.begin (newInsertedPairs st)) as [first inserted].
  eapply createInserted_meta; [exact H|].
  apply (walk_meta_kept _ _ _ _ _ _ _ Hwalk). exact H1.
Qed.

Lemma body_meta :
  keepsMeta P (calculateShadowViewMutations_body ANDROID recurse).
Proof.
  intros mutations meta parent olds news mutations' meta' H Hp.
  unfold calculateShadowViewMutations_body in H.
  destruct olds as [|o olds], news as [|n news];
    [injection H as _ <-; exact Hp| | |];
    apply bind_Ok in H as ([b m] & Hc & H); injection H as _ <-;
    eapply collectMutations_meta; eassumption.
Qed.

End MetaKept.

Lemma rec_meta (ANDROID : bool) (P : ReparentingMetadata -> Prop) :
  metaKept P ->
  forall fuel, keepsMeta P (calculateShadowViewMutations_rec ANDROID fuel).
Proof.
  intros Hops. induction fuel as [|fuel IH].
  - intros mutations meta parent olds news mutations' meta' H. discriminate.
  - simpl. apply body_meta; assumption.
Qed.

Lemma flagged_insert t (op : OperationsOnTag) (m : gmap Z OperationsOnTag) :
  (flaggedIn (<[t := op]> m) <= S (flaggedIn m))%nat.
Proof.
  unfold flaggedIn. rewrite map_filter_insert. case_decide.
  - rewrite map_size_insert. destruct (filter _ _ !! _); unfold id; simpl; lia.
  - rewrite map_filter_delete, map_size_delete.
    destruct (filter _ _ !! _); unfold id; simpl; lia.
Qed.

Lemma flagged_insert_same t (op op0 : OperationsOnTag)
    (m : gmap Z OperationsOnTag) :
  m !! t = Some op0 ->
  (shouldEraseOp op <> 0 -> shouldEraseOp op0 <> 0) ->
  (flaggedIn (<[t := op]> m) <= flaggedIn m)%nat.
Proof.
  intros Hlook Himp. unfold flaggedIn. rewrite map_filter_insert. case_decide as Hflag.
  - rewrite map_size_insert_Some; [lia|].
    exists op0. apply map_lookup_filter_Some. split; [exact Hlook|].
    simpl. apply Himp. exact Hflag.
  - rewrite map_filter_delete, map_size_delete.
    destruct (filter _ _ !! _); unfold id; simpl; lia.
Qed.

Lemma flagged_insert_fresh t (op : OperationsOnTag)
    (m : gmap Z OperationsOnTag) :
  m !! t = None -> shouldEraseOp op = 0 ->
  flaggedIn (<[t := op]> m) = flaggedIn m.
Proof.
  intros Hlook Hzero. unfold flaggedIn. f_equal. apply map_filter_insert_not'.
  - simpl. intros Hne. apply Hne. exact Hzero.
  - intros y Hy. pose proof (eq_trans (eq_sym Hlook) Hy). discriminate.
Qed.

Lemma counted_same (m m' : gmap Z OperationsOnTag) (c : Z) :
  (flaggedIn m' <= flaggedIn m)%nat ->
  Z.of_nat (flaggedIn m) <= c -> Z.of_nat (flaggedIn m') <= c.
Proof. lia. Qed.

Lemma counted_bumped (m m' : gmap Z OperationsOnTag) (c : Z) :
  (flaggedIn m' <= S (flaggedIn m))%nat ->
  Z.of_nat (flaggedIn m) <= c -> Z.of_nat (flaggedIn m') <= c + 1.
Proof. lia. Qed.

Lemma counted_kept : metaKept counted.
Proof.
  unfold metaKept, counted, flaggedRecords. repeat split.
  - intros parentTag' node index meta r d u meta' H Hc.
    unfold shouldRemoveDeleteUpdate in H.
    destruct (negb (enabled_ meta)); [injection H as _ _ _ <-; exact Hc|].
    destruct (tagsToOperations_ meta !! getTag node) as [op|] eqn:Hop.
    + destruct (negb (shouldEraseOp op =? 0)) eqn:Hzero; [discriminate|].
      injection H as _ _ _ <-.
      match goal with
      | |- context [if negb (?e =? 0) then _ else _] =>
          destruct (e =? 0) eqn:He; simpl
      end.
      * apply Z.eqb_eq in He.
        eapply counted_same; [|exact Hc].
        eapply flagged_insert_same; [exact Hop|]. simpl.
        intros Hne. contradiction.
      * eapply counted_bumped; [|exact Hc]. apply flagged_insert.
    + injection H as _ _ _ <-. simpl.
      rewrite flagged_insert_fresh; [exact Hc|exact Hop|reflexivity].
  - intros parentTag' node index meta r d u meta' H Hc.
    unfold shouldCreateInsertUpdate in H.
    destruct (negb (enabled_ meta)); [injection H as _ _ _ <-; exact Hc|].
    destruct (tagsToOperations_ meta !! getTag node) as [op|] eqn:Hop.
    + destruct (negb (shouldEraseOp op =? 0)) eqn:Hzero; [discriminate|].
      injection H as _ _ _ <-.
      match goal with
      | |- context [if negb (?e =? 0) then _ else _] =>
          destruct (e =? 0) eqn:He; simpl
      end.
      * apply Z.eqb_eq in He.
        eapply counted_same; [|exact Hc].
        eapply flagged_insert_same; [exact Hop|]. simpl.
        intros Hne. contradiction.
      * eapply counted_bumped; [|exact Hc]. apply flagged_insert.
    + injection H as _ _ _ <-. simpl.
      rewrite flagged_insert_fresh; [exact Hc|exact Hop|reflexivity].
  - intros node meta c u meta' H Hc.
    unfold shouldCreateUpdate in H.
    destruct (negb (enabled_ meta)); [injection H as _ _ <-; exact Hc|].
    destruct (tagsToOperations_ meta !! getTag node) as [op|] eqn:Hop;
      [|discriminate].
    destruct (has_bit (opExists op) Delete).
    + injection H as _ _ <-. simpl.
      eapply counted_bumped; [|exact Hc]. apply flagged_insert.
    + injection H as _ _ <-. simpl.
      eapply counted_same; [|exact Hc].
      eapply flagged_insert_same; [exact Hop|]. simpl. auto.
  - intros parentTag' node index meta Hc. unfold markInserted.
    destruct (negb (enabled_ meta)); [exact Hc|].
    destruct (tagsToOperations_ meta !! getTag node) as [op|] eqn:Hop; simpl.
    + eapply counted_same; [|exact Hc].
      eapply flagged_insert_same; [exact Hop|]. simpl. auto.
    + rewrite flagged_insert_fresh; [exact Hc|exact Hop|reflexivity].
Qed.

Lemma counter_kept (c : Z) :
  metaKept (fun meta => c <= reparentingOperations_ meta).
Proof.
  unfold metaKept. repeat split.
  - intros parentTag' node index meta r d u meta' H Hc.
    unfold shouldRemoveDeleteUpdate in H.
    destruct (negb (enabled_ meta)); [injection H as _ _ _ <-; exact Hc|].
    destruct (tagsToOperations_ meta !! getTag node) as [op|].
    + destruct (negb (shouldEraseOp op =? 0)); [discriminate|].
      injection H as _ _ _ <-. destruct (negb _); simpl; lia.
    + injection H as _ _ _ <-. exact Hc.
  - intros parentTag' node index meta r d u meta' H Hc.
    unfold shouldCreateInsertUpdate in H.
    destruct (negb (enabled_ meta)); [injection H as _ _ _ <-; exact Hc|].
    destruct (tagsToOperations_ meta !! getTag node) as [op|].
    + destruct (negb (shouldEraseOp op =? 0)); [discriminate|].
      injection H as _ _ _ <-. destruct (negb _); simpl; lia.
    + injection H as _ _ _ <-. exact Hc.
  - intros node meta c' u meta' H Hc.
    unfold shouldCreateUpdate in H.
    destruct (negb (enabled_ meta)); [injection H as _ _ <-; exact Hc|].
    destruct (tagsToOperations_ meta !! getTag node) as [op|]; [|discriminate].
    destruct (has_bit _ _); injection H as _ _ <-; simpl; lia.
  - intros parentTag' node index meta Hc. unfold markInserted.
    destruct (negb (enabled_ meta)); [exact Hc|].
    destruct (tagsToOperations_ meta !! getTag node); exact Hc.
Qed.

Lemma record_insert t t' (op : OperationsOnTag)
    (m : gmap Z OperationsOnTag) :
  is_Some (m !! t) -> is_Some (<[t' := op]> m !! t).
Proof.
  intros H. destruct (decide (t' = t)) as [->|Hne].
  - rewrite lookup_insert_eq. eauto.
  - rewrite lookup_insert_ne by exact Hne. exact H.
Qed.

Lemma record_kept (t : Tag) :
  metaKept (fun meta => is_Some (tagsToOperations_ meta !! t)).
Proof.
  unfold metaKept. repeat split.
  - intros parentTag' node index meta r d u meta' H Hc.
    unfold shouldRemoveDeleteUpdate in H.
    destruct (negb (enabled_ meta)); [injection H as _ _ _ <-; exact Hc|].
    destruct (tagsToOperations_ meta !! getTag node) as [op|].
    + destruct (negb (shouldEraseOp op =? 0)); [discriminate|].
      injection H as _ _ _ <-.
      destruct (negb _); simpl; apply record_insert, Hc.
    + injection H as _ _ _ <-. simpl. apply record_insert, Hc.
  - intros parentTag' node index meta r d u meta' H Hc.
    unfold shouldCreateInsertUpdate in H.
    destruct (negb (enabled_ meta)); [injection H as _ _ _ <-; exact Hc|].
    destruct (tagsToOperations_ meta !! getTag node) as [op|].
    + destruct (negb (shouldEraseOp op =? 0)); [discriminate|].
      injection H as _ _ _ <-.
      destruct (negb _); simpl; apply record_insert, Hc.
    + injection H as _ _ _ <-. simpl. apply record_insert, Hc.
  - intros node meta c' u meta' H Hc.
    unfold shouldCreateUpdate in H.
    destruct (negb (enabled_ meta)); [injection H as _ _ <-; exact Hc|].
    destruct (tagsToOperations_ meta !! getTag node) as [op|]; [|discriminate].
    destruct (has_bit _ _); injection H as _ _ <-; simpl;
      apply record_insert, Hc.
  - intros parentTag' node index meta Hc. unfold markInserted.
    destruct (negb (enabled_ meta)); [exact Hc|].
    destruct (tagsToOperations_ meta !! getTag node); simpl;
      apply record_insert, Hc.
Qed.

Lemma enabled_kept (e : bool) : metaKept (fun meta => enabled_ meta = e).
Proof.
  unfold metaKept. repeat split.
  - intros parentTag' node index meta r d u meta' H Hc.
    unfold shouldRemoveDeleteUpdate in H.
    destruct (negb (enabled_ meta)); [injection H as _ _ _ <-; exact Hc|].
    destruct (tagsToOperations_ meta !! getTag node) as [op|].
    + destruct (negb (shouldEraseOp op =? 0)); [discriminate|].
      injection H as _ _ _ <-. destruct (negb _); exact Hc.
    + injection H as _ _ _ <-. exact Hc.
  - intros parentTag' node index meta r d u meta' H Hc.
    unfold shouldCreateInsertUpdate in H.
    destruct (negb (enabled_ meta)); [injection H as _ _ _ <-; exact Hc|].
    destruct (tagsToOperations_ meta !! getTag node) as [op|].
    + destruct (negb (shouldEraseOp op =? 0)); [discriminate|].
      injection H as _ _ _ <-. destruct (negb _); exact Hc.
    + injection H as _ _ _ <-. exact Hc.
  - intros node meta c' u meta' H Hc.
    unfold shouldCreateUpdate in H.
    destruct (negb (enabled_ meta)); [injection H as _ _ <-; exact Hc|].
    destruct (tagsToOperations_ meta !! getTag node) as [op|]; [|discriminate].
    destruct (has_bit _ _); injection H as _ _ <-; exact Hc.
  - intros parentTag' node index meta Hc. unfold markInserted.
    destruct (negb (enabled_ meta)); [exact Hc|].
    destruct (tagsToOperations_ meta !! getTag node); exact Hc.
Qed.

(** X27: an activation of the recursive differ, with or without detection,
    keeps the setting of the metadata, never lowers the count of reparenting
    operations and never drops a record; and when the count covers the
    records that flag a mutation for erasure before the activation, it covers
    them after it. *)
Theorem differ_keeps_the_books (ANDROID : bool) (fuel : nat)
    (mutations : list ShadowViewMutation) (meta : ReparentingMetadata)
    (parent : ShadowView) (olds news : list ShadowViewNodePair)
    (mutations' : list ShadowViewMutation) (meta' : ReparentingMetadata) :
  calculateShadowViewMutations_rec ANDROID fuel mutations meta parent olds
    news = Ok (mutations', meta') ->
  enabled_ meta' = enabled_ meta
  /\ reparentingOperations_ meta <= reparentingOperations_ meta'
  /\ (forall t,
        is_Some (tagsToOperations_ meta !! t) ->
        is_Some (tagsToOperations_ meta' !! t))
  /\ (counted meta -> counted meta').
Proof.
  intros H. split; [|split; [|split]].
  - apply (rec_meta ANDROID _ (enabled_kept (enabled_ meta)) fuel
             _ _ _ _ _ _ _ H).
    reflexivity.
  - apply (rec_meta ANDROID _ (counter_kept (reparentingOperations_ meta))
             fuel _ _ _ _ _ _ _ H).
    lia.
  - intros t.
    apply (rec_meta ANDROID _ (record_kept t) fuel _ _ _ _ _ _ _ H).
  - apply (rec_meta ANDROID _ counted_kept fuel _ _ _ _ _ _ _ H).
Qed.

(** ** The pruning pass: flagged mutations are dropped *)

Lemma removeObviated_app (l1 l2 : list ShadowViewMutation) :
  forall meta,
    removeObviated (l1 ++ l2) meta
    = (fst (removeObviated l1 meta)
       ++ fst (removeObviated l2 (snd (removeObviated l1 meta))),
       snd (removeObviated l2 (snd (removeObviated l1 meta)))).
Proof.
  induction l1 as [|m l1 IH]; intros meta; simpl.
  { destruct (removeObviated l2 meta); reflexivity. }
  destruct (reparentingOperations_ meta =? 0).
  { rewrite IH. destruct (removeObviated l1 meta) as [k1 m1]. simpl.
    reflexivity. }
  destruct (tagsToOperations_ meta !! mutationTag m) as [op|].
  2: { rewrite IH. destruct (removeObviated l1 meta) as [k1 m1]. simpl.
       reflexivity. }
  rewrite IH.
  match goal with
  | |- context [removeObviated l1 ?meta1] =>
      destruct (removeObviated l1 meta1) as [k1 m1]
  end.
  simpl. destruct (has_bit _ _); reflexivity.
Qed.

Lemma has_bit_nonzero (bits : Z) (ty : MutationType) :
  has_bit bits ty = true -> bits <> 0.
Proof.
  unfold has_bit. intros H ->. rewrite Z.land_0_l in H. discriminate.
Qed.

Lemma has_bit_cleared (bits : Z) (ty ty' : MutationType) :
  ty' <> ty ->
  has_bit (Z.land bits (Z.lnot (Type_bit ty'))) ty = has_bit bits ty.
Proof.
  intros Hne. unfold has_bit. rewrite <- Z.land_assoc.
  destruct ty, ty'; try contradiction; reflexivity.
Qed.

Lemma removeObviated_inv (mutations : list ShadowViewMutation) :
  forall meta,
    pruning_inv meta -> pruning_inv (snd (removeObviated mutations meta)).
Proof.
  induction mutations as [|m rest IH]; intros meta Hinv; simpl; [exact Hinv|].
  destruct (reparentingOperations_ meta =? 0).
  { specialize (IH meta Hinv).
    destruct (removeObviated rest meta) as [kept meta']. exact IH. }
  destruct (tagsToOperations_ meta !! mutationTag m) as [op|] eqn:Hop.
  2: { specialize (IH meta Hinv).
       destruct (removeObviated rest meta) as [kept meta']. exact IH. }
  match goal with
  | |- context [removeObviated rest ?meta1] =>
      assert (Hinv1 : pruning_inv meta1);
      [|specialize (IH meta1 Hinv1);
        destruct (removeObviated rest meta1) as [kept meta'];
        destruct (has_bit _ _); exact IH]
  end.
  destruct Hinv as [Hflagged Hsize].
  destruct (_ =? 0) eqn:Hzero; split; simpl.
  - intros t op' Hlook. apply lookup_delete_Some in Hlook as [_ Hlook].
    eapply Hflagged. exact Hlook.
  - rewrite map_size_delete_Some by eauto.
    assert (base.size (tagsToOperations_ meta) <> 0%nat).
    { apply map_size_ne_0_lookup. eauto. }
    lia.
  - intros t op' Hlook. apply lookup_insert_Some in Hlook as [[_ <-]|[_ Hlook]].
    + simpl. apply Z.eqb_neq. exact Hzero.
    + eapply Hflagged. exact Hlook.
  - rewrite map_size_insert_Some by eauto. exact Hsize.
Qed.

Lemma removeObviated_bit (m : ShadowViewMutation)
    (before : list ShadowViewMutation) :
  forall meta op,
    firstOf m before ->
    tagsToOperations_ meta !! mutationTag m = Some op ->
    has_bit (shouldEraseOp op) (type m) = true ->
    exists op',
      tagsToOperations_ (snd (removeObviated before meta)) !! mutationTag m
      = Some op'
      /\ has_bit (shouldEraseOp op') (type m) = true.
Proof.
  induction before as [|m' rest IH]; intros meta op Hfirst Hop Hbit; simpl.
  { eauto. }
  apply Forall_cons in Hfirst as [Hm' Hfirst].
  destruct (reparentingOperations_ meta =? 0).
  { destruct (IH meta op Hfirst Hop Hbit) as (op' & H & Hbit').
    destruct (removeObviated rest meta) as [kept meta']. simpl in *.
    exists op'. split; assumption. }
  destruct (tagsToOperations_ meta !! mutationTag m') as [op1|] eqn:Hop1.
  2: { destruct (IH meta op Hfirst Hop Hbit) as (op' & H & Hbit').
       destruct (removeObviated rest meta) as [kept meta']. simpl in *.
       exists op'. split; assumption. }
  match goal with
  | |- context [removeObviated rest ?meta1] =>
      assert (Hnext : exists op2,
                tagsToOperations_ meta1 !! mutationTag m = Some op2
                /\ has_bit (shouldEraseOp op2) (type m) = true);
      [|destruct Hnext as (op2 & Hop2 & Hbit2);
        destruct (IH meta1 op2 Hfirst Hop2 Hbit2) as (op' & H & Hbit');
        destruct (removeObviated rest meta1) as [kept meta'];
        destruct (has_bit (shouldEraseOp op1) (type m')); simpl in *;
        exists op'; split; assumption]
  end.
  destruct (decide (mutationTag m' = mutationTag m)) as [Heq|Hne].
  - rewrite Heq in Hop1.
    assert (op1 = op) as -> by congruence.
    pose proof (has_bit_cleared (shouldEraseOp op) (type m) (type m')
                  (Hm' Heq)) as Hkeep.
    rewrite Hbit in Hkeep.
    pose proof (has_bit_nonzero _ _ Hkeep) as Hnz. simpl.
    apply Z.eqb_neq in Hnz. rewrite Hnz. simpl.
    rewrite Heq, lookup_insert_eq. eexists. split; [reflexivity|].
    simpl. exact Hkeep.
  - exists op. split; [|exact Hbit].
    destruct (_ =? 0); simpl.
    + rewrite lookup_delete_ne by exact Hne. exact Hop.
    + rewrite lookup_insert_ne by exact Hne. exact Hop.
Qed.

Lemma removeUselessRecords_inv (meta : ReparentingMetadata) :
  enabled_ meta = true -> counted meta ->
  pruning_inv (removeUselessRecords meta).
Proof.
  intros Hen Hc. unfold removeUselessRecords. rewrite Hen. simpl.
  split; simpl; [|exact Hc].
  intros t op Hlook. apply map_lookup_filter_Some in Hlook as [_ H].
  exact H.
Qed.

(** X28: when the count of reparenting operations covers the flagged records
    (as the differ leaves it), the pruning pass that follows
    [removeUselessRecords] drops the first mutation of a tag and type that the
    record of the tag flags: it returns what it keeps of the mutations in
    front of it followed by what it keeps of the mutations behind it. *)
Theorem pruning_drops_flagged (before after : list ShadowViewMutation)
    (m : ShadowViewMutation) (meta : ReparentingMetadata)
    (op : OperationsOnTag) :
  enabled_ meta = true ->
  counted meta ->
  firstOf m before ->
  tagsToOperations_ meta !! mutationTag m = Some op ->
  has_bit (shouldEraseOp op) (type m) = true ->
  exists meta',
    fst (removeObviated (before ++ m :: after) (removeUselessRecords meta))
    = fst (removeObviated before (removeUselessRecords meta))
      ++ fst (removeObviated after meta').
Proof.
  intros Hen Hc Hfirst Hop Hbit.
  pose proof (removeUselessRecords_inv meta Hen Hc) as Hinv.
  assert (Hkept : tagsToOperations_ (removeUselessRecords meta)
                    !! mutationTag m = Some op).
  { unfold removeUselessRecords. rewrite Hen. simpl.
    apply map_lookup_filter_Some. split; [exact Hop|].
    simpl. eapply has_bit_nonzero. exact Hbit. }
  destruct (removeObviated_bit m before _ op Hfirst Hkept Hbit)
    as (op' & Hop' & Hbit').
  pose proof (removeObviated_inv before _ Hinv) as [_ Hsize].
  rewrite removeObviated_app. simpl.
  set (meta1 := snd (removeObviated before (removeUselessRecords meta))) in *.
  assert (Hpos : (reparentingOperations_ meta1 =? 0) = false).
  { apply Z.eqb_neq.
    assert (base.size (tagsToOperations_ meta1) <> 0%nat).
    { apply map_size_ne_0_lookup. eauto. }
    lia. }
  rewrite Hpos, Hop', Hbit'.
  match goal with
  | |- context [removeObviated after ?meta2] =>
      exists meta2; destruct (removeObviated after meta2) as [kept meta']
  end.
  reflexivity.
Qed.

Lemma same_tags_only_update_witness :
  createMutations restyleBuckets = []
  /\ deleteMutations restyleBuckets = []
  /\ insertMutations restyleBuckets = []
  /\ removeMutations restyleBuckets = []
  /\ updateMutations restyleBuckets
     = alignedUpdates (ShadowView_of replaceOld)
         (reorderInPlaceIfNeeded
            (sliceChildShadowNodeViewPairs false replaceOld))
         (reorderInPlaceIfNeeded
            (sliceChildShadowNodeViewPairs false restyleNew)) 0.
Proof.
  apply (same_tags_only_update false 1 (ReparentingMetadata_init false)
           (ShadowView_of replaceOld)
           (sliceChildShadowNodeViewPairs false replaceOld)
           (sliceChildShadowNodeViewPairs false restyleNew)
           restyleBuckets (ReparentingMetadata_init false));
    vm_compute; reflexivity.
Defined.

Lemma Remove_and_Insert_carry_slots_witness :
  Forall
    (removesSlot (ShadowView_of replaceOld)
       (reorderInPlaceIfNeeded
          (sliceChildShadowNodeViewPairs false replaceOld)))
    (removeMutations replaceBuckets)
  /\ Forall
       (insertsSlot (ShadowView_of replaceOld)
          (reorderInPlaceIfNeeded
             (sliceChildShadowNodeViewPairs false replaceNew)))
       (insertMutations replaceBuckets).
Proof.
  apply (Remove_and_Insert_carry_slots false 1
           (ReparentingMetadata_init false) (ShadowView_of replaceOld)
           (sliceChildShadowNodeViewPairs false replaceOld)
           (sliceChildShadowNodeViewPairs false replaceNew)
           replaceBuckets (ReparentingMetadata_init false)).
  vm_compute. reflexivity.
Defined.

Lemma differ_only_appends_witness :
  exists appended,
    [DeleteMutation (ShadowView_of (viewNode 9 0 []));
     CreateMutation (ShadowView_of (viewNode 3 0 []));
     InsertMutation (ShadowView_of appendOld)
       (ShadowView_of (viewNode 3 0 [])) 1]
    = [DeleteMutation (ShadowView_of (viewNode 9 0 []))] ++ appended
    /\ calculateShadowViewMutations_rec false 2 []
         (ReparentingMetadata_init false) (ShadowView_of appendOld)
         (sliceChildShadowNodeViewPairs false appendOld)
         (sliceChildShadowNodeViewPairs false appendNew)
       = Ok (appended, ReparentingMetadata_init false)
    /\ (enabled_ (ReparentingMetadata_init false) = false ->
        ReparentingMetadata_init false = ReparentingMetadata_init false).
Proof.
  apply (differ_only_appends false 2
           [DeleteMutation (ShadowView_of (viewNode 9 0 []))]
           (ReparentingMetadata_init false) (ShadowView_of appendOld)
           (sliceChildShadowNodeViewPairs false appendOld)
           (sliceChildShadowNodeViewPairs false appendNew)).
  vm_compute. reflexivity.
Defined.

Lemma shrunk_list_removes_tail_witness :
  ReparentingMetadata_init false = ReparentingMetadata_init false
  /\ createMutations shrinkBuckets = []
  /\ insertMutations shrinkBuckets = []
  /\ updateMutations shrinkBuckets
     = alignedUpdates (ShadowView_of shrinkOld)
         (reorderInPlaceIfNeeded
            (sliceChildShadowNodeViewPairs false shrinkOld))
         (reorderInPlaceIfNeeded
            (sliceChildShadowNodeViewPairs false shrinkNew)) 0
  /\ deleteMutations shrinkBuckets
     = map (fun pr => DeleteMutation (shadowView pr))
         (drop
            (length
               (reorderInPlaceIfNeeded
                  (sliceChildShadowNodeViewPairs false shrinkNew)))
            (reorderInPlaceIfNeeded
               (sliceChildShadowNodeViewPairs false shrinkOld)))
  /\ removeMutations shrinkBuckets
     = imap
         (fun j pr =>
            RemoveMutation (ShadowView_of shrinkOld) (shadowView pr)
              (Z.of_nat
                 (length
                    (reorderInPlaceIfNeeded
                       (sliceChildShadowNodeViewPairs false shrinkNew))
                  + j)))
         (drop
            (length
               (reorderInPlaceIfNeeded
                  (sliceChildShadowNodeViewPairs false shrinkNew)))
            (reorderInPlaceIfNeeded
               (sliceChildShadowNodeViewPairs false shrinkOld))).
Proof.
  apply (shrunk_list_removes_tail false 1 (ReparentingMetadata_init false)
           (ShadowView_of shrinkOld)
           (sliceChildShadowNodeViewPairs false shrinkOld)
           (sliceChildShadowNodeViewPairs false shrinkNew)
           shrinkBuckets (ReparentingMetadata_init false));
    vm_compute; reflexivity.
Defined.

Lemma grown_list_inserts_tail_witness :
  ReparentingMetadata_init false = ReparentingMetadata_init false
  /\ deleteMutations appendBuckets = []
  /\ removeMutations appendBuckets = []
  /\ updateMutations appendBuckets
     = alignedUpdates (ShadowView_of appendOld)
         (reorderInPlaceIfNeeded
            (sliceChildShadowNodeViewPairs false appendOld))
         (reorderInPlaceIfNeeded
            (sliceChildShadowNodeViewPairs false appendNew)) 0
  /\ createMutations appendBuckets
     = map (fun pr => CreateMutation (shadowView pr))
         (drop
            (length
               (reorderInPlaceIfNeeded
                  (sliceChildShadowNodeViewPairs false appendOld)))
            (reorderInPlaceIfNeeded
               (sliceChildShadowNodeViewPairs false appendNew)))
  /\ insertMutations appendBuckets
     = imap
         (fun j pr =>
            InsertMutation (ShadowView_of appendOld) (shadowView pr)
              (Z.of_nat
                 (length
                    (reorderInPlaceIfNeeded
                       (sliceChildShadowNodeViewPairs false appendOld))
                  + j)))
         (drop
            (length
               (reorderInPlaceIfNeeded
                  (sliceChildShadowNodeViewPairs false appendOld)))
            (reorderInPlaceIfNeeded
               (sliceChildShadowNodeViewPairs false appendNew))).
Proof.
  apply (grown_list_inserts_tail false 1 (ReparentingMetadata_init false)
           (ShadowView_of appendOld)
           (sliceChildShadowNodeViewPairs false appendOld)
           (sliceChildShadowNodeViewPairs false appendNew)
           appendBuckets (ReparentingMetadata_init false));
    vm_compute; reflexivity.
Defined.

Lemma differ_succeeds_without_detection_witness :
  exists mutations,
    calculateShadowViewMutations false shuffleOld shuffleNew false
    = Ok mutations.
Proof.
  apply (differ_succeeds_without_detection false shuffleOld shuffleNew).
  - reflexivity.
  - split; [refine (bool_decide_unpack _ _); vm_compute; exact I|].
    repeat constructor; discriminate.
  - split; [refine (bool_decide_unpack _ _); vm_compute; exact I|].
    repeat constructor; discriminate.
Defined.

Lemma removed_then_inserted_is_reparented_witness :
  exists meta1 meta2,
    shouldRemoveDeleteUpdate 2 (viewNode 9 7 []) 0
      (ReparentingMetadata_init true)
    = Ok (true, true, None, meta1)
    /\ shouldCreateInsertUpdate 3 (viewNode 9 8 []) 0 meta1
       = Ok (negb ((0 =? 0) && (2 =? 3)), false, Some (viewNode 9 7 []),
             meta2)
    /\ reparentingOperations_ meta2
       = reparentingOperations_ (ReparentingMetadata_init true) + 1
    /\ (forall parent node index',
          getTag node = getTag (viewNode 9 7 []) ->
          shouldRemoveDeleteUpdate parent node index' meta2
          = Err AssertionFailed
          /\ shouldCreateInsertUpdate parent node index' meta2
             = Err AssertionFailed).
Proof.
  apply (removed_then_inserted_is_reparented (ReparentingMetadata_init true)
           2 3 (viewNode 9 7 []) (viewNode 9 8 []) 0 0);
    reflexivity.
Defined.

Lemma inserted_then_removed_is_reparented_witness :
  exists meta1 meta2,
    shouldCreateInsertUpdate 3 (viewNode 9 8 []) 0
      (ReparentingMetadata_init true)
    = Ok (true, true, None, meta1)
    /\ shouldRemoveDeleteUpdate 2 (viewNode 9 7 []) 0 meta1
       = Ok (negb ((0 =? 0) && (-1 =? 2)), false, Some (viewNode 9 8 []),
             meta2)
    /\ reparentingOperations_ meta2
       = reparentingOperations_ (ReparentingMetadata_init true) + 1
    /\ (forall parent node index',
          getTag node = getTag (viewNode 9 8 []) ->
          shouldRemoveDeleteUpdate parent node index' meta2
          = Err AssertionFailed
          /\ shouldCreateInsertUpdate parent node index' meta2
             = Err AssertionFailed).
Proof.
  apply (inserted_then_removed_is_reparented (ReparentingMetadata_init true)
           2 3 (viewNode 9 7 []) (viewNode 9 8 []) 0 0);
    reflexivity.
Defined.

Lemma kept_children_align_witness :
  StronglySorted lt (map slot (removeMutations replaceBuckets))
  /\ StronglySorted lt (map slot (insertMutations replaceBuckets))
  /\ map pairTag
       (withoutSlots (map slot (removeMutations replaceBuckets)) 0
          (reorderInPlaceIfNeeded
             (sliceChildShadowNodeViewPairs false replaceOld)))
     = map pairTag
         (withoutSlots (map slot (insertMutations replaceBuckets)) 0
            (reorderInPlaceIfNeeded
               (sliceChildShadowNodeViewPairs false replaceNew))).
Proof.
  apply (kept_children_align false 1 (ReparentingMetadata_init false)
           (ShadowView_of replaceOld)
           (sliceChildShadowNodeViewPairs false replaceOld)
           (sliceChildShadowNodeViewPairs false replaceNew)
           replaceBuckets (ReparentingMetadata_init false));
    vm_compute; reflexivity.
Defined.

Lemma Delete_goes_with_Remove_and_Create_with_Insert_witness :
  Forall
    (deletesRemoved (ShadowView_of replaceOld)
       (removeMutations replaceBuckets))
    (deleteMutations replaceBuckets)
  /\ Forall
       (createsInserted (ShadowView_of replaceOld)
          (insertMutations replaceBuckets))
       (createMutations replaceBuckets).
Proof.
  apply (Delete_goes_with_Remove_and_Create_with_Insert false 1
           (ReparentingMetadata_init false) (ShadowView_of replaceOld)
           (sliceChildShadowNodeViewPairs false replaceOld)
           (sliceChildShadowNodeViewPairs false replaceNew)
           replaceBuckets (ReparentingMetadata_init false)).
  vm_compute. reflexivity.
Defined.

Lemma deletes_the_gone_creates_the_new_witness :
  deleteMutations replaceBuckets
  = map (fun pr => DeleteMutation (shadowView pr))
      (List.filter
         (goneFrom
            (reorderInPlaceIfNeeded
               (sliceChildShadowNodeViewPairs false replaceNew)))
         (reorderInPlaceIfNeeded
            (sliceChildShadowNodeViewPairs false replaceOld)))
  /\ createMutations replaceBuckets
     = map (fun pr => CreateMutation (shadowView pr))
         (List.filter
            (goneFrom
               (reorderInPlaceIfNeeded
                  (sliceChildShadowNodeViewPairs false replaceOld)))
            (reorderInPlaceIfNeeded
               (sliceChildShadowNodeViewPairs false replaceNew))).
Proof.
  apply (deletes_the_gone_creates_the_new false 1
           (ReparentingMetadata_init false) (ShadowView_of replaceOld)
           (sliceChildShadowNodeViewPairs false replaceOld)
           (sliceChildShadowNodeViewPairs false replaceNew)
           replaceBuckets (ReparentingMetadata_init false)).
  - reflexivity.
  - refine (bool_decide_unpack _ _). vm_compute. exact I.
  - refine (bool_decide_unpack _ _). vm_compute. exact I.
  - vm_compute. reflexivity.
Defined.

Lemma updates_the_changed_witness :
  updateMutations replaceBuckets
  = alignedUpdates (ShadowView_of replaceOld)
      (take
         (matchedPrefix
            (reorderInPlaceIfNeeded
               (sliceChildShadowNodeViewPairs false replaceOld))
            (reorderInPlaceIfNeeded
               (sliceChildShadowNodeViewPairs false replaceNew)))
         (reorderInPlaceIfNeeded
            (sliceChildShadowNodeViewPairs false replaceOld)))
      (take
         (matchedPrefix
            (reorderInPlaceIfNeeded
               (sliceChildShadowNodeViewPairs false replaceOld))
            (reorderInPlaceIfNeeded
               (sliceChildShadowNodeViewPairs false replaceNew)))
         (reorderInPlaceIfNeeded
            (sliceChildShadowNodeViewPairs false replaceNew))) 0
    ++ flat_map
         (updateFor (ShadowView_of replaceOld)
            (reorderInPlaceIfNeeded
               (sliceChildShadowNodeViewPairs false replaceNew))
            (Z.of_nat
               (length
                  (reorderInPlaceIfNeeded
                     (sliceChildShadowNodeViewPairs false replaceNew)))))
         (drop
            (matchedPrefix
               (reorderInPlaceIfNeeded
                  (sliceChildShadowNodeViewPairs false replaceOld))
               (reorderInPlaceIfNeeded
                  (sliceChildShadowNodeViewPairs false replaceNew)))
            (reorderInPlaceIfNeeded
               (sliceChildShadowNodeViewPairs false replaceOld))).
Proof.
  apply (updates_the_changed false 1 (ReparentingMetadata_init false)
           (ShadowView_of replaceOld)
           (sliceChildShadowNodeViewPairs false replaceOld)
           (sliceChildShadowNodeViewPairs false replaceNew)
           replaceBuckets (ReparentingMetadata_init false)).
  - reflexivity.
  - refine (bool_decide_unpack _ _). vm_compute. exact I.
  - refine (bool_decide_unpack _ _). vm_compute. exact I.
  - vm_compute. reflexivity.
Defined.

Lemma Remove_precedes_Delete_and_Create_precedes_Insert_witness :
  (forall v,
     DeleteMutation (ShadowView_of (viewNode 2 0 [])) = DeleteMutation v ->
     exists p i,
       In (RemoveMutation p v i)
         [UpdateMutation (ShadowView_of replaceOld)
            (ShadowView_of (viewNode 3 5 []))
            (ShadowView_of (viewNode 3 6 [])) 2;
          RemoveMutation (ShadowView_of replaceOld)
            (ShadowView_of (viewNode 2 0 [])) 0])
  /\ (forall v,
        DeleteMutation (ShadowView_of (viewNode 2 0 [])) = CreateMutation v ->
        exists p i,
          In (InsertMutation p v i)
            [CreateMutation (ShadowView_of (viewNode 4 0 []));
             InsertMutation (ShadowView_of replaceOld)
               (ShadowView_of (viewNode 4 0 [])) 0]).
Proof.
  apply (Remove_precedes_Delete_and_Create_precedes_Insert false replaceOld
           replaceNew replaceMutations).
  - vm_compute. reflexivity.
  - reflexivity.
Defined.

Lemma slice_views_carry_offsets_witness :
  exists offset,
    flattenedAt false wrapperTree (mkPoint 0 0)
      (mkShadowNode 6 6 "View" 0 0 0
         (mkLayoutMetrics (mkRect (mkPoint 1 2) (mkSize 3 3)) 0)
         (mkTraits true true false) 0 [])
      offset
    /\ mkShadowView 6 "View" 0 0
         (mkLayoutMetrics (mkRect (mkPoint 11 22) (mkSize 3 3)) 0) 0
       = viewAt offset
           (mkShadowNode 6 6 "View" 0 0 0
              (mkLayoutMetrics (mkRect (mkPoint 1 2) (mkSize 3 3)) 0)
              (mkTraits true true false) 0 []).
Proof.
  apply (slice_views_carry_offsets false wrapperTree
           (mkPair
              (mkShadowView 6 "View" 0 0
                 (mkLayoutMetrics (mkRect (mkPoint 11 22) (mkSize 3 3)) 0) 0)
              (mkShadowNode 6 6 "View" 0 0 0
                 (mkLayoutMetrics (mkRect (mkPoint 1 2) (mkSize 3 3)) 0)
                 (mkTraits true true false) 0 []))).
  vm_compute. right; left. reflexivity.
Defined.

Lemma differ_keeps_the_books_witness :
  enabled_ moveMetadata = enabled_ (ReparentingMetadata_init true)
  /\ reparentingOperations_ (ReparentingMetadata_init true)
     <= reparentingOperations_ moveMetadata
  /\ (forall t,
        is_Some (tagsToOperations_ (ReparentingMetadata_init true) !! t) ->
        is_Some (tagsToOperations_ moveMetadata !! t))
  /\ (counted (ReparentingMetadata_init true) -> counted moveMetadata).
Proof.
  apply (differ_keeps_the_books false 3 [] (ReparentingMetadata_init true)
           (ShadowView_of moveOld)
           (sliceChildShadowNodeViewPairs false moveOld)
           (sliceChildShadowNodeViewPairs false moveNew)
           moveUnpruned moveMetadata).
  vm_compute. reflexivity.
Defined.

Lemma pruning_drops_flagged_witness :
  exists meta',
    fst (removeObviated
           ([RemoveMutation (ShadowView_of (viewNode 2 0 [viewNode 9 7 []]))
               (ShadowView_of (viewNode 9 7 [])) 0]
            ++ DeleteMutation (ShadowView_of (viewNode 9 7 []))
               :: [UpdateMutation (ShadowView_of (viewNode 3 0 []))
                     (ShadowView_of (viewNode 9 7 []))
                     (ShadowView_of (viewNode 9 8 [])) (-1);
                   InsertMutation (ShadowView_of (viewNode 3 0 []))
                     (ShadowView_of (viewNode 9 8 [])) 0])
           (removeUselessRecords moveMetadata))
    = fst (removeObviated
             [RemoveMutation (ShadowView_of (viewNode 2 0 [viewNode 9 7 []]))
                (ShadowView_of (viewNode 9 7 [])) 0]
             (removeUselessRecords moveMetadata))
      ++ fst (removeObviated
                [UpdateMutation (ShadowView_of (viewNode 3 0 []))
                   (ShadowView_of (viewNode 9 7 []))
                   (ShadowView_of (viewNode 9 8 [])) (-1);
                 InsertMutation (ShadowView_of (viewNode 3 0 []))
                   (ShadowView_of (viewNode 9 8 [])) 0]
                meta').
Proof.
  apply (pruning_drops_flagged
           [RemoveMutation (ShadowView_of (viewNode 2 0 [viewNode 9 7 []]))
              (ShadowView_of (viewNode 9 7 [])) 0]
           [UpdateMutation (ShadowView_of (viewNode 3 0 []))
              (ShadowView_of (viewNode 9 7 []))
              (ShadowView_of (viewNode 9 8 [])) (-1);
            InsertMutation (ShadowView_of (viewNode 3 0 []))
              (ShadowView_of (viewNode 9 8 [])) 0]
           (DeleteMutation (ShadowView_of (viewNode 9 7 [])))
           moveMetadata
           {| shouldEraseOp := Type_bit Delete;
              opExists := Z.lor (Type_bit Remove) (Type_bit Delete);
              removeInsertIndex := 0;
              parentTag := 2;
              oldNode := Some (viewNode 9 7 []);
              newNode := None |}).
  - reflexivity.
  - vm_compute. discriminate.
  - repeat constructor. intros _. discriminate.
  - vm_compute. reflexivity.
  - reflexivity.
Defined.
